(** * datesy.matching: a shallow embedding of the label-matching engine

    The development follows [src/datesy/matching.py].  Python values are
    modelled as they are used there:

    - labels are [string]s of ASCII characters ([isascii]), on which
      [str.lower] is the ASCII case fold;
    - [dict]s are insertion-ordered association lists ([Dict]);
    - [set]s are duplicate-free lists, of which only membership is used;
    - a similarity score or a threshold (a Python float) is the rational
      [Q] that the float holds; floats are compared as they are, and the
      one operation the code applies to them, the subtraction of its gap
      tests, is the parameter [py_sub], the difference rounded to a float;
    - exceptions are the [Raise] results of the [res] monad;
    - [input()] reads from an explicit list of answers. *)

From Stdlib Require Import String Ascii List Bool Arith ZArith QArith Lia.
From Stdlib Require Import Permutation.
Import ListNotations.

Open Scope string_scope.
Open Scope list_scope.
Open Scope nat_scope.

Set Implicit Arguments.

(** ** Exceptions and results *)

Inductive exn : Type :=
| ValueError (named : list string)   (* the labels printed in the message *)
| IndexError
| KeyError
| TypeError
| EOFError
| OutOfFuel.                          (* never raised by the code: see [call_in_time] *)

Inductive res (A : Type) : Type :=
| Ok (a : A)
| Raise (e : exn).

Arguments Ok {A} a.
Arguments Raise {A} e.

Definition bind {A B : Type} (c : res A) (k : A -> res B) : res B :=
  match c with
  | Ok a => k a
  | Raise e => Raise e
  end.

Notation "x <- c ;; k" := (bind c (fun x => k))
  (at level 61, c at next level, right associativity).
Notation "' pat <- c ;; k" := (bind c (fun x => match x with pat => k end))
  (at level 61, pat pattern, c at next level, right associativity).

Definition of_option {A : Type} (e : exn) (o : option A) : res A :=
  match o with
  | Some a => Ok a
  | None => Raise e
  end.

(** ** Python lists of labels *)

Module PyList.

Definition mem (x : string) (l : list string) : bool :=
  existsb (String.eqb x) l.

(** [l.remove(x)]: drop the first occurrence, [ValueError] when absent. *)
Fixpoint remove (x : string) (l : list string) : res (list string) :=
  match l with
  | [] => Raise (ValueError [])
  | y :: l' =>
      if String.eqb x y then Ok l'
      else l'' <- remove x l' ;; Ok (y :: l'')
  end.

(** [set(l)] as a duplicate-free list (first occurrences kept). *)
Fixpoint to_set (l : list string) : list string :=
  match l with
  | [] => []
  | x :: l' => x :: filter (fun y => negb (String.eqb x y)) (to_set l')
  end.

Definition set_add (x : string) (s : list string) : list string :=
  if mem x s then s else s ++ [x].

(** [l[z]] with Python's negative indices. *)
Definition index {A : Type} (l : list A) (z : Z) : res A :=
  if (0 <=? z)%Z then of_option IndexError (nth_error l (Z.to_nat z))
  else if (0 <=? Z.of_nat (length l) + z)%Z
       then of_option IndexError (nth_error l (Z.to_nat (Z.of_nat (length l) + z)))
       else Raise IndexError.

(** [len(set(l)) != len(l)] *)
Definition has_duplicates (l : list string) : bool :=
  negb (Nat.eqb (length (to_set l)) (length l)).

End PyList.

(** ** Insertion-ordered dictionaries *)

Module Dict.
Section WithKey.
Variables (K V : Type) (eqb : K -> K -> bool).

Definition t := list (K * V).

Fixpoint get (k : K) (d : t) : option V :=
  match d with
  | [] => None
  | (k', v) :: d' => if eqb k k' then Some v else get k d'
  end.

(** [d[k] = v]: an existing key keeps its position. *)
Fixpoint set (k : K) (v : V) (d : t) : t :=
  match d with
  | [] => [(k, v)]
  | (k', v') :: d' =>
      if eqb k k' then (k', v) :: d' else (k', v') :: set k v d'
  end.

Definition has (k : K) (d : t) : bool :=
  match get k d with Some _ => true | None => false end.

Definition keys (d : t) : list K := map fst d.
Definition values (d : t) : list V := map snd d.
End WithKey.
End Dict.

Definition Qgtb (x y : Q) : bool := negb (Qle_bool x y).

(** Descending sort of the (pairwise different) score keys:
    [sorted(keys)[::-1]] and [sorted(keys, reverse=True)]. *)
Fixpoint insert_desc (x : Q) (l : list Q) : list Q :=
  match l with
  | [] => [x]
  | y :: l' => if Qle_bool y x then x :: l else y :: insert_desc x l'
  end.

Fixpoint sort_desc (l : list Q) : list Q :=
  match l with
  | [] => []
  | x :: l' => insert_desc x (sort_desc l')
  end.

(** ** Match values

    An entry of [most_similar[entry_a]] is a label or, once a second
    target reaches the same score, a list of labels.  A value of [match]
    is such an entry or, through [decreasing_matches[0][int(answer)]] in
    the manual-selection variant, a score. *)

Inductive Entry : Type :=
| Single (s : string)
| Several (l : list string).

Inductive MatchValue : Type :=
| VStr (s : string)
| VList (l : list string)
| VFloat (q : Q).

Definition to_value (e : Entry) : MatchValue :=
  match e with
  | Single s => VStr s
  | Several l => VList l
  end.

Definition members (v : MatchValue) : list string :=
  match v with
  | VStr s => [s]
  | VList l => l
  | VFloat _ => []
  end.

Definition MatchDict := Dict.t string MatchValue.
Definition mget := Dict.get String.eqb (V := MatchValue).
Definition mset := Dict.set String.eqb (V := MatchValue).
Definition mhas := Dict.has String.eqb (V := MatchValue).
Definition mkeys := Dict.keys (K := string) (V := MatchValue).

Definition SimDict := Dict.t Q Entry.
Definition qget := Dict.get Qeq_bool (V := Entry).
Definition qset := Dict.set Qeq_bool (V := Entry).

(** [_check_for_unique_similarity(simi, value, dict_entry)] *)
Definition _check_for_unique_similarity
  (simi : Q) (value : string) (dict_entry : SimDict) : SimDict :=
  match qget simi dict_entry with
  | Some (Several l) => qset simi (Several (l ++ [value])) dict_entry
  | Some (Single s) => qset simi (Several ([s] ++ [value])) dict_entry
  | None => qset simi (Single value) dict_entry
  end.

(** ** Normalisation *)

Definition lower_char (c : ascii) : ascii :=
  let n := nat_of_ascii c in
  if (65 <=? n)%nat && (n <=? 90)%nat then ascii_of_nat (n + 32) else c.

(** [s.lower()] on ASCII labels. *)
Fixpoint lower (s : string) : string :=
  match s with
  | EmptyString => EmptyString
  | String c s' => String (lower_char c) (lower s')
  end.

(** [s.isascii()]: every character of the label is below 128.  On such a
    label [lower] is [str.lower]. *)
Fixpoint isascii (s : string) : bool :=
  match s with
  | EmptyString => true
  | String c s' => (nat_of_ascii c <? 128)%nat && isascii s'
  end.

(** The characters matched by the standard class of [simplify_strings]
    and [match_similar]: underscore, comma, blank, bar, newline,
    apostrophe, ampersand, double quote, percent, star and hyphen.  The
    backslash written in the class only escapes the blank after it. *)
Definition standard_separators : list ascii :=
  [ "_"; ","; " "; "|"; ascii_of_nat 10; "'"; "&"; ascii_of_nat 34;
    "%"; "*"; "-" ]%char.

Definition is_standard_separator (c : ascii) : bool :=
  existsb (Ascii.eqb c) standard_separators.

(** [''.join(re.split(cls, s))] for a one-character class [cls]. *)
Fixpoint strip (cls : ascii -> bool) (s : string) : string :=
  match s with
  | EmptyString => EmptyString
  | String c s' => if cls c then strip cls s' else String c (strip cls s')
  end.

(** The [simplifier] argument of [simplify_strings]: falsy, [True], or the
    body of a character class (given by the characters it matches). *)
Inductive Simplifier : Type :=
| SimplifierOff
| SimplifierStandard
| SimplifierClass (cls : ascii -> bool).

Definition simplifier_class (s : Simplifier) : option (ascii -> bool) :=
  match s with
  | SimplifierOff => None
  | SimplifierStandard => Some is_standard_separator
  | SimplifierClass cls => Some cls
  end.

Definition LabelDict := Dict.t string string.
Definition lget := Dict.get String.eqb (V := string).
Definition lset := Dict.set String.eqb (V := string).
Definition lkeys := Dict.keys (K := string) (V := string).

(** The local function [add_to_simplified(key, value)] of
    [simplify_strings], on the pair [(simplified, not_unique)]. *)
Definition add_to_simplified (key value : string)
  (st : LabelDict * list string) : LabelDict * list string :=
  let '(simplified, not_unique) := st in
  match lget key simplified with
  | Some first =>
      (simplified, PyList.set_add value (PyList.set_add first not_unique))
  | None => (lset key value simplified, not_unique)
  end.

Fixpoint simplify_loop (lower_case : bool) (cls : option (ascii -> bool))
  (to_simplify : list string) (st : LabelDict * list string)
  : res (LabelDict * list string) :=
  match to_simplify with
  | [] => Ok st
  | key :: rest =>
      match cls, lower_case with
      | Some c, true =>
          simplify_loop lower_case cls rest
            (add_to_simplified (lower (strip c key)) key st)
      | Some c, false =>
          simplify_loop lower_case cls rest
            (add_to_simplified (strip c key) key st)
      | None, true =>
          simplify_loop lower_case cls rest
            (add_to_simplified (lower key) key st)
      | None, false => Raise (ValueError [])
      end
  end.

(** [simplify_strings(to_simplify, lower_case, simplifier)] for a list
    argument.  The [ValueError] raised on a collision carries [not_unique],
    the set its message prints. *)
Definition simplify_strings (to_simplify : list string) (lower_case : bool)
  (simplifier : Simplifier) : res LabelDict :=
  ' (simplified, not_unique) <-
      simplify_loop lower_case (simplifier_class simplifier) to_simplify ([], []) ;;
  match not_unique with
  | [] => Ok simplified
  | _ :: _ => Raise (ValueError not_unique)
  end.

(** The set [doubles] of [_check_uniqueness_of_entries]. *)
Fixpoint doubles_of (data_set entries doubles : list string) : list string :=
  match data_set with
  | [] => doubles
  | entry :: rest =>
      doubles_of rest (PyList.set_add entry entries)
        (if PyList.mem entry entries then PyList.set_add entry doubles else doubles)
  end.

(** [_check_uniqueness_of_entries(data_set, name)] with
    [raise_exception=True]. *)
Definition _check_uniqueness_of_entries (data_set : list string) : res bool :=
  if PyList.has_duplicates data_set
  then Raise (ValueError (doubles_of data_set [] []))
  else Ok true.

(** [_find_direct_matches(list_for_matching, list_to_be_matched_to)]: the
    loop runs over a copy of the first list and removes from both lists in
    place, so the two final lists are returned with [matches]. *)
Fixpoint direct_loop (copy : list string)
  (st : MatchDict * list string * list string)
  : res (MatchDict * list string * list string) :=
  match copy with
  | [] => Ok st
  | entry_a :: rest =>
      let '(matches, list_for_matching, list_to_be_matched_to) := st in
      if PyList.mem entry_a list_to_be_matched_to then
        l1 <- PyList.remove entry_a list_for_matching ;;
        l2 <- PyList.remove entry_a list_to_be_matched_to ;;
        direct_loop rest (mset entry_a (VStr entry_a) matches, l1, l2)
      else direct_loop rest st
  end.

Definition _find_direct_matches (list_for_matching list_to_be_matched_to : list string)
  : res (MatchDict * list string * list string) :=
  direct_loop list_for_matching ([], list_for_matching, list_to_be_matched_to).

(** ** The score: [difflib.SequenceMatcher(None, a, b).ratio()]

    The matcher is created without a junk predicate and with the
    automatic junk heuristic on: in a second sequence of 200 elements or
    more, an element that fills more than one percent of it (plus one) is
    "popular" and left out of [b2j].  The work list of
    [get_matching_blocks] is unfolded into the recursion it stands for;
    [ratio] only sums the block sizes. *)

Module Difflib.

Definition popular (b : list ascii) (elt : ascii) : bool :=
  Nat.leb 200 (length b)
  && Nat.ltb (length b / 100 + 1) (count_occ ascii_dec b elt).

Fixpoint indices_from (elt : ascii) (b : list ascii) (j : nat) : list nat :=
  match b with
  | [] => []
  | x :: b' =>
      if Ascii.eqb elt x then j :: indices_from elt b' (S j)
      else indices_from elt b' (S j)
  end.

(** [b2j.get(elt, nothing)] *)
Definition b2j (b : list ascii) (elt : ascii) : list nat :=
  if popular b elt then [] else indices_from elt b 0.

Definition J2len := list (nat * nat).

Fixpoint j2len_find (j : nat) (d : J2len) : nat :=
  match d with
  | [] => 0
  | (j', k) :: d' => if Nat.eqb j j' then k else j2len_find j d'
  end.

(** [j2len.get(j-1, 0)] *)
Definition j2lenget (j2len : J2len) (j : nat) : nat :=
  match j with
  | O => 0
  | S j' => j2len_find j' j2len
  end.

Definition Match : Type := nat * nat * nat.
Definition size (m : Match) : nat := snd m.

(** [for j in b2j.get(a[i], nothing)] *)
Fixpoint scan (i blo bhi : nat) (js : list nat) (j2len newj2len : J2len)
  (best : Match) : J2len * Match :=
  match js with
  | [] => (newj2len, best)
  | j :: rest =>
      if Nat.ltb j blo then scan i blo bhi rest j2len newj2len best
      else if Nat.leb bhi j then (newj2len, best)
      else
        let k := j2lenget j2len j + 1 in
        scan i blo bhi rest j2len ((j, k) :: newj2len)
          (if Nat.ltb (size best) k then (i + 1 - k, j + 1 - k, k) else best)
  end.

(** [for i in range(alo, ahi)]: [todo] rows are left, the next is [i]. *)
Fixpoint rows (a b : list ascii) (blo bhi : nat) (todo i : nat)
  (j2len : J2len) (best : Match) : Match :=
  match todo with
  | O => best
  | S todo' =>
      let '(newj2len, best') :=
        scan i blo bhi (b2j b (nth i a zero)) j2len [] best in
      rows a b blo bhi todo' (S i) newj2len best'
  end.

(** The first [while]: grow the block to the left. *)
Fixpoint extend_left (a b : list ascii) (alo blo : nat) (fuel : nat)
  (best : Match) : Match :=
  match fuel with
  | O => best
  | S fuel' =>
      let '(besti, bestj, bestsize) := best in
      if Nat.ltb alo besti && Nat.ltb blo bestj
         && Ascii.eqb (nth (besti - 1) a zero) (nth (bestj - 1) b zero)
      then extend_left a b alo blo fuel' (besti - 1, bestj - 1, bestsize + 1)
      else best
  end.

(** The second [while]: grow the block to the right. *)
Fixpoint extend_right (a b : list ascii) (ahi bhi : nat) (fuel : nat)
  (best : Match) : Match :=
  match fuel with
  | O => best
  | S fuel' =>
      let '(besti, bestj, bestsize) := best in
      if Nat.ltb (besti + bestsize) ahi && Nat.ltb (bestj + bestsize) bhi
         && Ascii.eqb (nth (besti + bestsize) a zero) (nth (bestj + bestsize) b zero)
      then extend_right a b ahi bhi fuel' (besti, bestj, bestsize + 1)
      else best
  end.

(** [find_longest_match(alo, ahi, blo, bhi)].  The two loops over junk do
    nothing without a junk predicate.  A loop on the left stops after at
    most [besti] rounds, one on the right after at most [ahi] rounds. *)
Definition find_longest_match (a b : list ascii) (alo ahi blo bhi : nat) : Match :=
  let best := rows a b blo bhi (ahi - alo) alo [] (alo, blo, 0) in
  let best1 := extend_left a b alo blo (fst (fst best)) best in
  extend_right a b ahi bhi ahi best1.

(** The sum of the sizes of the blocks found in [a[alo:ahi]] and
    [b[blo:bhi]]. *)
Fixpoint matches (fuel : nat) (a b : list ascii) (alo ahi blo bhi : nat) : nat :=
  match fuel with
  | O => 0
  | S fuel' =>
      let '(i, j, k) := find_longest_match a b alo ahi blo bhi in
      if Nat.eqb k 0 then 0
      else
        k + (if Nat.ltb alo i && Nat.ltb blo j
             then matches fuel' a b alo i blo j else 0)
          + (if Nat.ltb (i + k) ahi && Nat.ltb (j + k) bhi
             then matches fuel' a b (i + k) ahi (j + k) bhi else 0)
  end.

(** [_calculate_ratio(matches, length)] *)
Definition _calculate_ratio (matches length : nat) : Q :=
  match length with
  | O => 1%Q
  | S _ => (Z.of_nat (2 * matches) # Pos.of_nat length)%Q
  end.

Definition ratio (a b : string) : Q :=
  let la := list_ascii_of_string a in
  let lb := list_ascii_of_string b in
  _calculate_ratio
    (matches (S (length la)) la lb 0 (length la) 0 (length lb))
    (length la + length lb).

End Difflib.

(** ** The similarity tables of [match_similar] *)

Definition Row : Type := Q * string * string.
Definition row_similarity (r : Row) : Q := fst (fst r).
Definition row_entry_a (r : Row) : string := snd (fst r).
Definition row_entry_b (r : Row) : string := snd r.

Definition PairDict := Dict.t Q (list (string * string)).
Definition pget := Dict.get Qeq_bool (V := list (string * string)).
Definition pset := Dict.set Qeq_bool (V := list (string * string)).

Definition MostSimilar := Dict.t string SimDict.
Definition Ordered := Dict.t string (list Q).

Record Tables : Type := mkTables {
  most_similar : MostSimilar;
  ordered_most_similar : Ordered;
  all_similarities : PairDict
}.

Section Matching.

(** [SequenceMatcher(None, a, b).ratio()] *)
Variable ratio : string -> string -> Q.

(** The inner loop of "creating the most similar entries": the entry
    [most_similar[entry_a]] and [all_similarities] after the targets
    [list_to_be_matched_to] have been scored against [entry_a]. *)
Fixpoint score_targets (limit : Q) (enforce : bool) (entry_a : string)
  (list_to_be_matched_to : list string) (st : SimDict * PairDict)
  : SimDict * PairDict :=
  match list_to_be_matched_to with
  | [] => st
  | entry_b :: rest =>
      let '(entry, all) := st in
      let similarity := ratio entry_a entry_b in
      if Qgtb similarity limit then
        let entry' := _check_for_unique_similarity similarity entry_b entry in
        let all1 :=
          match pget similarity all with
          | Some _ => all
          | None => pset similarity [] all
          end in
        let all2 :=
          if enforce then
            match pget similarity all1 with
            | Some l => pset similarity (l ++ [(entry_a, entry_b)]) all1
            | None => all1
            end
          else all1 in
        score_targets limit enforce entry_a rest (entry', all2)
      else score_targets limit enforce entry_a rest st
  end.

Fixpoint score_sources (limit : Q) (enforce : bool)
  (list_for_matching list_to_be_matched_to : list string) (t : Tables)
  : Tables :=
  match list_for_matching with
  | [] => t
  | entry_a :: rest =>
      let '(entry, all) :=
        score_targets limit enforce entry_a list_to_be_matched_to
          ([], all_similarities t) in
      score_sources limit enforce rest list_to_be_matched_to
        (mkTables
           (Dict.set String.eqb entry_a entry (most_similar t))
           (Dict.set String.eqb entry_a (sort_desc (Dict.keys entry))
              (ordered_most_similar t))
           all)
  end.

(** ** Per-entry greedy matching ([auto_match_all], no comprehensive check) *)

(** [while most_similar_list: list_to_be_matched_to.remove(...)] *)
Fixpoint remove_each (most_similar_list list_to_be_matched_to : list string)
  : res (list string) :=
  match most_similar_list with
  | [] => Ok list_to_be_matched_to
  | b :: rest =>
      l <- PyList.remove b list_to_be_matched_to ;;
      remove_each rest l
  end.

Definition greedy_step (t : Tables) (entry_a : string)
  (st : MatchDict * list string * list string)
  : res (MatchDict * list string * list string) :=
  let '(matched, list_for_matching, list_to_be_matched_to) := st in
  entry <- of_option KeyError (Dict.get String.eqb entry_a (most_similar t)) ;;
  ordered <- of_option KeyError (Dict.get String.eqb entry_a (ordered_most_similar t)) ;;
  match ordered with
  | [] => Ok st                                   (* IndexError: pass *)
  | top :: _ =>
      best <- of_option KeyError (qget top entry) ;;
      l1 <- PyList.remove entry_a list_for_matching ;;
      l2 <- match best with
            | Several l => remove_each l list_to_be_matched_to
            | Single b => PyList.remove b list_to_be_matched_to
            end ;;
      Ok (mset entry_a (to_value best) matched, l1, l2)
  end.

Fixpoint greedy_loop (t : Tables) (copy : list string)
  (st : MatchDict * list string * list string)
  : res (MatchDict * list string * list string) :=
  match copy with
  | [] => Ok st
  | entry_a :: rest =>
      st' <- greedy_step t entry_a st ;;
      greedy_loop t rest st'
  end.

(** [set(list_for_matching).difference(set(match))] *)
Definition difference (list_for_matching : list string) (matched : MatchDict)
  : list string :=
  filter (fun x => negb (mhas x matched)) (PyList.to_set list_for_matching).

(** ** Global greedy matching: the loop over the similarity data frame *)

Definition drop_similarity (h : Q) (df : list Row) : list Row :=
  filter (fun r => negb (Qeq_bool (row_similarity r) h)) df.
Definition drop_entry_a (a : string) (df : list Row) : list Row :=
  filter (fun r => negb (String.eqb (row_entry_a r) a)) df.
Definition drop_entry_b (b : string) (df : list Row) : list Row :=
  filter (fun r => negb (String.eqb (row_entry_b r) b)) df.

(** The positions of the leading rows whose similarity is the highest. *)
Fixpoint tied_indexes (highest : Q) (index : nat) (df : list Row) : list nat :=
  match df with
  | [] => []
  | r :: rest =>
      if Qeq_bool highest (row_similarity r)
      then index :: tied_indexes highest (S index) rest
      else []
  end.

Definition IndexDict := Dict.t string (list nat).

Definition note_index (entry : string) (index : nat) (d : IndexDict) : IndexDict :=
  match Dict.get String.eqb entry d with
  | Some l => Dict.set String.eqb entry (l ++ [index]) d
  | None => Dict.set String.eqb entry [index] d
  end.

(** "get all entries of un-unique similarity" *)
Fixpoint collect_entries (df : list Row) (indexes : list nat)
  (st : list string * IndexDict) : res (list string * IndexDict) :=
  match indexes with
  | [] => Ok st
  | index :: rest =>
      let '(all_entries, all_entries_with_index) := st in
      r <- of_option KeyError (nth_error df index) ;;
      collect_entries df rest
        (all_entries ++ [row_entry_a r] ++ [row_entry_b r],
         note_index (row_entry_b r) index
           (note_index (row_entry_a r) index all_entries_with_index))
  end.

(** [doubled_entries]: a copy of [all_entries] from which the first
    occurrence of every element has been removed. *)
Fixpoint remove_first_occurrences (elements doubled_entries : list string)
  : res (list string) :=
  match elements with
  | [] => Ok doubled_entries
  | element :: rest =>
      l <- PyList.remove element doubled_entries ;;
      remove_first_occurrences rest l
  end.

Fixpoint remove_index (index : nat) (indexes : list nat) : res (list nat) :=
  match indexes with
  | [] => Raise (ValueError [])
  | i :: rest =>
      if Nat.eqb index i then Ok rest
      else l <- remove_index index rest ;; Ok (i :: l)
  end.

(** [for index in all_entries_with_index[element]: indexes.remove(index)];
    the loop variable [index] is kept, it is read by the fallback of
    [match_comprehensive]. *)
Fixpoint mark_unmatchable (of_element : list nat) (st : list nat * nat)
  : res (list nat * nat) :=
  match of_element with
  | [] => Ok st
  | index :: rest =>
      l <- remove_index index (fst st) ;;
      mark_unmatchable rest (l, index)
  end.

Fixpoint mark_doubled (all_entries_with_index : IndexDict)
  (doubled_entries : list string) (st : list nat * nat) : res (list nat * nat) :=
  match doubled_entries with
  | [] => Ok st
  | element :: rest =>
      of_element <- of_option KeyError
                      (Dict.get String.eqb element all_entries_with_index) ;;
      st' <- mark_unmatchable of_element st ;;
      mark_doubled all_entries_with_index rest st'
  end.

(** [for index in indexes:] commit the row found at [index] in the current,
    already re-indexed frame. *)
Fixpoint commit_indexes (indexes : list nat) (st : list Row * MatchDict)
  : res (list Row * MatchDict) :=
  match indexes with
  | [] => Ok st
  | index :: rest =>
      let '(df, matched) := st in
      r <- of_option KeyError (nth_error df index) ;;
      commit_indexes rest
        (drop_entry_b (row_entry_b r) (drop_entry_a (row_entry_a r) df),
         mset (row_entry_a r) (VStr (row_entry_b r)) matched)
  end.

(** The targets gathered for one doubled element: the rows are scanned up
    to position [index] in [match_comprehensive] ([bound = Some index]) and
    to the end in [match_similar] ([bound = None]). *)
Definition targets_of (bound : option nat) (df : list Row) (element : string)
  : list string :=
  map row_entry_b
    (filter (fun r => String.eqb (row_entry_a r) element)
       (match bound with
        | Some index => firstn (S index) df
        | None => df
        end)).

Definition df_step (bounded : bool) (df : list Row) (matched : MatchDict)
  : res (list Row * MatchDict) :=
  match df with
  | [] => Raise KeyError
  | r0 :: rest =>
      let highest_similarity := row_similarity r0 in
      let entry_a := row_entry_a r0 in
      let entry_b := row_entry_b r0 in
      if match rest with
         | r1 :: _ => negb (Qeq_bool highest_similarity (row_similarity r1))
         | [] => false
         end
      then
        Ok (drop_entry_b entry_b
              (drop_entry_a entry_a (drop_similarity highest_similarity df)),
            mset entry_a (VStr entry_b) matched)
      else
        let indexes := tied_indexes highest_similarity 0 df in
        ' (all_entries, all_entries_with_index) <-
            collect_entries df indexes ([], []) ;;
        doubled_entries <-
          remove_first_occurrences (PyList.to_set all_entries) all_entries ;;
        ' (indexes', index) <-
            mark_doubled all_entries_with_index doubled_entries
              (indexes, last indexes 0) ;;
        match indexes' with
        | _ :: _ => commit_indexes indexes' (df, matched)
        | [] =>
            let multiple_match :=
              flat_map (targets_of (if bounded then Some index else None) df)
                doubled_entries in
            Ok (drop_entry_b entry_b (drop_entry_a entry_a df),
                match multiple_match with
                | [] => matched
                | _ :: _ => mset entry_a (VList multiple_match) matched
                end)
        end
  end.

(** [while len(df.similarity) != 0 and len(df.similarity) != old_length].
    Every round removes a row, so [df_loop_fuel] rounds are enough. *)
Fixpoint df_loop (fuel : nat) (bounded : bool) (df : list Row)
  (old_length : nat) (matched : MatchDict) : res MatchDict :=
  if Nat.eqb (length df) 0 || Nat.eqb (length df) old_length then Ok matched
  else
    match fuel with
    | O => Raise OutOfFuel
    | S fuel' =>
        ' (df', matched') <- df_step bounded df matched ;;
        df_loop fuel' bounded df' (length df) matched'
    end.

Definition df_loop_fuel (df : list Row) : nat := length df.

(** The rows of the frame: scores in descending order, the pairs of one
    score in the order they were found. *)
Definition frame_rows (all : PairDict) : list Row :=
  flat_map
    (fun similarity =>
       match pget similarity all with
       | Some pairs => map (fun p => (similarity, fst p, snd p)) pairs
       | None => []
       end)
    (sort_desc (Dict.keys all)).

(** ** [match_similar] *)

(** The values of [simplify_with]: falsy, the three keywords, or any other
    truthy value (a list or string of separators). *)
Inductive SimplifyWith : Type :=
| SimplifyOff
| SimplifyCapital
| SimplifySeparators
| SimplifyAll
| SimplifyOther.

(** [{value.lower(): value for value in labels}] *)
Definition lower_dict (labels : list string) : LabelDict :=
  fold_left (fun d value => lset (lower value) value d) labels [].

(** [dict[''.join(re.split(separators, entry))] = entry] for every entry. *)
Definition stripped_dict (labels : list string) : LabelDict :=
  fold_left (fun d entry => lset (strip is_standard_separator entry) entry d)
    labels [].

(** "translating to simpler value names": the two reverse tables and the
    lists the names are bound to afterwards. *)
Definition simplify_lists (simplify_with : SimplifyWith)
  (list_for_matching list_to_be_matched_to : list string)
  : LabelDict * LabelDict * list string * list string :=
  match simplify_with with
  | SimplifyOff => ([], [], list_for_matching, list_to_be_matched_to)
  | SimplifyCapital | SimplifyOther =>
      (lower_dict list_for_matching, lower_dict list_to_be_matched_to,
       map lower list_for_matching, map lower list_to_be_matched_to)
  | SimplifySeparators | SimplifyAll =>
      (stripped_dict list_for_matching, stripped_dict list_to_be_matched_to,
       lkeys (stripped_dict list_for_matching),
       lkeys (stripped_dict list_to_be_matched_to))
  end.

(** "translating back to the original values": a list value is not
    hashable, a score is no key of the table. *)
Fixpoint translate_match (dict_for_matching dict_to_be_matched_to : LabelDict)
  (items : MatchDict) (acc : MatchDict) : res MatchDict :=
  match items with
  | [] => Ok acc
  | (key, value) :: rest =>
      key' <- of_option KeyError (lget key dict_for_matching) ;;
      value' <- match value with
                | VStr s => of_option KeyError (lget s dict_to_be_matched_to)
                | VList _ => Raise TypeError
                | VFloat _ => Raise KeyError
                end ;;
      translate_match dict_for_matching dict_to_be_matched_to rest
        (mset key' (VStr value') acc)
  end.

Fixpoint translate_no_match (dict_for_matching : LabelDict)
  (no_match : list string) (acc : list string) : res (list string) :=
  match no_match with
  | [] => Ok acc
  | key :: rest =>
      key' <- of_option KeyError (lget key dict_for_matching) ;;
      translate_no_match dict_for_matching rest (PyList.set_add key' acc)
  end.

(** *** The interactive branch *)

(** [int(answer)], [None] for the [ValueError] of a malformed number. *)
Variable py_int : string -> option Z.
(** The column count reported by [stty size], 200 when there is none. *)
Variable window_width : nat.
(** [len(str(l))] for a list of labels [l]. *)
Variable list_str_len : list string -> nat.
(** [x - y] on Python floats: a score or a threshold is the rational that
    the float holds, and the difference of two floats is rounded to the
    nearest float. *)
Variable py_sub : Q -> Q -> Q.

Definition py_len (e : Entry) : nat :=
  match e with
  | Single s => String.length s
  | Several l => List.length l
  end.

Definition str_len (e : Entry) : nat :=
  match e with
  | Single s => String.length s
  | Several l => list_str_len l
  end.

(** [max(first :: others, key=len)]: the first of the longest elements. *)
Fixpoint max_by_len (best : Entry) (others : list Entry) : Entry :=
  match others with
  | [] => best
  | x :: rest => max_by_len (if Nat.ltb (py_len best) (py_len x) then x else best) rest
  end.

Definition max_of_values (values : list Entry) (entry_a : string) : Entry :=
  match values ++ [Single entry_a] with
  | [] => Single entry_a
  | first :: others => max_by_len first others
  end.

(** [input(...)] *)
Definition input (stdin : list string) : res (string * list string) :=
  match stdin with
  | [] => Raise EOFError
  | answer :: rest => Ok (answer, rest)
  end.

(** [most_similar[entry_a][ordered_most_similar[entry_a][z]]] *)
Definition candidate (entry : SimDict) (ordered : list Q) (z : Z) : res Entry :=
  similarity <- PyList.index ordered z ;;
  of_option KeyError (qget similarity entry).

(** The third printed row formats each shown candidate with a width: a
    list does not accept a format specification. *)
Fixpoint print_candidates (entry : SimDict) (ordered : list Q)
  (n number_to_show : nat) : res unit :=
  match number_to_show with
  | O => Ok tt
  | S k =>
      c <- candidate entry ordered (Z.of_nat n) ;;
      match c with
      | Several _ => Raise TypeError
      | Single _ => print_candidates entry ordered (S n) k
      end
  end.

(** The loop over [generator]: [n] counts the items produced so far and
    [todo] those that [range(len(ordered))] still holds. *)
Fixpoint further_prompts (entry : SimDict) (ordered : list Q)
  (todo n number_to_show : nat) (stdin : list string)
  : res (option Entry * list string) :=
  match todo with
  | O => Ok (None, stdin)
  | S todo' =>
      if Nat.leb (length ordered) (n + number_to_show) then Ok (None, stdin)
      else
        _ <- candidate entry ordered (Z.of_nat (n + number_to_show)) ;;
        ' (result, stdin') <- input stdin ;;
        if String.eqb result ""
        then
          c <- candidate entry ordered (Z.of_nat number_to_show) ;;
          Ok (Some c, stdin')
        else further_prompts entry ordered todo' (S n) (S number_to_show) stdin'
  end.

(** The body of "if entry_a not in match": show the candidates and ask. *)
Definition ask (entry_a : string) (entry : SimDict) (ordered : list Q)
  (stdin : list string) : res (option Entry * list string) :=
  let largest_string := str_len (max_of_values (Dict.values entry) entry_a) in
  let minimal_string := 13 in
  let max_number_to_show :=
    Nat.min (window_width / (largest_string + 3)) (window_width / minimal_string) in
  let number_to_show :=
    if Nat.ltb max_number_to_show (length ordered)
    then max_number_to_show else length ordered in
  _ <- print_candidates entry ordered 0 number_to_show ;;
  ' (answer, stdin') <- input stdin ;;
  if String.eqb answer ""
  then c <- candidate entry ordered 0%Z ;; Ok (Some c, stdin')
  else
    match py_int answer with
    | Some z => c <- candidate entry ordered z ;; Ok (Some c, stdin')
    | None =>
        further_prompts entry ordered (length ordered) 0 number_to_show stdin'
    end.

(** The test that lets the interactive branch match without asking. *)
Definition accepts_automatically (minimal_distance : Q) (ordered : list Q) : bool :=
  match ordered with
  | [] => false
  | [s0] => Qgtb s0 (py_sub 1 minimal_distance)
  | s0 :: s1 :: _ => Qgtb (py_sub s0 s1) minimal_distance
  end.

Definition interactive_step (t : Tables) (minimal_distance : Q) (entry_a : string)
  (st : MatchDict * list string * list string)
  : res (MatchDict * list string * list string) :=
  let '(matched, no_match, stdin) := st in
  entry <- of_option KeyError (Dict.get String.eqb entry_a (most_similar t)) ;;
  ' (matched1, stdin1) <-
      match entry with
      | [] => Ok (matched, stdin)
      | _ :: _ =>
          ordered <- of_option KeyError
                       (Dict.get String.eqb entry_a (ordered_most_similar t)) ;;
          matched0 <-
            (if accepts_automatically minimal_distance ordered
             then c <- candidate entry ordered 0%Z ;;
                  Ok (mset entry_a (to_value c) matched)
             else Ok matched) ;;
          if mhas entry_a matched0 then Ok (matched0, stdin)
          else
            ' (choice, stdin') <- ask entry_a entry ordered stdin ;;
            Ok (match choice with
                | Some c => mset entry_a (to_value c) matched0
                | None => matched0
                end, stdin')
      end ;;
  Ok (matched1,
      if mhas entry_a matched1 then no_match else no_match ++ [entry_a],
      stdin1).

Fixpoint interactive_loop (t : Tables) (minimal_distance : Q)
  (list_for_matching : list string)
  (st : MatchDict * list string * list string)
  : res (MatchDict * list string * list string) :=
  match list_for_matching with
  | [] => Ok st
  | entry_a :: rest =>
      st' <- interactive_step t minimal_distance entry_a st ;;
      interactive_loop t minimal_distance rest st'
  end.

(** *** The function *)

(** What a call leaves behind: the returned pair, the contents of the two
    list objects the caller passed in, and the answers not yet read. *)
Record Outcome : Type := mkOutcome {
  matched : MatchDict;
  no_match : list string;
  caller_list_for_matching : list string;
  caller_list_to_be_matched_to : list string;
  unread : list string
}.

Definition match_similar
  (list_for_matching list_to_be_matched_to : list string)
  (simplify_with : SimplifyWith)
  (auto_match_all single_match_only enforce_comprehensive_check : bool)
  (minimal_distance_for_automatic_matching similarity_limit_for_manual_checking : Q)
  (stdin : list string) : res Outcome :=
  if PyList.has_duplicates list_for_matching then Raise (ValueError []) else
  if negb single_match_only then Raise TypeError else
  if PyList.has_duplicates list_to_be_matched_to then Raise (ValueError []) else
  let '(dict_for_matching, dict_to_be_matched_to, la, lb) :=
    simplify_lists simplify_with list_for_matching list_to_be_matched_to in
  (* if direct matches *)
  ' (match0, la, lb) <- direct_loop la ([], la, lb) ;;
  (* creating the most similar entries *)
  let t := score_sources similarity_limit_for_manual_checking
             enforce_comprehensive_check la lb (mkTables [] [] []) in
  ' (match1, no_match1, la, lb, stdin) <-
      (if auto_match_all then
         if negb enforce_comprehensive_check then
           ' (m, la', lb') <- greedy_loop t la (match0, la, lb) ;;
           Ok (m, difference la' m, la', lb', stdin)
         else
           let df := frame_rows (all_similarities t) in
           m <- df_loop (df_loop_fuel df) false df 0 match0 ;;
           Ok (m, difference la m, la, lb, stdin)
       else
         ' (m, nm, stdin') <-
             interactive_loop t minimal_distance_for_automatic_matching la
               (match0, [], stdin) ;;
         Ok (m, nm, la, lb, stdin')) ;;
  (* translating back to the original values *)
  match simplify_with with
  | SimplifyOff => Ok (mkOutcome match1 no_match1 la lb stdin)
  | _ =>
      match2 <- translate_match dict_for_matching dict_to_be_matched_to match1 [] ;;
      no_match2 <- translate_no_match dict_for_matching no_match1 [] ;;
      Ok (mkOutcome match2 no_match2 list_for_matching list_to_be_matched_to stdin)
  end.

(** ** [match_comprehensive] *)

(** The inner loop of [_calculate_similarities_listed_by_similarity]. *)
Fixpoint pair_targets (entry_a : string) (list_to_be_matched_to : list string)
  (all : PairDict) : PairDict :=
  match list_to_be_matched_to with
  | [] => all
  | entry_b :: rest =>
      let similarity := ratio entry_a entry_b in
      let all1 :=
        match pget similarity all with
        | Some _ => all
        | None => pset similarity [] all
        end in
      pair_targets entry_a rest
        (match pget similarity all1 with
         | Some l => pset similarity (l ++ [(entry_a, entry_b)]) all1
         | None => all1
         end)
  end.

Fixpoint pair_sources (list_for_matching list_to_be_matched_to : list string)
  (all : PairDict) : PairDict :=
  match list_for_matching with
  | [] => all
  | entry_a :: rest =>
      pair_sources rest list_to_be_matched_to
        (pair_targets entry_a list_to_be_matched_to all)
  end.

(** The dictionary rebuilt with its keys in descending order. *)
Definition order_by_key {V : Type} (d : Dict.t Q V) : Dict.t Q V :=
  flat_map
    (fun similarity =>
       match Dict.get Qeq_bool similarity d with
       | Some v => [(similarity, v)]
       | None => []
       end)
    (sort_desc (Dict.keys d)).

Definition _calculate_similarities_listed_by_similarity
  (list_for_matching list_to_be_matched_to : list string) : PairDict :=
  order_by_key (pair_sources list_for_matching list_to_be_matched_to []).

Definition _create_similarity_dataframe (similarities : PairDict) : list Row :=
  flat_map
    (fun item => map (fun match_set => (fst item, fst match_set, snd match_set))
                   (snd item))
    similarities.

(** The [simplified] argument is handed to [simplify_strings] as its
    [simplifier]. *)
Definition simplify_both (simplified : Simplifier)
  (list_for_matching list_to_be_matched_to : list string)
  : res (LabelDict * LabelDict * list string * list string) :=
  match simplified with
  | SimplifierOff => Ok ([], [], list_for_matching, list_to_be_matched_to)
  | _ =>
      dict_for_matching <- simplify_strings list_for_matching true simplified ;;
      _ <- _check_uniqueness_of_entries (lkeys dict_for_matching) ;;
      dict_to_be_matched_to <- simplify_strings list_to_be_matched_to true simplified ;;
      _ <- _check_uniqueness_of_entries (lkeys dict_to_be_matched_to) ;;
      Ok (dict_for_matching, dict_to_be_matched_to,
          lkeys dict_for_matching, lkeys dict_to_be_matched_to)
  end.

Definition translate_back (simplified : Simplifier)
  (dict_for_matching dict_to_be_matched_to : LabelDict)
  (list_for_matching list_to_be_matched_to : list string)
  (matched0 : MatchDict) (no_match0 la lb stdin : list string) : res Outcome :=
  match simplified with
  | SimplifierOff => Ok (mkOutcome matched0 no_match0 la lb stdin)
  | _ =>
      match2 <- translate_match dict_for_matching dict_to_be_matched_to matched0 [] ;;
      no_match2 <- translate_no_match dict_for_matching no_match0 [] ;;
      Ok (mkOutcome match2 no_match2 list_for_matching list_to_be_matched_to stdin)
  end.

Definition match_comprehensive
  (list_for_matching list_to_be_matched_to : list string)
  (simplified : Simplifier) : res Outcome :=
  _ <- _check_uniqueness_of_entries list_for_matching ;;
  _ <- _check_uniqueness_of_entries list_to_be_matched_to ;;
  ' (dict_for_matching, dict_to_be_matched_to, la, lb) <-
      simplify_both simplified list_for_matching list_to_be_matched_to ;;
  ' (match0, la, lb) <- _find_direct_matches la lb ;;
  let similarities := _calculate_similarities_listed_by_similarity la lb in
  let df := _create_similarity_dataframe similarities in
  match1 <- df_loop (df_loop_fuel df) true df 0 match0 ;;
  translate_back simplified dict_for_matching dict_to_be_matched_to
    list_for_matching list_to_be_matched_to match1 (difference la match1) la lb [].

(** ** [match_similar_with_manual_selection] *)

Definition GroupDict := Dict.t Q (list string).
Definition gget := Dict.get Qeq_bool (V := list string).
Definition gset := Dict.set Qeq_bool (V := list string).
Definition Similarities := Dict.t string GroupDict.

Fixpoint group_targets (entry_a : string) (list_to_be_matched_to : list string)
  (groups : GroupDict) : GroupDict :=
  match list_to_be_matched_to with
  | [] => groups
  | entry_b :: rest =>
      let similarity := ratio entry_a entry_b in
      let groups1 :=
        match gget similarity groups with
        | Some _ => groups
        | None => gset similarity [] groups
        end in
      group_targets entry_a rest
        (match gget similarity groups1 with
         | Some l => gset similarity (l ++ [entry_b]) groups1
         | None => groups1
         end)
  end.

Fixpoint group_sources (list_for_matching list_to_be_matched_to : list string)
  (ordered_similarity_per_entry_a : Similarities) : Similarities :=
  match list_for_matching with
  | [] => ordered_similarity_per_entry_a
  | entry_a :: rest =>
      group_sources rest list_to_be_matched_to
        (Dict.set String.eqb entry_a
           (order_by_key (group_targets entry_a list_to_be_matched_to []))
           ordered_similarity_per_entry_a)
  end.

Definition _calculate_similarities_listed_by_list_for_matching_entry
  (list_for_matching list_to_be_matched_to : list string) : Similarities :=
  group_sources list_for_matching list_to_be_matched_to [].

Definition decreasing (groups : GroupDict) : list (Q * string) :=
  flat_map (fun item => map (fun entry_b => (fst item, entry_b)) (snd item)) groups.

(** [calculate_longest_string()]: [max] raises on an empty list. *)
Definition calculate_longest_string (decreasing_matches : list (Q * string))
  : res nat :=
  match map snd decreasing_matches with
  | [] => Raise (ValueError [])
  | first :: others =>
      Ok (String.length
            (fold_left
               (fun best x =>
                  if Nat.ltb (String.length best) (String.length x) then x else best)
               others first))
  end.

(** [get_print_setting()], of which only [number_to_show] is used here. *)
Definition get_print_setting (entry_a : string)
  (decreasing_matches : list (Q * string)) : res nat :=
  longest <- calculate_longest_string decreasing_matches ;;
  let longest_string := (longest + String.length entry_a)%nat in
  let minimal_string := 13 in
  let max_number_to_show :=
    Nat.min (window_width / (longest_string + 3)) (window_width / minimal_string) in
  Ok (if Nat.ltb max_number_to_show (length decreasing_matches)
      then max_number_to_show else length decreasing_matches).

(** [further_print_statements(number_to_show)]; [Some] is the value stored
    in [match[entry_a]]. *)
Fixpoint further_print_statements (decreasing_matches : list (Q * string))
  (todo n number_to_show : nat) (stdin : list string)
  : res (option MatchValue * list string) :=
  match todo with
  | O => Ok (None, stdin)
  | S todo' =>
      match nth_error decreasing_matches (n + number_to_show) with
      | None => Ok (None, stdin)                     (* IndexError: pass *)
      | Some _ =>
          ' (result, stdin') <- input stdin ;;
          if String.eqb result "" then
            element <- of_option IndexError
                         (nth_error decreasing_matches number_to_show) ;;
            Ok (Some (VStr (snd element)), stdin')
          else if String.eqb result "break" then Ok (None, stdin')
          else further_print_statements decreasing_matches todo' (S n)
                 number_to_show stdin'
      end
  end.

(** [decreasing_matches[0][int(answer)]]: an index into the pair
    [(similarity, entry_b)]. *)
Definition pair_item (element : Q * string) (z : Z) : res MatchValue :=
  if (z =? 0)%Z || (z =? -2)%Z then Ok (VFloat (fst element))
  else if (z =? 1)%Z || (z =? -1)%Z then Ok (VStr (snd element))
  else Raise IndexError.

(** The branch of the loop that asks. *)
Definition select_manually (entry_a : string) (groups : GroupDict)
  (stdin : list string) : res (option MatchValue * list string) :=
  let decreasing_matches := decreasing groups in
  number_to_show <- get_print_setting entry_a decreasing_matches ;;
  ' (answer, stdin') <- input stdin ;;
  if String.eqb answer "" then
    element <- of_option IndexError (nth_error decreasing_matches 0) ;;
    Ok (Some (VStr (snd element)), stdin')
  else if String.eqb answer "break" then Ok (None, stdin')
  else
    match py_int answer with
    | Some z =>
        element <- of_option IndexError (nth_error decreasing_matches 0) ;;
        v <- pair_item element z ;;
        Ok (Some v, stdin')
    | None =>
        further_print_statements decreasing_matches (length decreasing_matches)
          0 number_to_show stdin'
    end.

(** [l.pop()] *)
Definition pop (l : list string) : res (string * list string) :=
  match rev l with
  | [] => Raise IndexError
  | x :: r => Ok (x, rev r)
  end.

(** One round of [for entry_a in similarities]. *)
Definition manual_step (minimal_distance : Q) (entry_a : string)
  (st : Similarities * MatchDict * list string)
  : res (Similarities * MatchDict * list string) :=
  let '(similarities, matched, stdin) := st in
  groups <- of_option KeyError (Dict.get String.eqb entry_a similarities) ;;
  let keys := Dict.keys groups in
  let similarities_of_entry_a :=
    if Nat.eqb (length keys) 1 then 1%Q :: keys else keys in
  s0 <- of_option IndexError (nth_error similarities_of_entry_a 0) ;;
  s1 <- of_option IndexError (nth_error similarities_of_entry_a 1) ;;
  asks <-
    (if negb (Qgtb (py_sub s0 s1) minimal_distance) then Ok true
     else top <- of_option KeyError (gget s0 groups) ;;
          Ok (negb (Nat.eqb (length top) 1))) ;;
  if (asks : bool) then
    ' (choice, stdin') <- select_manually entry_a groups stdin ;;
    Ok (similarities,
        match choice with
        | Some v => mset entry_a v matched
        | None => matched
        end, stdin')
  else
    top <- of_option KeyError (gget s0 groups) ;;
    ' (matched_entry, top') <- pop top ;;
    Ok (Dict.set String.eqb entry_a (gset s0 top' groups) similarities,
        mset entry_a (VStr matched_entry) matched, stdin).

Fixpoint manual_loop (minimal_distance : Q) (entries : list string)
  (st : Similarities * MatchDict * list string)
  : res (Similarities * MatchDict * list string) :=
  match entries with
  | [] => Ok st
  | entry_a :: rest =>
      st' <- manual_step minimal_distance entry_a st ;;
      manual_loop minimal_distance rest st'
  end.

Definition match_similar_with_manual_selection
  (list_for_matching list_to_be_matched_to : list string)
  (simplified : Simplifier)
  (minimal_distance_for_automatic_matching similarity_limit_for_manual_checking : Q)
  (stdin : list string) : res Outcome :=
  _ <- _check_uniqueness_of_entries list_for_matching ;;
  _ <- _check_uniqueness_of_entries list_to_be_matched_to ;;
  ' (dict_for_matching, dict_to_be_matched_to, la, lb) <-
      simplify_both simplified list_for_matching list_to_be_matched_to ;;
  ' (match0, la, lb) <- _find_direct_matches la lb ;;
  let similarities :=
    _calculate_similarities_listed_by_list_for_matching_entry la lb in
  ' (_, match1, stdin') <-
      manual_loop minimal_distance_for_automatic_matching
        (Dict.keys similarities) (similarities, match0, stdin) ;;
  translate_back simplified dict_for_matching dict_to_be_matched_to
    list_for_matching list_to_be_matched_to match1 (difference la match1) la lb stdin'.

(** ** The entry points together

    A call names the function and its keyword arguments; the two lists and
    the answers typed at the prompts are given apart. *)

Inductive Call : Type :=
| MatchSimilar (simplify_with : SimplifyWith)
    (auto_match_all single_match_only enforce_comprehensive_check : bool)
    (minimal_distance_for_automatic_matching similarity_limit_for_manual_checking : Q)
| MatchComprehensive (simplified : Simplifier)
| MatchSimilarWithManualSelection (simplified : Simplifier)
    (minimal_distance_for_automatic_matching similarity_limit_for_manual_checking : Q).

Definition call (c : Call) (list_for_matching list_to_be_matched_to stdin : list string)
  : res Outcome :=
  match c with
  | MatchSimilar simplify_with auto single enforce distance limit =>
      match_similar list_for_matching list_to_be_matched_to simplify_with
        auto single enforce distance limit stdin
  | MatchComprehensive simplified =>
      match_comprehensive list_for_matching list_to_be_matched_to simplified
  | MatchSimilarWithManualSelection simplified distance limit =>
      match_similar_with_manual_selection list_for_matching list_to_be_matched_to
        simplified distance limit stdin
  end.

(** Whether the call asks for a normalisation of the labels. *)
Definition simplifies (c : Call) : bool :=
  match c with
  | MatchSimilar SimplifyOff _ _ _ _ _ => false
  | MatchSimilar _ _ _ _ _ _ => true
  | MatchComprehensive SimplifierOff => false
  | MatchComprehensive _ => true
  | MatchSimilarWithManualSelection SimplifierOff _ _ => false
  | MatchSimilarWithManualSelection _ _ _ => true
  end.

(** The calls that run the global greedy strategy and for which the labels
    are known to be free of collisions: [match_comprehensive], and
    [match_similar] with the comprehensive check and no normalisation. *)
Definition global_greedy (c : Call) : bool :=
  match c with
  | MatchSimilar SimplifyOff true _ true _ _ => true
  | MatchComprehensive _ => true
  | _ => false
  end.

(** During the global greedy loop: a target recorded as a match by itself
    has no row left in the frame, and no two source labels hold the same
    target as their match. *)
Definition committed_once (df : list Row) (m : MatchDict) : Prop :=
  (forall a b, In (a, VStr b) m -> forall r, In r df -> row_entry_b r <> b)
  /\ (forall a1 a2 b, In (a1, VStr b) m -> In (a2, VStr b) m -> a1 = a2).

Definition pairs_within (sources targets : list string) (all : PairDict) : Prop :=
  forall q pairs a b, In (q, pairs) all -> In (a, b) pairs ->
    In a sources /\ In b targets.

(** The entry built for one source label, and the targets it groups under
    one score. *)
Definition entry_of (limit : Q) (entry_a : string) (targets : list string)
  : SimDict :=
  fst (score_targets limit false entry_a targets ([], [])).

Definition tied_at (limit : Q) (entry_a : string) (q : Q) (targets : list string)
  : list string :=
  filter (fun b => Qeq_bool q (ratio entry_a b) && Qgtb (ratio entry_a b) limit)
    targets.

(** The three modes of a call that returns, once the direct matches have
    been taken out of the two lists. *)
Inductive returns_off (auto enforce : bool) (distance limit : Q)
  (la0 lb0 : list string) (m0 : MatchDict) (stdin : list string) (out : Outcome)
  : Prop :=
| returns_greedy m la' lb' :
    auto = true -> enforce = false ->
    greedy_loop (score_sources limit enforce la0 lb0 (mkTables [] [] []))
      la0 (m0, la0, lb0) = Ok (m, la', lb') ->
    out = mkOutcome m (difference la' m) la' lb' stdin ->
    returns_off auto enforce distance limit la0 lb0 m0 stdin out
| returns_global m :
    auto = true -> enforce = true ->
    let df := frame_rows
                (all_similarities
                   (score_sources limit enforce la0 lb0 (mkTables [] [] []))) in
    df_loop (df_loop_fuel df) false df 0 m0 = Ok m ->
    out = mkOutcome m (difference la0 m) la0 lb0 stdin ->
    returns_off auto enforce distance limit la0 lb0 m0 stdin out
| returns_interactive m nm stdin' :
    auto = false ->
    interactive_loop
      (score_sources limit enforce la0 lb0 (mkTables [] [] []))
      distance la0 (m0, [], stdin) = Ok (m, nm, stdin') ->
    out = mkOutcome m nm la0 lb0 stdin' ->
    returns_off auto enforce distance limit la0 lb0 m0 stdin out.

(** Every target held by an entry of a source label scores above the
    floor against it. *)
Definition entry_above (limit : Q) (entry_a : string) (targets : list string) (entry : SimDict)
  : Prop :=
  forall q e b, In (q, e) entry -> In b (members (to_value e)) ->
    Qgtb (ratio entry_a b) limit = true /\ In b targets.

Definition pairs_above (limit : Q) (sources targets : list string) (all : PairDict) : Prop :=
  forall q pairs a b, In (q, pairs) all -> In (a, b) pairs ->
    Qgtb (ratio a b) limit = true /\ In a sources /\ In b targets.

(** A target recorded for a source label is the label itself (a direct
    match) or scores above the floor. *)
Definition above_floor (limit : Q) (m : MatchDict) : Prop :=
  forall a v b, mget a m = Some v -> In b (members v) ->
    a = b \/ Qgtb (ratio a b) limit = true.

Definition scalars_above_floor (limit : Q) (m : MatchDict) : Prop :=
  forall a b, mget a m = Some (VStr b) -> a = b \/ Qgtb (ratio a b) limit = true.

Definition rows_above_floor (limit : Q) (df : list Row) : Prop :=
  forall r, In r df -> Qgtb (ratio (row_entry_a r) (row_entry_b r)) limit = true.

(** The entries of the tables hold targets above the floor only. *)
Definition tables_above (limit : Q) (targets : list string) (t : Tables) : Prop :=
  forall a entry, Dict.get String.eqb a (most_similar t) = Some entry ->
    entry_above limit a targets entry.

End Matching.

(** ** A concrete run-time environment

    Python floats, the score of [difflib] as the float it is, [int] on
    ASCII numerals, a terminal 200 columns wide, and the length of the
    printed form of a list of labels that need no escaping. *)

(** *** Floats

    A float is the rational it holds.  [of_Q q] is the double nearest to
    [q], ties to the even significand, with gradual underflow; overflow
    is not modelled, the scores and the differences taken here stay
    within [-2, 2].  [of_Q] reads a decimal literal, [sub] is [x - y]. *)

Module PyFloat.

(** [floor (log2 (n / d))] for positive [n] and [d]. *)
Definition floor_log2 (n d : Z) : Z :=
  let k := (Z.log2 n - Z.log2 d)%Z in
  let reached :=
    if (0 <=? k)%Z then (d * 2 ^ k <=? n)%Z else (d <=? n * 2 ^ (- k))%Z in
  if reached then k else (k - 1)%Z.

(** The integer nearest to [num / den], the even one of two. *)
Definition round_half_even (num den : Z) : Z :=
  let m := (num / den)%Z in
  let r := (num mod den)%Z in
  match (2 * r ?= den)%Z with
  | Lt => m
  | Gt => (m + 1)%Z
  | Eq => if Z.even m then m else (m + 1)%Z
  end.

Definition of_Q (q : Q) : Q :=
  let n := Qnum q in
  let d := Zpos (Qden q) in
  if (n =? 0)%Z then 0%Q
  else
    let a := Z.abs n in
    let e := Z.max (floor_log2 a d - 52) (-1074) in
    let m :=
      if (0 <=? e)%Z then round_half_even a (d * 2 ^ e)
      else round_half_even (a * 2 ^ (- e)) d in
    let v :=
      if (0 <=? e)%Z then inject_Z (m * 2 ^ e)
      else Qred (m # Z.to_pos (2 ^ (- e))) in
    if (n <? 0)%Z then (- v)%Q else v.

Definition sub (x y : Q) : Q := of_Q (x - y).

End PyFloat.

(** [SequenceMatcher(None, a, b).ratio()] returns the float
    [2.0 * matches / length]. *)
Definition py_ratio (a b : string) : Q := PyFloat.of_Q (Difflib.ratio a b).

(** *** [int(answer)]

    Blanks around the numeral are dropped, a sign may come first, and
    single underscores may separate digits.  Digits other than the ASCII
    ones are not read. *)

Definition is_space (c : ascii) : bool :=
  let n := nat_of_ascii c in
  (Nat.leb 9 n && Nat.leb n 13) || (Nat.leb 28 n && Nat.leb n 32).

Fixpoint lstrip (l : list ascii) : list ascii :=
  match l with
  | [] => []
  | c :: l' => if is_space c then lstrip l' else l
  end.

Definition py_strip (s : string) : list ascii :=
  rev (lstrip (rev (lstrip (list_ascii_of_string s)))).

Fixpoint digits (l : list ascii) (acc : nat) (after_digit : bool) : option nat :=
  match l with
  | [] => if after_digit then Some acc else None
  | c :: l' =>
      let n := nat_of_ascii c in
      if Nat.leb 48 n && Nat.leb n 57 then digits l' (10 * acc + (n - 48)) true
      else if Ascii.eqb c "_" && after_digit then digits l' acc false
      else None
  end.

Definition int_of_decimal (s : string) : option Z :=
  match py_strip s with
  | "-"%char :: l => option_map (fun n => (- Z.of_nat n)%Z) (digits l 0 false)
  | "+"%char :: l => option_map Z.of_nat (digits l 0 false)
  | l => option_map Z.of_nat (digits l 0 false)
  end.

Definition plain_list_str_len (l : list string) : nat :=
  2 + fold_right (fun s n => String.length s + 2 + n) 0 l + 2 * (length l - 1).

(** The thresholds of a call are floats as well. *)
Definition float_call (c : Call) : Call :=
  match c with
  | MatchSimilar simplify_with auto single enforce distance limit =>
      MatchSimilar simplify_with auto single enforce
        (PyFloat.of_Q distance) (PyFloat.of_Q limit)
  | MatchComprehensive simplified => MatchComprehensive simplified
  | MatchSimilarWithManualSelection simplified distance limit =>
      MatchSimilarWithManualSelection simplified
        (PyFloat.of_Q distance) (PyFloat.of_Q limit)
  end.

Definition run_match_similar
  (list_for_matching list_to_be_matched_to : list string)
  (simplify_with : SimplifyWith)
  (auto_match_all single_match_only enforce_comprehensive_check : bool)
  (minimal_distance_for_automatic_matching similarity_limit_for_manual_checking : Q)
  (stdin : list string) : res Outcome :=
  match_similar py_ratio int_of_decimal 200 plain_list_str_len PyFloat.sub
    list_for_matching list_to_be_matched_to simplify_with
    auto_match_all single_match_only enforce_comprehensive_check
    (PyFloat.of_Q minimal_distance_for_automatic_matching)
    (PyFloat.of_Q similarity_limit_for_manual_checking) stdin.

Definition run_match_comprehensive := match_comprehensive py_ratio.

Definition run_match_similar_with_manual_selection
  (list_for_matching list_to_be_matched_to : list string)
  (simplified : Simplifier)
  (minimal_distance_for_automatic_matching similarity_limit_for_manual_checking : Q)
  (stdin : list string) : res Outcome :=
  match_similar_with_manual_selection py_ratio int_of_decimal 200 PyFloat.sub
    list_for_matching list_to_be_matched_to simplified
    (PyFloat.of_Q minimal_distance_for_automatic_matching)
    (PyFloat.of_Q similarity_limit_for_manual_checking) stdin.

Definition run_call (c : Call) :=
  call py_ratio int_of_decimal 200 plain_list_str_len PyFloat.sub (float_call c).

(** The form a label takes under the normalisation of [simplify_strings]. *)
Definition simplified_form (lower_case : bool) (simplifier : Simplifier)
  (label : string) : string :=
  match simplifier_class simplifier, lower_case with
  | Some cls, true => lower (strip cls label)
  | Some cls, false => strip cls label
  | None, true => lower label
  | None, false => label
  end.

(** The label or list held for a group of targets. *)
Definition pack (group : list string) : option Entry :=
  match group with
  | [] => None
  | [b] => Some (Single b)
  | _ => Some (Several group)
  end.

(** What holds of [(simplified, not_unique)] once the labels [seen] have
    been added: [form] is the normalisation applied to the keys. *)
Definition simplify_inv (form : string -> string) (seen : list string)
  (st : LabelDict * list string) : Prop :=
  (forall x, In x seen -> exists v, lget (form x) (fst st) = Some v)
  /\ (forall x v, In x seen -> lget (form x) (fst st) = Some v -> v <> x ->
                  In x (snd st) /\ In v (snd st))
  /\ (forall k v, lget k (fst st) = Some v -> In v seen /\ form v = k).

(** Every label recorded in [match] has left the source list and every
    target recorded for it has left the target list. *)
Definition consumed (st : MatchDict * list string * list string) : Prop :=
  let '(m, la, lb) := st in
  NoDup la /\ NoDup lb
  /\ forall a v, mget a m = Some v ->
       ~ In a la /\ forall b, In b (members v) -> ~ In b lb.

(** No element of the list is above its first. *)
Definition head_max (s : list Q) : Prop :=
  match s with
  | [] => True
  | top :: rest => forall k, In k rest -> (k <= top)%Q
  end.

(** After the targets [seen], the entry of a source label holds under
    every score the targets that reach it, as a label or as a list. *)
Definition groups_of (ratio : string -> string -> Q) (limit : Q) (a : string) (seen : list string) (entry : SimDict) : Prop :=
  forall q, qget q entry = pack (tied_at ratio limit a q seen).

(** ** Specification of the matching blocks *)

Module DifflibSpec.

Import Difflib.

(** An entry [(j, k)] of the row below [i]: the [k] elements that end at
    [a[i-1]] and at [b[j]] agree and lie inside the two windows. *)
Definition entry_ok (a b : list ascii) (alo blo i : nat) (e : nat * nat) : Prop :=
  let '(j, k) := e in
  1 <= k /\ alo + k <= i /\ blo + k <= j + 1
  /\ forall t, t < k -> nth (i - 1 - t) a zero = nth (j - t) b zero.

(** A block inside [a[alo:ahi]] and [b[blo:bhi]] whose elements agree. *)
Definition block_ok (a b : list ascii) (alo ahi blo bhi : nat) (m : Match) : Prop :=
  let '(i, j, k) := m in
  alo <= i /\ i + k <= ahi /\ blo <= j /\ j + k <= bhi
  /\ forall t, t < k -> nth (i + t) a zero = nth (j + t) b zero.

(** The number of elements of [a] that end at position [i] without a
    popular element among them: the length of the block that the rows find
    on the diagonal when [a] is compared with itself. *)
Fixpoint run (a : list ascii) (i : nat) : nat :=
  if popular a (nth i a zero) then 0
  else S (match i with
          | O => 0
          | S i' => run a i'
          end).

(** [run] one position earlier. *)
Definition run_before (a : list ascii) (i : nat) : nat :=
  match i with
  | O => 0
  | S i' => run a i'
  end.

Fixpoint ascending (l : list nat) : Prop :=
  match l with
  | [] => True
  | x :: r => (forall y, In y r -> x < y) /\ ascending r
  end.

(** What the row above [i] gives to the cells of row [i]. *)
Definition fetched (a : list ascii) (i : nat) (d : J2len) : Prop :=
  (forall j, j2lenget d j <= run_before a i /\ j2lenget d j <= run_before a j)
  /\ j2lenget d i = run_before a i.

(** The entries written in row [i]. *)
Definition written (a : list ascii) (i : nat) (d : J2len) : Prop :=
  (forall j k, In (j, k) d -> k <= run a i /\ k <= run a j)
  /\ (forall k, In (i, k) d -> k = run a i).

End DifflibSpec.

(** ** Calls that return *)

(** A computation that does not stop for want of fuel. *)
Definition in_time {A : Type} (c : res A) : Prop := c <> Raise OutOfFuel.

(** The shape of a call without normalisation that returns: the direct
    matches [m0], the two lists [la0] and [lb0] they leave, and the
    mapping [m] that the strategy makes of [m0]. *)
Inductive returns_plain (la lb : list string) (out : Outcome) : Prop :=
| returns_plain_intro (m0 : MatchDict) (la0 lb0 : list string) (m : MatchDict) :
    NoDup la -> NoDup lb ->
    direct_loop la ([], la, lb) = Ok (m0, la0, lb0) ->
    matched out = m ->
    (forall x, In x (mkeys m0) -> In x (mkeys m)) ->
    (forall x, ~ In x la0 -> mget x m = mget x m0) ->
    (forall x, In x (no_match out) <-> In x la0 /\ ~ In x (mkeys m)) ->
    returns_plain la lb out.

(** [_check_uniqueness_of_entries(data_set, name, raise_exception)] with
    either value of [raise_exception]. *)
Definition _check_uniqueness_of_entries_or_not (data_set : list string)
  (raise_exception : bool) : res bool :=
  if PyList.has_duplicates data_set
  then if raise_exception
       then Raise (ValueError (doubles_of data_set [] []))
       else Ok false
  else Ok true.

(** No target is recorded for two source labels. *)
Definition exclusive (m : MatchDict) : Prop :=
  forall a1 a2 v1 v2 b,
    mget a1 m = Some v1 -> mget a2 m = Some v2 ->
    In b (members v1) -> In b (members v2) -> a1 = a2.

(** ** Tables keyed by score

    [if similarity not in d: d[similarity] = list()] followed by
    [d[similarity].append(value)]. *)
Definition push {V : Type} (similarity : Q) (value : V) (d : Dict.t Q (list V))
  : Dict.t Q (list V) :=
  match Dict.get Qeq_bool similarity d with
  | Some l => Dict.set Qeq_bool similarity (l ++ [value]) d
  | None => Dict.set Qeq_bool similarity [value] d
  end.

(** Scores that are pairwise different. *)
Fixpoint apart (scores : list Q) : Prop :=
  match scores with
  | [] => True
  | k :: rest => (forall k', In k' rest -> Qeq_bool k k' = false) /\ apart rest
  end.

(** Scores in descending order. *)
Fixpoint descending (scores : list Q) : Prop :=
  match scores with
  | [] => True
  | k :: rest => (forall k', In k' rest -> (k' <= k)%Q) /\ descending rest
  end.

(** The values of a table with the score they are listed under. *)
Definition listed {V : Type} (d : Dict.t Q (list V)) : list (Q * V) :=
  flat_map (fun item => map (fun v => (fst item, v)) (snd item)) d.

(** ** The earlier [match_similar] of [src/aybasics/matching.py]

    The body is the one of [datesy.matching.match_similar] without the
    comprehensive check; instead of [all_similarities] it fills two
    tables keyed by target, which nothing reads afterwards.  The
    normalisation, the two matching loops and the translation back are
    the same statements and are modelled by the same functions. *)

Module Aybasics.

Section WithScore.

(** [SequenceMatcher(None, a, b).ratio()] *)
Variable ratio : string -> string -> Q.
Variable py_int : string -> option Z.
Variable window_width : nat.
Variable list_str_len : list string -> nat.
Variable py_sub : Q -> Q -> Q.

(** [similar(a, b)] *)
Definition similar (a b : string) : Q := ratio a b.

Record Scores : Type := mkScores {
  most_similar : MostSimilar;
  most_similar_reverse : MostSimilar;
  ordered_most_similar : Ordered;
  ordered_most_similar_reverse : Ordered
}.

(** The inner loop over [list_to_be_matched_to]. *)
Fixpoint score_targets (limit : Q) (entry_a : string)
  (list_to_be_matched_to : list string) (st : SimDict * MostSimilar)
  : SimDict * MostSimilar :=
  match list_to_be_matched_to with
  | [] => st
  | entry_b :: rest =>
      let '(entry, reverse) := st in
      let similarity := similar entry_a entry_b in
      if Qgtb similarity limit then
        let entry' := _check_for_unique_similarity similarity entry_b entry in
        let reverse1 :=
          match Dict.get String.eqb entry_b reverse with
          | Some _ => reverse
          | None => Dict.set String.eqb entry_b [] reverse
          end in
        let reverse2 :=
          match Dict.get String.eqb entry_b reverse1 with
          | Some e =>
              Dict.set String.eqb entry_b
                (_check_for_unique_similarity similarity entry_b e) reverse1
          | None => reverse1
          end in
        score_targets limit entry_a rest (entry', reverse2)
      else score_targets limit entry_a rest st
  end.

(** "creating the most similar entries" *)
Fixpoint score_sources (limit : Q)
  (list_for_matching list_to_be_matched_to : list string) (t : Scores)
  : Scores :=
  match list_for_matching with
  | [] => t
  | entry_a :: rest =>
      let '(entry, reverse) :=
        score_targets limit entry_a list_to_be_matched_to
          ([], most_similar_reverse t) in
      score_sources limit rest list_to_be_matched_to
        (mkScores
           (Dict.set String.eqb entry_a entry (most_similar t))
           reverse
           (Dict.set String.eqb entry_a (sort_desc (Dict.keys entry))
              (ordered_most_similar t))
           (ordered_most_similar_reverse t))
  end.

(** [for entry_b in most_similar_reverse: ...] *)
Definition order_reverse (t : Scores) : Scores :=
  mkScores (most_similar t) (most_similar_reverse t) (ordered_most_similar t)
    (fold_left
       (fun d item =>
          Dict.set String.eqb (fst item) (sort_desc (Dict.keys (snd item))) d)
       (most_similar_reverse t) (ordered_most_similar_reverse t)).

(** The two tables that the matching loops read. *)
Definition tables_read (t : Scores) : Tables :=
  mkTables (most_similar t) (ordered_most_similar t) [].

Definition match_similar
  (list_for_matching list_to_be_matched_to : list string)
  (simplify_with : SimplifyWith)
  (auto_match_all single_match_only : bool)
  (minimal_distance_for_automatic_matching similarity_limit_for_manual_checking : Q)
  (stdin : list string) : res Outcome :=
  if PyList.has_duplicates list_for_matching then Raise (ValueError []) else
  if negb single_match_only then Raise TypeError else
  if PyList.has_duplicates list_to_be_matched_to then Raise (ValueError []) else
  let '(dict_for_matching, dict_to_be_matched_to, la, lb) :=
    simplify_lists simplify_with list_for_matching list_to_be_matched_to in
  (* if direct matches *)
  ' (match0, la, lb) <- direct_loop la ([], la, lb) ;;
  (* creating the most similar entries *)
  let t := tables_read
             (order_reverse
                (score_sources similarity_limit_for_manual_checking la lb
                   (mkScores [] [] [] []))) in
  ' (match1, no_match1, la, lb, stdin) <-
      (if auto_match_all then
         ' (m, la', lb') <- greedy_loop t la (match0, la, lb) ;;
         Ok (m, difference la' m, la', lb', stdin)
       else
         ' (m, nm, stdin') <-
             interactive_loop py_int window_width list_str_len py_sub t
               minimal_distance_for_automatic_matching la (match0, [], stdin) ;;
         Ok (m, nm, la, lb, stdin')) ;;
  (* translating back to the original values *)
  match simplify_with with
  | SimplifyOff => Ok (mkOutcome match1 no_match1 la lb stdin)
  | _ =>
      match2 <- translate_match dict_for_matching dict_to_be_matched_to match1 [] ;;
      no_match2 <- translate_no_match dict_for_matching no_match1 [] ;;
      Ok (mkOutcome match2 no_match2 list_for_matching list_to_be_matched_to stdin)
  end.

End WithScore.

End Aybasics.

(** Every label recorded as a target is one of [targets]. *)
Definition within_targets (targets : list string) (m : MatchDict) : Prop :=
  forall a v b, mget a m = Some v -> In b (members v) -> In b targets.
(** The targets held by the tables of the manual-selection variant. *)
Definition sims_within (targets : list string) (sims : Similarities) : Prop :=
  forall a groups q l b,
    Dict.get String.eqb a sims = Some groups ->
    In (q, l) groups -> In b l -> In b targets.

(** The leading rows whose similarity is the highest: the rows that
    [tied_indexes] points at. *)
Fixpoint leading_rows (highest : Q) (df : list Row) : list Row :=
  match df with
  | [] => []
  | r :: rest =>
      if Qeq_bool highest (row_similarity r) then r :: leading_rows highest rest
      else []
  end.

(** The two labels of a row. *)
Definition ends (r : Row) : list string := [row_entry_a r; row_entry_b r].

(** ** A target that leads alone

    Among the [targets], [entry_b] alone has the highest score for
    [entry_a]; the next score is the one of [second]; and the float
    difference of the highest and the next score, as the code subtracts
    them, is above the distance.  (The next score is stored as the float
    of the first target that reached it.) *)
Definition leads_alone (ratio : string -> string -> Q) (py_sub : Q -> Q -> Q)
  (distance : Q) (targets : list string) (entry_a entry_b : string) : Prop :=
  In entry_b targets
  /\ exists second,
       In second targets
       /\ (ratio entry_a second < ratio entry_a entry_b)%Q
       /\ (forall b', In b' targets -> b' <> entry_b ->
             (ratio entry_a b' <= ratio entry_a second)%Q)
       /\ (forall b', In b' targets ->
             (ratio entry_a b' == ratio entry_a second)%Q ->
             (distance < py_sub (ratio entry_a entry_b) (ratio entry_a b'))%Q).

(** ** A target recorded as a match is not recorded afterwards

    The mapping lists its entries in the order in which they were
    written.  No entry that comes after the entry of a target recorded as
    a match by itself holds that target, as its match or in its list. *)
Definition kept_out_afterwards (m : MatchDict) : Prop :=
  forall pre a b post,
    m = pre ++ (a, VStr b) :: post ->
    forall a' v, In (a', v) post -> ~ In b (members v).

(** During the global greedy loop: a target recorded as a match by itself
    and a source label that has an entry have no row left in the frame,
    and the entries written so far keep such targets out afterwards. *)
Definition committed_in_order (df : list Row) (m : MatchDict) : Prop :=
  (forall a b, In (a, VStr b) m -> forall r, In r df -> row_entry_b r <> b)
  /\ (forall a, In a (mkeys m) -> forall r, In r df -> row_entry_a r <> a)
  /\ kept_out_afterwards m.

(** * Properties *)

Unset Implicit Arguments.

(** ** Lists and dictionaries *)

Lemma bind_Ok {A B : Type} (c : res A) (k : A -> res B) (b : B) :
  bind c k = Ok b -> exists a, c = Ok a /\ k a = Ok b.
Proof.
  destruct c as [a|e]; simpl; intros H; [exists a; auto | discriminate].
Qed.

Tactic Notation "inv_bind" hyp(H) :=
  let x := fresh "x" in
  let Hx := fresh "Hx" in
  apply bind_Ok in H; destruct H as (x & Hx & H).

Ltac inv_ok :=
  repeat match goal with
         | H : Ok _ = Ok _ |- _ => injection H as H; subst
         | H : Raise _ = Ok _ |- _ => discriminate H
         | H : (_, _) = (_, _) |- _ => injection H; clear H; intros; subst
         end.

Tactic Notation "inv_bind" hyp(H) "as" simple_intropattern(x) ident(Hx) :=
  apply bind_Ok in H; destruct H as (x & Hx & H).

Lemma mem_In (x : string) (l : list string) :
  PyList.mem x l = true <-> In x l.
Proof.
  unfold PyList.mem. rewrite existsb_exists. split.
  - intros (y & Hy & E). apply String.eqb_eq in E. now subst.
  - intros H. exists x. split; [assumption | apply String.eqb_refl].
Qed.

Lemma mem_false (x : string) (l : list string) :
  PyList.mem x l = false <-> ~ In x l.
Proof.
  rewrite <- mem_In. destruct (PyList.mem x l); split; intros; congruence.
Qed.

Ltac mem_to_In :=
  repeat match goal with
         | H : PyList.mem _ _ = true |- _ => apply mem_In in H
         | H : PyList.mem _ _ = false |- _ => apply mem_false in H
         end.

Lemma py_remove_In (x : string) (l l' : list string) :
  PyList.remove x l = Ok l' -> In x l /\ (forall y, In y l' -> In y l).
Proof.
  revert l'. induction l as [|y l IH]; simpl; intros l' H; [discriminate|].
  destruct (String.eqb x y) eqn:E.
  - apply String.eqb_eq in E. inv_ok. auto.
  - inv_bind H. inv_ok. destruct (IH _ Hx) as [H1 H2]. split; [auto|].
    intros z [->|Hz]; auto.
Qed.

Lemma py_remove_other (x y : string) (l l' : list string) :
  PyList.remove x l = Ok l' -> y <> x -> In y l -> In y l'.
Proof.
  revert l'. induction l as [|z l IH]; simpl; intros l' H Hne Hy; [discriminate|].
  destruct (String.eqb x z) eqn:E.
  - apply String.eqb_eq in E. inv_ok. destruct Hy; congruence.
  - inv_bind H. inv_ok. destruct Hy as [->|Hy]; [now left|right; eauto].
Qed.

Lemma py_remove_NoDup (x : string) (l l' : list string) :
  PyList.remove x l = Ok l' -> NoDup l -> NoDup l' /\ ~ In x l'.
Proof.
  revert l'. induction l as [|z l IH]; simpl; intros l' H Hnd; [discriminate|].
  inversion Hnd as [|? ? Hz Hl]; subst.
  destruct (String.eqb x z) eqn:E.
  - apply String.eqb_eq in E. inv_ok. auto.
  - inv_bind H. inv_ok. destruct (IH _ Hx Hl) as [H1 H2]. split.
    + constructor; [|assumption]. intros Hin.
      apply Hz. eapply py_remove_In; eauto.
    + intros [->|Hin]; [|auto]. rewrite String.eqb_refl in E. discriminate.
Qed.

Lemma py_remove_defined (x : string) (l : list string) :
  In x l -> exists l', PyList.remove x l = Ok l'.
Proof.
  induction l as [|z l IH]; simpl; intros H; [contradiction|].
  destruct (String.eqb x z) eqn:E; [eauto|].
  destruct H as [->|H]; [rewrite String.eqb_refl in E; discriminate|].
  destruct (IH H) as (l' & ->). simpl. eauto.
Qed.

Lemma to_set_In (x : string) (l : list string) :
  In x (PyList.to_set l) <-> In x l.
Proof.
  induction l as [|y l IH]; simpl; [tauto|].
  rewrite filter_In, IH. split.
  - intros [->|[H _]]; auto.
  - intros [->|H]; [now left|].
    destruct (String.eqb y x) eqn:E.
    + apply String.eqb_eq in E. now left.
    + right. split; [assumption | reflexivity].
Qed.

Lemma to_set_NoDup (l : list string) : NoDup (PyList.to_set l).
Proof.
  induction l as [|y l IH]; simpl; constructor.
  - rewrite filter_In. intros [_ H]. rewrite String.eqb_refl in H. discriminate.
  - now apply NoDup_filter.
Qed.

Lemma filter_length_eq {A : Type} (f : A -> bool) (l : list A) :
  length (filter f l) = length l -> forall x, In x l -> f x = true.
Proof.
  induction l as [|y l IH]; simpl; intros H x Hx; [contradiction|].
  pose proof (filter_length_le f l) as Hle.
  destruct (f y) eqn:E; simpl in H.
  - destruct Hx as [->|Hx]; [assumption | apply IH; [lia | assumption]].
  - lia.
Qed.

Lemma to_set_length (l : list string) :
  length (PyList.to_set l) <= length l.
Proof.
  induction l as [|y l IH]; simpl; [lia|].
  pose proof (filter_length_le (fun z => negb (String.eqb y z)) (PyList.to_set l)).
  lia.
Qed.

Lemma has_duplicates_false (l : list string) :
  PyList.has_duplicates l = false -> NoDup l.
Proof.
  unfold PyList.has_duplicates. rewrite negb_false_iff, Nat.eqb_eq.
  induction l as [|y l IH]; simpl; intros H; [constructor|].
  pose proof (filter_length_le (fun z => negb (String.eqb y z)) (PyList.to_set l)) as H1.
  pose proof (to_set_length l) as H2.
  constructor.
  - intros Hin. apply to_set_In in Hin.
    assert (E : (fun z => negb (String.eqb y z)) y = true)
      by (apply (@filter_length_eq _ (fun z => negb (String.eqb y z)) (PyList.to_set l));
          [lia | assumption]).
    simpl in E.
    rewrite String.eqb_refl in E. discriminate.
  - apply IH. lia.
Qed.

Lemma NoDup_has_duplicates (l : list string) :
  NoDup l -> PyList.has_duplicates l = false.
Proof.
  unfold PyList.has_duplicates. rewrite negb_false_iff, Nat.eqb_eq.
  induction 1 as [|y l Hy Hl IH]; simpl; [reflexivity|].
  f_equal. rewrite <- IH.
  clear IH. assert (Hy' : ~ In y (PyList.to_set l)) by now rewrite to_set_In.
  induction (PyList.to_set l) as [|z s IHs]; simpl; [reflexivity|].
  destruct (String.eqb y z) eqn:E.
  - apply String.eqb_eq in E. subst. exfalso. apply Hy'. now left.
  - simpl. f_equal. apply IHs. intros H. apply Hy'. now right.
Qed.

Lemma mget_mset (k k' : string) (v : MatchValue) (d : MatchDict) :
  mget k (mset k' v d) = if String.eqb k k' then Some v else mget k d.
Proof.
  unfold mget, mset. induction d as [|[k0 v0] d IH]; simpl.
  - reflexivity.
  - destruct (String.eqb k' k0) eqn:E1; simpl.
    + apply String.eqb_eq in E1. subst. destruct (String.eqb k k0); reflexivity.
    + destruct (String.eqb k k0) eqn:E2.
      * apply String.eqb_eq in E2. subst.
        rewrite String.eqb_sym, E1. reflexivity.
      * apply IH.
Qed.

Lemma mget_mset_same (k : string) (v : MatchValue) (d : MatchDict) :
  mget k (mset k v d) = Some v.
Proof. rewrite mget_mset, String.eqb_refl. reflexivity. Qed.

Lemma mget_mset_other (k k' : string) (v : MatchValue) (d : MatchDict) :
  k <> k' -> mget k (mset k' v d) = mget k d.
Proof.
  intros H. rewrite mget_mset. apply String.eqb_neq in H. now rewrite H.
Qed.

Lemma mget_In_keys (k : string) (d : MatchDict) :
  (exists v, mget k d = Some v) <-> In k (mkeys d).
Proof.
  unfold mget, mkeys, Dict.keys.
  induction d as [|[k0 v0] d IH]; simpl.
  - split; [intros (v & H); discriminate | contradiction].
  - destruct (String.eqb k k0) eqn:E.
    + apply String.eqb_eq in E. subst. split; eauto.
    + rewrite IH. apply String.eqb_neq in E. split; [auto|].
      intros [H|H]; [congruence | assumption].
Qed.

Lemma mhas_true (k : string) (d : MatchDict) :
  mhas k d = true <-> In k (mkeys d).
Proof.
  rewrite <- mget_In_keys. unfold mhas, Dict.has. fold (mget k d).
  destruct (mget k d); split; intros H; eauto; try discriminate.
  destruct H as (v & H). discriminate.
Qed.

Lemma mhas_false (k : string) (d : MatchDict) :
  mhas k d = false <-> ~ In k (mkeys d).
Proof.
  rewrite <- mhas_true. destruct (mhas k d); split; intros; congruence.
Qed.

Lemma mkeys_mset (k k' : string) (v : MatchValue) (d : MatchDict) :
  In k (mkeys (mset k' v d)) <-> k = k' \/ In k (mkeys d).
Proof.
  rewrite <- !mget_In_keys, mget_mset.
  destruct (String.eqb k k') eqn:E.
  - apply String.eqb_eq in E. subst. split; eauto.
  - apply String.eqb_neq in E. split; [auto|]. intros [H|H]; [congruence|assumption].
Qed.

Lemma difference_In (x : string) (l : list string) (d : MatchDict) :
  In x (difference l d) <-> In x l /\ ~ In x (mkeys d).
Proof.
  unfold difference. rewrite filter_In, to_set_In, negb_true_iff, mhas_false.
  tauto.
Qed.

(** ** Direct matches *)

Lemma py_remove_iff (x : string) (l l' : list string) :
  PyList.remove x l = Ok l' -> NoDup l ->
  forall y, In y l' <-> In y l /\ y <> x.
Proof.
  intros H Hnd y. destruct (py_remove_NoDup _ _ _ H Hnd) as [_ Hx].
  destruct (py_remove_In _ _ _ H) as [_ Hsub]. split.
  - intros Hy. split; [auto|]. intros ->. contradiction.
  - intros [Hy Hne]. eapply py_remove_other; eauto.
Qed.

Lemma direct_loop_spec (copy : list string) :
  forall (m : MatchDict) (la lb : list string) m' la' lb',
    direct_loop copy (m, la, lb) = Ok (m', la', lb') ->
    NoDup la -> NoDup lb -> NoDup copy ->
    NoDup la' /\ NoDup lb'
    /\ (forall x, In x la' <-> In x la /\ ~ (In x copy /\ In x lb))
    /\ (forall x, In x lb' <-> In x lb /\ ~ In x copy)
    /\ (forall x, mget x m' =
                  if PyList.mem x copy && PyList.mem x lb
                  then Some (VStr x) else mget x m).
Proof.
  induction copy as [|e rest IH]; simpl; intros m la lb m' la' lb' H Hla Hlb Hc.
  - inv_ok. repeat split; auto; try tauto.
  - inversion Hc as [|? ? He Hrest]; subst.
    destruct (PyList.mem e lb) eqn:E.
    + inv_bind H. rename x into l1. inv_bind H. rename x into l2.
      apply mem_In in E.
      destruct (py_remove_NoDup _ _ _ Hx Hla) as [Hl1 _].
      destruct (py_remove_NoDup _ _ _ Hx0 Hlb) as [Hl2 _].
      pose proof (py_remove_iff _ _ _ Hx Hla) as R1.
      pose proof (py_remove_iff _ _ _ Hx0 Hlb) as R2.
      destruct (IH _ _ _ _ _ _ H Hl1 Hl2 Hrest) as (N1 & N2 & A & B & C).
      split; [assumption|]. split; [assumption|]. split; [|split].
      * intros x. rewrite A, R1, R2.
        destruct (string_dec e x) as [->|Hne]; [tauto|].
        assert (x <> e) by congruence. tauto.
      * intros x. rewrite B, R2.
        destruct (string_dec e x) as [->|Hne]; [tauto|].
        assert (x <> e) by congruence. tauto.
      * intros x. rewrite C. rewrite mget_mset.
        destruct (String.eqb x e) eqn:Exe.
        -- apply String.eqb_eq in Exe. subst x.
           assert (PyList.mem e lb = true) as -> by now apply mem_In.
           simpl.
           destruct (PyList.mem e rest && PyList.mem e l2); reflexivity.
        -- simpl.
           assert (PyList.mem x l2 = PyList.mem x lb) as ->; [|reflexivity].
           apply String.eqb_neq in Exe.
           destruct (PyList.mem x lb) eqn:E1.
           ++ apply mem_In. apply R2. apply mem_In in E1. tauto.
           ++ apply mem_false. apply mem_false in E1. rewrite R2. tauto.
    + apply mem_false in E.
      destruct (IH _ _ _ _ _ _ H Hla Hlb Hrest) as (N1 & N2 & A & B & C).
      split; [assumption|]. split; [assumption|]. split; [|split].
      * intros x. rewrite A.
        destruct (string_dec e x) as [->|Hne]; tauto.
      * intros x. rewrite B.
        destruct (string_dec e x) as [->|Hne]; tauto.
      * intros x. rewrite C. destruct (String.eqb x e) eqn:Exe; simpl; [|reflexivity].
        apply String.eqb_eq in Exe. subst x.
        assert (PyList.mem e lb = false) as -> by now apply mem_false.
        rewrite andb_false_r. reflexivity.
Qed.

(** ** Normalisation *)

Lemma sget_sset {V : Type} (k k' : string) (v : V) (d : Dict.t string V) :
  Dict.get String.eqb k (Dict.set String.eqb k' v d) =
  if String.eqb k k' then Some v else Dict.get String.eqb k d.
Proof.
  induction d as [|[k0 v0] d IH]; simpl.
  - reflexivity.
  - destruct (String.eqb k' k0) eqn:E1; simpl.
    + apply String.eqb_eq in E1. subst. destruct (String.eqb k k0); reflexivity.
    + destruct (String.eqb k k0) eqn:E2.
      * apply String.eqb_eq in E2. subst.
        rewrite String.eqb_sym, E1. reflexivity.
      * apply IH.
Qed.

Lemma lget_lset (k k' v : string) (d : LabelDict) :
  lget k (lset k' v d) = if String.eqb k k' then Some v else lget k d.
Proof. apply sget_sset. Qed.

Lemma set_add_In (x y : string) (s : list string) :
  In x (PyList.set_add y s) <-> x = y \/ In x s.
Proof.
  unfold PyList.set_add. destruct (PyList.mem y s) eqn:E.
  - apply mem_In in E. split; [auto|]. intros [->|H]; assumption.
  - rewrite in_app_iff. simpl. split; intros H; firstorder congruence.
Qed.

Lemma add_to_simplified_inv (form : string -> string) (seen : list string)
  (key : string) (st : LabelDict * list string) :
  simplify_inv form seen st ->
  simplify_inv form (seen ++ [key]) (add_to_simplified (form key) key st).
Proof.
  destruct st as [simplified not_unique]. intros (A & B & C).
  unfold add_to_simplified. destruct (lget (form key) simplified) as [first|] eqn:E.
  - split; [|split]; cbn [fst snd] in *.
    + intros x Hx. apply in_app_iff in Hx. destruct Hx as [Hx|[<-|[]]]; eauto.
    + intros x v Hx Hv Hne. apply in_app_iff in Hx. rewrite !set_add_In.
      destruct Hx as [Hx|[<-|[]]].
      * destruct (B x v Hx Hv Hne). auto.
      * split; [now left|]. right. left. congruence.
    + intros k v Hv. destruct (C k v Hv). split; [|assumption].
      apply in_app_iff. now left.
  - assert (fresh : forall x, In x seen -> form x <> form key).
    { intros x Hx Heq. destruct (A x Hx) as (v & Hv). cbn [fst] in Hv. congruence. }
    split; [|split]; cbn [fst snd] in *.
    + intros x Hx. rewrite lget_lset. apply in_app_iff in Hx.
      destruct Hx as [Hx|[<-|[]]].
      * destruct (String.eqb (form x) (form key)); eauto.
      * rewrite String.eqb_refl. eauto.
    + intros x v Hx Hv Hne. rewrite lget_lset in Hv. apply in_app_iff in Hx.
      destruct Hx as [Hx|[<-|[]]].
      * apply fresh in Hx as Hf. apply String.eqb_neq in Hf. rewrite Hf in Hv.
        eapply B; eauto.
      * rewrite String.eqb_refl in Hv. congruence.
    + intros k v Hv. rewrite lget_lset in Hv. rewrite in_app_iff.
      destruct (String.eqb k (form key)) eqn:Ek.
      * injection Hv as <-. apply String.eqb_eq in Ek. split; [right; now left | congruence].
      * destruct (C k v Hv). auto.
Qed.

Lemma simplify_loop_inv (lower_case : bool) (simplifier : Simplifier)
  (to_simplify : list string) :
  lower_case = true \/ simplifier <> SimplifierOff ->
  forall seen st,
    simplify_inv (simplified_form lower_case simplifier) seen st ->
    exists st',
      simplify_loop lower_case (simplifier_class simplifier) to_simplify st = Ok st'
      /\ simplify_inv (simplified_form lower_case simplifier) (seen ++ to_simplify) st'.
Proof.
  intros some_policy.
  induction to_simplify as [|key rest IH]; intros seen st Hinv; simpl.
  - exists st. rewrite app_nil_r. auto.
  - assert (Hstep := add_to_simplified_inv _ seen key st Hinv).
    replace (seen ++ key :: rest) with ((seen ++ [key]) ++ rest)
      by (rewrite <- app_assoc; reflexivity).
    unfold simplified_form in Hstep at 2.
    destruct (simplifier_class simplifier) as [cls|] eqn:Ecls;
      destruct lower_case eqn:El; try (apply IH; exact Hstep).
    exfalso. destruct some_policy as [?|Hs]; [discriminate|].
    destruct simplifier; simpl in Ecls; congruence.
Qed.

Lemma simplify_strings_inv (lower_case : bool) (simplifier : Simplifier)
  (to_simplify : list string) :
  lower_case = true \/ simplifier <> SimplifierOff ->
  exists st,
    simplify_loop lower_case (simplifier_class simplifier) to_simplify ([], []) = Ok st
    /\ simplify_inv (simplified_form lower_case simplifier) to_simplify st.
Proof.
  intros some_policy.
  apply (simplify_loop_inv lower_case simplifier to_simplify some_policy [] ([], [])).
  split; [|split]; cbn [fst snd]; [intros x [] | intros x v [] | intros k v H; discriminate].
Qed.

Lemma add_to_simplified_names (form : string -> string) (seen : list string)
  (key : string) (st : LabelDict * list string) :
  simplify_inv form seen st ->
  (forall n, In n (snd st) -> In n seen) ->
  forall n, In n (snd (add_to_simplified (form key) key st)) -> In n (seen ++ [key]).
Proof.
  destruct st as [simplified not_unique]. intros (_ & _ & C) Hn n.
  unfold add_to_simplified. cbn [fst snd] in *. rewrite in_app_iff.
  destruct (lget (form key) simplified) as [first|] eqn:E; cbn [snd].
  - rewrite !set_add_In. intros [->|[->|H]].
    + right. now left.
    + left. apply (C _ _ E).
    + left. now apply Hn.
  - intros H. left. now apply Hn.
Qed.

(** The set [not_unique] holds labels of the collection only. *)
Lemma simplify_loop_names (lower_case : bool) (simplifier : Simplifier)
  (to_simplify : list string) :
  forall seen st st',
    simplify_inv (simplified_form lower_case simplifier) seen st ->
    (forall n, In n (snd st) -> In n seen) ->
    simplify_loop lower_case (simplifier_class simplifier) to_simplify st = Ok st' ->
    forall n, In n (snd st') -> In n (seen ++ to_simplify).
Proof.
  induction to_simplify as [|key rest IH]; intros seen st st' Hinv Hn H; simpl in H.
  - inv_ok. rewrite app_nil_r. exact Hn.
  - assert (Hstep := add_to_simplified_inv _ seen key st Hinv).
    assert (Hnames := add_to_simplified_names _ seen key st Hinv Hn).
    replace (seen ++ key :: rest) with ((seen ++ [key]) ++ rest)
      by (rewrite <- app_assoc; reflexivity).
    unfold simplified_form in Hstep at 2, Hnames.
    destruct (simplifier_class simplifier) as [cls|] eqn:Ecls;
      destruct lower_case eqn:El; try discriminate;
      exact (IH _ _ _ Hstep Hnames H).
Qed.

(** C8, as amended: when the normalisation maps two different labels of
    the collection to one form, [simplify_strings] raises a [ValueError]
    whose message names both labels; and all it names are labels of the
    collection (it prints the set of the labels that collided, not the
    form they share). *)
Theorem simplify_strings_names_collisions
  (to_simplify : list string) (lower_case : bool) (simplifier : Simplifier)
  (x y : string) :
  lower_case = true \/ simplifier <> SimplifierOff ->
  In x to_simplify -> In y to_simplify -> x <> y ->
  simplified_form lower_case simplifier x = simplified_form lower_case simplifier y ->
  exists named,
    simplify_strings to_simplify lower_case simplifier = Raise (ValueError named)
    /\ In x named /\ In y named
    /\ forall n, In n named -> In n to_simplify.
Proof.
  intros some_policy Hx Hy Hne Hform.
  destruct (simplify_strings_inv lower_case simplifier to_simplify some_policy)
    as ([simplified not_unique] & Hloop & A & B & C).
  assert (Hnames : forall n, In n not_unique -> In n to_simplify).
  { apply (simplify_loop_names lower_case simplifier to_simplify []
             ([], []) (simplified, not_unique)); [|intros n [] | exact Hloop].
    split; [|split]; cbn [fst snd];
      [intros z [] | intros z v [] | intros k v H; discriminate]. }
  cbn [fst snd] in *.
  assert (Hin : In x not_unique /\ In y not_unique).
  { destruct (A x Hx) as (v & Hv).
    destruct (string_dec v x) as [->|Hvx].
    - assert (Hvy : lget (simplified_form lower_case simplifier y) simplified = Some x)
        by congruence.
      destruct (B y x Hy Hvy Hne). auto.
    - destruct (B x v Hx Hv Hvx) as [H1 H2]. split; [assumption|].
      destruct (string_dec v y) as [->|Hvy]; [assumption|].
      assert (Hv' : lget (simplified_form lower_case simplifier y) simplified = Some v)
        by congruence.
      destruct (B y v Hy Hv' Hvy). assumption. }
  unfold simplify_strings. rewrite Hloop. simpl.
  destruct not_unique as [|n rest]; [destruct Hin as [[] _]|].
  eexists. split; [reflexivity|]. destruct Hin as [H1 H2]. auto.
Qed.

Lemma simplify_strings_names_collisions_witness :
  exists named,
    simplify_strings ["A_b"; "c"; "a-b"] true SimplifierStandard = Raise (ValueError named)
    /\ In "A_b" named /\ In "a-b" named
    /\ forall n, In n named -> In n ["A_b"; "c"; "a-b"].
Proof.
  apply (simplify_strings_names_collisions ["A_b"; "c"; "a-b"] true SimplifierStandard
           "A_b" "a-b").
  - left. reflexivity.
  - simpl. auto.
  - simpl. auto.
  - discriminate.
  - reflexivity.
Defined.

(** C8, as stated, fails: the message names the two labels that collided
    and not the normalised key ["ab"] they share. *)
Lemma simplify_strings_omits_key :
  simplified_form true SimplifierStandard "A_b" = "ab"
  /\ simplified_form true SimplifierStandard "a-b" = "ab"
  /\ simplify_strings ["A_b"; "a-b"] true SimplifierStandard
     = Raise (ValueError ["A_b"; "a-b"])
  /\ ~ In "ab" ["A_b"; "a-b"].
Proof.
  repeat split; try reflexivity.
  simpl. intros [H|[H|[]]]; discriminate.
Qed.

(** The normalised key is named when it is one of the labels that
    collided: ["ab"] is the form of ["A_b"] and of itself. *)
Lemma simplify_strings_names_key_that_is_a_label :
  simplified_form true SimplifierStandard "A_b" = "ab"
  /\ simplified_form true SimplifierStandard "ab" = "ab"
  /\ simplify_strings ["ab"; "A_b"] true SimplifierStandard
     = Raise (ValueError ["ab"; "A_b"]).
Proof. repeat split; reflexivity. Qed.

(** ** Translating back *)

Lemma fold_lset_values (form : string -> string) (labels : list string) :
  forall (d : LabelDict) k v,
    lget k (fold_left (fun d value => lset (form value) value d) labels d) = Some v ->
    (In v labels /\ form v = k) \/ lget k d = Some v.
Proof.
  induction labels as [|x rest IH]; simpl; intros d k v H; [now right|].
  apply IH in H. destruct H as [[H1 H2]|H]; [left; auto|].
  rewrite lget_lset in H. destruct (String.eqb k (form x)) eqn:E; [|now right].
  injection H as <-. apply String.eqb_eq in E. left. auto.
Qed.

Lemma lower_dict_values (labels : list string) (k v : string) :
  lget k (lower_dict labels) = Some v -> In v labels /\ lower v = k.
Proof.
  intros H. apply fold_lset_values in H. destruct H as [H|H]; [assumption|discriminate].
Qed.

Lemma stripped_dict_values (labels : list string) (k v : string) :
  lget k (stripped_dict labels) = Some v ->
  In v labels /\ strip is_standard_separator v = k.
Proof.
  intros H. apply (fold_lset_values (strip is_standard_separator)) in H.
  destruct H as [H|H]; [assumption|discriminate].
Qed.

Lemma simplify_strings_values (labels : list string) (simplifier : Simplifier)
  (d : LabelDict) (k v : string) :
  simplify_strings labels true simplifier = Ok d ->
  lget k d = Some v -> In v labels /\ simplified_form true simplifier v = k.
Proof.
  intros H Hk.
  destruct (simplify_strings_inv true simplifier labels (or_introl eq_refl))
    as ([simplified not_unique] & Hloop & A & B & C).
  unfold simplify_strings in H. rewrite Hloop in H. simpl in H.
  destruct not_unique; [|discriminate]. inv_ok. apply (C k v Hk).
Qed.

Lemma translate_match_keys (dict_for_matching dict_to_be_matched_to : LabelDict)
  (items : MatchDict) :
  forall acc m, translate_match dict_for_matching dict_to_be_matched_to items acc = Ok m ->
    forall k, In k (mkeys m) ->
      In k (mkeys acc) \/ exists key, lget key dict_for_matching = Some k.
Proof.
  induction items as [|[key value] rest IH]; simpl; intros acc m H k Hk.
  - inv_ok. now left.
  - inv_bind H. rename x into key'. inv_bind H. rename x into value'.
    destruct (IH _ _ H k Hk) as [Hin|Hex]; [|now right].
    apply mkeys_mset in Hin. destruct Hin as [->|Hin]; [right|now left].
    exists key. destruct (lget key dict_for_matching); simpl in Hx; congruence.
Qed.

Lemma translate_no_match_In (dict_for_matching : LabelDict) (no_match : list string) :
  forall acc s, translate_no_match dict_for_matching no_match acc = Ok s ->
    forall k, In k s -> In k acc \/ exists key, lget key dict_for_matching = Some k.
Proof.
  induction no_match as [|key rest IH]; simpl; intros acc s H k Hk.
  - inv_ok. now left.
  - inv_bind H. rename x into key'.
    destruct (IH _ _ H k Hk) as [Hin|Hex]; [|now right].
    apply set_add_In in Hin. destruct Hin as [->|Hin]; [right|now left].
    exists key. destruct (lget key dict_for_matching); simpl in Hx; congruence.
Qed.

Section RoundTrip.

Variable ratio : string -> string -> Q.
Variable py_int : string -> option Z.
Variable window_width : nat.
Variable list_str_len : list string -> nat.
Variable py_sub : Q -> Q -> Q.

Lemma translated_outcome (dict_for_matching dict_to_be_matched_to : LabelDict)
  (list_for_matching : list string) (m1 : MatchDict) (nm1 : list string)
  (m2 : MatchDict) (nm2 : list string) :
  (forall k v, lget k dict_for_matching = Some v -> In v list_for_matching) ->
  translate_match dict_for_matching dict_to_be_matched_to m1 [] = Ok m2 ->
  translate_no_match dict_for_matching nm1 [] = Ok nm2 ->
  (forall k, In k (mkeys m2) -> In k list_for_matching)
  /\ (forall k, In k nm2 -> In k list_for_matching).
Proof.
  intros Hd H1 H2. split; intros k Hk.
  - destruct (translate_match_keys _ _ _ _ _ H1 k Hk) as [[]|(key & Hkey)]. eauto.
  - destruct (translate_no_match_In _ _ _ _ H2 k Hk) as [[]|(key & Hkey)]. eauto.
Qed.

Lemma simplify_both_values (simplified : Simplifier)
  (list_for_matching list_to_be_matched_to : list string)
  (d1 d2 : LabelDict) (la lb : list string) :
  simplify_both simplified list_for_matching list_to_be_matched_to = Ok (d1, d2, la, lb) ->
  simplified <> SimplifierOff ->
  (forall k v, lget k d1 = Some v -> In v list_for_matching).
Proof.
  intros H Hs k v Hk. unfold simplify_both in H.
  destruct simplified; [congruence| |];
    (inv_bind H; inv_bind H; inv_bind H; inv_bind H; inv_ok;
     eapply simplify_strings_values; eauto).
Qed.

Lemma translate_back_keys (simplified : Simplifier)
  (d1 d2 : LabelDict) (list_for_matching list_to_be_matched_to : list string)
  (m1 : MatchDict) (nm1 la lb stdin : list string) (out : Outcome) :
  translate_back simplified d1 d2 list_for_matching list_to_be_matched_to
    m1 nm1 la lb stdin = Ok out ->
  simplified <> SimplifierOff ->
  (forall k v, lget k d1 = Some v -> In v list_for_matching) ->
  (forall k, In k (mkeys (matched out)) -> In k list_for_matching)
  /\ (forall k, In k (no_match out) -> In k list_for_matching).
Proof.
  intros H Hs Hd. unfold translate_back in H.
  destruct simplified; [congruence| |];
    (inv_bind H; inv_bind H; inv_ok; simpl; eapply translated_outcome; eauto).
Qed.

(** C7: when a call asks for a normalisation and returns, every key of the
    returned mapping and every element of the returned set of unmatched
    labels is a label of the original [list_for_matching]. *)
Theorem normalization_round_trip (c : Call)
  (list_for_matching list_to_be_matched_to stdin : list string) (out : Outcome) :
  simplifies c = true ->
  call ratio py_int window_width list_str_len py_sub c
    list_for_matching list_to_be_matched_to stdin = Ok out ->
  (forall k, In k (mkeys (matched out)) -> In k list_for_matching)
  /\ (forall k, In k (no_match out) -> In k list_for_matching).
Proof.
  intros Hn H. destruct c as [sw auto single enforce dist limit | simplified
                             | simplified dist limit]; simpl in H.
  - unfold match_similar in H.
    destruct (PyList.has_duplicates list_for_matching); [discriminate|].
    destruct (negb single); [discriminate|].
    destruct (PyList.has_duplicates list_to_be_matched_to); [discriminate|].
    destruct (simplify_lists sw list_for_matching list_to_be_matched_to)
      as [[[d1 d2] la] lb] eqn:Es.
    inv_bind H. destruct x as [[m0 la0] lb0].
    inv_bind H. destruct x as [[[[m1 nm1] la1] lb1] stdin1].
    assert (Hd : forall k v, lget k d1 = Some v -> In v list_for_matching).
    { intros k v Hk. unfold simplify_lists in Es.
      destruct sw; inv_ok; try discriminate;
        solve [ eapply lower_dict_values; eauto
              | eapply stripped_dict_values; eauto ]. }
    destruct sw; try discriminate;
      (inv_bind H; inv_bind H; inv_ok; simpl; eapply translated_outcome; eauto).
  - unfold match_comprehensive in H.
    inv_bind H. inv_bind H. inv_bind H. destruct x1 as [[[d1 d2] la] lb].
    inv_bind H. destruct x1 as [[m0 la0] lb0]. inv_bind H.
    assert (Hs : simplified <> SimplifierOff) by (intros ->; discriminate).
    eapply translate_back_keys; eauto. eapply simplify_both_values; eauto.
  - unfold match_similar_with_manual_selection in H.
    inv_bind H. inv_bind H. inv_bind H. destruct x1 as [[[d1 d2] la] lb].
    inv_bind H. destruct x1 as [[m0 la0] lb0]. inv_bind H.
    destruct x1 as [[sims m1] stdin1].
    assert (Hs : simplified <> SimplifierOff) by (intros ->; discriminate).
    eapply translate_back_keys; eauto. eapply simplify_both_values; eauto.
Qed.

End RoundTrip.

Lemma normalization_round_trip_witness :
  exists out,
    run_call (MatchSimilar SimplifyCapital true true false (1#10) (6#10))
      ["Apple"; "Oranje"; "xyz"] ["APPLE"; "orange"] [] = Ok out
    /\ (forall k, In k (mkeys (matched out)) -> In k ["Apple"; "Oranje"; "xyz"])
    /\ (forall k, In k (no_match out) -> In k ["Apple"; "Oranje"; "xyz"]).
Proof.
  eexists. split; [vm_compute; reflexivity|].
  apply (normalization_round_trip py_ratio int_of_decimal 200 plain_list_str_len PyFloat.sub
           (MatchSimilar SimplifyCapital true true false (PyFloat.of_Q (1#10)) (PyFloat.of_Q (6#10)))
           ["Apple"; "Oranje"; "xyz"] ["APPLE"; "orange"] []).
  - reflexivity.
  - vm_compute. reflexivity.
Defined.

(** ** The manual-selection variant *)

Section ManualSelection.

Variable py_int : string -> option Z.
Variable window_width : nat.
Variable py_sub : Q -> Q -> Q.

(** The round of a label whose top score has one target and leads the
    second score by more than the distance: no answer is read. *)
Lemma manual_step_automatic
  (minimal_distance : Q) (entry_a : string) (similarities : Similarities)
  (matched : MatchDict) (stdin : list string)
  (groups : GroupDict) (s0 s1 : Q) (rest : list Q) (b : string) :
  Dict.get String.eqb entry_a similarities = Some groups ->
  Dict.keys groups = s0 :: s1 :: rest ->
  gget s0 groups = Some [b] ->
  Qgtb (py_sub s0 s1) minimal_distance = true ->
  exists similarities',
    manual_step py_int window_width py_sub minimal_distance entry_a
      (similarities, matched, stdin)
    = Ok (similarities', mset entry_a (VStr b) matched, stdin)
    /\ forall other, other <> entry_a ->
         Dict.get String.eqb other similarities'
         = Dict.get String.eqb other similarities.
Proof.
  intros Hg Hk Htop Hgap. unfold manual_step. rewrite Hg. simpl.
  rewrite Hk. simpl. rewrite Hgap. simpl. rewrite Htop. simpl.
  eexists. split; [reflexivity|].
  intros other Hne. rewrite sget_sset.
  apply String.eqb_neq in Hne. now rewrite Hne.
Qed.

End ManualSelection.

(** C9, as stated, fails: ["abcd"] is chosen for ["abcdx"] without a
    prompt and is chosen again, without a prompt, for the later label
    ["abcdy"]. *)
Lemma manual_selection_reuses_target :
  run_match_similar_with_manual_selection
    ["abcdx"; "abcdy"] ["abcd"; "zzzz"] SimplifierOff (1#10) (6#10) []
  = Ok (mkOutcome [("abcdx", VStr "abcd"); ("abcdy", VStr "abcd")] []
          ["abcdx"; "abcdy"] ["abcd"; "zzzz"] []).
Proof. vm_compute. reflexivity. Qed.

(** ** Runs on concrete labels *)

(** C1 at a failing input: with [simplify_with="capital"] the labels
    ["Ab"] and ["aB"] share one lower-case form, no error is raised, and
    ["Ab"] is returned neither as a key of the mapping nor as unmatched. *)
Theorem match_similar_loses_label :
  exists out,
    run_match_similar ["Ab"; "aB"] [] SimplifyCapital true true false (1#10) (6#10) []
    = Ok out
    /\ ~ In "Ab" (mkeys (matched out)) /\ ~ In "Ab" (no_match out).
Proof.
  eexists. split; [vm_compute; reflexivity|]. simpl.
  split; [tauto|]. intros [H|[]]. discriminate.
Qed.

(** C2 at a failing input: with [simplify_with="capital"] the source label
    ["Apple"], equal to the target ["Apple"], is matched to the other target
    ["APPLE"] that shares its lower-case form. *)
Theorem match_similar_misses_identical_target :
  exists out,
    run_match_similar ["Apple"] ["Apple"; "APPLE"] SimplifyCapital
      true true false (1#10) (6#10) [] = Ok out
    /\ mget "Apple" (matched out) = Some (VStr "APPLE").
Proof. eexists. split; vm_compute; reflexivity. Qed.

(** The example of C2 itself. *)
Example direct_match_example :
  run_match_similar ["Apple"] ["Apple"; "Apply"] SimplifyOff
    true true false (1#10) (6#10) []
  = Ok (mkOutcome [("Apple", VStr "Apple")] [] [] ["Apply"] []).
Proof. vm_compute. reflexivity. Qed.

(** C3, as stated, fails: [match_comprehensive] has no floor and matches
    ["abc"] to ["xyz"], a pair of score 0. *)
Lemma match_comprehensive_matches_below_floor :
  run_match_comprehensive ["abc"] ["xyz"] SimplifierOff
  = Ok (mkOutcome [("abc", VStr "xyz")] [] ["abc"] ["xyz"] [])
  /\ Qle_bool (py_ratio "abc" "xyz") (PyFloat.of_Q (6#10)) = true.
Proof. split; vm_compute; reflexivity. Qed.

(** C4, as stated, fails: the global greedy mode of [match_similar] records
    a list for ["abcdx"], whose only candidate above the floor is
    ["abcd"]. *)
Lemma global_greedy_records_list :
  run_match_similar ["abcdx"; "abcdy"; "mnop"] ["abcd"; "mnopx"; "mnopy"]
    SimplifyOff true true true (1#10) (6#10) []
  = Ok (mkOutcome
          [("abcdx", VList ["mnopx"; "mnopy"]); ("mnop", VList ["mnopx"; "mnopy"])]
          ["abcdy"] ["abcdx"; "abcdy"; "mnop"] ["abcd"; "mnopx"; "mnopy"] [])
  /\ entry_of py_ratio (PyFloat.of_Q (6#10)) "abcdx" ["abcd"; "mnopx"; "mnopy"]
     = [(PyFloat.of_Q (8#9), Single "abcd")].
Proof. split; vm_compute; reflexivity. Qed.

(** C5, as stated, fails: ["abcdy"] is recorded in the list of ["abcd"] and
    afterwards as the match of ["abcdyzz"], in [match_similar] with the
    comprehensive check and in [match_comprehensive]. *)
Lemma global_greedy_reuses_listed_target :
  run_match_similar ["abcd"; "abcdyzz"] ["abcdx"; "abcdy"]
    SimplifyOff true true true (1#10) (6#10) []
  = Ok (mkOutcome
          [("abcd", VList ["abcdx"; "abcdy"]); ("abcdyzz", VStr "abcdy")]
          [] ["abcd"; "abcdyzz"] ["abcdx"; "abcdy"] [])
  /\ run_match_comprehensive ["abcd"; "abcdyzz"] ["abcdx"; "abcdy"] SimplifierOff
     = Ok (mkOutcome
             [("abcd", VList ["abcdx"; "abcdy"]); ("abcdyzz", VStr "abcdy")]
             [] ["abcd"; "abcdyzz"] ["abcdx"; "abcdy"] []).
Proof. split; vm_compute; reflexivity. Qed.

(** C6, as stated, fails: the score depends on the order of its
    arguments. *)
Lemma ratio_not_symmetric :
  Difflib.ratio "tide" "diet" = 2 # 8
  /\ Difflib.ratio "diet" "tide" = 4 # 8
  /\ ~ Difflib.ratio "tide" "diet" == Difflib.ratio "diet" "tide".
Proof.
  split; [vm_compute; reflexivity|]. split; [vm_compute; reflexivity|].
  intros H. vm_compute in H. discriminate.
Qed.

(** C10, as stated, fails: when a normalisation is asked for, the lists of
    the caller still hold the matched label after the call. *)
Lemma match_similar_keeps_lists_when_simplifying :
  run_match_similar ["Apple"] ["Apple"] SimplifyCapital true true false (1#10) (6#10) []
  = Ok (mkOutcome [("Apple", VStr "Apple")] [] ["Apple"] ["Apple"] []).
Proof. vm_compute. reflexivity. Qed.

(** ** [match_similar] without normalisation *)

Lemma remove_each_spec (l : list string) :
  forall lb l2, remove_each l lb = Ok l2 -> NoDup lb ->
    NoDup l2 /\ (forall x, In x l2 -> In x lb) /\ (forall b, In b l -> ~ In b l2).
Proof.
  induction l as [|b rest IH]; simpl; intros lb l2 H Hnd.
  - inv_ok. repeat split; auto.
  - inv_bind H as l1 Hx.
    destruct (py_remove_NoDup _ _ _ Hx Hnd) as [Hl1 Hb].
    destruct (py_remove_In _ _ _ Hx) as [_ Hsub].
    destruct (IH _ _ H Hl1) as (N & S & A).
    split; [assumption|]. split; [auto|].
    intros b' [<-|Hb'] Hin; [apply Hb; auto | eapply A; eauto].
Qed.

Lemma direct_matches_spec (la lb : list string) (m0 : MatchDict) (la0 lb0 : list string) :
  direct_loop la ([], la, lb) = Ok (m0, la0, lb0) ->
  NoDup la -> NoDup lb ->
  NoDup la0 /\ NoDup lb0
  /\ (forall x, In x la0 <-> In x la /\ ~ In x lb)
  /\ (forall x, In x lb0 <-> In x lb /\ ~ In x la)
  /\ (forall x v, mget x m0 = Some v <-> In x la /\ In x lb /\ v = VStr x).
Proof.
  intros H Hla Hlb.
  destruct (direct_loop_spec _ _ _ _ _ _ _ H Hla Hlb Hla) as (N1 & N2 & A & B & C).
  split; [assumption|]. split; [assumption|]. split; [|split].
  - intros x. rewrite A. tauto.
  - assumption.
  - intros x v. rewrite C.
    destruct (PyList.mem x la) eqn:E1; destruct (PyList.mem x lb) eqn:E2;
      cbn [andb]; mem_to_In;
      (split; [intros Hv; try discriminate; injection Hv as <-; auto | ]);
      intros (H1 & H2 & ->); try contradiction; reflexivity.
Qed.

Lemma greedy_step_shrinks (t : Tables) (entry_a : string)
  (m : MatchDict) (la lb : list string) (m' : MatchDict) (la' lb' : list string) :
  greedy_step t entry_a (m, la, lb) = Ok (m', la', lb') ->
  NoDup la -> NoDup lb ->
  (forall x, In x la' -> In x la) /\ (forall x, In x lb' -> In x lb).
Proof.
  unfold greedy_step. intros H Hla Hlb.
  inv_bind H as entry He. inv_bind H as ordered Ho.
  destruct ordered as [|top ordered]; [inv_ok; auto|].
  inv_bind H as best Hb. inv_bind H as l1 H1. inv_bind H as l2 H2. inv_ok.
  split; [apply (py_remove_In _ _ _ H1)|].
  destruct best as [b|l].
  - apply (py_remove_In _ _ _ H2).
  - apply (remove_each_spec _ _ _ H2 Hlb).
Qed.

Lemma greedy_step_consumed (t : Tables) (entry_a : string)
  (st st' : MatchDict * list string * list string) :
  greedy_step t entry_a st = Ok st' -> consumed st -> consumed st'.
Proof.
  destruct st as [[m la] lb], st' as [[m' la'] lb']. intros H (Hla & Hlb & Hc).
  destruct (greedy_step_shrinks _ _ _ _ _ _ _ _ H Hla Hlb) as [S1 S2].
  unfold greedy_step in H.
  inv_bind H as entry He. inv_bind H as ordered Ho.
  destruct ordered as [|top ordered].
  { inv_ok. split; [assumption|]. split; [assumption|]. assumption. }
  inv_bind H as best Hb. inv_bind H as l1 H1. inv_bind H as l2 H2. inv_ok.
  destruct (py_remove_NoDup _ _ _ H1 Hla) as [N1 R1].
  assert (N2 : NoDup lb' /\ forall b, In b (members (to_value best)) -> ~ In b lb').
  { destruct best as [b|l]; simpl.
    - destruct (py_remove_NoDup _ _ _ H2 Hlb). split; [assumption|].
      intros b' [<-|[]]. assumption.
    - destruct (remove_each_spec _ _ _ H2 Hlb) as (? & ? & ?). auto. }
  destruct N2 as [N2 R2]. split; [assumption|]. split; [assumption|].
  intros a v Hv. rewrite mget_mset in Hv.
  destruct (String.eqb a entry_a) eqn:E.
  - apply String.eqb_eq in E. subst a. injection Hv as <-. auto.
  - destruct (Hc a v Hv) as [H3 H4]. split; [auto|].
    intros b Hb' Hin. apply (H4 b Hb'). auto.
Qed.

Lemma greedy_loop_consumed (t : Tables) (copy : list string) :
  forall st st', greedy_loop t copy st = Ok st' -> consumed st ->
    consumed st'
    /\ (forall x, In x (snd (fst st')) -> In x (snd (fst st)))
    /\ (forall x, In x (snd st') -> In x (snd st)).
Proof.
  induction copy as [|entry_a rest IH]; simpl; intros st st' H Hc.
  - inv_ok. auto.
  - inv_bind H as st1 Hx.
    pose proof (greedy_step_consumed _ _ _ _ Hx Hc) as Hc1.
    destruct (IH _ _ H Hc1) as (Hc' & S1 & S2).
    destruct st as [[m la] lb], st1 as [[m1 la1] lb1].
    destruct Hc as (Hla & Hlb & _).
    destruct (greedy_step_shrinks _ _ _ _ _ _ _ _ Hx Hla Hlb) as [T1 T2].
    simpl in *. auto.
Qed.

Section MatchSimilarOff.

Variable ratio : string -> string -> Q.
Variable py_int : string -> option Z.
Variable window_width : nat.
Variable list_str_len : list string -> nat.
Variable py_sub : Q -> Q -> Q.

Lemma match_similar_off_inv
  (la lb : list string) (auto single enforce : bool) (distance limit : Q)
  (stdin : list string) (out : Outcome) :
  match_similar ratio py_int window_width list_str_len py_sub la lb SimplifyOff
    auto single enforce distance limit stdin = Ok out ->
  NoDup la /\ NoDup lb
  /\ exists m0 la0 lb0,
       direct_loop la ([], la, lb) = Ok (m0, la0, lb0)
       /\ returns_off ratio py_int window_width list_str_len py_sub
            auto enforce distance limit la0 lb0 m0 stdin out.
Proof.
  unfold match_similar. intros H.
  destruct (PyList.has_duplicates la) eqn:Ea; [discriminate|].
  destruct (negb single); [discriminate|].
  destruct (PyList.has_duplicates lb) eqn:Eb; [discriminate|].
  apply has_duplicates_false in Ea. apply has_duplicates_false in Eb.
  split; [assumption|]. split; [assumption|].
  cbn [simplify_lists] in H.
  inv_bind H as [[m0 la0] lb0] Hd. exists m0, la0, lb0.
  split; [assumption|].
  inv_bind H as [[[[m1 nm1] la1] lb1] stdin1] Hm. inv_ok.
  destruct auto.
  - destruct enforce; cbn [negb] in Hm.
    + inv_bind Hm as m Hg. inv_ok. eapply returns_global; eauto.
    + inv_bind Hm as [[m la'] lb'] Hg. inv_ok.
      eapply returns_greedy; eauto.
  - inv_bind Hm as [[m nm] stdin'] Hg. inv_ok.
    eapply returns_interactive; eauto.
Qed.

(** C10, as amended: a call of [match_similar] without normalisation that
    returns has removed every directly matched label from both lists of
    the caller; in per-entry greedy mode every key of the returned mapping
    is gone from the caller's [list_for_matching] and every target recorded
    for it is gone from the caller's [list_to_be_matched_to]. *)
Theorem match_similar_mutates_caller_lists
  (la lb : list string) (auto single enforce : bool) (distance limit : Q)
  (stdin : list string) (out : Outcome) :
  match_similar ratio py_int window_width list_str_len py_sub la lb SimplifyOff
    auto single enforce distance limit stdin = Ok out ->
  (forall a, In a la -> In a lb ->
     ~ In a (caller_list_for_matching out)
     /\ ~ In a (caller_list_to_be_matched_to out))
  /\ (auto = true -> enforce = false ->
      forall a v, mget a (matched out) = Some v ->
        ~ In a (caller_list_for_matching out)
        /\ forall b, In b (members v) -> ~ In b (caller_list_to_be_matched_to out)).
Proof.
  intros H. apply match_similar_off_inv in H.
  destruct H as (Hla & Hlb & m0 & la0 & lb0 & Hd & Hr).
  destruct (direct_matches_spec _ _ _ _ _ Hd Hla Hlb) as (N1 & N2 & A & B & C).
  assert (Hc0 : consumed (m0, la0, lb0)).
  { split; [assumption|]. split; [assumption|]. intros a v Hv.
    apply C in Hv. destruct Hv as (H1 & H2 & ->). split.
    - rewrite A. tauto.
    - intros b [<-|[]]. rewrite B. tauto. }
  destruct Hr as [m la' lb' Ha He Hg -> | m Ha He df Hg -> | m nm stdin' Ha Hg ->];
    cbn [caller_list_for_matching caller_list_to_be_matched_to matched].
  - destruct (greedy_loop_consumed _ _ _ _ Hg Hc0) as ((_ & _ & Hc) & S1 & S2).
    simpl in S1, S2. split.
    + intros a H1 H2. split; intros Hin.
      * apply S1, A in Hin. tauto.
      * apply S2, B in Hin. tauto.
    + intros _ _ a v Hv. apply (Hc a v Hv).
  - split; [|intros _ E; congruence].
    intros a H1 H2. rewrite A, B. tauto.
  - split; [|intros E; congruence].
    intros a H1 H2. rewrite A, B. tauto.
Qed.

End MatchSimilarOff.

Lemma match_similar_mutates_caller_lists_witness :
  exists out,
    run_match_similar ["Apple"; "Oranje"; "seets"; "xyz"] ["Apple"; "sweets"; "Orange"; "Apply"]
      SimplifyOff true true false (1#10) (6#10) [] = Ok out
    /\ (forall a, In a ["Apple"; "Oranje"; "seets"; "xyz"] ->
                  In a ["Apple"; "sweets"; "Orange"; "Apply"] ->
          ~ In a (caller_list_for_matching out)
          /\ ~ In a (caller_list_to_be_matched_to out))
    /\ (true = true -> false = false ->
        forall a v, mget a (matched out) = Some v ->
          ~ In a (caller_list_for_matching out)
          /\ forall b, In b (members v) -> ~ In b (caller_list_to_be_matched_to out)).
Proof.
  eexists. split; [vm_compute; reflexivity|].
  apply (match_similar_mutates_caller_lists py_ratio int_of_decimal 200
           plain_list_str_len PyFloat.sub
           ["Apple"; "Oranje"; "seets"; "xyz"] ["Apple"; "sweets"; "Orange"; "Apply"]
           true true false (PyFloat.of_Q (1#10)) (PyFloat.of_Q (6#10)) []).
  vm_compute. reflexivity.
Defined.

(** ** The similarity tables *)

Section DictFacts.

Variables (K V : Type) (eqb : K -> K -> bool).

Lemma dict_get_In (k : K) (d : Dict.t K V) (v : V) :
  Dict.get eqb k d = Some v -> exists k', In (k', v) d /\ eqb k k' = true.
Proof.
  induction d as [|[k0 v0] d IH]; simpl; [discriminate|].
  destruct (eqb k k0) eqn:E.
  - intros H. injection H as <-. exists k0. auto.
  - intros H. destruct (IH H) as (k' & H1 & H2). exists k'. auto.
Qed.

Lemma dict_set_In (k : K) (v : V) (d : Dict.t K V) (k0 : K) (v0 : V) :
  In (k0, v0) (Dict.set eqb k v d) -> v0 = v \/ In (k0, v0) d.
Proof.
  induction d as [|[k1 v1] d IH]; simpl.
  - intros [H|[]]. injection H as <- <-. now left.
  - destruct (eqb k k1); simpl.
    + intros [H|H]; [injection H as <- <-; now left | right; now right].
    + intros [H|H]; [right; now left|]. destruct (IH H); auto.
Qed.

End DictFacts.

Section Tables.

Variable ratio : string -> string -> Q.
Variables (limit : Q) (enforce : bool).

Lemma check_for_unique_similarity_above (entry_a : string) (targets : list string)
  (simi : Q) (b : string) (entry : SimDict) :
  entry_above ratio limit entry_a targets entry ->
  Qgtb (ratio entry_a b) limit = true -> In b targets ->
  entry_above ratio limit entry_a targets (_check_for_unique_similarity simi b entry).
Proof.
  intros He Hb Hin q e b' Hq Hb'. unfold _check_for_unique_similarity in Hq.
  destruct (qget simi entry) as [[s|l]|] eqn:E.
  - apply dict_set_In in Hq. destruct Hq as [->|Hq]; [|eapply He; eauto].
    apply dict_get_In in E. destruct E as (k' & E & _).
    simpl in Hb'. destruct Hb' as [<-|[<-|[]]]; [|auto].
    apply (He k' (Single s)); simpl; auto.
  - apply dict_set_In in Hq. destruct Hq as [->|Hq]; [|eapply He; eauto].
    apply dict_get_In in E. destruct E as (k' & E & _).
    simpl in Hb'. apply in_app_iff in Hb'. destruct Hb' as [Hb'|[<-|[]]]; [|auto].
    apply (He k' (Several l)); simpl; auto.
  - apply dict_set_In in Hq. destruct Hq as [->|Hq]; [|eapply He; eauto].
    simpl in Hb'. destruct Hb' as [<-|[]]. auto.
Qed.

Lemma score_targets_above (entry_a : string) (sources targets : list string)
  (todo : list string) :
  forall entry all,
    incl todo targets -> In entry_a sources ->
    entry_above ratio limit entry_a targets entry -> pairs_above ratio limit sources targets all ->
    entry_above ratio limit entry_a targets
      (fst (score_targets ratio limit enforce entry_a todo (entry, all)))
    /\ pairs_above ratio limit sources targets
         (snd (score_targets ratio limit enforce entry_a todo (entry, all))).
Proof.
  induction todo as [|b rest IH]; intros entry all Hincl Ha He Hp; simpl; [auto|].
  assert (Hb : In b targets) by (apply Hincl; now left).
  assert (Hrest : incl rest targets) by (intros x Hx; apply Hincl; now right).
  destruct (Qgtb (ratio entry_a b) limit) eqn:Eb; [|apply IH; auto].
  apply IH; auto.
  - apply check_for_unique_similarity_above; auto.
  - assert (Hp1 : pairs_above ratio limit sources targets
                    (match pget (ratio entry_a b) all with
                     | Some _ => all
                     | None => pset (ratio entry_a b) [] all
                     end)).
    { destruct (pget (ratio entry_a b) all); [assumption|].
      intros q pairs a' b' Hq Hin. apply dict_set_In in Hq.
      destruct Hq as [->|Hq]; [contradiction | eapply Hp; eauto]. }
    destruct enforce; [|assumption].
    set (all1 := match pget (ratio entry_a b) all with
                 | Some _ => all
                 | None => pset (ratio entry_a b) [] all
                 end) in *.
    destruct (pget (ratio entry_a b) all1) as [l|] eqn:El; [|assumption].
    intros q pairs a' b' Hq Hin. apply dict_set_In in Hq.
    destruct Hq as [->|Hq]; [|eapply Hp1; eauto].
    apply in_app_iff in Hin. destruct Hin as [Hin|[Hin|[]]].
    + apply dict_get_In in El. destruct El as (k' & El & _). eapply Hp1; eauto.
    + injection Hin as <- <-. auto.
Qed.

Lemma score_targets_entry (entry_a : string) (todo : list string) :
  forall entry all all',
    fst (score_targets ratio limit enforce entry_a todo (entry, all))
    = fst (score_targets ratio limit false entry_a todo (entry, all')).
Proof.
  induction todo as [|b rest IH]; intros entry all all'; simpl; [reflexivity|].
  destruct (Qgtb (ratio entry_a b) limit); apply IH.
Qed.

(** The tables built for the sources [la] against the targets [lb]. *)
Lemma score_sources_spec (la lb : list string) :
  forall t a,
    let t' := score_sources ratio limit enforce la lb t in
    Dict.get String.eqb a (most_similar t')
    = (if PyList.mem a la then Some (entry_of ratio limit a lb)
       else Dict.get String.eqb a (most_similar t))
    /\ Dict.get String.eqb a (ordered_most_similar t')
       = (if PyList.mem a la
          then Some (sort_desc (Dict.keys (entry_of ratio limit a lb)))
          else Dict.get String.eqb a (ordered_most_similar t)).
Proof.
  induction la as [|e rest IH]; intros t a; simpl; [auto|].
  destruct (score_targets ratio limit enforce e lb ([], all_similarities t))
    as [entry all] eqn:Es.
  assert (Hentry : entry = entry_of ratio limit e lb).
  { change entry with (fst (entry, all)). rewrite <- Es.
    unfold entry_of. apply score_targets_entry. }
  specialize (IH (mkTables (Dict.set String.eqb e entry (most_similar t))
                    (Dict.set String.eqb e (sort_desc (Dict.keys entry))
                       (ordered_most_similar t)) all) a).
  simpl in IH. destruct IH as [IH1 IH2]. rewrite IH1, IH2.
  rewrite !sget_sset. subst entry.
  destruct (String.eqb a e) eqn:E; simpl.
  - apply String.eqb_eq in E. subst. destruct (PyList.mem e rest); auto.
  - auto.
Qed.

Lemma score_sources_pairs (targets : list string) (sources la : list string) :
  forall t, incl la sources ->
    pairs_above ratio limit sources targets (all_similarities t) ->
    pairs_above ratio limit sources targets
      (all_similarities (score_sources ratio limit enforce la targets t)).
Proof.
  induction la as [|e rest IH]; intros t Hincl Hp; simpl; [assumption|].
  destruct (score_targets ratio limit enforce e targets ([], all_similarities t))
    as [entry all] eqn:Es.
  apply IH; [intros x Hx; apply Hincl; now right|]. simpl.
  assert (He : In e sources) by (apply Hincl; now left).
  change all with (snd (entry, all)). rewrite <- Es.
  apply score_targets_above; auto using incl_refl.
  intros q e0 b [].
Qed.

Lemma entry_of_above (entry_a : string) (targets : list string) :
  entry_above ratio limit entry_a targets (entry_of ratio limit entry_a targets).
Proof.
  unfold entry_of.
  refine (eq_ind _ (fun e => entry_above ratio limit entry_a targets e) _ _
            (score_targets_entry entry_a targets [] [] [])).
  apply (score_targets_above entry_a [entry_a] targets targets [] []).
  - apply incl_refl.
  - now left.
  - intros q e b [].
  - intros q pairs a b [].
Qed.

End Tables.

(** ** The loop over the data frame *)

Lemma filter_comm {A : Type} (f g : A -> bool) (l : list A) :
  filter f (filter g l) = filter g (filter f l).
Proof.
  induction l as [|x l IH]; simpl; [reflexivity|].
  destruct (f x) eqn:Ef, (g x) eqn:Eg; simpl; rewrite ?Ef, ?Eg, IH; reflexivity.
Qed.

Lemma drop_similarity_comm (h : Q) (a b : string) (df : list Row) :
  drop_entry_b b (drop_entry_a a (drop_similarity h df))
  = drop_similarity h (drop_entry_b b (drop_entry_a a df)).
Proof.
  unfold drop_entry_b, drop_entry_a, drop_similarity.
  rewrite (filter_comm (fun r => negb (String.eqb (row_entry_a r) a))).
  rewrite (filter_comm (fun r => negb (String.eqb (row_entry_b r) b))).
  reflexivity.
Qed.

Section DfLoop.

(** A property of the frame and the mapping that survives the dropping of
    rows and the two ways a round records a match. *)
Variable I : list Row -> MatchDict -> Prop.

Hypothesis I_filter : forall f df m, I df m -> I (filter f df) m.
Hypothesis I_commit : forall df m r, In r df -> I df m ->
  I (drop_entry_b (row_entry_b r) (drop_entry_a (row_entry_a r) df))
    (mset (row_entry_a r) (VStr (row_entry_b r)) m).
Hypothesis I_list : forall df m r l, In r df -> I df m ->
  I (drop_entry_b (row_entry_b r) (drop_entry_a (row_entry_a r) df))
    (mset (row_entry_a r) (VList l) m).

Lemma I_drop (a b : string) (df : list Row) (m : MatchDict) :
  I df m -> I (drop_entry_b b (drop_entry_a a df)) m.
Proof. intros H. apply I_filter, I_filter, H. Qed.

Lemma commit_indexes_inv (indexes : list nat) :
  forall df m df' m', commit_indexes indexes (df, m) = Ok (df', m') ->
    I df m -> I df' m'.
Proof.
  induction indexes as [|index rest IH]; simpl; intros df m df' m' H Hi.
  - inv_ok. assumption.
  - inv_bind H as r Hr. apply (IH _ _ _ _ H). apply I_commit; [|assumption].
    destruct (nth_error df index) eqn:E; simpl in Hr; inv_ok.
    eapply nth_error_In; eauto.
Qed.

Lemma df_step_inv (bounded : bool) (df : list Row) (m : MatchDict)
  (df' : list Row) (m' : MatchDict) :
  df_step bounded df m = Ok (df', m') -> I df m -> I df' m'.
Proof.
  unfold df_step. destruct df as [|r0 rest]; [discriminate|].
  intros H Hi. cbv zeta in H.
  destruct (match rest with
            | [] => false
            | r1 :: _ => negb (Qeq_bool (row_similarity r0) (row_similarity r1))
            end).
  - inv_ok.
    change (I (drop_entry_b (row_entry_b r0)
                 (drop_entry_a (row_entry_a r0)
                    (drop_similarity (row_similarity r0) (r0 :: rest))))
              (mset (row_entry_a r0) (VStr (row_entry_b r0)) m)).
    rewrite drop_similarity_comm. unfold drop_similarity.
    apply I_filter. apply (I_commit (r0 :: rest) m r0); [now left | assumption].
  - inv_bind H as [all_entries all_entries_with_index] Hc.
    inv_bind H as doubled_entries Hd.
    inv_bind H as [indexes' index] Hm.
    destruct indexes' as [|i indexes'].
    + inv_ok.
      destruct (flat_map _ doubled_entries) as [|b l].
      * exact (I_drop (row_entry_a r0) (row_entry_b r0) (r0 :: rest) m Hi).
      * exact (I_list (r0 :: rest) m r0 (b :: l) (or_introl eq_refl) Hi).
    + eapply commit_indexes_inv; eauto.
Qed.

Lemma df_loop_inv (bounded : bool) (fuel : nat) :
  forall df old_length m m',
    df_loop fuel bounded df old_length m = Ok m' ->
    I df m -> exists df', I df' m'.
Proof.
  induction fuel as [|fuel IH]; intros df old_length m m' H Hi; simpl in H.
  - destruct (Nat.eqb (length df) 0 || Nat.eqb (length df) old_length);
      [inv_ok; eauto | discriminate].
  - destruct (Nat.eqb (length df) 0 || Nat.eqb (length df) old_length);
      [inv_ok; eauto|].
    inv_bind H as [df1 m1] Hs.
    eapply IH; eauto. eapply df_step_inv; eauto.
Qed.

End DfLoop.

(** The rows of the two frames come from the table of pairs. *)
Lemma frame_rows_In (all : PairDict) (r : Row) :
  In r (frame_rows all) ->
  exists q pairs, In (q, pairs) all /\ In (row_entry_a r, row_entry_b r) pairs.
Proof.
  unfold frame_rows. rewrite in_flat_map. intros (s & _ & H).
  destruct (pget s all) as [pairs|] eqn:E; [|contradiction].
  apply dict_get_In in E. destruct E as (q & E & _).
  apply in_map_iff in H. destruct H as ([a b] & <- & H).
  exists q, pairs. split; assumption.
Qed.

Lemma drop_incl (df : list Row) (a b : string) :
  incl (drop_entry_b b (drop_entry_a a df)) df.
Proof.
  intros r H. unfold drop_entry_b, drop_entry_a in H.
  apply filter_In in H. destruct H as [H _]. apply filter_In in H. tauto.
Qed.

Section Floor.

Variable ratio : string -> string -> Q.
Variable limit : Q.

Lemma above_floor_mset (m : MatchDict) (a : string) (v : MatchValue) :
  above_floor ratio limit m ->
  (forall b, In b (members v) -> a = b \/ Qgtb (ratio a b) limit = true) ->
  above_floor ratio limit (mset a v m).
Proof.
  intros Hm Hv a' v' b Hget Hb. rewrite mget_mset in Hget.
  destruct (String.eqb a' a) eqn:E.
  - apply String.eqb_eq in E. subst. injection Hget as <-. auto.
  - eapply Hm; eauto.
Qed.

Lemma df_loop_scalars_above_floor (bounded : bool) (fuel : nat)
  (df : list Row) (old_length : nat) (m m' : MatchDict) :
  df_loop fuel bounded df old_length m = Ok m' ->
  rows_above_floor ratio limit df -> scalars_above_floor ratio limit m -> scalars_above_floor ratio limit m'.
Proof.
  intros H Hdf Hm.
  enough (Hex : exists df', rows_above_floor ratio limit df' /\ scalars_above_floor ratio limit m')
    by (destruct Hex as (df' & _ & Hm'); exact Hm').
  eapply (df_loop_inv (fun df m => rows_above_floor ratio limit df /\ scalars_above_floor ratio limit m));
    [ | | | exact H | split; assumption ].
  - intros f d m0 [H1 H2]. split; [|assumption].
    intros r Hr. apply filter_In in Hr. apply H1. tauto.
  - intros d m0 r Hr [H1 H2]. split.
    + intros r' Hr'. apply H1. eapply drop_incl; eauto.
    + intros a b Hget. rewrite mget_mset in Hget.
      destruct (String.eqb a (row_entry_a r)) eqn:E; [|auto].
      apply String.eqb_eq in E. subst. injection Hget as <-. right. auto.
  - intros d m0 r l Hr [H1 H2]. split.
    + intros r' Hr'. apply H1. eapply drop_incl; eauto.
    + intros a b Hget. rewrite mget_mset in Hget.
      destruct (String.eqb a (row_entry_a r)) eqn:E; [discriminate|auto].
Qed.

Lemma greedy_loop_above_floor (targets : list string) (t : Tables)
  (copy : list string) :
  tables_above ratio limit targets t ->
  forall st st', greedy_loop t copy st = Ok st' ->
    above_floor ratio limit (fst (fst st)) -> above_floor ratio limit (fst (fst st')).
Proof.
  intros Ht. induction copy as [|entry_a rest IH]; simpl; intros st st' H Hm.
  - inv_ok. assumption.
  - inv_bind H as st1 Hs. apply (IH _ _ H). clear IH H.
    destruct st as [[m la] lb]. unfold greedy_step in Hs.
    inv_bind Hs as entry He. inv_bind Hs as ordered Ho.
    destruct ordered as [|top ordered]; [inv_ok; assumption|].
    inv_bind Hs as best Hb. inv_bind Hs as l1 H1. inv_bind Hs as l2 H2. inv_ok.
    simpl. apply above_floor_mset; [assumption|].
    intros b Hin. right.
    destruct (Dict.get String.eqb entry_a (most_similar t)) as [e|] eqn:E;
      simpl in He; inv_ok.
    destruct (qget top entry) as [c|] eqn:Ec; simpl in Hb; inv_ok.
    apply dict_get_In in Ec. destruct Ec as (q & Ec & _).
    apply (Ht entry_a entry E q best b Ec Hin).
Qed.

End Floor.

(** ** The floor in [match_similar] *)

Lemma Qgtb_lt (x y : Q) : Qgtb x y = true <-> (y < x)%Q.
Proof.
  unfold Qgtb. rewrite negb_true_iff. split.
  - intros H. apply Qnot_le_lt. intros Hle. apply Qle_bool_iff in Hle. congruence.
  - intros H. destruct (Qle_bool x y) eqn:E; [|reflexivity].
    apply Qle_bool_iff in E. exfalso. apply (Qlt_not_le _ _ H E).
Qed.

Lemma Qgtb_le (x y : Q) : Qgtb x y = false <-> (x <= y)%Q.
Proof.
  unfold Qgtb. rewrite negb_false_iff. apply Qle_bool_iff.
Qed.

Section FloorOff.

Variable ratio : string -> string -> Q.
Variable py_int : string -> option Z.
Variable window_width : nat.
Variable list_str_len : list string -> nat.
Variable py_sub : Q -> Q -> Q.
Variable limit : Q.

Lemma candidate_In (entry : SimDict) (ordered : list Q) (z : Z) (c : Entry) :
  candidate entry ordered z = Ok c -> exists q, In (q, c) entry.
Proof.
  unfold candidate. intros H. inv_bind H as s Hs.
  destruct (qget s entry) as [e|] eqn:E; simpl in H; inv_ok.
  apply dict_get_In in E. destruct E as (q & E & _). eauto.
Qed.

Lemma further_prompts_In (entry : SimDict) (ordered : list Q) (todo : nat) :
  forall n number_to_show stdin c stdin',
    further_prompts entry ordered todo n number_to_show stdin = Ok (Some c, stdin') ->
    exists q, In (q, c) entry.
Proof.
  induction todo as [|todo IH]; simpl; intros n nts stdin c stdin' H; [inv_ok; discriminate|].
  destruct (Nat.leb (length ordered) (n + nts)); [inv_ok; discriminate|].
  inv_bind H as u Hu. inv_bind H as [result stdin1] Hi.
  destruct (String.eqb result "").
  - inv_bind H as c' Hc. inv_ok. eapply candidate_In; eauto.
  - eapply IH; eauto.
Qed.

Lemma ask_In (entry_a : string) (entry : SimDict) (ordered : list Q)
  (stdin : list string) (c : Entry) (stdin' : list string) :
  ask py_int window_width list_str_len entry_a entry ordered stdin = Ok (Some c, stdin') ->
  exists q, In (q, c) entry.
Proof.
  unfold ask. intros H. cbv zeta in H.
  inv_bind H as u Hu. inv_bind H as [answer stdin1] Hi.
  destruct (String.eqb answer "").
  - inv_bind H as c' Hc. inv_ok. eapply candidate_In; eauto.
  - destruct (py_int answer) as [z|].
    + inv_bind H as c' Hc. inv_ok. eapply candidate_In; eauto.
    + eapply further_prompts_In; eauto.
Qed.

(** What one round of the interactive loop does to the state: the mapping
    is kept or gets one entry for [entry_a], taken from its table, and
    [no_match] is kept or gets [entry_a] at its end. *)
Lemma interactive_step_spec (t : Tables) (distance : Q) (entry_a : string)
  (m : MatchDict) (nm stdin : list string) (m' : MatchDict) (nm' stdin' : list string) :
  interactive_step py_int window_width list_str_len py_sub t distance entry_a (m, nm, stdin)
  = Ok (m', nm', stdin') ->
  exists entry,
    Dict.get String.eqb entry_a (most_similar t) = Some entry
    /\ (m' = m \/ exists q c, In (q, c) entry /\ m' = mset entry_a (to_value c) m)
    /\ (entry = [] -> m' = m)
    /\ nm' = (if mhas entry_a m' then nm else nm ++ [entry_a]).
Proof.
  unfold interactive_step. intros H.
  inv_bind H as entry He.
  destruct (Dict.get String.eqb entry_a (most_similar t)) as [e|] eqn:E;
    simpl in He; inv_ok.
  exists entry. split; [reflexivity|].
  inv_bind H as [m1 stdin1] Hm. inv_ok.
  destruct entry as [|p entry].
  - inv_ok. auto.
  - inv_bind Hm as ordered Ho. inv_bind Hm as m0 H0.
    assert (Hm0 : m0 = m \/ exists q c, In (q, c) (p :: entry)
                                        /\ m0 = mset entry_a (to_value c) m).
    { destruct (accepts_automatically py_sub distance ordered).
      - inv_bind H0 as c Hc. inv_ok. right.
        destruct (candidate_In _ _ _ _ Hc) as (q & Hq). eauto.
      - inv_ok. now left. }
    split; [|split; [discriminate | reflexivity]].
    destruct (mhas entry_a m0) eqn:Eh.
    + inv_ok. assumption.
    + inv_bind Hm as [choice stdin2] Ha. inv_ok.
      destruct choice as [c|]; [|assumption].
      right. destruct (ask_In _ _ _ _ _ _ Ha) as (q & Hq).
      destruct Hm0 as [->|(q0 & c0 & _ & ->)]; [eauto|].
      rewrite mhas_false, mkeys_mset in Eh. tauto.
Qed.

Lemma interactive_loop_above_floor (targets : list string) (t : Tables)
  (distance : Q) (la : list string) :
  tables_above ratio limit targets t ->
  forall st st',
    interactive_loop py_int window_width list_str_len py_sub t distance la st = Ok st' ->
    above_floor ratio limit (fst (fst st)) -> above_floor ratio limit (fst (fst st')).
Proof.
  intros Ht. induction la as [|entry_a rest IH]; simpl; intros st st' H Hm.
  - inv_ok. assumption.
  - inv_bind H as st1 Hs. apply (IH _ _ H). clear IH H.
    destruct st as [[m nm] stdin], st1 as [[m1 nm1] stdin1].
    destruct (interactive_step_spec _ _ _ _ _ _ _ _ _ Hs)
      as (entry & He & [->|(q & c & Hq & ->)] & _); simpl; [assumption|].
    apply above_floor_mset; [assumption|].
    intros b Hb. right. apply (Ht entry_a entry He q c b Hq Hb).
Qed.

(** A source label whose scores all stay at or below the floor. *)
Lemma entry_of_below (entry_a : string) (targets : list string) :
  (forall b, In b targets -> Qgtb (ratio entry_a b) limit = false) ->
  entry_of ratio limit entry_a targets = [].
Proof.
  unfold entry_of. generalize (@nil (Q * list (string * string))).
  induction targets as [|b rest IH]; intros all H; simpl; [reflexivity|].
  rewrite (H b (or_introl eq_refl)). apply IH. intros b' Hb'. apply H. now right.
Qed.

Lemma greedy_loop_skips (t : Tables) (a : string) (copy : list string) :
  Dict.get String.eqb a (ordered_most_similar t) = Some [] ->
  forall m la lb m' la' lb',
    greedy_loop t copy (m, la, lb) = Ok (m', la', lb') ->
    In a la -> mget a m = None ->
    In a la' /\ mget a m' = None.
Proof.
  intros Ho. induction copy as [|e rest IH]; simpl; intros m la lb m' la' lb' H Ha Hm.
  - inv_ok. auto.
  - inv_bind H as [[m1 la1] lb1] Hs. apply (IH _ _ _ _ _ _ H); clear IH H.
    + unfold greedy_step in Hs.
      inv_bind Hs as entry He. inv_bind Hs as ordered Hor.
      destruct ordered as [|top ordered]; [inv_ok; assumption|].
      inv_bind Hs as best Hb. inv_bind Hs as l1 H1. inv_bind Hs as l2 H2. inv_ok.
      eapply py_remove_other; eauto. intros ->. rewrite Ho in Hor. discriminate.
    + unfold greedy_step in Hs.
      inv_bind Hs as entry He. inv_bind Hs as ordered Hor.
      destruct ordered as [|top ordered]; [inv_ok; assumption|].
      inv_bind Hs as best Hb. inv_bind Hs as l1 H1. inv_bind Hs as l2 H2. inv_ok.
      rewrite mget_mset_other; [assumption|].
      intros ->. rewrite Ho in Hor. discriminate.
Qed.

Lemma interactive_loop_skips (t : Tables) (distance : Q) (a : string)
  (la : list string) :
  Dict.get String.eqb a (most_similar t) = Some [] ->
  forall m nm stdin m' nm' stdin',
    interactive_loop py_int window_width list_str_len py_sub t distance la (m, nm, stdin)
    = Ok (m', nm', stdin') ->
    mget a m = None -> In a la \/ In a nm ->
    In a nm' /\ mget a m' = None.
Proof.
  intros Ha. induction la as [|e rest IH]; simpl;
    intros m nm stdin m' nm' stdin' H Hm Hin.
  - inv_ok. destruct Hin as [[]|Hin]. auto.
  - inv_bind H as [[m1 nm1] stdin1] Hs.
    destruct (interactive_step_spec _ _ _ _ _ _ _ _ _ Hs)
      as (entry & He & Hm1 & Hempty & Hnm).
    assert (Hm1a : mget a m1 = None).
    { destruct (string_dec e a) as [->|Hne].
      - rewrite Ha in He. injection He as <-. now rewrite Hempty.
      - destruct Hm1 as [->|(q & c & _ & ->)]; [assumption|].
        rewrite mget_mset_other; [assumption | congruence]. }
    apply (IH _ _ _ _ _ _ H Hm1a).
    destruct Hin as [[->|Hin]|Hin]; [|now left|].
    + right. rewrite Hnm.
      assert (mhas a m1 = false) as ->.
      { apply mhas_false. rewrite <- mget_In_keys. intros (v & Hv). congruence. }
      apply in_app_iff. right. now left.
    + right. rewrite Hnm. destruct (mhas e m1); [assumption|].
      apply in_app_iff. now left.
Qed.

Lemma df_loop_untouched (bounded : bool) (fuel : nat) (a : string)
  (df : list Row) (old_length : nat) (m m' : MatchDict) :
  df_loop fuel bounded df old_length m = Ok m' ->
  (forall r, In r df -> row_entry_a r <> a) ->
  mget a m' = mget a m.
Proof.
  intros H Hdf.
  enough (Hex : exists df', (forall r, In r df' -> row_entry_a r <> a)
                            /\ mget a m' = mget a m)
    by (destruct Hex as (df' & _ & Hm'); exact Hm').
  eapply (df_loop_inv (fun df m0 => (forall r, In r df -> row_entry_a r <> a)
                                    /\ mget a m0 = mget a m));
    [ | | | exact H | split; [assumption | reflexivity] ].
  - intros f d m0 [H1 H2]. split; [|assumption].
    intros r Hr. apply filter_In in Hr. apply H1. tauto.
  - intros d m0 r Hr [H1 H2]. split.
    + intros r' Hr'. apply H1. eapply drop_incl; eauto.
    + rewrite mget_mset_other; [assumption|]. intros ->. apply (H1 r Hr). reflexivity.
  - intros d m0 r l Hr [H1 H2]. split.
    + intros r' Hr'. apply H1. eapply drop_incl; eauto.
    + rewrite mget_mset_other; [assumption|]. intros ->. apply (H1 r Hr). reflexivity.
Qed.

Lemma tables_spec (enforce : bool) (la lb : list string) (a : string) :
  let t := score_sources ratio limit enforce la lb (mkTables [] [] []) in
  Dict.get String.eqb a (most_similar t)
  = (if PyList.mem a la then Some (entry_of ratio limit a lb) else None)
  /\ Dict.get String.eqb a (ordered_most_similar t)
     = (if PyList.mem a la
        then Some (sort_desc (Dict.keys (entry_of ratio limit a lb))) else None).
Proof.
  apply (score_sources_spec ratio limit enforce la lb (mkTables [] [] []) a).
Qed.

Lemma tables_are_above (enforce : bool) (la lb : list string) :
  tables_above ratio limit lb
    (score_sources ratio limit enforce la lb (mkTables [] [] [])).
Proof.
  unfold tables_above. intros a entry H.
  destruct (tables_spec enforce la lb a) as [H1 _].
  rewrite H1 in H. destruct (PyList.mem a la); [|discriminate].
  injection H as <-. exact (entry_of_above ratio limit enforce a lb).
Qed.

Lemma frame_rows_above (enforce : bool) (la lb : list string) (r : Row) :
  In r (frame_rows
          (all_similarities
             (score_sources ratio limit enforce la lb (mkTables [] [] [])))) ->
  Qgtb (ratio (row_entry_a r) (row_entry_b r)) limit = true
  /\ In (row_entry_a r) la /\ In (row_entry_b r) lb.
Proof.
  intros H. apply frame_rows_In in H. destruct H as (q & pairs & H1 & H2).
  eapply (score_sources_pairs ratio limit enforce lb la la); eauto using incl_refl.
  intros q' pairs' a b [].
Qed.

(** C3, as amended: in a call of [match_similar] without normalisation that
    returns, a target recorded for a source label, as its match or as a
    member of the list recorded by per-entry greedy or interactive
    matching, is the label itself (a direct match) or scores strictly above
    [similarity_limit_for_manual_checking]; and a source label that has no
    identical target and whose scores all are at or below the floor ends in
    [no_match] and is no key of the mapping. *)
Theorem match_similar_respects_floor
  (la lb : list string) (auto single enforce : bool) (distance : Q)
  (stdin : list string) (out : Outcome) :
  match_similar ratio py_int window_width list_str_len py_sub la lb SimplifyOff
    auto single enforce distance limit stdin = Ok out ->
  (forall a v b, mget a (matched out) = Some v -> In b (members v) ->
     (auto = true -> enforce = true -> exists s, v = VStr s) ->
     a = b \/ (limit < ratio a b)%Q)
  /\ (forall a, In a la -> ~ In a lb ->
        (forall b, In b lb -> (ratio a b <= limit)%Q) ->
        In a (no_match out) /\ ~ In a (mkeys (matched out))).
Proof.
  intros H. apply match_similar_off_inv in H.
  destruct H as (Hla & Hlb & m0 & la0 & lb0 & Hd & Hr).
  destruct (direct_matches_spec _ _ _ _ _ Hd Hla Hlb) as (N1 & N2 & A & B & C).
  assert (Hm0 : above_floor ratio limit m0).
  { intros a v b Hv Hb. apply C in Hv. destruct Hv as (_ & _ & ->).
    destruct Hb as [<-|[]]. now left. }
  assert (Hbelow : forall a, In a la -> ~ In a lb ->
            (forall b, In b lb -> (ratio a b <= limit)%Q) ->
            In a la0 /\ mget a m0 = None
            /\ entry_of ratio limit a lb0 = []).
  { intros a H1 H2 H3. split; [apply A; auto|]. split.
    - destruct (mget a m0) as [v|] eqn:E; [|reflexivity].
      apply C in E. tauto.
    - apply entry_of_below. intros b Hb. apply Qgtb_le. apply H3. apply B in Hb. tauto. }
  destruct Hr as [m la' lb' Ha He Hg -> | m Ha He df Hg -> | m nm stdin' Ha Hg ->];
    cbn [matched no_match].
  - split.
    + intros a v b Hv Hb _.
      assert (Hfl : above_floor ratio limit m).
      { apply (greedy_loop_above_floor ratio limit lb0 _ la0
                 (tables_are_above enforce la0 lb0) _ _ Hg Hm0). }
      destruct (Hfl a v b Hv Hb) as [?|Hgt]; [now left | right; now apply Qgtb_lt].
    + intros a H1 H2 H3. destruct (Hbelow a H1 H2 H3) as (I1 & I2 & I3).
      destruct (tables_spec enforce la0 lb0 a) as [_ To].
      assert (PyList.mem a la0 = true) as Hmem by now apply mem_In.
      rewrite Hmem, I3 in To. simpl in To.
      destruct (greedy_loop_skips _ a la0 To _ _ _ _ _ _ Hg I1 I2) as [J1 J2].
      assert (Hk : ~ In a (mkeys m)).
      { rewrite <- mget_In_keys. intros (v & Hv). congruence. }
      split; [|assumption]. apply difference_In. auto.
  - assert (Hrows : forall r, In r df ->
              Qgtb (ratio (row_entry_a r) (row_entry_b r)) limit = true
              /\ In (row_entry_a r) la0 /\ In (row_entry_b r) lb0)
      by (intros r Hr; apply (frame_rows_above enforce la0 lb0 r Hr)).
    split.
    + intros a v b Hv Hb Hs. destruct (Hs Ha He) as (s & ->).
      destruct Hb as [<-|[]].
      assert (Hfl : scalars_above_floor ratio limit m).
      { apply (df_loop_scalars_above_floor ratio limit _ _ _ _ _ _ Hg).
        - intros r Hr. apply Hrows, Hr.
        - intros a' b' Hv'. apply (Hm0 a' (VStr b') b' Hv'). now left. }
      destruct (Hfl a s Hv) as [?|Hgt]; [now left | right; now apply Qgtb_lt].
    + intros a H1 H2 H3. destruct (Hbelow a H1 H2 H3) as (I1 & I2 & I3).
      assert (Hm : mget a m = None).
      { rewrite (df_loop_untouched _ _ a _ _ _ _ Hg); [assumption|].
        intros r Hr Heq. destruct (Hrows r Hr) as (G1 & _ & G3).
        rewrite Heq in G1. apply B in G3. destruct G3 as [G3 _].
        apply H3, Qgtb_le in G3. congruence. }
      assert (Hk : ~ In a (mkeys m)).
      { rewrite <- mget_In_keys. intros (v & Hv). congruence. }
      split; [|assumption]. apply difference_In. auto.
  - split.
    + intros a v b Hv Hb _.
      assert (Hfl : above_floor ratio limit m).
      { apply (interactive_loop_above_floor lb0 _ distance la0
                 (tables_are_above enforce la0 lb0) _ _ Hg Hm0). }
      destruct (Hfl a v b Hv Hb) as [?|Hgt]; [now left | right; now apply Qgtb_lt].
    + intros a H1 H2 H3. destruct (Hbelow a H1 H2 H3) as (I1 & I2 & I3).
      destruct (tables_spec enforce la0 lb0 a) as [To _].
      assert (PyList.mem a la0 = true) as Hmem by now apply mem_In.
      rewrite Hmem, I3 in To.
      destruct (interactive_loop_skips _ distance a la0 To _ _ _ _ _ _ Hg I2
                  (or_introl I1)) as [J1 J2].
      split; [assumption|].
      rewrite <- mget_In_keys. intros (v & Hv). congruence.
Qed.

End FloorOff.

Lemma match_similar_respects_floor_witness :
  exists out,
    run_match_similar ["Apple"; "Oranje"; "xyz"] ["Apple"; "Orange"; "qqq"]
      SimplifyOff true true false (1#10) (6#10) [] = Ok out
    /\ (forall a v b, mget a (matched out) = Some v -> In b (members v) ->
          (true = true -> false = true -> exists s, v = VStr s) ->
          a = b \/ (PyFloat.of_Q (6#10) < py_ratio a b)%Q)
    /\ (forall a, In a ["Apple"; "Oranje"; "xyz"] -> ~ In a ["Apple"; "Orange"; "qqq"] ->
          (forall b, In b ["Apple"; "Orange"; "qqq"] -> (py_ratio a b <= PyFloat.of_Q (6#10))%Q) ->
          In a (no_match out) /\ ~ In a (mkeys (matched out))).
Proof.
  eexists. split; [vm_compute; reflexivity|].
  apply (match_similar_respects_floor py_ratio int_of_decimal 200
           plain_list_str_len PyFloat.sub (PyFloat.of_Q (6#10))
           ["Apple"; "Oranje"; "xyz"] ["Apple"; "Orange"; "qqq"]
           true true false (PyFloat.of_Q (1#10)) []).
  vm_compute. reflexivity.
Defined.

(** ** Global greedy matching commits a target once *)

Lemma mget_In (a : string) (v : MatchValue) (m : MatchDict) :
  mget a m = Some v -> In (a, v) m.
Proof.
  intros H. apply dict_get_In in H. destruct H as (k & H & E).
  apply String.eqb_eq in E. now subst.
Qed.

Lemma mset_In (k : string) (v : MatchValue) (m : MatchDict) (k0 : string)
  (v0 : MatchValue) :
  In (k0, v0) (mset k v m) -> (k0 = k /\ v0 = v) \/ In (k0, v0) m.
Proof.
  unfold mset. induction m as [|[k1 v1] m IH]; simpl.
  - intros [H|[]]. injection H as <- <-. auto.
  - destruct (String.eqb k k1) eqn:E; simpl.
    + apply String.eqb_eq in E. subst.
      intros [H|H]; [injection H as <- <-; auto | right; now right].
    + intros [H|H]; [right; now left|]. destruct (IH H); auto.
Qed.

Lemma df_loop_committed_once (bounded : bool) (fuel : nat)
  (df : list Row) (old_length : nat) (m m' : MatchDict) :
  df_loop fuel bounded df old_length m = Ok m' ->
  committed_once df m ->
  forall a1 a2 b, In (a1, VStr b) m' -> In (a2, VStr b) m' -> a1 = a2.
Proof.
  intros H Hi.
  enough (Hex : exists df', committed_once df' m')
    by (destruct Hex as (df' & _ & Hm'); exact Hm').
  eapply (df_loop_inv committed_once); [ | | | exact H | exact Hi ].
  - intros f d m0 [H1 H2]. split; [|assumption].
    intros a b Hab r Hr. apply filter_In in Hr. apply (H1 a b Hab). tauto.
  - intros d m0 r Hr [H1 H2]. split.
    + intros a b Hab r' Hr'. apply mset_In in Hab.
      destruct Hab as [[-> Hv]|Hab].
      * injection Hv as ->. unfold drop_entry_b in Hr'. apply filter_In in Hr'.
        destruct Hr' as [_ Hr']. rewrite negb_true_iff in Hr'.
        now apply String.eqb_neq in Hr'.
      * apply (H1 a b Hab). eapply drop_incl; eauto.
    + intros a1 a2 b Ha1 Ha2. apply mset_In in Ha1. apply mset_In in Ha2.
      destruct Ha1 as [[-> Hv1]|Ha1], Ha2 as [[-> Hv2]|Ha2]; try reflexivity.
      * injection Hv1 as ->. exfalso. apply (H1 a2 _ Ha2 r Hr). reflexivity.
      * injection Hv2 as ->. exfalso. apply (H1 a1 _ Ha1 r Hr). reflexivity.
      * eapply H2; eauto.
  - intros d m0 r l Hr [H1 H2]. split.
    + intros a b Hab r' Hr'. apply mset_In in Hab.
      destruct Hab as [[_ Hv]|Hab]; [discriminate|].
      apply (H1 a b Hab). eapply drop_incl; eauto.
    + intros a1 a2 b Ha1 Ha2. apply mset_In in Ha1. apply mset_In in Ha2.
      destruct Ha1 as [[_ Hv1]|Ha1]; [discriminate|].
      destruct Ha2 as [[_ Hv2]|Ha2]; [discriminate|].
      eapply H2; eauto.
Qed.

(** The frame of [match_comprehensive]. *)
Section Comprehensive.

Variable ratio : string -> string -> Q.

Lemma pair_targets_within (entry_a : string) (sources targets todo : list string) :
  forall all, incl todo targets -> In entry_a sources ->
    pairs_within sources targets all ->
    pairs_within sources targets (pair_targets ratio entry_a todo all).
Proof.
  induction todo as [|b rest IH]; intros all Hincl Ha Hp; simpl; [assumption|].
  apply IH; [intros x Hx; apply Hincl; now right | assumption |].
  assert (Hb : In b targets) by (apply Hincl; now left).
  assert (Hp1 : pairs_within sources targets
                  (match pget (ratio entry_a b) all with
                   | Some _ => all
                   | None => pset (ratio entry_a b) [] all
                   end)).
  { destruct (pget (ratio entry_a b) all); [assumption|].
    intros q pairs a' b' Hq Hin. apply dict_set_In in Hq.
    destruct Hq as [->|Hq]; [contradiction | eapply Hp; eauto]. }
  set (all1 := match pget (ratio entry_a b) all with
               | Some _ => all
               | None => pset (ratio entry_a b) [] all
               end) in *.
  destruct (pget (ratio entry_a b) all1) as [l|] eqn:El; [|assumption].
  intros q pairs a' b' Hq Hin. apply dict_set_In in Hq.
  destruct Hq as [->|Hq]; [|eapply Hp1; eauto].
  apply in_app_iff in Hin. destruct Hin as [Hin|[Hin|[]]].
  - apply dict_get_In in El. destruct El as (k' & El & _). eapply Hp1; eauto.
  - injection Hin as <- <-. auto.
Qed.

Lemma pair_sources_within (sources targets la : list string) :
  forall all, incl la sources -> pairs_within sources targets all ->
    pairs_within sources targets (pair_sources ratio la targets all).
Proof.
  induction la as [|e rest IH]; intros all Hincl Hp; simpl; [assumption|].
  apply IH; [intros x Hx; apply Hincl; now right|].
  apply pair_targets_within; auto using incl_refl. apply Hincl. now left.
Qed.

Lemma comprehensive_rows_In (la lb : list string) (r : Row) :
  In r (_create_similarity_dataframe
          (_calculate_similarities_listed_by_similarity ratio la lb)) ->
  In (row_entry_a r) la /\ In (row_entry_b r) lb.
Proof.
  unfold _create_similarity_dataframe, _calculate_similarities_listed_by_similarity.
  rewrite in_flat_map. intros ([q pairs] & Hitem & Hr). simpl in Hr.
  apply in_map_iff in Hr. destruct Hr as ([a b] & <- & Hab). simpl.
  unfold order_by_key in Hitem. apply in_flat_map in Hitem.
  destruct Hitem as (s & _ & Hs).
  destruct (Dict.get Qeq_bool s (pair_sources ratio la lb [])) as [v|] eqn:E;
    [|contradiction].
  destruct Hs as [Hs|[]]. injection Hs as <- <-.
  apply dict_get_In in E. destruct E as (k & E & _).
  eapply (pair_sources_within la lb la []); eauto using incl_refl.
  intros q' pairs' a' b' [].
Qed.

End Comprehensive.

Lemma translate_match_In (d1 d2 : LabelDict) (items : MatchDict) :
  forall acc m2, translate_match d1 d2 items acc = Ok m2 ->
    forall A V, In (A, V) m2 ->
      In (A, V) acc
      \/ exists a b B, In (a, VStr b) items /\ lget a d1 = Some A
                       /\ lget b d2 = Some B /\ V = VStr B.
Proof.
  induction items as [|[key value] rest IH]; simpl; intros acc m2 H A V Hin.
  - inv_ok. now left.
  - inv_bind H as key' Hk. inv_bind H as value' Hv.
    destruct (IH _ _ H A V Hin) as [Hacc|(a & b & B & H1 & H2 & H3 & H4)].
    + apply mset_In in Hacc. destruct Hacc as [[-> ->]|Hacc]; [|now left].
      right. destruct value as [s|l|q]; try discriminate.
      exists key, s, value'. split; [now left|].
      destruct (lget key d1); simpl in Hk; inv_ok.
      destruct (lget s d2); simpl in Hv; inv_ok. auto.
    + right. exists a, b, B. auto.
Qed.

Section CommitOnce.

Variable ratio : string -> string -> Q.
Variable py_int : string -> option Z.
Variable window_width : nat.
Variable list_str_len : list string -> nat.
Variable py_sub : Q -> Q -> Q.

Lemma direct_committed_once (la lb : list string) (m0 : MatchDict)
  (la0 lb0 : list string) (df : list Row) :
  direct_loop la ([], la, lb) = Ok (m0, la0, lb0) ->
  NoDup la -> NoDup lb ->
  (forall r, In r df -> In (row_entry_b r) lb0) ->
  committed_once df m0.
Proof.
  intros Hd Hla Hlb Hdf.
  destruct (direct_matches_spec _ _ _ _ _ Hd Hla Hlb) as (N1 & N2 & A & B & C).
  assert (Hdirect : forall a b, In (a, VStr b) m0 -> a = b /\ In a la).
  { intros a b Hab.
    destruct (direct_loop_spec _ _ _ _ _ _ _ Hd Hla Hlb Hla) as (_ & _ & _ & _ & C').
    clear C. revert Hab. clear - Hd.
    (* every pair of [m0] was written by the loop *)
    assert (G : forall copy m la1 lb1 m' la' lb',
               direct_loop copy (m, la1, lb1) = Ok (m', la', lb') ->
               forall a b, In (a, VStr b) m' ->
                 In (a, VStr b) m \/ (a = b /\ In a copy)).
    { induction copy as [|e rest IH]; simpl; intros m la1 lb1 m' la' lb' H a0 b0 Hin.
      - inv_ok. now left.
      - destruct (PyList.mem e lb1).
        + inv_bind H as l1 H1. inv_bind H as l2 H2.
          destruct (IH _ _ _ _ _ _ H a0 b0 Hin) as [Hm|[-> Hc]]; [|auto].
          apply mset_In in Hm. destruct Hm as [[-> Hv]|Hm]; [|now left].
          injection Hv as ->. auto.
        + destruct (IH _ _ _ _ _ _ H a0 b0 Hin) as [Hm|[-> Hc]]; auto. }
    intros Hab. destruct (G _ _ _ _ _ _ _ Hd a b Hab) as [[]|]; auto. }
  split.
  - intros a b Hab r Hr Heq. destruct (Hdirect a b Hab) as [<- Ha].
    apply Hdf in Hr. rewrite Heq in Hr. apply B in Hr. tauto.
  - intros a1 a2 b H1 H2.
    destruct (Hdirect a1 b H1) as [-> _]. destruct (Hdirect a2 b H2) as [-> _].
    reflexivity.
Qed.

(** In global greedy matching ([match_comprehensive], and [match_similar]
    with the comprehensive check and no normalisation) a call that returns
    never gives the same target, as the match itself, to two source
    labels. *)
Lemma global_greedy_scalar_once (c : Call)
  (la lb stdin : list string) (out : Outcome) :
  global_greedy c = true ->
  call ratio py_int window_width list_str_len py_sub c la lb stdin = Ok out ->
  forall a1 a2 b,
    mget a1 (matched out) = Some (VStr b) ->
    mget a2 (matched out) = Some (VStr b) ->
    a1 = a2.
Proof.
  intros Hc H a1 a2 b H1 H2. apply mget_In in H1. apply mget_In in H2.
  destruct c as [sw auto single enforce dist limit | simplified
                | simplified dist limit]; simpl in Hc, H; [| |discriminate].
  - destruct sw; try discriminate. destruct auto; [|discriminate].
    destruct enforce; [|discriminate].
    apply match_similar_off_inv in H.
    destruct H as (Hla & Hlb & m0 & la0 & lb0 & Hd & Hr).
    destruct Hr as [m la' lb' Ha He Hg -> | m Ha He df Hg -> | m nm stdin' Ha Hg ->];
      try discriminate.
    cbn [matched] in H1, H2.
    eapply (df_loop_committed_once _ _ _ _ _ _ Hg); eauto.
    eapply direct_committed_once; eauto.
    intros r Hr. apply (frame_rows_above ratio limit true la0 lb0 r Hr).
  - unfold match_comprehensive in H.
    inv_bind H as u1 Hu1. inv_bind H as u2 Hu2.
    inv_bind H as [[[d1 d2] las] lbs] Hs.
    inv_bind H as [[m0 la0] lb0] Hd. inv_bind H as m1 Hg.
    assert (Hnd : NoDup las /\ NoDup lbs).
    { unfold _check_uniqueness_of_entries in Hu1, Hu2.
      destruct (PyList.has_duplicates la) eqn:E1; [discriminate|].
      destruct (PyList.has_duplicates lb) eqn:E2; [discriminate|].
      apply has_duplicates_false in E1. apply has_duplicates_false in E2.
      unfold simplify_both in Hs.
      destruct simplified; [inv_ok; auto| |];
        (inv_bind Hs as e1 He1; inv_bind Hs as c1 Hc1;
         inv_bind Hs as e2 He2; inv_bind Hs as c2 Hc2; inv_ok;
         unfold _check_uniqueness_of_entries in Hc1, Hc2;
         destruct (PyList.has_duplicates (lkeys d1)) eqn:F1; [discriminate|];
         destruct (PyList.has_duplicates (lkeys d2)) eqn:F2; [discriminate|];
         split; apply has_duplicates_false; assumption). }
    destruct Hnd as [Hlas Hlbs].
    assert (Hinj : forall x1 x2 y, In (x1, VStr y) m1 -> In (x2, VStr y) m1 -> x1 = x2).
    { eapply (df_loop_committed_once _ _ _ _ _ _ Hg).
      eapply direct_committed_once; eauto.
      intros r Hr. apply (comprehensive_rows_In ratio la0 lb0 r Hr). }
    unfold translate_back in H.
    destruct simplified as [| |cls].
    + inv_ok. cbn [matched] in H1, H2. eauto.
    + inv_bind H as m2 Ht. inv_bind H as nm2 Hn. inv_ok. cbn [matched] in H1, H2.
      unfold simplify_both in Hs.
      inv_bind Hs as e1 He1. inv_bind Hs as c1 Hc1.
      inv_bind Hs as e2 He2. inv_bind Hs as c2 Hc2. inv_ok.
      destruct (translate_match_In _ _ _ _ _ Ht _ _ H1)
        as [[]|(x1 & y1 & B1 & I1 & J1 & K1 & L1)].
      destruct (translate_match_In _ _ _ _ _ Ht _ _ H2)
        as [[]|(x2 & y2 & B2 & I2 & J2 & K2 & L2)].
      injection L1 as <-. injection L2 as <-.
      destruct (simplify_strings_values _ _ _ _ _ He2 K1) as [_ F1].
      destruct (simplify_strings_values _ _ _ _ _ He2 K2) as [_ F2].
      assert (x1 = x2) by (apply (Hinj x1 x2 y1); congruence).
      congruence.
    + inv_bind H as m2 Ht. inv_bind H as nm2 Hn. inv_ok. cbn [matched] in H1, H2.
      unfold simplify_both in Hs.
      inv_bind Hs as e1 He1. inv_bind Hs as c1 Hc1.
      inv_bind Hs as e2 He2. inv_bind Hs as c2 Hc2. inv_ok.
      destruct (translate_match_In _ _ _ _ _ Ht _ _ H1)
        as [[]|(x1 & y1 & B1 & I1 & J1 & K1 & L1)].
      destruct (translate_match_In _ _ _ _ _ Ht _ _ H2)
        as [[]|(x2 & y2 & B2 & I2 & J2 & K2 & L2)].
      injection L1 as <-. injection L2 as <-.
      destruct (simplify_strings_values _ _ _ _ _ He2 K1) as [_ F1].
      destruct (simplify_strings_values _ _ _ _ _ He2 K2) as [_ F2].
      assert (x1 = x2) by (apply (Hinj x1 x2 y1); congruence).
      congruence.
Qed.

End CommitOnce.

(** ** Ties in per-entry greedy matching *)

Lemma Qeq_bool_congr (q q' k : Q) :
  Qeq_bool q q' = true -> Qeq_bool q k = Qeq_bool q' k.
Proof.
  intros H. destruct (Qeq_bool q' k) eqn:E.
  - eapply Qeq_bool_trans; eauto.
  - destruct (Qeq_bool q k) eqn:E'; [|reflexivity].
    assert (Qeq_bool q' k = true)
      by (eapply Qeq_bool_trans; [apply Qeq_bool_sym; exact H | exact E']).
    congruence.
Qed.

Lemma qget_congr (q q' : Q) (d : SimDict) :
  Qeq_bool q q' = true -> qget q d = qget q' d.
Proof.
  intros H. unfold qget. induction d as [|[k v] d IH]; simpl; [reflexivity|].
  rewrite (Qeq_bool_congr q q' k H), IH. reflexivity.
Qed.

Lemma qget_qset (q k : Q) (v : Entry) (d : SimDict) :
  qget q (qset k v d) = if Qeq_bool q k then Some v else qget q d.
Proof.
  unfold qget, qset. induction d as [|[k0 v0] d IH]; simpl; [reflexivity|].
  destruct (Qeq_bool k k0) eqn:E1; simpl.
  - rewrite (Qeq_bool_comm q k), (Qeq_bool_congr k k0 q E1), (Qeq_bool_comm k0 q).
    destruct (Qeq_bool q k0); reflexivity.
  - destruct (Qeq_bool q k0) eqn:E2.
    + destruct (Qeq_bool q k) eqn:E3; [|reflexivity].
      exfalso. rewrite (Qeq_bool_congr q k k0 E3) in E2. congruence.
    + apply IH.
Qed.

Lemma keys_qset (k : Q) (v : Entry) (d : SimDict) (k0 : Q) :
  In k0 (Dict.keys (qset k v d)) -> k0 = k \/ In k0 (Dict.keys d).
Proof.
  unfold qset, Dict.keys. induction d as [|[k1 v1] d IH]; simpl.
  - intros [<-|[]]. now left.
  - destruct (Qeq_bool k k1); simpl.
    + intros [<-|H]; auto.
    + intros [<-|H]; [auto|]. destruct (IH H); auto.
Qed.

Lemma insert_desc_In (x : Q) (s : list Q) (k : Q) :
  In k (insert_desc x s) <-> k = x \/ In k s.
Proof.
  induction s as [|z s IH]; simpl.
  - split; [intros [<-|[]]; auto | intros [->|[]]; auto].
  - destruct (Qle_bool z x); simpl; [split; intros [H|H]; auto|].
    rewrite IH. split.
    + intros [<-|[->|H]]; auto.
    + intros [->|[<-|H]]; auto.
Qed.

Lemma sort_desc_In (l : list Q) (k : Q) : In k (sort_desc l) <-> In k l.
Proof.
  induction l as [|x l IH]; simpl; [tauto|].
  rewrite insert_desc_In, IH. split; intros [H|H]; auto.
Qed.

Lemma insert_desc_head_max (x : Q) (s : list Q) :
  head_max s -> head_max (insert_desc x s).
Proof.
  destruct s as [|y s]; simpl; [intros _ k []|].
  intros H. destruct (Qle_bool y x) eqn:E; simpl.
  - apply Qle_bool_iff in E. intros k [<-|Hk]; [assumption|].
    eapply Qle_trans; [apply H; assumption | assumption].
  - intros k Hk. apply insert_desc_In in Hk. destruct Hk as [->|Hk]; [|auto].
    apply Qlt_le_weak, Qnot_le_lt. intros Hle. apply Qle_bool_iff in Hle. congruence.
Qed.

Lemma sort_desc_head_max (l : list Q) : head_max (sort_desc l).
Proof.
  induction l as [|x l IH]; simpl; [exact I|]. now apply insert_desc_head_max.
Qed.

(** The first score of [sorted(keys)[::-1]] is a key and no key is above
    it. *)
Lemma sort_desc_head (l : list Q) (top : Q) (rest : list Q) :
  sort_desc l = top :: rest ->
  In top l /\ forall k, In k l -> (k <= top)%Q.
Proof.
  intros H. pose proof (sort_desc_head_max l) as Hm. rewrite H in Hm. simpl in Hm.
  split.
  - apply sort_desc_In. rewrite H. now left.
  - intros k Hk. apply sort_desc_In in Hk. rewrite H in Hk.
    destruct Hk as [<-|Hk]; [apply Qle_refl | auto].
Qed.

Lemma sort_desc_nonempty (l : list Q) (k : Q) :
  In k l -> exists top rest, sort_desc l = top :: rest.
Proof.
  intros H. apply sort_desc_In in H.
  destruct (sort_desc l) as [|top rest]; [contradiction|eauto].
Qed.

Section Ties.

Variable ratio : string -> string -> Q.
Variable limit : Q.

Lemma tied_at_congr (a : string) (q q' : Q) (targets : list string) :
  Qeq_bool q q' = true ->
  tied_at ratio limit a q targets = tied_at ratio limit a q' targets.
Proof.
  intros H. unfold tied_at. apply filter_ext. intros b.
  now rewrite (Qeq_bool_congr q q' _ H).
Qed.

Lemma tied_at_app (a : string) (q : Q) (l1 l2 : list string) :
  tied_at ratio limit a q (l1 ++ l2)
  = tied_at ratio limit a q l1 ++ tied_at ratio limit a q l2.
Proof. unfold tied_at. apply filter_app. Qed.

Lemma check_for_unique_similarity_groups (a : string) (seen : list string)
  (b : string) (entry : SimDict) :
  groups_of ratio limit a seen entry ->
  Qgtb (ratio a b) limit = true ->
  groups_of ratio limit a (seen ++ [b]) (_check_for_unique_similarity (ratio a b) b entry).
Proof.
  intros Hg Hb q. rewrite tied_at_app.
  unfold _check_for_unique_similarity.
  assert (Hlast : tied_at ratio limit a q [b]
                  = if Qeq_bool q (ratio a b) then [b] else []).
  { unfold tied_at. simpl. rewrite Hb. destruct (Qeq_bool q (ratio a b)); reflexivity. }
  rewrite Hlast.
  pose proof (Hg (ratio a b)) as Hsim.
  destruct (qget (ratio a b) entry) as [[s|l]|] eqn:E; rewrite qget_qset;
    destruct (Qeq_bool q (ratio a b)) eqn:Eq;
    try (rewrite app_nil_r; apply Hg).
  - rewrite (tied_at_congr a q (ratio a b) seen Eq).
    destruct (tied_at ratio limit a (ratio a b) seen) as [|x [|y r]];
      simpl in Hsim; try discriminate.
    injection Hsim as ->. reflexivity.
  - rewrite (tied_at_congr a q (ratio a b) seen Eq).
    destruct (tied_at ratio limit a (ratio a b) seen) as [|x [|y r]];
      simpl in Hsim; try discriminate.
    injection Hsim as ->. reflexivity.
  - rewrite (tied_at_congr a q (ratio a b) seen Eq).
    destruct (tied_at ratio limit a (ratio a b) seen) as [|x [|y r]];
      simpl in Hsim; try discriminate.
    reflexivity.
Qed.

Lemma score_targets_groups (a : string) (todo : list string) :
  forall seen entry all enforce,
    groups_of ratio limit a seen entry ->
    groups_of ratio limit a (seen ++ todo)
      (fst (score_targets ratio limit enforce a todo (entry, all))).
Proof.
  induction todo as [|b rest IH]; intros seen entry all enforce Hg; simpl.
  - rewrite app_nil_r. assumption.
  - replace (seen ++ b :: rest) with ((seen ++ [b]) ++ rest)
      by (rewrite <- app_assoc; reflexivity).
    destruct (Qgtb (ratio a b) limit) eqn:Eb.
    + apply IH. apply check_for_unique_similarity_groups; assumption.
    + apply IH. intros q. rewrite tied_at_app.
      assert (tied_at ratio limit a q [b] = []) as ->.
      { unfold tied_at. simpl. rewrite Eb, andb_false_r. reflexivity. }
      rewrite app_nil_r. apply Hg.
Qed.

Lemma entry_of_groups (a : string) (targets : list string) :
  groups_of ratio limit a targets (entry_of ratio limit a targets).
Proof.
  unfold entry_of.
  apply (score_targets_groups a targets [] [] [] false).
  intros q. reflexivity.
Qed.

Lemma score_targets_keys (a : string) (todo : list string) :
  forall entry all enforce k,
    In k (Dict.keys (fst (score_targets ratio limit enforce a todo (entry, all)))) ->
    In k (Dict.keys entry) \/ exists b, In b todo /\ k = ratio a b.
Proof.
  induction todo as [|b rest IH]; intros entry all enforce k; simpl; [auto|].
  destruct (Qgtb (ratio a b) limit).
  - intros H. apply IH in H. destruct H as [H|(b' & H1 & H2)]; [|eauto].
    unfold _check_for_unique_similarity in H.
    destruct (qget (ratio a b) entry) as [[s|l]|];
      apply keys_qset in H; destruct H as [->|H]; eauto.
  - intros H. apply IH in H. destruct H as [H|(b' & H1 & H2)]; eauto.
Qed.

(** The best score of a source label and the entry recorded under it. *)
Lemma best_group (a : string) (targets : list string) (s : Q)
  (top : Q) (rest : list Q) :
  (limit < s)%Q ->
  (forall b, In b targets -> (ratio a b <= s)%Q) ->
  sort_desc (Dict.keys (entry_of ratio limit a targets)) = top :: rest ->
  (exists b, In b targets /\ ratio a b == s) ->
  qget top (entry_of ratio limit a targets)
  = pack (filter (fun b => Qeq_bool (ratio a b) s) targets).
Proof.
  intros Hs Hmax Hsort (b0 & Hb0 & Eb0).
  destruct (sort_desc_head _ _ _ Hsort) as [Htop Hall].
  assert (Htop_le : (top <= s)%Q).
  { apply (score_targets_keys a targets [] [] false) in Htop.
    destruct Htop as [[]|(b & Hb & ->)]. auto. }
  assert (Hs_le : (s <= top)%Q).
  { assert (Hg : qget s (entry_of ratio limit a targets) <> None).
    { rewrite entry_of_groups.
      assert (Hin : In b0 (tied_at ratio limit a s targets)).
      { unfold tied_at. apply filter_In. split; [assumption|].
        apply andb_true_intro. split.
        - apply Qeq_bool_iff. now symmetry.
        - apply Qgtb_lt. now rewrite Eb0. }
      destruct (tied_at ratio limit a s targets) as [|x [|y r]];
        [contradiction| |]; discriminate. }
    destruct (qget s (entry_of ratio limit a targets)) as [e|] eqn:E; [|congruence].
    apply dict_get_In in E. destruct E as (k & Hk & Ek).
    apply Qeq_bool_iff in Ek. rewrite Ek. apply Hall.
    unfold Dict.keys. apply in_map_iff. exists (k, e). auto. }
  assert (Eq : Qeq_bool top s = true)
    by (apply Qeq_bool_iff; now apply Qle_antisym).
  rewrite (qget_congr top s _ Eq), entry_of_groups. f_equal.
  unfold tied_at. apply filter_ext_in. intros b Hb.
  rewrite (Qeq_bool_comm s (ratio a b)).
  destruct (Qeq_bool (ratio a b) s) eqn:E; [|reflexivity]. simpl.
  apply Qgtb_lt. apply Qeq_bool_iff in E. now rewrite E.
Qed.

End Ties.

Lemma greedy_step_other (t : Tables) (e a : string)
  (m : MatchDict) (la lb : list string) (m' : MatchDict) (la' lb' : list string) :
  greedy_step t e (m, la, lb) = Ok (m', la', lb') ->
  a <> e -> mget a m' = mget a m.
Proof.
  unfold greedy_step. intros H Hne.
  inv_bind H as entry He. inv_bind H as ordered Ho.
  destruct ordered as [|top ordered]; [inv_ok; reflexivity|].
  inv_bind H as best Hb. inv_bind H as l1 H1. inv_bind H as l2 H2. inv_ok.
  now apply mget_mset_other.
Qed.

Lemma greedy_loop_other (t : Tables) (a : string) (copy : list string) :
  ~ In a copy ->
  forall m la lb m' la' lb',
    greedy_loop t copy (m, la, lb) = Ok (m', la', lb') -> mget a m' = mget a m.
Proof.
  induction copy as [|e rest IH]; simpl; intros Hin m la lb m' la' lb' H.
  - inv_ok. reflexivity.
  - inv_bind H as [[m1 la1] lb1] Hs.
    rewrite (IH (fun Hr => Hin (or_intror Hr)) _ _ _ _ _ _ H).
    eapply greedy_step_other; eauto.
Qed.

(** The entry recorded for a source label that has a best score. *)
Lemma greedy_loop_records (t : Tables) (a : string) (entry : SimDict)
  (top : Q) (ordered : list Q) (best : Entry) (copy : list string) :
  Dict.get String.eqb a (most_similar t) = Some entry ->
  Dict.get String.eqb a (ordered_most_similar t) = Some (top :: ordered) ->
  qget top entry = Some best ->
  NoDup copy -> In a copy ->
  forall m la lb m' la' lb',
    greedy_loop t copy (m, la, lb) = Ok (m', la', lb') ->
    mget a m' = Some (to_value best).
Proof.
  intros He Ho Hb. induction copy as [|e rest IH]; simpl;
    intros Hnd Hin m la lb m' la' lb' H; [contradiction|].
  inversion Hnd as [|? ? Hne Hrest]; subst.
  inv_bind H as [[m1 la1] lb1] Hs.
  destruct (string_dec e a) as [->|Hea].
  - rewrite (greedy_loop_other t a rest Hne _ _ _ _ _ _ H).
    unfold greedy_step in Hs. rewrite He, Ho in Hs. simpl in Hs.
    rewrite Hb in Hs. simpl in Hs.
    inv_bind Hs as l1 H1. inv_bind Hs as l2 H2. inv_ok.
    apply mget_mset_same.
  - destruct Hin as [->|Hin]; [congruence|].
    eapply IH; eauto.
Qed.

Section PerEntryTies.

Variable ratio : string -> string -> Q.
Variable py_int : string -> option Z.
Variable window_width : nat.
Variable list_str_len : list string -> nat.
Variable py_sub : Q -> Q -> Q.

(** C4, as amended: in per-entry greedy matching (no normalisation), for a
    source label left after the direct matches whose highest score [s]
    above the floor is reached by two or more of the remaining targets,
    the call, when it returns, has recorded the list of all those tied
    targets as the match of the label, and none of them is left in the
    caller's list of targets.  (Lists are recorded by other strategies
    too.) *)
Theorem per_entry_greedy_records_ties
  (la lb : list string) (single : bool) (distance limit : Q)
  (stdin : list string) (out : Outcome)
  (m0 : MatchDict) (la0 lb0 : list string) (a : string) (s : Q) :
  match_similar ratio py_int window_width list_str_len py_sub la lb SimplifyOff
    true single false distance limit stdin = Ok out ->
  _find_direct_matches la lb = Ok (m0, la0, lb0) ->
  In a la0 ->
  (limit < s)%Q ->
  (forall b, In b lb0 -> (ratio a b <= s)%Q) ->
  2 <= length (filter (fun b => Qeq_bool (ratio a b) s) lb0) ->
  mget a (matched out)
  = Some (VList (filter (fun b => Qeq_bool (ratio a b) s) lb0))
  /\ forall b, In b (filter (fun b => Qeq_bool (ratio a b) s) lb0) ->
       ~ In b (caller_list_to_be_matched_to out).
Proof.
  intros H Hd0 Ha Hs Hmax Htie. apply match_similar_off_inv in H.
  destruct H as (Hla & Hlb & m0' & la0' & lb0' & Hd & Hr).
  unfold _find_direct_matches in Hd0. rewrite Hd0 in Hd. inv_ok.
  rename la0' into la0, lb0' into lb0, m0' into m0.
  destruct (direct_matches_spec _ _ _ _ _ Hd0 Hla Hlb) as (N1 & N2 & A & B & C).
  destruct Hr as [m la' lb' _ _ Hg -> | m Ha' He df Hg -> | m nm stdin' Ha' Hg ->];
    try discriminate.
  cbn [matched caller_list_to_be_matched_to].
  set (tied := filter (fun b => Qeq_bool (ratio a b) s) lb0) in *.
  destruct (tables_spec ratio limit false la0 lb0 a) as [Tm To].
  assert (PyList.mem a la0 = true) as Hmem by now apply mem_In.
  rewrite Hmem in Tm, To.
  assert (Hex : exists b, In b lb0 /\ ratio a b == s).
  { destruct tied as [|b0 r] eqn:Et; [simpl in Htie; lia|].
    assert (Hb0 : In b0 tied) by (rewrite Et; now left).
    apply filter_In in Hb0. destruct Hb0 as [H1 H2].
    exists b0. split; [assumption | now apply Qeq_bool_iff]. }
  assert (Hkey : exists k, In k (Dict.keys (entry_of ratio limit a lb0))).
  { destruct Hex as (b0 & Hb0 & Eb0).
    assert (Hg' : qget s (entry_of ratio limit a lb0) <> None).
    { rewrite entry_of_groups.
      assert (Hin : In b0 (tied_at ratio limit a s lb0)).
      { unfold tied_at. apply filter_In. split; [assumption|].
        apply andb_true_intro. split.
        - apply Qeq_bool_iff. now symmetry.
        - apply Qgtb_lt. now rewrite Eb0. }
      destruct (tied_at ratio limit a s lb0) as [|x [|y r]];
        [contradiction| |]; discriminate. }
    destruct (qget s (entry_of ratio limit a lb0)) as [e|] eqn:E; [|congruence].
    apply dict_get_In in E. destruct E as (k & Hk & _).
    exists k. unfold Dict.keys. apply in_map_iff. exists (k, e). auto. }
  destruct Hkey as (k & Hk).
  destruct (sort_desc_nonempty _ _ Hk) as (top & rest & Hsort).
  rewrite Hsort in To.
  pose proof (best_group ratio limit a lb0 s top rest Hs Hmax Hsort Hex) as Hbest.
  fold tied in Hbest.
  assert (Hpack : pack tied = Some (Several tied)).
  { destruct tied as [|x [|y r]]; simpl in Htie; try lia; reflexivity. }
  rewrite Hpack in Hbest.
  assert (Hrec : mget a m = Some (VList tied)).
  { apply (greedy_loop_records _ a _ top rest (Several tied) la0 Tm To Hbest N1 Ha
             _ _ _ _ _ _ Hg). }
  split; [assumption|].
  assert (Hc0 : consumed (m0, la0, lb0)).
  { split; [assumption|]. split; [assumption|]. intros a' v Hv.
    apply C in Hv. destruct Hv as (H1 & H2 & ->). split.
    - rewrite A. tauto.
    - intros b [<-|[]]. rewrite B. tauto. }
  destruct (greedy_loop_consumed _ _ _ _ Hg Hc0) as ((_ & _ & Hc) & _ & _).
  intros b Hb. apply (Hc a (VList tied) Hrec). exact Hb.
Qed.

End PerEntryTies.

Lemma per_entry_greedy_records_ties_witness :
  exists out,
    run_match_similar ["Apple"; "pineapple"] ["Apple"; "pineappla"; "Pineapple"]
      SimplifyOff true true false (1#10) (6#10) [] = Ok out
    /\ mget "pineapple" (matched out)
       = Some (VList (filter (fun b => Qeq_bool (py_ratio "pineapple" b) (PyFloat.of_Q (16#18)))
                        ["pineappla"; "Pineapple"]))
    /\ forall b,
         In b (filter (fun b => Qeq_bool (py_ratio "pineapple" b) (PyFloat.of_Q (16#18)))
                 ["pineappla"; "Pineapple"]) ->
         ~ In b (caller_list_to_be_matched_to out).
Proof.
  eexists. split; [vm_compute; reflexivity|].
  apply (per_entry_greedy_records_ties py_ratio int_of_decimal 200
           plain_list_str_len PyFloat.sub
           ["Apple"; "pineapple"] ["Apple"; "pineappla"; "Pineapple"]
           true (PyFloat.of_Q (1#10)) (PyFloat.of_Q (6#10)) [] _
           [("Apple", VStr "Apple")] ["pineapple"] ["pineappla"; "Pineapple"]
           "pineapple" (PyFloat.of_Q (16#18))).
  - vm_compute. reflexivity.
  - vm_compute. reflexivity.
  - simpl. auto.
  - reflexivity.
  - intros b [<-|[<-|[]]]; vm_compute; discriminate.
  - vm_compute. lia.
Defined.

(** ** The loop over the data frame ends within its fuel *)

Lemma in_time_Ok {A : Type} (a : A) : in_time (Ok a).
Proof. discriminate. Qed.

Lemma in_time_bind {A B : Type} (c : res A) (k : A -> res B) :
  in_time c -> (forall a, c = Ok a -> in_time (k a)) -> in_time (bind c k).
Proof.
  intros Hc Hk. destruct c as [a|e]; simpl; [now apply Hk|].
  intros H. apply Hc. injection H as ->. reflexivity.
Qed.

Lemma in_time_of_option {A : Type} (e : exn) (o : option A) :
  e <> OutOfFuel -> in_time (of_option e o).
Proof. intros He. destruct o; simpl; [discriminate | congruence]. Qed.

Ltac in_time_step :=
  first [ apply in_time_Ok
        | apply in_time_of_option; discriminate
        | apply in_time_bind; [ | intros ? ? ] ].

Lemma py_remove_in_time (x : string) (l : list string) :
  in_time (PyList.remove x l).
Proof.
  induction l as [|y l IH]; simpl; [discriminate|].
  destruct (String.eqb x y); repeat in_time_step. exact IH.
Qed.

Lemma remove_first_occurrences_in_time (elements : list string) :
  forall doubled_entries,
    in_time (remove_first_occurrences elements doubled_entries).
Proof.
  induction elements as [|e rest IH]; simpl; intros d; repeat in_time_step.
  - apply py_remove_in_time.
  - apply IH.
Qed.

Lemma remove_index_in_time (index : nat) (indexes : list nat) :
  in_time (remove_index index indexes).
Proof.
  induction indexes as [|i rest IH]; simpl; [discriminate|].
  destruct (Nat.eqb index i); repeat in_time_step. exact IH.
Qed.

Lemma mark_unmatchable_in_time (of_element : list nat) :
  forall st, in_time (mark_unmatchable of_element st).
Proof.
  induction of_element as [|i rest IH]; simpl; intros st; repeat in_time_step.
  - apply remove_index_in_time.
  - apply IH.
Qed.

Lemma mark_doubled_in_time (d : IndexDict) (doubled_entries : list string) :
  forall st, in_time (mark_doubled d doubled_entries st).
Proof.
  induction doubled_entries as [|e rest IH]; simpl; intros st;
    repeat in_time_step.
  - apply mark_unmatchable_in_time.
  - apply IH.
Qed.

Lemma collect_entries_in_time (df : list Row) (indexes : list nat) :
  forall st, in_time (collect_entries df indexes st).
Proof.
  induction indexes as [|i rest IH]; simpl; intros [all_entries d];
    repeat in_time_step. apply IH.
Qed.

Lemma commit_indexes_in_time (indexes : list nat) :
  forall st, in_time (commit_indexes indexes st).
Proof.
  induction indexes as [|i rest IH]; simpl; intros [df m];
    repeat in_time_step. apply IH.
Qed.

Lemma df_step_in_time (bounded : bool) (df : list Row) (m : MatchDict) :
  in_time (df_step bounded df m).
Proof.
  unfold df_step. destruct df as [|r0 rest]; [discriminate|]. cbv zeta.
  destruct (match rest with
            | [] => false
            | r1 :: _ => negb (Qeq_bool (row_similarity r0) (row_similarity r1))
            end); [apply in_time_Ok|].
  apply in_time_bind; [apply collect_entries_in_time|].
  intros [all_entries d] _.
  apply in_time_bind; [apply remove_first_occurrences_in_time|].
  intros doubled_entries _.
  apply in_time_bind; [apply mark_doubled_in_time|].
  intros [[|i indexes'] index] _;
    [apply in_time_Ok | apply commit_indexes_in_time].
Qed.

Lemma filter_shorter {A : Type} (f : A -> bool) (l : list A) :
  length (filter f l) <= length l.
Proof.
  induction l as [|x l IH]; simpl; [lia|]. destruct (f x); simpl; lia.
Qed.

(** A round leaves a frame that is not longer. *)
Lemma df_step_shorter (bounded : bool) (df : list Row) (m : MatchDict)
  (df' : list Row) (m' : MatchDict) :
  df_step bounded df m = Ok (df', m') -> length df' <= length df.
Proof.
  intros H.
  eapply (df_step_inv (fun d _ => length d <= length df));
    [ | | | exact H | lia ].
  - intros f d _ Hd. pose proof (filter_shorter f d). lia.
  - intros d _ r _ Hd. unfold drop_entry_b, drop_entry_a.
    pose proof (filter_shorter (fun r1 => negb (String.eqb (row_entry_a r1) (row_entry_a r))) d).
    pose proof (filter_shorter (fun r1 => negb (String.eqb (row_entry_b r1) (row_entry_b r)))
                  (filter (fun r1 => negb (String.eqb (row_entry_a r1) (row_entry_a r))) d)).
    lia.
  - intros d _ r _ _ Hd. unfold drop_entry_b, drop_entry_a.
    pose proof (filter_shorter (fun r1 => negb (String.eqb (row_entry_a r1) (row_entry_a r))) d).
    pose proof (filter_shorter (fun r1 => negb (String.eqb (row_entry_b r1) (row_entry_b r)))
                  (filter (fun r1 => negb (String.eqb (row_entry_a r1) (row_entry_a r))) d)).
    lia.
Qed.

Lemma df_loop_in_time (bounded : bool) (fuel : nat) :
  forall df old_length m,
    length df <= fuel -> in_time (df_loop fuel bounded df old_length m).
Proof.
  induction fuel as [|fuel IH]; intros df old_length m Hlen; simpl.
  - destruct df; [apply in_time_Ok | simpl in Hlen; lia].
  - destruct (Nat.eqb (length df) 0 || Nat.eqb (length df) old_length);
      [apply in_time_Ok|].
    apply in_time_bind; [apply df_step_in_time|].
    intros [df1 m1] Hs. apply df_step_shorter in Hs.
    destruct (Nat.eq_dec (length df1) (length df)) as [E|E].
    + destruct fuel as [|fuel']; simpl; rewrite E, Nat.eqb_refl, orb_true_r;
        apply in_time_Ok.
    + apply IH. lia.
Qed.

(** The loop over the frame, run with the fuel the two callers give it,
    returns or raises one of the exceptions of the code. *)
Lemma df_loop_fuel_enough (bounded : bool) (df : list Row) (old_length : nat)
  (m : MatchDict) :
  df_loop (df_loop_fuel df) bounded df old_length m <> Raise OutOfFuel.
Proof. apply df_loop_in_time. unfold df_loop_fuel. lia. Qed.

(** ** No call runs out of fuel *)

Create HintDb in_time.

Ltac in_time_auto :=
  repeat first
    [ apply in_time_Ok
    | assumption
    | apply in_time_of_option; discriminate
    | apply df_loop_fuel_enough
    | match goal with
      | |- in_time (Raise _) => discriminate
      | |- in_time (bind _ _) => apply in_time_bind; [ | intros ? _ ]
      | |- in_time (match ?x with _ => _ end) => destruct x
      end
    | solve [auto with in_time] ].

#[local] Hint Resolve py_remove_in_time : in_time.

Lemma simplify_loop_in_time (lower_case : bool) (cls : option (ascii -> bool))
  (to_simplify : list string) :
  forall st, in_time (simplify_loop lower_case cls to_simplify st).
Proof.
  induction to_simplify as [|key rest IH]; simpl; intros st; in_time_auto.
Qed.

Lemma direct_loop_in_time (copy : list string) :
  forall st, in_time (direct_loop copy st).
Proof.
  induction copy as [|e rest IH]; simpl; intros st; in_time_auto.
Qed.

Lemma remove_each_in_time (most_similar_list : list string) :
  forall l, in_time (remove_each most_similar_list l).
Proof.
  induction most_similar_list as [|b rest IH]; simpl; intros l; in_time_auto.
Qed.

#[local] Hint Resolve simplify_loop_in_time direct_loop_in_time
  remove_each_in_time : in_time.

Lemma greedy_loop_in_time (t : Tables) (copy : list string) :
  forall st, in_time (greedy_loop t copy st).
Proof.
  induction copy as [|e rest IH]; simpl; intros st; in_time_auto.
  unfold greedy_step. in_time_auto.
Qed.

Lemma translate_match_in_time (da db : LabelDict) (items : MatchDict) :
  forall acc, in_time (translate_match da db items acc).
Proof.
  induction items as [|[key value] rest IH]; simpl; intros acc; in_time_auto.
Qed.

Lemma translate_no_match_in_time (da : LabelDict) (no_match : list string) :
  forall acc, in_time (translate_no_match da no_match acc).
Proof.
  induction no_match as [|key rest IH]; simpl; intros acc; in_time_auto.
Qed.

Lemma candidate_in_time (entry : SimDict) (ordered : list Q) (z : Z) :
  in_time (candidate entry ordered z).
Proof. unfold candidate, PyList.index. in_time_auto. Qed.

#[local] Hint Resolve greedy_loop_in_time translate_match_in_time
  translate_no_match_in_time candidate_in_time : in_time.

Lemma input_in_time (stdin : list string) : in_time (input stdin).
Proof. unfold input. in_time_auto. Qed.

#[local] Hint Resolve input_in_time : in_time.

Lemma print_candidates_in_time (entry : SimDict) (ordered : list Q)
  (number_to_show : nat) :
  forall n, in_time (print_candidates entry ordered n number_to_show).
Proof.
  induction number_to_show as [|k IH]; simpl; intros n; in_time_auto.
Qed.

Lemma further_prompts_in_time (entry : SimDict) (ordered : list Q) (todo : nat) :
  forall n number_to_show stdin,
    in_time (further_prompts entry ordered todo n number_to_show stdin).
Proof.
  induction todo as [|k IH]; simpl; intros n number_to_show stdin; in_time_auto.
Qed.

#[local] Hint Resolve print_candidates_in_time further_prompts_in_time : in_time.

Lemma interactive_loop_in_time (py_int : string -> option Z)
  (window_width : nat) (list_str_len : list string -> nat)
  (py_sub : Q -> Q -> Q)
  (t : Tables) (distance : Q) (la : list string) :
  forall st,
    in_time (interactive_loop py_int window_width list_str_len py_sub t distance la st).
Proof.
  induction la as [|e rest IH]; simpl; intros st; in_time_auto.
  unfold interactive_step, ask. cbv zeta. in_time_auto.
Qed.

Lemma further_print_statements_in_time (decreasing_matches : list (Q * string))
  (todo : nat) :
  forall n number_to_show stdin,
    in_time (further_print_statements decreasing_matches todo n number_to_show stdin).
Proof.
  induction todo as [|k IH]; simpl; intros n number_to_show stdin; in_time_auto.
Qed.

#[local] Hint Resolve interactive_loop_in_time
  further_print_statements_in_time : in_time.

Lemma manual_loop_in_time (py_int : string -> option Z) (window_width : nat)
  (py_sub : Q -> Q -> Q)
  (distance : Q) (entries : list string) :
  forall st, in_time (manual_loop py_int window_width py_sub distance entries st).
Proof.
  induction entries as [|e rest IH]; simpl; intros st; in_time_auto.
  unfold manual_step, select_manually, get_print_setting,
    calculate_longest_string, pair_item, pop. cbv zeta. in_time_auto.
Qed.

Lemma simplify_both_in_time (simplified : Simplifier) (la lb : list string) :
  in_time (simplify_both simplified la lb).
Proof.
  unfold simplify_both, simplify_strings, _check_uniqueness_of_entries.
  in_time_auto.
Qed.

#[local] Hint Resolve manual_loop_in_time simplify_both_in_time : in_time.

(** No call of the three functions ends for want of fuel: it returns, or
    raises one of the exceptions of the code. *)
Lemma call_in_time (ratio : string -> string -> Q)
  (py_int : string -> option Z) (window_width : nat)
  (list_str_len : list string -> nat) (py_sub : Q -> Q -> Q)
  (c : Call) (la lb stdin : list string) :
  call ratio py_int window_width list_str_len py_sub c la lb stdin <> Raise OutOfFuel.
Proof.
  change (in_time (call ratio py_int window_width list_str_len py_sub c la lb stdin)).
  destruct c; simpl.
  - unfold match_similar. in_time_auto.
  - unfold match_comprehensive, _check_uniqueness_of_entries,
      _find_direct_matches, translate_back. in_time_auto.
  - unfold match_similar_with_manual_selection, _check_uniqueness_of_entries,
      _find_direct_matches, translate_back. in_time_auto.
Qed.

(** ** Calls without normalisation: every label is placed once *)

Lemma uniqueness_checked (data_set : list string) (u : bool) :
  _check_uniqueness_of_entries data_set = Ok u -> NoDup data_set.
Proof.
  unfold _check_uniqueness_of_entries.
  destruct (PyList.has_duplicates data_set) eqn:E; [discriminate|].
  intros _. now apply has_duplicates_false.
Qed.

Lemma greedy_loop_keys (t : Tables) (copy : list string) :
  forall m la lb m' la' lb',
    greedy_loop t copy (m, la, lb) = Ok (m', la', lb') ->
    (forall x, In x (mkeys m) -> In x (mkeys m'))
    /\ (forall x, In x la -> In x la' \/ In x (mkeys m')).
Proof.
  induction copy as [|e rest IH]; simpl; intros m la lb m' la' lb' H.
  - inv_ok. auto.
  - inv_bind H as [[m1 la1] lb1] Hs.
    destruct (IH _ _ _ _ _ _ H) as [K1 K2].
    unfold greedy_step in Hs.
    inv_bind Hs as entry He. inv_bind Hs as ordered Ho.
    destruct ordered as [|top ordered]; [inv_ok; auto|].
    inv_bind Hs as best Hb. inv_bind Hs as l1 H1. inv_bind Hs as l2 H2. inv_ok.
    split.
    + intros x Hx. apply K1. apply mkeys_mset. now right.
    + intros x Hx. destruct (string_dec x e) as [->|Hne].
      * right. apply K1. apply mkeys_mset. now left.
      * apply K2. eapply py_remove_other; eauto.
Qed.

Lemma df_loop_keys (bounded : bool) (fuel : nat) (df : list Row)
  (old_length : nat) (m m' : MatchDict) (x : string) :
  df_loop fuel bounded df old_length m = Ok m' ->
  In x (mkeys m) -> In x (mkeys m').
Proof.
  intros H Hx.
  enough (Hex : exists df' : list Row, In x (mkeys m'))
    by (destruct Hex as (_ & Hm'); exact Hm').
  eapply (df_loop_inv (fun _ m0 => In x (mkeys m0))); [ | | | exact H | exact Hx ].
  - intros f d m0 H0. exact H0.
  - intros d m0 r Hr H0. apply mkeys_mset. now right.
  - intros d m0 r l Hr H0. apply mkeys_mset. now right.
Qed.

Section Placed.

Variable ratio : string -> string -> Q.
Variable py_int : string -> option Z.
Variable window_width : nat.
Variable list_str_len : list string -> nat.
Variable py_sub : Q -> Q -> Q.

(** What the interactive loop leaves: the keys it adds are source labels,
    and a source label is put in [no_match] exactly when it got no
    match. *)
Lemma interactive_loop_spec (t : Tables) (distance : Q) (la : list string) :
  NoDup la ->
  forall m nm stdin m' nm' stdin',
    interactive_loop py_int window_width list_str_len py_sub t distance la (m, nm, stdin)
    = Ok (m', nm', stdin') ->
    (forall x, In x (mkeys m) -> In x (mkeys m'))
    /\ (forall x, ~ In x la -> mget x m' = mget x m)
    /\ (forall x, In x nm' <-> In x nm \/ (In x la /\ ~ In x (mkeys m'))).
Proof.
  induction la as [|e rest IH]; simpl; intros Hnd m nm stdin m' nm' stdin' H.
  - inv_ok. repeat split; auto; tauto.
  - inversion Hnd as [|? ? He Hrest]; subst.
    inv_bind H as [[m1 nm1] stdin1] Hs.
    destruct (IH Hrest _ _ _ _ _ _ H) as (K1 & K2 & K3).
    destruct (interactive_step_spec ratio py_int window_width list_str_len py_sub
                _ _ _ _ _ _ _ _ _ Hs)
      as (entry & Hentry & Hm1 & _ & Hnm1).
    assert (Hkeys : forall x, In x (mkeys m) -> In x (mkeys m1)).
    { intros x Hx. destruct Hm1 as [->|(q & c & _ & ->)]; [assumption|].
      apply mkeys_mset. now right. }
    assert (Hother : forall x, x <> e -> mget x m1 = mget x m).
    { intros x Hx. destruct Hm1 as [->|(q & c & _ & ->)]; [reflexivity|].
      now apply mget_mset_other. }
    split; [auto|]. split.
    + intros x Hx. rewrite K2 by tauto. apply Hother. intros ->. tauto.
    + intros x. rewrite K3, Hnm1.
      assert (He' : In e (mkeys m') <-> In e (mkeys m1)).
      { rewrite <- !mget_In_keys. rewrite (K2 e He). tauto. }
      destruct (mhas e m1) eqn:Eh.
      * apply mhas_true in Eh.
        destruct (string_dec x e) as [->|Hne]; [tauto|].
        split; [tauto|]. intros [?|[[?|?] ?]]; [tauto|congruence|tauto].
      * apply mhas_false in Eh. rewrite in_app_iff. simpl.
        destruct (string_dec x e) as [->|Hne]; [tauto|].
        split; [intros [[?|[?|[]]]|?]; try tauto; congruence|].
        intros [?|[[?|?] ?]]; [tauto|congruence|tauto].
Qed.

Lemma manual_step_spec (distance : Q) (entry_a : string)
  (sims : Similarities) (m : MatchDict) (stdin : list string)
  (sims' : Similarities) (m' : MatchDict) (stdin' : list string) :
  manual_step py_int window_width py_sub distance entry_a (sims, m, stdin)
  = Ok (sims', m', stdin') ->
  m' = m \/ exists v, m' = mset entry_a v m.
Proof.
  unfold manual_step. intros H. cbv zeta in H.
  inv_bind H as groups Hg. inv_bind H as s0 H0. inv_bind H as s1 H1.
  inv_bind H as asks Ha. destruct asks.
  - inv_bind H as [choice stdin1] Hc. inv_ok.
    destruct choice as [v|]; eauto.
  - inv_bind H as top Ht. inv_bind H as [matched_entry top'] Hp. inv_ok. eauto.
Qed.

Lemma manual_loop_spec (distance : Q) (entries : list string) :
  forall sims m stdin sims' m' stdin',
    manual_loop py_int window_width py_sub distance entries (sims, m, stdin)
    = Ok (sims', m', stdin') ->
    (forall x, In x (mkeys m) -> In x (mkeys m'))
    /\ (forall x, ~ In x entries -> mget x m' = mget x m).
Proof.
  induction entries as [|e rest IH]; simpl; intros sims m stdin sims' m' stdin' H.
  - inv_ok. auto.
  - inv_bind H as [[sims1 m1] stdin1] Hs.
    destruct (IH _ _ _ _ _ _ H) as [K1 K2].
    destruct (manual_step_spec _ _ _ _ _ _ _ _ Hs) as [->|(v & ->)].
    + split; [auto|]. intros x Hx. apply K2. tauto.
    + split.
      * intros x Hx. apply K1. apply mkeys_mset. now right.
      * intros x Hx. rewrite K2 by tauto. apply mget_mset_other.
        intros ->. tauto.
Qed.

Lemma group_sources_keys (la lb : list string) :
  forall d x,
    In x (Dict.keys (group_sources ratio la lb d)) -> In x (Dict.keys d) \/ In x la.
Proof.
  induction la as [|e rest IH]; simpl; intros d x H; [auto|].
  apply IH in H. destruct H as [H|H]; [|auto].
  assert (G : forall (v : GroupDict) (d0 : Similarities),
             In x (Dict.keys (Dict.set String.eqb e v d0)) ->
             x = e \/ In x (Dict.keys d0)).
  { clear. intros v d0. unfold Dict.keys.
    induction d0 as [|[k0 v0] d0 IH]; simpl.
    - intros [<-|[]]. now left.
    - destruct (String.eqb e k0); simpl.
      + intros [<-|H]; auto.
      + intros [<-|H]; [auto|]. destruct (IH H); auto. }
  apply G in H. destruct H as [->|H]; auto.
Qed.

Lemma call_returns_plain (c : Call) (la lb stdin : list string) (out : Outcome) :
  simplifies c = false ->
  call ratio py_int window_width list_str_len py_sub c la lb stdin = Ok out ->
  returns_plain la lb out.
Proof.
  intros Hc H.
  destruct c as [sw auto single enforce dist limit | simplified
                | simplified dist limit]; simpl in Hc, H.
  - destruct sw; try discriminate.
    apply match_similar_off_inv in H.
    destruct H as (Hla & Hlb & m0 & la0 & lb0 & Hd & Hr).
    destruct (direct_matches_spec _ _ _ _ _ Hd Hla Hlb) as (N1 & N2 & A & B & C).
    destruct Hr as [m la' lb' Ha He Hg -> | m Ha He df Hg -> | m nm stdin' Ha Hg ->].
    + destruct (greedy_loop_keys _ _ _ _ _ _ _ _ Hg) as [K1 K2].
      destruct (greedy_loop_consumed _ _ _ _ Hg) as (_ & S1 & _).
      { split; [assumption|]. split; [assumption|]. intros a v Hv.
        apply C in Hv. destruct Hv as (H1 & H2 & ->). split.
        - rewrite A. tauto.
        - intros b [<-|[]]. rewrite B. tauto. }
      apply (@returns_plain_intro la lb _ m0 la0 lb0 m); auto.
      * intros x Hx. eapply greedy_loop_other; eauto.
      * intros x. cbn [no_match]. rewrite difference_In. split.
        -- intros [H1 H2]. split; [apply S1; exact H1 | exact H2].
        -- intros [H1 H2]. split; [|exact H2].
           destruct (K2 x H1); [assumption | contradiction].
    + apply (@returns_plain_intro la lb _ m0 la0 lb0 m); auto.
      * intros x Hx. eapply df_loop_keys; eauto.
      * intros x Hx. eapply (df_loop_untouched ratio py_int); eauto.
        intros r Hr Heq. apply Hx. rewrite <- Heq.
        eapply frame_rows_above; exact Hr.
      * intros x. cbn [no_match]. apply difference_In.
    + destruct (interactive_loop_spec _ _ _ N1 _ _ _ _ _ _ Hg) as (K1 & K2 & K3).
      apply (@returns_plain_intro la lb _ m0 la0 lb0 m); auto.
      intros x. cbn [no_match]. rewrite K3. simpl. tauto.
  - destruct simplified; try discriminate.
    unfold match_comprehensive in H.
    inv_bind H as u1 Hu1. inv_bind H as u2 Hu2.
    apply uniqueness_checked in Hu1. apply uniqueness_checked in Hu2.
    cbn [simplify_both bind] in H.
    inv_bind H as [[m0 la0] lb0] Hd. inv_bind H as m1 Hg.
    cbn [translate_back] in H. inv_ok.
    apply (@returns_plain_intro la lb _ m0 la0 lb0 m1); auto.
    + intros x Hx. eapply df_loop_keys; eauto.
    + intros x Hx. eapply (df_loop_untouched ratio py_int); eauto.
      intros r Hr Heq. apply Hx. rewrite <- Heq.
      eapply comprehensive_rows_In; exact Hr.
    + intros x. cbn [no_match]. apply difference_In.
  - destruct simplified; try discriminate.
    unfold match_similar_with_manual_selection in H.
    inv_bind H as u1 Hu1. inv_bind H as u2 Hu2.
    apply uniqueness_checked in Hu1. apply uniqueness_checked in Hu2.
    cbn [simplify_both bind] in H.
    inv_bind H as [[m0 la0] lb0] Hd. inv_bind H as [[sims m1] stdin1] Hg.
    cbn [translate_back] in H. inv_ok.
    destruct (manual_loop_spec _ _ _ _ _ _ _ _ Hg) as [K1 K2].
    apply (@returns_plain_intro la lb _ m0 la0 lb0 m1); auto.
    + intros x Hx. apply K2. intros Hin. apply Hx.
      unfold _calculate_similarities_listed_by_list_for_matching_entry in Hin.
      apply group_sources_keys in Hin. destruct Hin as [[]|Hin]. exact Hin.
    + intros x. cbn [no_match]. apply difference_In.
Qed.

(** Without normalisation, every label of [list_for_matching] is, on
    return, a key of the mapping or an element of [no_match], and not
    both: the statement of C1 on the calls that do not normalise. *)
Theorem every_label_placed_once (c : Call) (la lb stdin : list string)
  (out : Outcome) (a : string) :
  simplifies c = false ->
  call ratio py_int window_width list_str_len py_sub c la lb stdin = Ok out ->
  In a la ->
  (In a (mkeys (matched out)) /\ ~ In a (no_match out))
  \/ (~ In a (mkeys (matched out)) /\ In a (no_match out)).
Proof.
  intros Hc H Ha. destruct (call_returns_plain c la lb stdin out Hc H)
    as [m0 la0 lb0 m Hla Hlb Hd Hm K1 K2 K3].
  destruct (direct_matches_spec _ _ _ _ _ Hd Hla Hlb) as (N1 & N2 & A & B & C).
  rewrite Hm, K3.
  destruct (in_dec string_dec a (mkeys m)) as [Hin|Hout]; [left; tauto|].
  right. split; [assumption|]. split; [|assumption].
  apply A. split; [assumption|]. intros Hb. apply Hout, K1.
  apply mget_In_keys. exists (VStr a). apply C. auto.
Qed.

(** Without normalisation, a source label equal to a target label is, on
    return, matched to that label, whatever the strategy: the statement
    of C2 on the calls that do not normalise. *)
Theorem direct_match_is_kept (c : Call) (la lb stdin : list string)
  (out : Outcome) (a : string) :
  simplifies c = false ->
  call ratio py_int window_width list_str_len py_sub c la lb stdin = Ok out ->
  In a la -> In a lb ->
  mget a (matched out) = Some (VStr a) /\ ~ In a (no_match out).
Proof.
  intros Hc H Ha Hb. destruct (call_returns_plain c la lb stdin out Hc H)
    as [m0 la0 lb0 m Hla Hlb Hd Hm K1 K2 K3].
  destruct (direct_matches_spec _ _ _ _ _ Hd Hla Hlb) as (N1 & N2 & A & B & C).
  assert (Hout : ~ In a la0) by (rewrite A; tauto).
  rewrite Hm, K3, (K2 a Hout). split; [|tauto]. apply C. auto.
Qed.

End Placed.

(** ** The score *)

Module DifflibFacts.

Import Difflib.
Import DifflibSpec.

Lemma indices_from_spec (elt : ascii) (b : list ascii) :
  forall j0 j, In j (indices_from elt b j0) ->
    j0 <= j /\ j < j0 + length b /\ nth (j - j0) b zero = elt.
Proof.
  induction b as [|x b IH]; simpl; intros j0 j H; [contradiction|].
  destruct (Ascii.eqb elt x) eqn:E.
  - destruct H as [<-|H].
    + apply Ascii.eqb_eq in E. subst. rewrite Nat.sub_diag. repeat split; lia.
    + apply IH in H. destruct H as (H1 & H2 & H3). repeat split; try lia.
      replace (j - j0) with (S (j - S j0)) by lia. assumption.
  - apply IH in H. destruct H as (H1 & H2 & H3). repeat split; try lia.
    replace (j - j0) with (S (j - S j0)) by lia. assumption.
Qed.

Lemma b2j_spec (b : list ascii) (elt : ascii) (j : nat) :
  In j (b2j b elt) -> j < length b /\ nth j b zero = elt /\ popular b elt = false.
Proof.
  unfold b2j. destruct (popular b elt) eqn:E; [contradiction|].
  intros H. apply indices_from_spec in H. rewrite Nat.sub_0_r in H.
  destruct H as (_ & H1 & H2). auto.
Qed.

Lemma j2len_find_In (j : nat) (d : J2len) :
  j2len_find j d = 0 \/ In (j, j2len_find j d) d.
Proof.
  induction d as [|[j' k] d IH]; simpl; [now left|].
  destruct (Nat.eqb j j') eqn:E.
  - apply Nat.eqb_eq in E. subst. right. now left.
  - destruct IH; auto.
Qed.

Lemma j2lenget_cases (d : J2len) (j : nat) :
  j2lenget d j = 0 \/ exists j', j = S j' /\ In (j', j2lenget d j) d.
Proof.
  destruct j as [|j']; simpl; [now left|].
  destruct (j2len_find_In j' d); eauto.
Qed.

Section Window.

Variables (a b : list ascii) (alo ahi blo bhi : nat).

Lemma block_ok_weaken (ahi1 ahi2 : nat) (m : Match) :
  ahi1 <= ahi2 -> block_ok a b alo ahi1 blo bhi m -> block_ok a b alo ahi2 blo bhi m.
Proof.
  destruct m as [[i j] k]. unfold block_ok. intros H (H1 & H2 & H3 & H4 & H5).
  repeat split; auto; lia.
Qed.

Lemma scan_ok (i : nat) (js : list nat) :
  alo <= i ->
  (forall j, In j js -> nth j b zero = nth i a zero) ->
  forall j2len newj2len best,
    Forall (entry_ok a b alo blo i) j2len ->
    Forall (entry_ok a b alo blo (S i)) newj2len ->
    block_ok a b alo (S i) blo bhi best ->
    Forall (entry_ok a b alo blo (S i)) (fst (scan i blo bhi js j2len newj2len best))
    /\ block_ok a b alo (S i) blo bhi (snd (scan i blo bhi js j2len newj2len best)).
Proof.
  intros Hi. induction js as [|j rest IH]; intros Hjs j2len newj2len best Hp Hn Hb;
    simpl; [auto|].
  assert (Hrest : forall j', In j' rest -> nth j' b zero = nth i a zero)
    by (intros j' Hj'; apply Hjs; now right).
  destruct (Nat.ltb j blo) eqn:E1; [apply IH; auto|].
  destruct (Nat.leb bhi j) eqn:E2; [simpl; auto|].
  apply Nat.ltb_ge in E1. apply Nat.leb_gt in E2.
  assert (Hj : nth j b zero = nth i a zero) by (apply Hjs; now left).
  assert (Hk : entry_ok a b alo blo (S i) (j, j2lenget j2len j + 1)).
  { unfold entry_ok. destruct (j2lenget_cases j2len j) as [->|(j' & -> & Hin)].
    - simpl. repeat split; try lia. intros t Ht.
      replace t with 0 by lia. rewrite !Nat.sub_0_r. auto.
    - rewrite Forall_forall in Hp. specialize (Hp _ Hin). unfold entry_ok in Hp.
      destruct Hp as (P1 & P2 & P3 & P4).
      repeat split; try lia. intros t Ht.
      destruct t as [|t].
      + simpl. rewrite !Nat.sub_0_r. auto.
      + replace (S i - 1 - S t) with (i - 1 - t) by lia.
        replace (S j' - S t) with (j' - t) by lia.
        apply P4. lia. }
  apply IH; auto.
  destruct (Nat.ltb (size best) (j2lenget j2len j + 1)); [|assumption].
  unfold entry_ok in Hk. destruct Hk as (K1 & K2 & K3 & K4).
  unfold block_ok. repeat split; try lia.
  intros t Ht.
  replace (i + 1 - (j2lenget j2len j + 1) + t)
    with (S i - 1 - (j2lenget j2len j + 1 - 1 - t)) by lia.
  replace (j + 1 - (j2lenget j2len j + 1) + t)
    with (j - (j2lenget j2len j + 1 - 1 - t)) by lia.
  apply K4. lia.
Qed.

Lemma rows_ok (todo : nat) :
  forall i j2len best,
    alo <= i -> i + todo = ahi ->
    Forall (entry_ok a b alo blo i) j2len ->
    block_ok a b alo i blo bhi best ->
    block_ok a b alo ahi blo bhi (rows a b blo bhi todo i j2len best).
Proof.
  induction todo as [|todo IH]; intros i j2len best Hi Hahi Hp Hb; simpl.
  - replace ahi with i by lia. assumption.
  - destruct (scan i blo bhi (b2j b (nth i a zero)) j2len [] best)
      as [newj2len best'] eqn:Es.
    destruct (scan_ok i (b2j b (nth i a zero)) Hi) with
      (j2len := j2len) (newj2len := @nil (nat * nat)) (best := best) as [S1 S2]; auto.
    + intros j Hj. apply b2j_spec in Hj. tauto.
    + eapply block_ok_weaken; [|eassumption]. lia.
    + rewrite Es in S1, S2. simpl in S1, S2.
      apply IH; auto; lia.
Qed.

Lemma extend_left_ok (fuel : nat) :
  forall best, block_ok a b alo ahi blo bhi best ->
    block_ok a b alo ahi blo bhi (extend_left a b alo blo fuel best).
Proof.
  induction fuel as [|fuel IH]; intros [[i j] k] Hb; simpl; [assumption|].
  destruct (Nat.ltb alo i && Nat.ltb blo j
            && Ascii.eqb (nth (i - 1) a zero) (nth (j - 1) b zero)) eqn:E;
    [|assumption].
  apply andb_true_iff in E. destruct E as [E E3].
  apply andb_true_iff in E. destruct E as [E1 E2].
  apply Nat.ltb_lt in E1. apply Nat.ltb_lt in E2. apply Ascii.eqb_eq in E3.
  apply IH. unfold block_ok in *. destruct Hb as (H1 & H2 & H3 & H4 & H5).
  repeat split; try lia. intros t Ht. destruct t as [|t].
  - rewrite !Nat.add_0_r. assumption.
  - replace (i - 1 + S t) with (i + t) by lia.
    replace (j - 1 + S t) with (j + t) by lia. apply H5. lia.
Qed.

Lemma extend_right_ok (fuel : nat) :
  forall best, block_ok a b alo ahi blo bhi best ->
    block_ok a b alo ahi blo bhi (extend_right a b ahi bhi fuel best).
Proof.
  induction fuel as [|fuel IH]; intros [[i j] k] Hb; simpl; [assumption|].
  destruct (Nat.ltb (i + k) ahi && Nat.ltb (j + k) bhi
            && Ascii.eqb (nth (i + k) a zero) (nth (j + k) b zero)) eqn:E;
    [|assumption].
  apply andb_true_iff in E. destruct E as [E E3].
  apply andb_true_iff in E. destruct E as [E1 E2].
  apply Nat.ltb_lt in E1. apply Nat.ltb_lt in E2. apply Ascii.eqb_eq in E3.
  apply IH. unfold block_ok in *. destruct Hb as (H1 & H2 & H3 & H4 & H5).
  repeat split; try lia. intros t Ht.
  destruct (Nat.eq_dec t k) as [->|Hne]; [assumption | apply H5; lia].
Qed.

(** The block returned by [find_longest_match] lies in the two windows
    and its elements agree. *)
Lemma find_longest_match_ok :
  alo <= ahi -> blo <= bhi ->
  block_ok a b alo ahi blo bhi (find_longest_match a b alo ahi blo bhi).
Proof.
  intros Ha Hb. unfold find_longest_match.
  apply extend_right_ok, extend_left_ok, rows_ok; auto; try lia.
  all: try (unfold block_ok; repeat split; try lia; intros t Ht; lia).
Qed.

End Window.

(** The blocks found in a window cover at most each side of it, and when
    they cover both sides entirely the two windows are equal. *)
Lemma matches_ok (a b : list ascii) (fuel : nat) :
  forall alo ahi blo bhi, alo <= ahi -> blo <= bhi ->
    matches fuel a b alo ahi blo bhi <= ahi - alo
    /\ matches fuel a b alo ahi blo bhi <= bhi - blo
    /\ (matches fuel a b alo ahi blo bhi = ahi - alo ->
        matches fuel a b alo ahi blo bhi = bhi - blo ->
        forall t, t < ahi - alo -> nth (alo + t) a zero = nth (blo + t) b zero).
Proof.
  induction fuel as [|fuel IH]; intros alo ahi blo bhi Ha Hb; simpl.
  - repeat split; try lia; try (intros H1 H2 t Ht; lia).
  - pose proof (find_longest_match_ok a b alo ahi blo bhi Ha Hb) as Hf.
    destruct (find_longest_match a b alo ahi blo bhi) as [[i j] k].
    unfold block_ok in Hf. destruct Hf as (F1 & F2 & F3 & F4 & F5).
    destruct (Nat.eqb k 0) eqn:Ek.
    + repeat split; try lia; try (intros H1 H2 t Ht; lia).
    + apply Nat.eqb_neq in Ek.
      set (L := if Nat.ltb alo i && Nat.ltb blo j
                then matches fuel a b alo i blo j else 0).
      set (R := if Nat.ltb (i + k) ahi && Nat.ltb (j + k) bhi
                then matches fuel a b (i + k) ahi (j + k) bhi else 0).
      assert (HL : L <= i - alo /\ L <= j - blo
                   /\ (L = i - alo -> L = j - blo ->
                       forall t, t < i - alo ->
                         nth (alo + t) a zero = nth (blo + t) b zero)).
      { unfold L. destruct (Nat.ltb alo i && Nat.ltb blo j).
        - apply IH; lia.
        - repeat split; try lia; try (intros H1 H2 t Ht; lia). }
      assert (HR : R <= ahi - (i + k) /\ R <= bhi - (j + k)
                   /\ (R = ahi - (i + k) -> R = bhi - (j + k) ->
                       forall t, t < ahi - (i + k) ->
                         nth (i + k + t) a zero = nth (j + k + t) b zero)).
      { unfold R. destruct (Nat.ltb (i + k) ahi && Nat.ltb (j + k) bhi).
        - apply IH; lia.
        - repeat split; try lia; try (intros H1 H2 t Ht; lia). }
      destruct HL as (L1 & L2 & L3). destruct HR as (R1 & R2 & R3).
      repeat split; try lia.
      intros H1 H2 t Ht.
      assert (EL : L = i - alo) by lia. assert (EL' : L = j - blo) by lia.
      assert (ER : R = ahi - (i + k)) by lia. assert (ER' : R = bhi - (j + k)) by lia.
      destruct (Nat.lt_ge_cases (alo + t) i) as [C1|C1].
      * apply L3; auto. lia.
      * destruct (Nat.lt_ge_cases (alo + t) (i + k)) as [C2|C2].
        -- replace (alo + t) with (i + (alo + t - i)) by lia.
           replace (blo + t) with (j + (alo + t - i)) by lia.
           apply F5. lia.
        -- replace (alo + t) with (i + k + (alo + t - (i + k))) by lia.
           replace (blo + t) with (j + k + (alo + t - (i + k))) by lia.
           apply R3; auto. lia.
Qed.

(** The recursion never runs out of fuel: any amount above the length of
    the window of [a] gives the same sum. *)
Lemma matches_fuel (a b : list ascii) (fuel1 : nat) :
  forall fuel2 alo ahi blo bhi, alo <= ahi -> blo <= bhi ->
    ahi - alo < fuel1 -> ahi - alo < fuel2 ->
    matches fuel1 a b alo ahi blo bhi = matches fuel2 a b alo ahi blo bhi.
Proof.
  induction fuel1 as [|fuel1 IH]; intros fuel2 alo ahi blo bhi Ha Hb H1 H2; [lia|].
  destruct fuel2 as [|fuel2]; [lia|]. simpl.
  pose proof (find_longest_match_ok a b alo ahi blo bhi Ha Hb) as Hf.
  destruct (find_longest_match a b alo ahi blo bhi) as [[i j] k].
  unfold block_ok in Hf. destruct Hf as (F1 & F2 & F3 & F4 & F5).
  destruct (Nat.eqb k 0) eqn:Ek; [reflexivity|].
  apply Nat.eqb_neq in Ek.
  f_equal; [f_equal|].
  - destruct (Nat.ltb alo i && Nat.ltb blo j); [|reflexivity].
    apply IH; lia.
  - destruct (Nat.ltb (i + k) ahi && Nat.ltb (j + k) bhi); [|reflexivity].
    apply IH; lia.
Qed.

End DifflibFacts.

Module DifflibSame.

Import Difflib.
Import DifflibSpec.
Import DifflibFacts.

Lemma run_step (a : list ascii) (i : nat) :
  popular a (nth i a zero) = false -> run a i = S (run_before a i).
Proof.
  intros H. destruct i; simpl; rewrite H; reflexivity.
Qed.

Lemma run_popular (a : list ascii) (i : nat) :
  popular a (nth i a zero) = true -> run a i = 0.
Proof.
  intros H. destruct i; simpl; rewrite H; reflexivity.
Qed.

Lemma indices_from_ascending (elt : ascii) (b : list ascii) :
  forall j0, ascending (indices_from elt b j0).
Proof.
  induction b as [|x b IH]; intros j0; simpl; [exact I|].
  destruct (Ascii.eqb elt x); [|apply IH].
  simpl. split; [|apply IH].
  intros y Hy. apply indices_from_spec in Hy. lia.
Qed.

Lemma indices_from_complete (elt : ascii) (b : list ascii) :
  forall j0 j, j0 <= j -> j < j0 + length b -> nth (j - j0) b zero = elt ->
    In j (indices_from elt b j0).
Proof.
  induction b as [|x b IH]; simpl; intros j0 j H1 H2 H3; [lia|].
  destruct (Nat.eq_dec j j0) as [->|Hne].
  - rewrite Nat.sub_diag in H3. subst. rewrite Ascii.eqb_refl. now left.
  - assert (In j (indices_from elt b (S j0))).
    { apply IH; try lia. replace (j - j0) with (S (j - S j0)) in H3 by lia.
      assumption. }
    destruct (Ascii.eqb elt x); [now right | assumption].
Qed.

Lemma b2j_diagonal (a : list ascii) (i : nat) :
  i < length a -> popular a (nth i a zero) = false ->
  In i (b2j a (nth i a zero)).
Proof.
  intros H1 H2. unfold b2j. rewrite H2.
  apply indices_from_complete; try lia. now rewrite Nat.sub_0_r.
Qed.

Lemma j2len_find_found (j : nat) (d : J2len) :
  (exists k, In (j, k) d) -> In (j, j2len_find j d) d.
Proof.
  induction d as [|[j' k'] d IH]; simpl; intros (k & H); [contradiction|].
  destruct (Nat.eqb j j') eqn:E.
  - apply Nat.eqb_eq in E. subst. now left.
  - right. apply IH. destruct H as [H|H]; [|eauto].
    injection H as -> ->. rewrite Nat.eqb_refl in E. discriminate.
Qed.

Section Same.

Variable a : list ascii.

Lemma written_fetched (i : nat) (d : J2len) :
  written a i d ->
  (run a i = 0 \/ exists k, In (i, k) d) ->
  fetched a (S i) d.
Proof.
  intros [W1 W2] W3. split.
  - intros j. destruct j as [|j]; simpl; [lia|].
    destruct (j2len_find_In j d) as [->|H]; [lia|]. apply W1 in H. simpl. lia.
  - simpl. destruct W3 as [W3|W3].
    + destruct (j2len_find_In i d) as [->|H]; [lia|]. apply W1 in H. lia.
    + apply j2len_find_found in W3. now apply W2.
Qed.

Lemma scan_same (i : nat) (d : J2len) (js : list nat) :
  fetched a i d ->
  popular a (nth i a zero) = false ->
  forall newd bi bk,
    ascending js ->
    (forall j, In j js -> j < length a /\ nth j a zero = nth i a zero) ->
    written a i newd ->
    (forall i', i' < i -> run a i' <= bk) ->
    (In i js \/ (In (i, run a i) newd /\ run a i <= bk)) ->
    exists newd' bi' bk',
      scan i 0 (length a) js d newd (bi, bi, bk) = (newd', (bi', bi', bk'))
      /\ written a i newd'
      /\ (forall i', i' < i -> run a i' <= bk')
      /\ In (i, run a i) newd' /\ run a i <= bk'.
Proof.
  intros [F1 F2] Hpop. induction js as [|j rest IH];
    intros newd bi bk Hasc Hjs Hw Hbk Hdiag; simpl.
  - destruct Hdiag as [[]|[H1 H2]]. exists newd, bi, bk. auto.
  - destruct Hasc as [Hlt Hasc].
    destruct (Hjs j (or_introl eq_refl)) as [Hj Hx].
    assert (Hrest : forall j', In j' rest ->
                      j' < length a /\ nth j' a zero = nth i a zero)
      by (intros j' Hj'; apply Hjs; now right).
    assert (Nat.leb (length a) j = false) as -> by (apply Nat.leb_gt; lia).
    assert (Hri : run a i = S (run_before a i)) by now apply run_step.
    assert (Hrj : run a j = S (run_before a j))
      by (apply run_step; now rewrite Hx).
    destruct (F1 j) as [G1 G2].
    set (k := j2lenget d j + 1).
    assert (Hw' : written a i ((j, k) :: newd)).
    { destruct Hw as [W1 W2]. split.
      - intros j' k' [H|H]; [injection H as <- <-; unfold k; lia | auto].
      - intros k' [H|H]; [|auto]. injection H as -> <-. unfold k. rewrite F2. lia. }
    destruct (Nat.lt_trichotomy j i) as [C|[C|C]].
    + (* left of the diagonal *)
      assert (Hno : Nat.ltb bk k = false).
      { apply Nat.ltb_ge. specialize (Hbk j C). unfold k. lia. }
      simpl. rewrite Hno. apply IH; auto.
      destruct Hdiag as [[->|H]|[H1 H2]]; [lia | now left | right].
      split; [now right | assumption].
    + (* on the diagonal *)
      subst j. assert (Hk : k = run a i) by (unfold k; rewrite F2; lia).
      simpl. destruct (Nat.ltb bk k) eqn:E.
      * apply Nat.ltb_lt in E. apply IH; auto.
        -- intros i' Hi'. specialize (Hbk i' Hi'). lia.
        -- right. split; [left; now rewrite Hk | lia].
      * apply Nat.ltb_ge in E. apply IH; auto.
        right. split; [left; now rewrite Hk | lia].
    + (* right of the diagonal *)
      destruct Hdiag as [[->|H]|[H1 H2]]; [lia | apply Hlt in H; lia |].
      assert (Hno : Nat.ltb bk k = false).
      { apply Nat.ltb_ge. unfold k. lia. }
      simpl. rewrite Hno. apply IH; auto.
      right. split; [now right | assumption].
Qed.

Lemma rows_same (todo : nat) :
  forall i d bi bk,
    i + todo = length a ->
    fetched a i d ->
    (forall i', i' < i -> run a i' <= bk) ->
    exists bi' bk',
      rows a a 0 (length a) todo i d (bi, bi, bk) = (bi', bi', bk').
Proof.
  induction todo as [|todo IH]; intros i d bi bk Hn Hf Hbk; simpl; [eauto|].
  destruct (popular a (nth i a zero)) eqn:Hpop.
  - unfold b2j. rewrite Hpop. simpl. apply IH; [lia| |].
    + apply written_fetched.
      * split; intros; contradiction.
      * left. now apply run_popular.
    + intros i' Hi'. destruct (Nat.eq_dec i' i) as [->|Hne].
      * rewrite run_popular by assumption. lia.
      * apply Hbk. lia.
  - destruct (scan_same i d (b2j a (nth i a zero)) Hf Hpop [] bi bk)
      as (newd' & bi' & bk' & Hs & Hw & Hbk' & Hin & Hle).
    + unfold b2j. rewrite Hpop. apply indices_from_ascending.
    + intros j Hj. apply b2j_spec in Hj. tauto.
    + split; intros; contradiction.
    + assumption.
    + left. apply b2j_diagonal; [lia | assumption].
    + rewrite Hs. apply IH; [lia| |].
      * apply written_fetched; eauto.
      * intros i' Hi'. destruct (Nat.eq_dec i' i) as [->|Hne]; [assumption|].
        apply Hbk'. lia.
Qed.

Lemma extend_left_same (fuel : nat) :
  forall i k, fuel <= i ->
    extend_left a a 0 0 fuel (i, i, k) = (i - fuel, i - fuel, k + fuel).
Proof.
  induction fuel as [|fuel IH]; intros i k H; simpl.
  - rewrite Nat.sub_0_r, Nat.add_0_r. reflexivity.
  - assert (Nat.ltb 0 i = true) as -> by (apply Nat.ltb_lt; lia).
    rewrite Ascii.eqb_refl. simpl. rewrite IH by lia.
    f_equal; [f_equal|]; lia.
Qed.

Lemma extend_right_same (fuel : nat) :
  forall s, s <= length a ->
    extend_right a a (length a) (length a) fuel (0, 0, s)
    = (0, 0, Nat.min (length a) (s + fuel)).
Proof.
  induction fuel as [|fuel IH]; intros s H; simpl.
  - rewrite Nat.add_0_r, Nat.min_r by lia. reflexivity.
  - destruct (Nat.ltb s (length a)) eqn:E.
    + rewrite Ascii.eqb_refl. simpl. apply Nat.ltb_lt in E.
      rewrite IH by lia. f_equal. lia.
    + simpl. apply Nat.ltb_ge in E. f_equal. lia.
Qed.

(** A sequence compared with itself is one block. *)
Lemma find_longest_match_same :
  find_longest_match a a 0 (length a) 0 (length a) = (0, 0, length a).
Proof.
  unfold find_longest_match. rewrite Nat.sub_0_r.
  destruct (rows_same (length a) 0 [] 0 0) as (bi & bk & Hr).
  - reflexivity.
  - split; [intros j; destruct j; simpl; lia | reflexivity].
  - intros i' Hi'. lia.
  - pose proof (rows_ok a a 0 (length a) 0 (length a) (length a) 0 [] (0, 0, 0)) as Hok.
    rewrite Hr in *. simpl fst.
    assert (Hb : block_ok a a 0 (length a) 0 (length a) (bi, bi, bk)).
    { apply Hok; auto; try lia.
      all: try (unfold block_ok; repeat split; try lia; intros t Ht; lia). }
    unfold block_ok in Hb. destruct Hb as (_ & Hb & _).
    rewrite extend_left_same by lia. rewrite Nat.sub_diag.
    rewrite extend_right_same by lia. f_equal. lia.
Qed.

Lemma matches_same :
  matches (S (length a)) a a 0 (length a) 0 (length a) = length a.
Proof.
  simpl. rewrite find_longest_match_same.
  destruct (length a) as [|n] eqn:E; simpl; [reflexivity|].
  rewrite !Nat.ltb_irrefl. simpl. lia.
Qed.

End Same.

End DifflibSame.

Lemma Zpos_of_nat_succ (k : nat) : Z.pos (Pos.of_nat (S k)) = Z.of_nat (S k).
Proof.
  rewrite <- Pos.of_nat_succ, Zpos_P_of_succ_nat. lia.
Qed.

Lemma calculate_ratio_le_1 (matches length : nat) :
  2 * matches <= length -> (0 <= Difflib._calculate_ratio matches length <= 1)%Q.
Proof.
  intros H. unfold Difflib._calculate_ratio. destruct length as [|k].
  - split; unfold Qle; simpl; lia.
  - split; unfold Qle; cbn [Qnum Qden]; rewrite ?Zpos_of_nat_succ; lia.
Qed.

Lemma calculate_ratio_1 (matches length : nat) :
  Difflib._calculate_ratio matches length == 1 <-> (length = 0 \/ 2 * matches = length).
Proof.
  unfold Difflib._calculate_ratio. destruct length as [|k].
  - split; [auto | reflexivity].
  - unfold Qeq. cbn [Qnum Qden]. rewrite Zpos_of_nat_succ. split.
    + intros H. right. lia.
    + intros [H|H]; [discriminate | lia].
Qed.

Lemma list_ascii_of_string_inj (a b : string) :
  list_ascii_of_string a = list_ascii_of_string b -> a = b.
Proof.
  intros H. rewrite <- (string_of_list_ascii_of_string a),
    <- (string_of_list_ascii_of_string b). now rewrite H.
Qed.

(** C6, as amended: the score of [SequenceMatcher] lies between 0 and 1
    and is 1 exactly when the two strings are identical.  (It is not
    symmetric.) *)
Theorem ratio_range_and_identity (a b : string) :
  (0 <= Difflib.ratio a b <= 1)%Q
  /\ (Difflib.ratio a b == 1 <-> a = b).
Proof.
  unfold Difflib.ratio.
  set (la := list_ascii_of_string a). set (lb := list_ascii_of_string b).
  destruct (DifflibFacts.matches_ok la lb (S (length la)) 0 (length la) 0 (length lb))
    as (M1 & M2 & M3); try lia.
  rewrite !Nat.sub_0_r in *.
  set (M := Difflib.matches (S (length la)) la lb 0 (length la) 0 (length lb)) in *.
  split; [apply calculate_ratio_le_1; lia|].
  rewrite calculate_ratio_1. split.
  - intros H. apply list_ascii_of_string_inj. fold la lb.
    assert (Hlen : length la = length lb) by lia.
    apply (nth_ext la lb zero zero Hlen).
    intros t Ht. destruct H as [H|H]; [lia|].
    apply (M3 ltac:(lia) ltac:(lia) t Ht).
  - intros <-. right. fold la in lb. subst lb. unfold M.
    rewrite DifflibSame.matches_same. lia.
Qed.

(** ** The uniqueness check *)

Lemma set_add_NoDup (x : string) (s : list string) :
  NoDup s -> NoDup (PyList.set_add x s).
Proof.
  intros H. unfold PyList.set_add. destruct (PyList.mem x s) eqn:E; [assumption|].
  apply mem_false in E. apply NoDup_app; [assumption | repeat constructor; auto |].
  intros y Hy [<-|[]]. contradiction.
Qed.

Lemma count_occ_twice (x entry : string) (rest : list string) :
  2 <= count_occ string_dec (entry :: rest) x
  <-> (x = entry /\ In x rest) \/ 2 <= count_occ string_dec rest x.
Proof.
  pose proof (count_occ_In string_dec rest x) as Hin.
  destruct (string_dec entry x) as [->|Hne].
  - rewrite count_occ_cons_eq by reflexivity. split.
    + intros H. left. split; [reflexivity|]. apply Hin. lia.
    + intros [[_ H]|H]; [apply Hin in H|]; lia.
  - rewrite count_occ_cons_neq by assumption. split; [auto|].
    intros [[-> _]|H]; [congruence | assumption].
Qed.

Lemma doubles_of_spec (data_set : list string) :
  forall entries doubles x,
    In x (doubles_of data_set entries doubles)
    <-> In x doubles \/ (In x entries /\ In x data_set)
        \/ 2 <= count_occ string_dec data_set x.
Proof.
  induction data_set as [|entry rest IH]; intros entries doubles x.
  - simpl. split; [auto|]. intros [H|[[_ []]|H]]; [assumption | lia].
  - cbn [doubles_of]. rewrite IH, count_occ_twice, set_add_In.
    assert (Hd : In x (if PyList.mem entry entries
                       then PyList.set_add entry doubles else doubles)
                 <-> In x doubles \/ (x = entry /\ In entry entries)).
    { destruct (PyList.mem entry entries) eqn:E.
      - apply mem_In in E. rewrite set_add_In. tauto.
      - apply mem_false in E. tauto. }
    rewrite Hd. simpl. clear Hd IH.
    split; intros H; intuition (subst; auto 6).
Qed.

Lemma doubles_of_NoDup (data_set : list string) :
  forall entries doubles,
    NoDup doubles -> NoDup (doubles_of data_set entries doubles).
Proof.
  induction data_set as [|entry rest IH]; intros entries doubles H; simpl;
    [assumption|].
  apply IH. destruct (PyList.mem entry entries); [now apply set_add_NoDup | assumption].
Qed.

Lemma check_uniqueness_raising (data_set : list string) :
  _check_uniqueness_of_entries data_set
  = _check_uniqueness_of_entries_or_not data_set true.
Proof. reflexivity. Qed.

(** [_check_uniqueness_of_entries] answers [True] exactly when no label
    occurs twice in the collection, and [False] only when it was told not
    to raise and some label occurs twice. *)
Theorem check_uniqueness_accepts (data_set : list string)
  (raise_exception u : bool) :
  _check_uniqueness_of_entries_or_not data_set raise_exception = Ok u
  <-> (NoDup data_set /\ u = true)
      \/ (~ NoDup data_set /\ raise_exception = false /\ u = false).
Proof.
  unfold _check_uniqueness_of_entries_or_not.
  destruct (PyList.has_duplicates data_set) eqn:E.
  - assert (Hn : ~ NoDup data_set).
    { intros H. apply NoDup_has_duplicates in H. congruence. }
    destruct raise_exception.
    + split; [discriminate|]. intros [[H _]|(_ & H & _)]; [contradiction|discriminate].
    + split.
      * intros H. injection H as <-. auto.
      * intros [[H _]|(_ & _ & ->)]; [contradiction | reflexivity].
  - apply has_duplicates_false in E. split.
    + intros H. injection H as <-. auto.
    + intros [[_ ->]|(H & _)]; [reflexivity | contradiction].
Qed.

(** The [ValueError] of [_check_uniqueness_of_entries] names the labels
    that occur at least twice in the collection, each of them once, and no
    other label. *)
Theorem check_uniqueness_names_doubles (data_set named : list string) :
  _check_uniqueness_of_entries data_set = Raise (ValueError named) ->
  NoDup named
  /\ forall x, In x named <-> 2 <= count_occ string_dec data_set x.
Proof.
  unfold _check_uniqueness_of_entries.
  destruct (PyList.has_duplicates data_set); [|discriminate].
  intros H. injection H as <-. split.
  - apply doubles_of_NoDup. constructor.
  - intros x. rewrite doubles_of_spec. simpl. tauto.
Qed.

Lemma check_uniqueness_names_doubles_witness :
  _check_uniqueness_of_entries ["a"; "b"; "a"; "c"; "a"] = Raise (ValueError ["a"])
  /\ NoDup ["a"]
  /\ forall x, In x ["a"] <-> 2 <= count_occ string_dec ["a"; "b"; "a"; "c"; "a"] x.
Proof.
  split; [reflexivity|].
  apply (check_uniqueness_names_doubles ["a"; "b"; "a"; "c"; "a"] ["a"]).
  reflexivity.
Defined.

(** ** What [simplify_strings] returns *)

Lemma lset_fresh (k v : string) (d : LabelDict) :
  lget k d = None -> lset k v d = d ++ [(k, v)].
Proof.
  unfold lget, lset. induction d as [|[k0 v0] d IH]; simpl; [reflexivity|].
  destruct (String.eqb k k0); [discriminate|]. intros H. now rewrite IH.
Qed.

Lemma lget_keys (k : string) (d : LabelDict) :
  lget k d = None <-> ~ In k (lkeys d).
Proof.
  unfold lget, lkeys, Dict.keys. induction d as [|[k0 v0] d IH]; simpl; [tauto|].
  destruct (String.eqb k k0) eqn:E.
  - apply String.eqb_eq in E. subst. split; [discriminate | tauto].
  - apply String.eqb_neq in E. rewrite IH. split; [intros H [H1|H1]; auto | tauto].
Qed.

Section Simplified.

Variable form : string -> string.

(** The loop of [simplify_strings] as the iteration of [add_to_simplified]. *)
Lemma not_unique_grows (labels : list string) :
  forall simplified not_unique,
    not_unique <> [] ->
    snd (fold_left (fun st key => add_to_simplified (form key) key st) labels
           (simplified, not_unique)) <> [].
Proof.
  induction labels as [|key rest IH]; intros simplified not_unique H; simpl;
    [assumption|].
  destruct (lget (form key) simplified).
  - apply IH. unfold PyList.set_add.
    destruct (PyList.mem key _) eqn:E.
    + intros Hnil. rewrite Hnil in E. discriminate.
    + intros Hnil. apply app_eq_nil in Hnil. destruct Hnil. discriminate.
  - apply IH, H.
Qed.

Lemma fold_add_unique (labels : list string) :
  forall simplified,
    snd (fold_left (fun st key => add_to_simplified (form key) key st) labels
           (simplified, [])) = []
    <-> NoDup (map form labels)
        /\ forall x, In x labels -> ~ In (form x) (lkeys simplified).
Proof.
  induction labels as [|key rest IH]; intros simplified; simpl.
  - split; [intros _; split; [constructor | intros x []] | reflexivity].
  - destruct (lget (form key) simplified) as [first|] eqn:E.
    + split.
      * intros H. exfalso. revert H. apply not_unique_grows.
        unfold PyList.set_add. destruct (PyList.mem key _) eqn:Em.
        -- intros Hnil. rewrite Hnil in Em. discriminate.
        -- intros Hnil. apply app_eq_nil in Hnil. destruct Hnil. discriminate.
      * intros [_ H]. exfalso. pose proof (H key (or_introl eq_refl)) as Hk.
        apply lget_keys in Hk. congruence.
    + rewrite IH, (lset_fresh _ _ _ E). unfold lkeys, Dict.keys.
      setoid_rewrite map_app. setoid_rewrite in_app_iff. simpl.
      apply lget_keys in E. rewrite NoDup_cons_iff, in_map_iff. split.
      * intros [Hnd H]. split; [split; [|assumption]|].
        -- intros (x & Hx & Hin). apply (H x Hin). right. left. now symmetry.
        -- intros x [<-|Hx]; [assumption|]. intros Hk. apply (H x Hx). now left.
      * intros [[Hk Hnd] H]. split; [assumption|].
        intros x Hx [Hin|[Heq|[]]].
        -- apply (H x (or_intror Hx) Hin).
        -- apply Hk. exists x. split; [now symmetry | assumption].
Qed.

Lemma fold_add_pairs (labels : list string) :
  forall simplified,
    NoDup (map form labels) ->
    (forall x, In x labels -> ~ In (form x) (lkeys simplified)) ->
    fst (fold_left (fun st key => add_to_simplified (form key) key st) labels
           (simplified, []))
    = simplified ++ map (fun x => (form x, x)) labels.
Proof.
  induction labels as [|key rest IH]; intros simplified Hnd H; simpl.
  - now rewrite app_nil_r.
  - assert (E : lget (form key) simplified = None)
      by (apply lget_keys, H; now left).
    rewrite E, (lset_fresh _ _ _ E). inversion Hnd as [|? ? Hk Hrest]; subst.
    rewrite IH; [now rewrite <- app_assoc | assumption |].
    intros x Hx. unfold lkeys, Dict.keys. rewrite map_app, in_app_iff. simpl.
    intros [Hin|[Heq|[]]].
    + apply (H x (or_intror Hx) Hin).
    + apply Hk. apply in_map_iff. exists x. split; [now symmetry | assumption].
Qed.

End Simplified.

Lemma simplify_loop_fold (lower_case : bool) (simplifier : Simplifier)
  (labels : list string) :
  lower_case = true \/ simplifier <> SimplifierOff ->
  forall st,
    simplify_loop lower_case (simplifier_class simplifier) labels st
    = Ok (fold_left
            (fun st key =>
               add_to_simplified (simplified_form lower_case simplifier key) key st)
            labels st).
Proof.
  intros policy. induction labels as [|key rest IH]; intros st; simpl;
    [reflexivity|].
  unfold simplified_form at 2.
  destruct (simplifier_class simplifier) as [cls|] eqn:Ec, lower_case;
    try apply IH.
  exfalso. destruct policy as [?|Hs]; [discriminate|].
  destruct simplifier; simpl in Ec; congruence.
Qed.

Lemma simplify_strings_with_policy (to_simplify : list string)
  (lower_case : bool) (simplifier : Simplifier) (simplified : LabelDict) :
  lower_case = true \/ simplifier <> SimplifierOff ->
  simplify_strings to_simplify lower_case simplifier = Ok simplified
  <-> NoDup (map (simplified_form lower_case simplifier) to_simplify)
      /\ simplified
         = map (fun x => (simplified_form lower_case simplifier x, x)) to_simplify.
Proof.
  intros policy. unfold simplify_strings.
  rewrite simplify_loop_fold by assumption. cbn [bind].
  set (r := fold_left _ to_simplify _).
  assert (U : snd r = []
              <-> NoDup (map (simplified_form lower_case simplifier) to_simplify)
                  /\ forall x, In x to_simplify ->
                       ~ In (simplified_form lower_case simplifier x) (lkeys []))
    by exact (fold_add_unique (simplified_form lower_case simplifier) to_simplify []).
  assert (P : NoDup (map (simplified_form lower_case simplifier) to_simplify) ->
              (forall x, In x to_simplify ->
                 ~ In (simplified_form lower_case simplifier x) (lkeys [])) ->
              fst r = map (fun x => (simplified_form lower_case simplifier x, x))
                        to_simplify)
    by exact (fold_add_pairs (simplified_form lower_case simplifier) to_simplify []).
  assert (Hk : forall x, In x to_simplify ->
                 ~ In (simplified_form lower_case simplifier x) (lkeys []))
    by (intros x _ []).
  clearbody r. destruct r as [d nu]. cbn [fst snd] in U, P.
  split.
  - intros H. destruct nu as [|y nu]; [|discriminate]. injection H as <-.
    destruct U as [U _]. destruct (U eq_refl) as [Hnd _].
    split; [assumption|]. apply P; assumption.
  - intros [Hnd ->]. destruct U as [_ U]. rewrite (U (conj Hnd Hk)).
    f_equal. apply P; assumption.
Qed.

(** On a list of ASCII labels, [simplify_strings] returns exactly when a
    policy is set (or there is nothing to simplify) and no two entries of
    the list share a simplified form; it then returns the pairs of a form
    and its label, in the order of the list. *)
Theorem simplify_strings_returns (to_simplify : list string)
  (lower_case : bool) (simplifier : Simplifier) (simplified : LabelDict) :
  (forall x, In x to_simplify -> isascii x = true) ->
  simplify_strings to_simplify lower_case simplifier = Ok simplified
  <-> (to_simplify = [] \/ lower_case = true \/ simplifier <> SimplifierOff)
      /\ NoDup (map (simplified_form lower_case simplifier) to_simplify)
      /\ simplified
         = map (fun x => (simplified_form lower_case simplifier x, x)) to_simplify.
Proof.
  intros _.
  assert (D : (lower_case = true \/ simplifier <> SimplifierOff)
              \/ (lower_case = false /\ simplifier = SimplifierOff)).
  { destruct lower_case; [now left; left|].
    destruct simplifier; [now right | left; right; discriminate
                         | left; right; discriminate]. }
  destruct D as [policy|[-> ->]].
  - rewrite (simplify_strings_with_policy _ _ _ _ policy). tauto.
  - destruct to_simplify as [|key rest]; cbn.
    + split; [intros H; injection H as <-; repeat split; auto; constructor|].
      intros (_ & _ & ->). reflexivity.
    + split; [discriminate|]. intros ([H|[H|H]] & _); congruence.
Qed.

Lemma simplify_strings_returns_witness :
  simplify_strings ["New_York"; "Oslo"] true SimplifierStandard
  = Ok [("newyork", "New_York"); ("oslo", "Oslo")].
Proof.
  apply (simplify_strings_returns ["New_York"; "Oslo"] true SimplifierStandard).
  - intros x [<-|[<-|[]]]; reflexivity.
  - split; [right; now left|]. split; [|reflexivity].
    repeat constructor; simpl; intros H; decompose [or] H; discriminate || contradiction.
Defined.

(** ** Per-entry greedy matching gives a target away once *)

Lemma remove_each_In (l : list string) :
  forall lb l2 b, remove_each l lb = Ok l2 -> In b l -> In b lb.
Proof.
  induction l as [|x rest IH]; simpl; intros lb l2 b H Hb; [contradiction|].
  inv_bind H as l1 Hx. destruct (py_remove_In _ _ _ Hx) as [H1 H2].
  destruct Hb as [<-|Hb]; [assumption|]. apply H2. eapply IH; eauto.
Qed.

Lemma greedy_step_exclusive (t : Tables) (e : string)
  (m : MatchDict) (la lb : list string) (m' : MatchDict) (la' lb' : list string) :
  greedy_step t e (m, la, lb) = Ok (m', la', lb') ->
  consumed (m, la, lb) -> exclusive m -> exclusive m'.
Proof.
  unfold greedy_step. intros H (Hla & Hlb & Hc) Hex.
  inv_bind H as entry He. inv_bind H as ordered Ho.
  destruct ordered as [|top ordered]; [inv_ok; assumption|].
  inv_bind H as best Hb. inv_bind H as l1 H1. inv_bind H as l2 H2. inv_ok.
  assert (Hin : forall b, In b (members (to_value best)) -> In b lb).
  { destruct best as [b0|l]; simpl.
    - intros b [<-|[]]. destruct (py_remove_In _ _ _ H2) as [K _]. exact K.
    - intros b Hb'. eapply remove_each_In; eauto. }
  intros a1 a2 v1 v2 b. rewrite !mget_mset.
  destruct (String.eqb a1 e) eqn:E1, (String.eqb a2 e) eqn:E2.
  - apply String.eqb_eq in E1, E2. congruence.
  - intros Hv1 Hv2 Hb1 Hb2. injection Hv1 as <-.
    exfalso. destruct (Hc a2 v2 Hv2) as [_ Hn]. apply (Hn b Hb2). auto.
  - intros Hv1 Hv2 Hb1 Hb2. injection Hv2 as <-.
    exfalso. destruct (Hc a1 v1 Hv1) as [_ Hn]. apply (Hn b Hb1). auto.
  - apply Hex.
Qed.

Lemma greedy_loop_exclusive (t : Tables) (copy : list string) :
  forall st st', greedy_loop t copy st = Ok st' -> consumed st ->
    exclusive (fst (fst st)) -> exclusive (fst (fst st')).
Proof.
  induction copy as [|e rest IH]; simpl; intros st st' H Hc Hex.
  - inv_ok. assumption.
  - inv_bind H as st1 Hs. apply (IH _ _ H).
    + eapply greedy_step_consumed; eauto.
    + destruct st as [[m la] lb], st1 as [[m1 la1] lb1].
      eapply greedy_step_exclusive; eauto.
Qed.

Lemma direct_consumed (la lb : list string) (m0 : MatchDict) (la0 lb0 : list string) :
  direct_loop la ([], la, lb) = Ok (m0, la0, lb0) -> NoDup la -> NoDup lb ->
  consumed (m0, la0, lb0) /\ exclusive m0.
Proof.
  intros Hd Hla Hlb.
  destruct (direct_matches_spec _ _ _ _ _ Hd Hla Hlb) as (N1 & N2 & A & B & C).
  split.
  - split; [assumption|]. split; [assumption|]. intros a v Hv.
    apply C in Hv. destruct Hv as (H1 & H2 & ->). split.
    + rewrite A. tauto.
    + intros b [<-|[]]. rewrite B. tauto.
  - intros a1 a2 v1 v2 b Hv1 Hv2 Hb1 Hb2.
    apply C in Hv1, Hv2. destruct Hv1 as (_ & _ & ->), Hv2 as (_ & _ & ->).
    simpl in Hb1, Hb2. destruct Hb1 as [<-|[]], Hb2 as [<-|[]]. reflexivity.
Qed.

(** The exceptions of the greedy loop when its tables know every label it
    runs over: only the [ValueError] of [list.remove]. *)
Lemma py_remove_raises (x : string) (l : list string) (e : exn) :
  PyList.remove x l = Raise e -> e = ValueError [].
Proof.
  induction l as [|y l IH]; simpl; [congruence|].
  destruct (String.eqb x y); [discriminate|].
  destruct (PyList.remove x l); simpl; [discriminate|]. intros H.
  injection H as <-. now apply IH.
Qed.

Lemma remove_each_raises (l : list string) :
  forall lb e, remove_each l lb = Raise e -> e = ValueError [].
Proof.
  induction l as [|x rest IH]; simpl; intros lb e; [discriminate|].
  destruct (PyList.remove x lb) as [l1|e1] eqn:E; simpl.
  - apply IH.
  - intros H. injection H as <-. eapply py_remove_raises; eauto.
Qed.

Lemma qget_In_keys (k : Q) (d : SimDict) :
  In k (Dict.keys d) -> exists v, qget k d = Some v.
Proof.
  unfold qget, Dict.keys. induction d as [|[k0 v0] d IH]; simpl; [contradiction|].
  intros [->|H].
  - rewrite Qeq_bool_refl. eauto.
  - destruct (Qeq_bool k k0); eauto.
Qed.

Lemma greedy_loop_raises (t : Tables) (copy : list string) :
  (forall a, In a copy ->
     exists entry,
       Dict.get String.eqb a (most_similar t) = Some entry
       /\ Dict.get String.eqb a (ordered_most_similar t)
          = Some (sort_desc (Dict.keys entry))) ->
  forall st e, greedy_loop t copy st = Raise e -> e = ValueError [].
Proof.
  induction copy as [|a rest IH]; simpl; intros Ht st e; [discriminate|].
  destruct (greedy_step t a st) as [st1|e1] eqn:E; simpl.
  - apply IH. intros a' Ha'. apply Ht. now right.
  - intros H. injection H as <-.
    destruct (Ht a (or_introl eq_refl)) as (entry & Hm & Ho).
    destruct st as [[m la] lb]. unfold greedy_step in E.
    rewrite Hm, Ho in E. simpl in E.
    destruct (sort_desc (Dict.keys entry)) as [|top ordered] eqn:Es;
      [discriminate|].
    assert (Htop : In top (Dict.keys entry)).
    { apply sort_desc_In. rewrite Es. now left. }
    destruct (qget_In_keys _ _ Htop) as (best & Hb). rewrite Hb in E. simpl in E.
    destruct (PyList.remove a la) as [l1|e2] eqn:E1; simpl in E.
    + destruct best as [b|l].
      * destruct (PyList.remove b lb) as [l2|e3] eqn:E2; simpl in E;
          [discriminate|]. injection E as <-. eapply py_remove_raises; eauto.
      * destruct (remove_each l lb) as [l2|e3] eqn:E2; simpl in E;
          [discriminate|]. injection E as <-. eapply remove_each_raises; eauto.
    + injection E as <-. eapply py_remove_raises; eauto.
Qed.

Lemma direct_loop_returns (copy : list string) :
  forall m la lb,
    NoDup copy -> (forall x, In x copy -> In x la) ->
    exists st, direct_loop copy (m, la, lb) = Ok st.
Proof.
  induction copy as [|a rest IH]; simpl; intros m la lb Hnd Hin; [eauto|].
  inversion Hnd as [|? ? Ha Hrest]; subst.
  destruct (PyList.mem a lb) eqn:E.
  - apply mem_In in E.
    destruct (py_remove_defined a la (Hin a (or_introl eq_refl))) as (l1 & H1).
    destruct (py_remove_defined a lb E) as (l2 & H2).
    rewrite H1, H2. simpl. apply IH; [assumption|].
    intros x Hx. eapply py_remove_other; eauto. intros ->. contradiction.
  - apply IH; auto.
Qed.

Lemma filter_none {A : Type} (f : A -> bool) (l : list A) :
  (forall y, In y l -> f y = false) -> filter f l = [].
Proof.
  induction l as [|y l IH]; simpl; intros H; [reflexivity|].
  rewrite (H y (or_introl eq_refl)). apply IH. intros z Hz. apply H. now right.
Qed.

Lemma filter_only (f : string -> bool) (l : list string) (b : string) :
  NoDup l -> In b l -> f b = true ->
  (forall y, In y l -> y <> b -> f y = false) ->
  filter f l = [b].
Proof.
  induction l as [|x l IH]; intros Hnd Hb Hfb Hother; [contradiction|].
  inversion Hnd as [|? ? Hx Hl]; subst. simpl. destruct Hb as [->|Hb].
  - rewrite Hfb. f_equal. apply filter_none. intros y Hy.
    apply Hother; [now right|]. intros ->. contradiction.
  - rewrite (Hother x (or_introl eq_refl)) by (intros ->; contradiction).
    apply IH; auto. intros y Hy. apply Hother. now right.
Qed.

Section PerEntry.

Variable ratio : string -> string -> Q.
Variable py_int : string -> option Z.
Variable window_width : nat.
Variable list_str_len : list string -> nat.
Variable py_sub : Q -> Q -> Q.

(** The value recorded for a source label that has a best score above the
    floor: the target, or the list of the targets, that reach it. *)
Lemma greedy_records_best (limit : Q) (la0 lb0 : list string) (a : string) (s : Q)
  (m0 m : MatchDict) (la' lb' : list string) :
  NoDup la0 -> In a la0 ->
  (limit < s)%Q ->
  (forall b, In b lb0 -> (ratio a b <= s)%Q) ->
  (exists b, In b lb0 /\ ratio a b == s) ->
  greedy_loop (score_sources ratio limit false la0 lb0 (mkTables [] [] []))
    la0 (m0, la0, lb0) = Ok (m, la', lb') ->
  exists best,
    pack (filter (fun b => Qeq_bool (ratio a b) s) lb0) = Some best
    /\ mget a m = Some (to_value best).
Proof.
  intros N1 Ha Hs Hmax Hex Hg.
  destruct (tables_spec ratio limit false la0 lb0 a) as [Tm To].
  assert (PyList.mem a la0 = true) as Hmem by now apply mem_In.
  rewrite Hmem in Tm, To.
  assert (Htied : exists b, In b (filter (fun b => Qeq_bool (ratio a b) s) lb0)).
  { destruct Hex as (b0 & Hb0 & Eb0). exists b0. apply filter_In.
    split; [assumption | now apply Qeq_bool_iff]. }
  assert (Hkey : exists k, In k (Dict.keys (entry_of ratio limit a lb0))).
  { destruct Hex as (b0 & Hb0 & Eb0).
    assert (Hg' : qget s (entry_of ratio limit a lb0) <> None).
    { rewrite (entry_of_groups ratio limit).
      assert (Hin : In b0 (tied_at ratio limit a s lb0)).
      { unfold tied_at. apply filter_In. split; [assumption|].
        apply andb_true_intro. split.
        - apply Qeq_bool_iff. now symmetry.
        - apply Qgtb_lt. now rewrite Eb0. }
      destruct (tied_at ratio limit a s lb0) as [|x [|y r]];
        [contradiction| |]; discriminate. }
    destruct (qget s (entry_of ratio limit a lb0)) as [e|] eqn:E; [|congruence].
    apply dict_get_In in E. destruct E as (k & Hk & _).
    exists k. unfold Dict.keys. apply in_map_iff. exists (k, e). auto. }
  destruct Hkey as (k & Hk).
  destruct (sort_desc_nonempty _ _ Hk) as (top & rest & Hsort).
  rewrite Hsort in To.
  pose proof (best_group ratio limit a lb0 s top rest Hs Hmax Hsort Hex) as Hbest.
  destruct (pack (filter (fun b => Qeq_bool (ratio a b) s) lb0)) as [best|] eqn:Ep.
  - exists best. split; [reflexivity|].
    apply (greedy_loop_records _ a _ top rest best la0 Tm To Hbest N1 Ha
             _ _ _ _ _ _ Hg).
  - exfalso. destruct Htied as (b & Hb).
    destruct (filter (fun b => Qeq_bool (ratio a b) s) lb0) as [|x [|y r]];
      [contradiction| |]; discriminate.
Qed.

Lemma pack_members (group : list string) (best : Entry) :
  pack group = Some best -> members (to_value best) = group.
Proof.
  destruct group as [|x [|y r]]; simpl; intros H; inv_ok; try discriminate;
    injection H as <-; reflexivity.
Qed.

(** In per-entry greedy matching without normalisation, a call that
    returns has recorded no target for two source labels, be it as a
    match or as a member of a list: a second use of a target stops the
    call with the [ValueError] of [list.remove]. *)
Theorem per_entry_greedy_uses_target_once
  (la lb : list string) (single : bool) (distance limit : Q)
  (stdin : list string) (out : Outcome)
  (a1 a2 : string) (v1 v2 : MatchValue) (b : string) :
  match_similar ratio py_int window_width list_str_len py_sub la lb SimplifyOff
    true single false distance limit stdin = Ok out ->
  a1 <> a2 ->
  mget a1 (matched out) = Some v1 -> mget a2 (matched out) = Some v2 ->
  In b (members v1) -> ~ In b (members v2).
Proof.
  intros H Hne Hv1 Hv2 Hb1 Hb2. apply Hne. revert Hv1 Hv2 Hb1 Hb2.
  apply match_similar_off_inv in H.
  destruct H as (Hla & Hlb & m0 & la0 & lb0 & Hd & Hr).
  destruct (direct_consumed _ _ _ _ _ Hd Hla Hlb) as [Hc Hex].
  destruct Hr as [m la' lb' _ _ Hg -> | m Ha' He df Hg -> | m nm stdin' Ha' Hg ->];
    try discriminate.
  cbn [matched].
  exact (greedy_loop_exclusive _ _ _ _ Hg Hc Hex a1 a2 v1 v2 b).
Qed.

(** When two source labels left after the direct matches have the same
    target among their best-scoring targets above the floor, per-entry
    greedy matching without normalisation raises [ValueError]. *)
Theorem per_entry_greedy_raises_on_shared_target
  (la lb : list string) (distance limit : Q) (stdin : list string)
  (m0 : MatchDict) (la0 lb0 : list string) (a1 a2 b : string) :
  NoDup la -> NoDup lb ->
  _find_direct_matches la lb = Ok (m0, la0, lb0) ->
  In a1 la0 -> In a2 la0 -> a1 <> a2 -> In b lb0 ->
  (limit < ratio a1 b)%Q -> (limit < ratio a2 b)%Q ->
  (forall b', In b' lb0 -> (ratio a1 b' <= ratio a1 b)%Q) ->
  (forall b', In b' lb0 -> (ratio a2 b' <= ratio a2 b)%Q) ->
  match_similar ratio py_int window_width list_str_len py_sub la lb SimplifyOff
    true true false distance limit stdin = Raise (ValueError []).
Proof.
  intros Hla Hlb Hd Ha1 Ha2 Hne Hb Hs1 Hs2 Hm1 Hm2.
  unfold _find_direct_matches in Hd.
  destruct (direct_matches_spec _ _ _ _ _ Hd Hla Hlb) as (N1 & N2 & A & B & C).
  destruct (direct_consumed _ _ _ _ _ Hd Hla Hlb) as [Hc Hex].
  set (t := score_sources ratio limit false la0 lb0 (mkTables [] [] [])).
  assert (Hg : greedy_loop t la0 (m0, la0, lb0) = Raise (ValueError [])).
  { destruct (greedy_loop t la0 (m0, la0, lb0)) as [[[m la'] lb']|e] eqn:Eg.
    - exfalso. apply Hne.
      destruct (greedy_records_best limit la0 lb0 a1 (ratio a1 b) m0 m la' lb'
                  N1 Ha1 Hs1 Hm1) as (best1 & Hp1 & Hr1);
        [exists b; split; [assumption | reflexivity] | exact Eg |].
      destruct (greedy_records_best limit la0 lb0 a2 (ratio a2 b) m0 m la' lb'
                  N1 Ha2 Hs2 Hm2) as (best2 & Hp2 & Hr2);
        [exists b; split; [assumption | reflexivity] | exact Eg |].
      apply pack_members in Hp1, Hp2.
      apply (greedy_loop_exclusive _ _ _ _ Eg Hc Hex a1 a2 _ _ b Hr1 Hr2).
      + rewrite Hp1. apply filter_In. split; [assumption | apply Qeq_bool_refl].
      + rewrite Hp2. apply filter_In. split; [assumption | apply Qeq_bool_refl].
    - f_equal. apply (greedy_loop_raises t la0) with (st := (m0, la0, lb0));
        [|exact Eg].
      intros a Ha. destruct (tables_spec ratio limit false la0 lb0 a) as [Tm To].
      assert (PyList.mem a la0 = true) as Hmem by now apply mem_In.
      rewrite Hmem in Tm, To. eauto. }
  unfold match_similar.
  rewrite (NoDup_has_duplicates la Hla), (NoDup_has_duplicates lb Hlb).
  cbn [negb simplify_lists]. rewrite Hd. cbn [bind]. fold t. rewrite Hg.
  reflexivity.
Qed.

(** In per-entry greedy matching without normalisation, a source label
    left after the direct matches whose highest score above the floor is
    reached by one remaining target only is, on return, matched to that
    target, and the target has left the caller's list. *)
Theorem per_entry_greedy_matches_best
  (la lb : list string) (single : bool) (distance limit : Q)
  (stdin : list string) (out : Outcome)
  (m0 : MatchDict) (la0 lb0 : list string) (a b : string) :
  match_similar ratio py_int window_width list_str_len py_sub la lb SimplifyOff
    true single false distance limit stdin = Ok out ->
  _find_direct_matches la lb = Ok (m0, la0, lb0) ->
  In a la0 -> In b lb0 ->
  (limit < ratio a b)%Q ->
  (forall b', In b' lb0 -> b' <> b -> (ratio a b' < ratio a b)%Q) ->
  mget a (matched out) = Some (VStr b)
  /\ ~ In b (caller_list_to_be_matched_to out).
Proof.
  intros H Hd0 Ha Hb Hs Hmax. apply match_similar_off_inv in H.
  destruct H as (Hla & Hlb & m0' & la0' & lb0' & Hd & Hr).
  unfold _find_direct_matches in Hd0. rewrite Hd0 in Hd. inv_ok.
  rename la0' into la0, lb0' into lb0, m0' into m0.
  destruct (direct_matches_spec _ _ _ _ _ Hd0 Hla Hlb) as (N1 & N2 & A & B & C).
  destruct (direct_consumed _ _ _ _ _ Hd0 Hla Hlb) as [Hc _].
  destruct Hr as [m la' lb' _ _ Hg -> | m Ha' He df Hg -> | m nm stdin' Ha' Hg ->];
    try discriminate.
  cbn [matched caller_list_to_be_matched_to].
  assert (Hle : forall b', In b' lb0 -> (ratio a b' <= ratio a b)%Q).
  { intros b' Hb'. destruct (string_dec b' b) as [->|Hne]; [apply Qle_refl|].
    apply Qlt_le_weak. auto. }
  destruct (greedy_records_best limit la0 lb0 a (ratio a b) m0 m la' lb'
              N1 Ha Hs Hle) as (best & Hp & Hrec);
    [exists b; split; [assumption | reflexivity] | exact Hg |].
  assert (Hf : filter (fun b' => Qeq_bool (ratio a b') (ratio a b)) lb0 = [b]).
  { apply filter_only; [assumption | assumption | apply Qeq_bool_refl |].
    intros y Hy Hne.
    destruct (Qeq_bool (ratio a y) (ratio a b)) eqn:E; [|reflexivity].
    apply Qeq_bool_iff in E. pose proof (Hmax y Hy Hne) as Hlt.
    rewrite E in Hlt. exfalso. eapply Qlt_irrefl; eauto. }
  rewrite Hf in Hp. simpl in Hp. injection Hp as <-. simpl in Hrec.
  split; [assumption|].
  destruct (greedy_loop_consumed _ _ _ _ Hg Hc) as ((_ & _ & Hc') & _ & _).
  apply (Hc' a (VStr b) Hrec). now left.
Qed.

End PerEntry.

Lemma per_entry_greedy_uses_target_once_witness :
  exists out,
    run_match_similar
      ["Apple"; "pineapple"; "Oranje"; "marmalada"; "seets"]
      ["Apple"; "pineappla"; "Pineapple"; "marmalade"; "sweets"; "Orange"]
      SimplifyOff true true false (1#10) (6#10) [] = Ok out
    /\ ~ In "pineappla" (members (VStr "Orange")).
Proof.
  eexists. split; [vm_compute; reflexivity|].
  eapply (per_entry_greedy_uses_target_once py_ratio int_of_decimal 200
           plain_list_str_len PyFloat.sub
           ["Apple"; "pineapple"; "Oranje"; "marmalada"; "seets"]
           ["Apple"; "pineappla"; "Pineapple"; "marmalade"; "sweets"; "Orange"]
           true (PyFloat.of_Q (1#10)) (PyFloat.of_Q (6#10)) [] _
           "pineapple" "Oranje" (VList ["pineappla"; "Pineapple"]) (VStr "Orange")
           "pineappla").
  - vm_compute. reflexivity.
  - discriminate.
  - vm_compute. reflexivity.
  - vm_compute. reflexivity.
  - simpl. auto.
Defined.

Lemma per_entry_greedy_raises_on_shared_target_witness :
  run_match_similar ["abcdx"; "abcdy"] ["abcd"]
    SimplifyOff true true false (1#10) (6#10) [] = Raise (ValueError []).
Proof.
  apply (per_entry_greedy_raises_on_shared_target py_ratio int_of_decimal 200
           plain_list_str_len PyFloat.sub ["abcdx"; "abcdy"] ["abcd"] (PyFloat.of_Q (1#10)) (PyFloat.of_Q (6#10)) []
           [] ["abcdx"; "abcdy"] ["abcd"] "abcdx" "abcdy" "abcd").
  - apply has_duplicates_false. reflexivity.
  - apply has_duplicates_false. reflexivity.
  - reflexivity.
  - simpl. auto.
  - simpl. auto.
  - discriminate.
  - simpl. auto.
  - vm_compute. reflexivity.
  - vm_compute. reflexivity.
  - intros b' [<-|[]]. apply Qle_refl.
  - intros b' [<-|[]]. apply Qle_refl.
Defined.

Lemma per_entry_greedy_matches_best_witness :
  exists out,
    run_match_similar ["Oranje"; "seets"] ["sweets"; "Orange"]
      SimplifyOff true true false (1#10) (6#10) [] = Ok out
    /\ mget "Oranje" (matched out) = Some (VStr "Orange")
    /\ ~ In "Orange" (caller_list_to_be_matched_to out).
Proof.
  eexists. split; [vm_compute; reflexivity|].
  apply (per_entry_greedy_matches_best py_ratio int_of_decimal 200
           plain_list_str_len PyFloat.sub ["Oranje"; "seets"] ["sweets"; "Orange"]
           true (PyFloat.of_Q (1#10)) (PyFloat.of_Q (6#10)) [] _ [] ["Oranje"; "seets"] ["sweets"; "Orange"]).
  - vm_compute. reflexivity.
  - reflexivity.
  - simpl. auto.
  - simpl. auto.
  - vm_compute. reflexivity.
  - intros b' [<-|[<-|[]]] Hne; [vm_compute; reflexivity | congruence].
Defined.

Lemma every_label_placed_once_witness :
  exists out,
    run_call (MatchComprehensive SimplifierOff)
      ["Apple"; "Oranje"; "zzzz"] ["Apple"; "Orange"] [] = Ok out
    /\ ((In "Oranje" (mkeys (matched out)) /\ ~ In "Oranje" (no_match out))
        \/ (~ In "Oranje" (mkeys (matched out)) /\ In "Oranje" (no_match out))).
Proof.
  eexists. split; [vm_compute; reflexivity|].
  apply (every_label_placed_once py_ratio int_of_decimal 200
           plain_list_str_len PyFloat.sub (MatchComprehensive SimplifierOff)
           ["Apple"; "Oranje"; "zzzz"] ["Apple"; "Orange"] []).
  - reflexivity.
  - vm_compute. reflexivity.
  - simpl. auto.
Defined.

Lemma direct_match_is_kept_witness :
  exists out,
    run_call (MatchSimilar SimplifyOff true true true (1#10) (6#10))
      ["Apple"; "Oranje"] ["Apply"; "Apple"; "Orange"] [] = Ok out
    /\ mget "Apple" (matched out) = Some (VStr "Apple")
    /\ ~ In "Apple" (no_match out).
Proof.
  eexists. split; [vm_compute; reflexivity|].
  apply (direct_match_is_kept py_ratio int_of_decimal 200
           plain_list_str_len PyFloat.sub (MatchSimilar SimplifyOff true true true (PyFloat.of_Q (1#10)) (PyFloat.of_Q (6#10)))
           ["Apple"; "Oranje"] ["Apply"; "Apple"; "Orange"] []).
  - reflexivity.
  - vm_compute. reflexivity.
  - simpl. auto.
  - simpl. auto.
Defined.

(** ** What [_find_direct_matches] returns *)

Lemma py_remove_filter (x : string) (l : list string) :
  NoDup l -> In x l ->
  PyList.remove x l = Ok (filter (fun y => negb (String.eqb x y)) l).
Proof.
  induction l as [|y l IH]; intros Hnd Hin; [contradiction|].
  inversion Hnd as [|? ? Hy Hl]; subst. simpl.
  destruct (String.eqb x y) eqn:E; simpl.
  - apply String.eqb_eq in E. subst y. f_equal. symmetry.
    clear - Hy. induction l as [|z l IH]; simpl; [reflexivity|].
    destruct (String.eqb x z) eqn:E.
    + apply String.eqb_eq in E. subst. exfalso. apply Hy. now left.
    + simpl. f_equal. apply IH. intros H. apply Hy. now right.
  - destruct Hin as [->|Hin]; [rewrite String.eqb_refl in E; discriminate|].
    rewrite (IH Hl Hin). reflexivity.
Qed.

Lemma filter_filter {A : Type} (f g : A -> bool) (l : list A) :
  filter f (filter g l) = filter (fun x => g x && f x) l.
Proof.
  induction l as [|x l IH]; simpl; [reflexivity|].
  destruct (g x); simpl; [destruct (f x); rewrite IH; reflexivity | apply IH].
Qed.

Lemma mem_filter (x : string) (f : string -> bool) (l : list string) :
  PyList.mem x (filter f l) = PyList.mem x l && f x.
Proof.
  destruct (PyList.mem x (filter f l)) eqn:E1.
  - apply mem_In, filter_In in E1. destruct E1 as [H1 H2].
    apply mem_In in H1. now rewrite H1, H2.
  - apply mem_false in E1. destruct (PyList.mem x l) eqn:E2; [|reflexivity].
    apply mem_In in E2. destruct (f x) eqn:E3; [|reflexivity].
    exfalso. apply E1. apply filter_In. auto.
Qed.

Lemma mem_cons (x a : string) (l : list string) :
  PyList.mem x (a :: l) = String.eqb a x || PyList.mem x l.
Proof. unfold PyList.mem. simpl. now rewrite (String.eqb_sym x a). Qed.

Lemma direct_loop_exact (copy : list string) :
  forall m la lb,
    NoDup copy -> NoDup la -> NoDup lb -> (forall x, In x copy -> In x la) ->
    direct_loop copy (m, la, lb)
    = Ok (fold_left (fun d x => mset x (VStr x) d)
            (filter (fun x => PyList.mem x lb) copy) m,
          filter (fun x => negb (PyList.mem x copy && PyList.mem x lb)) la,
          filter (fun y => negb (PyList.mem y copy)) lb).
Proof.
  induction copy as [|a rest IH]; intros m la lb Hc Hla Hlb Hin.
  - simpl. f_equal. f_equal; [f_equal|]; symmetry.
    + clear. induction la as [|x l IH]; simpl; [reflexivity|]. now rewrite IH.
    + clear. induction lb as [|x l IH]; simpl; [reflexivity|]. now rewrite IH.
  - inversion Hc as [|? ? Ha Hrest]; subst. cbn [direct_loop filter].
    destruct (PyList.mem a lb) eqn:E.
    + apply mem_In in E as E'.
      rewrite (py_remove_filter a la Hla (Hin a (or_introl eq_refl))).
      rewrite (py_remove_filter a lb Hlb E'). cbn [bind].
      rewrite IH; [ | assumption | now apply NoDup_filter | now apply NoDup_filter | ].
      * cbn [fold_left].
        assert (E1 : filter (fun x => PyList.mem x
                               (filter (fun y => negb (String.eqb a y)) lb)) rest
                     = filter (fun x => PyList.mem x lb) rest).
        { apply filter_ext_in. intros x Hx. rewrite mem_filter.
          destruct (String.eqb a x) eqn:Eax; [|now rewrite andb_true_r].
          apply String.eqb_eq in Eax. subst. contradiction. }
        assert (E2 : filter (fun x => negb (PyList.mem x rest &&
                               PyList.mem x (filter (fun y => negb (String.eqb a y)) lb)))
                       (filter (fun y => negb (String.eqb a y)) la)
                     = filter (fun x => negb (PyList.mem x (a :: rest) && PyList.mem x lb))
                         la).
        { rewrite filter_filter. apply filter_ext. intros x.
          rewrite mem_filter, mem_cons.
          destruct (String.eqb a x) eqn:Eax; cbn [negb andb orb].
          - apply String.eqb_eq in Eax. subst x. now rewrite E.
          - now rewrite andb_true_r. }
        assert (E3 : filter (fun y => negb (PyList.mem y rest))
                       (filter (fun y => negb (String.eqb a y)) lb)
                     = filter (fun y => negb (PyList.mem y (a :: rest))) lb).
        { rewrite filter_filter. apply filter_ext. intros y. rewrite mem_cons.
          destruct (String.eqb a y); cbn [negb andb orb]; reflexivity. }
        rewrite E1, E2, E3. reflexivity.
      * intros x Hx. apply filter_In. split; [apply Hin; now right|].
        destruct (String.eqb a x) eqn:Eax; [|reflexivity].
        apply String.eqb_eq in Eax. subst. contradiction.
    + rewrite IH; [ | assumption | assumption | assumption | ].
      * apply mem_false in E as E'.
        assert (E2 : filter (fun x => negb (PyList.mem x rest && PyList.mem x lb)) la
                     = filter (fun x => negb (PyList.mem x (a :: rest) && PyList.mem x lb))
                         la).
        { apply filter_ext. intros x. rewrite mem_cons.
          destruct (String.eqb a x) eqn:Eax; cbn [orb]; [|reflexivity].
          apply String.eqb_eq in Eax. subst x. rewrite E.
          now rewrite !andb_false_r. }
        assert (E3 : filter (fun y => negb (PyList.mem y rest)) lb
                     = filter (fun y => negb (PyList.mem y (a :: rest))) lb).
        { apply filter_ext_in. intros y Hy. rewrite mem_cons.
          destruct (String.eqb a y) eqn:Eay; cbn [orb]; [|reflexivity].
          apply String.eqb_eq in Eay. subst. contradiction. }
        rewrite E2, E3. reflexivity.
      * intros x Hx. apply Hin. now right.
Qed.

Lemma fold_mset_fresh (labels : list string) :
  forall d : MatchDict,
    NoDup labels -> (forall x, In x labels -> ~ In x (mkeys d)) ->
    fold_left (fun d x => mset x (VStr x) d) labels d
    = d ++ map (fun x => (x, VStr x)) labels.
Proof.
  induction labels as [|x rest IH]; intros d Hnd Hfresh; simpl.
  - now rewrite app_nil_r.
  - inversion Hnd as [|? ? Hx Hrest]; subst.
    assert (E : mset x (VStr x) d = d ++ [(x, VStr x)]).
    { pose proof (Hfresh x (or_introl eq_refl)) as Hk. clear - Hk.
      unfold mset, mkeys, Dict.keys in *.
      induction d as [|[k v] d IH]; simpl; [reflexivity|].
      destruct (String.eqb x k) eqn:E.
      - apply String.eqb_eq in E. subst. exfalso. apply Hk. now left.
      - f_equal. apply IH. intros H. apply Hk. now right. }
    rewrite E, IH; [now rewrite <- app_assoc | assumption |].
    intros y Hy. unfold mkeys, Dict.keys. rewrite map_app, in_app_iff. simpl.
    intros [H|[->|[]]]; [apply (Hfresh y (or_intror Hy) H) | contradiction].
Qed.

(** On two duplicate-free lists [_find_direct_matches] never raises: it
    returns the labels the lists share, each mapped to itself and in the
    order of [list_for_matching], and leaves in each list, in their order,
    the labels that the other list does not have. *)
Theorem find_direct_matches_returns (list_for_matching list_to_be_matched_to : list string) :
  NoDup list_for_matching -> NoDup list_to_be_matched_to ->
  _find_direct_matches list_for_matching list_to_be_matched_to
  = Ok (map (fun x => (x, VStr x))
          (filter (fun x => PyList.mem x list_to_be_matched_to) list_for_matching),
        filter (fun x => negb (PyList.mem x list_to_be_matched_to)) list_for_matching,
        filter (fun y => negb (PyList.mem y list_for_matching)) list_to_be_matched_to).
Proof.
  intros Hla Hlb. unfold _find_direct_matches.
  rewrite direct_loop_exact by auto.
  rewrite fold_mset_fresh by (first [now apply NoDup_filter | intros x _ []]).
  assert (E : filter (fun x => negb (PyList.mem x list_for_matching
                                     && PyList.mem x list_to_be_matched_to))
                list_for_matching
              = filter (fun x => negb (PyList.mem x list_to_be_matched_to))
                  list_for_matching).
  { apply filter_ext_in. intros x Hx. apply mem_In in Hx. now rewrite Hx. }
  rewrite E. reflexivity.
Qed.

Lemma find_direct_matches_returns_witness :
  _find_direct_matches ["Apple"; "pear"; "Fig"] ["Fig"; "Apply"; "Apple"]
  = Ok ([("Apple", VStr "Apple"); ("Fig", VStr "Fig")], ["pear"], ["Apply"]).
Proof.
  apply (find_direct_matches_returns ["Apple"; "pear"; "Fig"] ["Fig"; "Apply"; "Apple"]).
  - apply has_duplicates_false. reflexivity.
  - apply has_duplicates_false. reflexivity.
Defined.
(** ** Too few targets *)

Lemma to_set_id (l : list string) : NoDup l -> PyList.to_set l = l.
Proof.
  induction 1 as [|x l Hx Hl IH]; simpl; [reflexivity|].
  rewrite IH. f_equal. clear - Hx.
  induction l as [|y l IH]; simpl; [reflexivity|].
  destruct (String.eqb x y) eqn:E.
  - apply String.eqb_eq in E. subst. exfalso. apply Hx. now left.
  - simpl. f_equal. apply IH. intros H. apply Hx. now right.
Qed.

Lemma filter_all {A : Type} (f : A -> bool) (l : list A) :
  (forall x, In x l -> f x = true) -> filter f l = l.
Proof.
  induction l as [|x l IH]; simpl; intros H; [reflexivity|].
  rewrite (H x (or_introl eq_refl)). f_equal. apply IH. intros y Hy.
  apply H. now right.
Qed.

Lemma dict_set_fresh {V : Type} (k : string) (v : V) (d : Dict.t string V) :
  ~ In k (Dict.keys d) -> Dict.set String.eqb k v d = d ++ [(k, v)].
Proof.
  unfold Dict.keys. induction d as [|[k0 v0] d IH]; simpl; intros H; [reflexivity|].
  destruct (String.eqb k k0) eqn:E.
  - apply String.eqb_eq in E. subst. exfalso. apply H. now left.
  - f_equal. apply IH. intros Hin. apply H. now right.
Qed.

Section FewTargets.

Variable ratio : string -> string -> Q.
Variable py_int : string -> option Z.
Variable window_width : nat.
Variable list_str_len : list string -> nat.
Variable py_sub : Q -> Q -> Q.

Lemma group_sources_exact (la lb : list string) :
  forall d : Similarities,
    NoDup la -> (forall a, In a la -> ~ In a (Dict.keys d)) ->
    group_sources ratio la lb d
    = d ++ map (fun a => (a, order_by_key (group_targets ratio a lb []))) la.
Proof.
  induction la as [|a rest IH]; intros d Hnd Hfresh; simpl.
  - now rewrite app_nil_r.
  - inversion Hnd as [|? ? Ha Hrest]; subst.
    rewrite (dict_set_fresh a _ d (Hfresh a (or_introl eq_refl))).
    rewrite IH; [now rewrite <- app_assoc | assumption |].
    intros x Hx. unfold Dict.keys. rewrite map_app, in_app_iff. simpl.
    intros [H|[->|[]]]; [apply (Hfresh x (or_intror Hx) H) | contradiction].
Qed.

Lemma score_sources_no_targets (limit : Q) (enforce : bool) (la : list string) :
  forall t,
    all_similarities (score_sources ratio limit enforce la [] t)
    = all_similarities t.
Proof.
  induction la as [|a rest IH]; intros t; simpl; [reflexivity|].
  now rewrite IH.
Qed.

Lemma greedy_loop_no_targets (t : Tables) (copy : list string) :
  (forall a, In a copy ->
     Dict.get String.eqb a (most_similar t) = Some []
     /\ Dict.get String.eqb a (ordered_most_similar t) = Some []) ->
  forall st, greedy_loop t copy st = Ok st.
Proof.
  induction copy as [|a rest IH]; intros Ht st; simpl; [reflexivity|].
  destruct (Ht a (or_introl eq_refl)) as [Hm Ho].
  destruct st as [[m la] lb]. unfold greedy_step. rewrite Hm, Ho. simpl.
  apply IH. intros x Hx. apply Ht. now right.
Qed.

Lemma interactive_loop_no_targets (t : Tables) (distance : Q) (la : list string) :
  (forall a, In a la -> Dict.get String.eqb a (most_similar t) = Some []) ->
  forall nm stdin,
    interactive_loop py_int window_width list_str_len py_sub t distance la ([], nm, stdin)
    = Ok ([], nm ++ la, stdin).
Proof.
  induction la as [|a rest IH]; intros Ht nm stdin; simpl.
  - now rewrite app_nil_r.
  - rewrite (Ht a (or_introl eq_refl)). simpl.
    rewrite IH by (intros x Hx; apply Ht; now right).
    now rewrite <- app_assoc.
Qed.

Lemma direct_loop_no_targets (copy : list string) :
  forall m la, direct_loop copy (m, la, []) = Ok (m, la, []).
Proof.
  induction copy as [|a rest IH]; intros m la; simpl; [reflexivity | apply IH].
Qed.

Lemma difference_nothing_matched (la : list string) :
  NoDup la -> difference la [] = la.
Proof.
  intros H. unfold difference. rewrite (to_set_id la H).
  apply filter_all. intros x _. reflexivity.
Qed.

(** With no target at all, [match_similar] (without normalisation, in any
    of its three modes) matches nothing, asks nothing and returns every
    label of [list_for_matching] as unmatched. *)
Theorem match_similar_without_targets (la : list string)
  (auto enforce : bool) (distance limit : Q) (stdin : list string) :
  NoDup la ->
  match_similar ratio py_int window_width list_str_len py_sub la [] SimplifyOff
    auto true enforce distance limit stdin
  = Ok (mkOutcome [] la la [] stdin).
Proof.
  intros Hla. unfold match_similar.
  rewrite (NoDup_has_duplicates la Hla). cbn [negb PyList.has_duplicates
    PyList.to_set length Nat.eqb simplify_lists].
  rewrite direct_loop_no_targets. cbn [bind].
  assert (Ht : forall a, In a la ->
             Dict.get String.eqb a
               (most_similar (score_sources ratio limit enforce la []
                                (mkTables [] [] []))) = Some []
             /\ Dict.get String.eqb a
                  (ordered_most_similar (score_sources ratio limit enforce la []
                                           (mkTables [] [] []))) = Some []).
  { intros a Ha. destruct (tables_spec ratio limit enforce la [] a) as [Tm To].
    apply mem_In in Ha. rewrite Ha in Tm, To. split; assumption. }
  destruct auto; [destruct enforce|]; cbn [negb].
  - rewrite score_sources_no_targets. cbn.
    now rewrite (difference_nothing_matched la Hla).
  - rewrite (greedy_loop_no_targets _ la Ht). cbn [bind].
    now rewrite (difference_nothing_matched la Hla).
  - rewrite interactive_loop_no_targets by (intros a Ha; apply (Ht a Ha)).
    reflexivity.
Qed.

Lemma pair_sources_no_targets (la : list string) :
  forall all, pair_sources ratio la [] all = all.
Proof. induction la as [|a rest IH]; intros all; simpl; [reflexivity | apply IH]. Qed.

(** With no target at all, [match_comprehensive] (without normalisation)
    matches nothing and returns every label of [list_for_matching] as
    unmatched. *)
Theorem match_comprehensive_without_targets (la : list string) :
  NoDup la ->
  match_comprehensive ratio la [] SimplifierOff
  = Ok (mkOutcome [] la la [] []).
Proof.
  intros Hla. unfold match_comprehensive, _check_uniqueness_of_entries.
  rewrite (NoDup_has_duplicates la Hla).
  cbn [bind PyList.has_duplicates PyList.to_set length Nat.eqb negb simplify_both].
  unfold _find_direct_matches. rewrite direct_loop_no_targets. cbn [bind].
  unfold _calculate_similarities_listed_by_similarity.
  rewrite pair_sources_no_targets. cbn.
  now rewrite (difference_nothing_matched la Hla).
Qed.

(** The manual-selection variant up to its loop, without normalisation. *)
Lemma manual_selection_unfolded (la lb : list string) (distance limit : Q)
  (stdin : list string) (m0 : MatchDict) (la0 lb0 : list string) :
  NoDup la -> NoDup lb ->
  direct_loop la ([], la, lb) = Ok (m0, la0, lb0) ->
  match_similar_with_manual_selection ratio py_int window_width py_sub la lb
    SimplifierOff distance limit stdin
  = (' (_, match1, stdin') <-
       manual_loop py_int window_width py_sub distance
         (Dict.keys (_calculate_similarities_listed_by_list_for_matching_entry
                       ratio la0 lb0))
         (_calculate_similarities_listed_by_list_for_matching_entry ratio la0 lb0,
          m0, stdin) ;;
     Ok (mkOutcome match1 (difference la0 match1) la0 lb0 stdin')).
Proof.
  intros Hla Hlb Hd.
  unfold match_similar_with_manual_selection, _check_uniqueness_of_entries.
  rewrite (NoDup_has_duplicates la Hla), (NoDup_has_duplicates lb Hlb).
  cbn [bind simplify_both]. unfold _find_direct_matches. rewrite Hd.
  cbn [bind translate_back]. reflexivity.
Qed.

(** When a source label is left after the direct matches and no target
    is, the manual-selection variant (without normalisation) raises
    [IndexError]: it reads the first two scores of a label that has none. *)
Theorem manual_selection_without_targets (la lb : list string)
  (distance limit : Q) (stdin : list string) (a : string) :
  NoDup la -> NoDup lb ->
  (forall b, In b lb -> In b la) ->
  In a la -> ~ In a lb ->
  match_similar_with_manual_selection ratio py_int window_width py_sub la lb
    SimplifierOff distance limit stdin
  = Raise IndexError.
Proof.
  intros Hla Hlb Hsub Ha Hna.
  destruct (direct_loop_returns la [] la lb Hla (fun x H => H))
    as ([[m0 la0] lb0] & Hd).
  destruct (direct_matches_spec _ _ _ _ _ Hd Hla Hlb) as (N1 & N2 & A & B & C).
  rewrite (manual_selection_unfolded la lb distance limit stdin m0 la0 lb0 Hla Hlb Hd).
  assert (Hlb0 : lb0 = []).
  { destruct lb0 as [|b r]; [reflexivity|]. exfalso.
    destruct (B b) as [Hb _]. destruct (Hb (or_introl eq_refl)) as [H1 H2]. auto. }
  assert (Hla0 : exists a0 r, la0 = a0 :: r).
  { destruct la0 as [|a0 r]; [|eauto]. exfalso. apply (A a). auto. }
  destruct Hla0 as (a0 & r & ->). subst lb0.
  unfold _calculate_similarities_listed_by_list_for_matching_entry.
  rewrite (group_sources_exact (a0 :: r) [] [] N1) by (intros x _ []).
  cbn. rewrite String.eqb_refl. reflexivity.
Qed.

(** When exactly one target is left after the direct matches, the score
    [s] of the first remaining source label against it is not 1 and the
    float [1 - s] is above [minimal_distance_for_automatic_matching], the
    manual-selection variant (without normalisation) raises [KeyError]:
    it looks up the score 1 that it has put in front of the only score. *)
Theorem manual_selection_with_one_target (la lb : list string)
  (distance limit : Q) (stdin : list string)
  (m0 : MatchDict) (a : string) (rest : list string) (b : string) :
  NoDup la -> NoDup lb ->
  _find_direct_matches la lb = Ok (m0, a :: rest, [b]) ->
  (distance < py_sub 1 (ratio a b))%Q ->
  ~ (ratio a b == 1)%Q ->
  match_similar_with_manual_selection ratio py_int window_width py_sub la lb
    SimplifierOff distance limit stdin
  = Raise KeyError.
Proof.
  intros Hla Hlb Hd Hdist Hne. unfold _find_direct_matches in Hd.
  destruct (direct_matches_spec _ _ _ _ _ Hd Hla Hlb) as (N1 & N2 & A & B & C).
  rewrite (manual_selection_unfolded la lb distance limit stdin m0 _ _ Hla Hlb Hd).
  unfold _calculate_similarities_listed_by_list_for_matching_entry.
  rewrite (group_sources_exact (a :: rest) [b] [] N1) by (intros x _ []).
  cbn [map app Dict.keys fst manual_loop bind].
  unfold manual_step. cbn [Dict.get]. rewrite String.eqb_refl.
  assert (Hg : order_by_key (group_targets ratio a [b] [])
               = [(ratio a b, [b])]).
  { cbn. rewrite !Qeq_bool_refl. cbn. rewrite !Qeq_bool_refl. reflexivity. }
  rewrite Hg. cbn [of_option bind Dict.keys map fst length Nat.eqb nth_error].
  assert (Hgt : Qgtb (py_sub 1 (ratio a b)) distance = true) by now apply Qgtb_lt.
  rewrite Hgt. cbn [negb].
  assert (Hk : gget 1 [(ratio a b, [b])] = None).
  { unfold gget, Dict.get. destruct (Qeq_bool 1 (ratio a b)) eqn:E; [|reflexivity].
    exfalso. apply Hne. apply Qeq_bool_iff in E. now symmetry. }
  rewrite Hk. reflexivity.
Qed.

(** ** The unmatched labels of the interactive mode *)

Lemma mhas_mget (a : string) (m m' : MatchDict) :
  mget a m = mget a m' -> mhas a m = mhas a m'.
Proof. unfold mhas, Dict.has, mget. now intros ->. Qed.

Lemma interactive_loop_no_match (t : Tables) (distance : Q) (la : list string) :
  NoDup la ->
  forall m nm stdin m' nm' stdin',
    interactive_loop py_int window_width list_str_len py_sub t distance la (m, nm, stdin)
    = Ok (m', nm', stdin') ->
    nm' = nm ++ filter (fun a => negb (mhas a m')) la.
Proof.
  induction la as [|e rest IH]; simpl; intros Hnd m nm stdin m' nm' stdin' H.
  - inv_ok. now rewrite app_nil_r.
  - inversion Hnd as [|? ? He Hrest]; subst.
    inv_bind H as [[m1 nm1] stdin1] Hs.
    destruct (interactive_loop_spec ratio py_int window_width list_str_len py_sub
                t distance rest Hrest _ _ _ _ _ _ H) as (_ & K2 & _).
    rewrite (IH Hrest _ _ _ _ _ _ H).
    destruct (interactive_step_spec ratio py_int window_width list_str_len py_sub
                _ _ _ _ _ _ _ _ _ Hs) as (entry & _ & _ & _ & ->).
    rewrite (mhas_mget e m' m1 (K2 e He)).
    destruct (mhas e m1); simpl; [reflexivity | now rewrite <- app_assoc].
Qed.

(** In the interactive mode of [match_similar] (without normalisation),
    the returned [no_match] is the list of the labels of
    [list_for_matching] that are no key of the returned mapping, in the
    order of [list_for_matching] and each once. *)
Theorem interactive_no_match_in_order
  (la lb : list string) (single enforce : bool) (distance limit : Q)
  (stdin : list string) (out : Outcome) :
  match_similar ratio py_int window_width list_str_len py_sub la lb SimplifyOff
    false single enforce distance limit stdin = Ok out ->
  no_match out = filter (fun a => negb (mhas a (matched out))) la.
Proof.
  intros H. apply match_similar_off_inv in H.
  destruct H as (Hla & Hlb & m0 & la0 & lb0 & Hd & Hr).
  destruct (direct_matches_spec _ _ _ _ _ Hd Hla Hlb) as (N1 & N2 & A & B & C).
  destruct Hr as [m la' lb' Ha' _ Hg -> | m Ha' He df Hg -> | m nm stdin' _ Hg ->];
    try discriminate.
  cbn [matched no_match].
  rewrite (interactive_loop_no_match _ _ _ N1 _ _ _ _ _ _ Hg). cbn [app].
  destruct (interactive_loop_spec ratio py_int window_width list_str_len py_sub
              _ distance la0 N1 _ _ _ _ _ _ Hg) as (K1 & _ & _).
  pose proof (direct_loop_exact la [] la lb Hla Hla Hlb (fun x H => H)) as Hex.
  pose proof (eq_trans (eq_sym Hd) Hex) as Heq. injection Heq as _ Hla0 _.
  rewrite Hla0, filter_filter. apply filter_ext_in. intros x Hx.
  apply mem_In in Hx as Hx'. rewrite Hx'. cbn [andb].
  destruct (PyList.mem x lb) eqn:E; cbn [negb andb]; [|reflexivity].
  apply mem_In in E. symmetry. apply negb_false_iff, mhas_true, K1.
  apply mget_In_keys. exists (VStr x). apply C. auto.
Qed.

End FewTargets.

Lemma match_similar_without_targets_witness :
  run_match_similar ["Apple"; "pear"] [] SimplifyOff false true false
    (1#10) (6#10) ["1"]
  = Ok (mkOutcome [] ["Apple"; "pear"] ["Apple"; "pear"] [] ["1"]).
Proof.
  apply (match_similar_without_targets py_ratio int_of_decimal 200
           plain_list_str_len PyFloat.sub ["Apple"; "pear"] false false (PyFloat.of_Q (1#10)) (PyFloat.of_Q (6#10)) ["1"]).
  apply has_duplicates_false. reflexivity.
Defined.

Lemma match_comprehensive_without_targets_witness :
  run_match_comprehensive ["Apple"; "pear"] [] SimplifierOff
  = Ok (mkOutcome [] ["Apple"; "pear"] ["Apple"; "pear"] [] []).
Proof.
  apply (match_comprehensive_without_targets py_ratio ["Apple"; "pear"]).
  apply has_duplicates_false. reflexivity.
Defined.

Lemma manual_selection_without_targets_witness :
  run_match_similar_with_manual_selection ["Apple"; "pear"] ["Apple"]
    SimplifierOff (1#10) (6#10) []
  = Raise IndexError.
Proof.
  apply (manual_selection_without_targets py_ratio int_of_decimal 200 PyFloat.sub
           ["Apple"; "pear"] ["Apple"] (PyFloat.of_Q (1#10)) (PyFloat.of_Q (6#10)) [] "pear").
  - apply has_duplicates_false. reflexivity.
  - apply has_duplicates_false. reflexivity.
  - intros b [<-|[]]. simpl. auto.
  - simpl. auto.
  - intros [H|[]]. discriminate.
Defined.

Lemma manual_selection_with_one_target_witness :
  run_match_similar_with_manual_selection ["Oranje"; "Apple"] ["Apple"; "Orange"]
    SimplifierOff (1#10) (6#10) [""]
  = Raise KeyError.
Proof.
  apply (manual_selection_with_one_target py_ratio int_of_decimal 200 PyFloat.sub
           ["Oranje"; "Apple"] ["Apple"; "Orange"] (PyFloat.of_Q (1#10)) (PyFloat.of_Q (6#10)) [""]
           [("Apple", VStr "Apple")] "Oranje" [] "Orange").
  - apply has_duplicates_false. reflexivity.
  - apply has_duplicates_false. reflexivity.
  - reflexivity.
  - vm_compute. reflexivity.
  - vm_compute. discriminate.
Defined.


Lemma interactive_no_match_in_order_witness :
  exists out,
    run_match_similar ["Oranje"; "zzzz"; "Apple"] ["Orange"; "Apple"]
      SimplifyOff false true false (1#10) (6#10) [""] = Ok out
    /\ no_match out
       = filter (fun a => negb (mhas a (matched out))) ["Oranje"; "zzzz"; "Apple"].
Proof.
  eexists. split; [vm_compute; reflexivity|].
  apply (interactive_no_match_in_order py_ratio int_of_decimal 200
           plain_list_str_len PyFloat.sub ["Oranje"; "zzzz"; "Apple"] ["Orange"; "Apple"]
           true false (PyFloat.of_Q (1#10)) (PyFloat.of_Q (6#10)) [""]).
  vm_compute. reflexivity.
Defined.

(** ** More on the score *)

Module DifflibFound.

Import Difflib.
Import DifflibSpec.
Import DifflibFacts.
Import DifflibSame.

Lemma scan_size_mono (i blo bhi : nat) (js : list nat) :
  forall j2len newj2len best,
    size best <= size (snd (scan i blo bhi js j2len newj2len best)).
Proof.
  induction js as [|j rest IH]; intros j2len newj2len best; simpl; [lia|].
  destruct (Nat.ltb j blo); [apply IH|].
  destruct (Nat.leb bhi j); [simpl; lia|].
  eapply Nat.le_trans; [|apply IH].
  destruct (Nat.ltb (size best) (j2lenget j2len j + 1)) eqn:E; [|lia].
  apply Nat.ltb_lt in E. unfold size in *. simpl. lia.
Qed.

(** A position of [b] inside the window that the row meets makes the best
    block at least one element long. *)
Lemma scan_hits (i blo bhi : nat) (js : list nat) (j : nat) :
  ascending js -> In j js -> blo <= j -> j < bhi ->
  forall j2len newj2len best,
    1 <= size (snd (scan i blo bhi js j2len newj2len best)).
Proof.
  induction js as [|j0 rest IH]; intros Hasc Hin Hlo Hhi j2len newj2len best;
    [contradiction|].
  destruct Hasc as [Hlt Hasc]. simpl.
  destruct (Nat.ltb j0 blo) eqn:E1.
  - apply Nat.ltb_lt in E1. destruct Hin as [->|Hin]; [lia|]. now apply IH.
  - destruct (Nat.leb bhi j0) eqn:E2.
    + apply Nat.leb_le in E2. destruct Hin as [->|Hin]; [lia|].
      specialize (Hlt j Hin). lia.
    + eapply Nat.le_trans; [|apply scan_size_mono].
      destruct (Nat.ltb (size best) (j2lenget j2len j0 + 1)) eqn:E.
      * unfold size. simpl. lia.
      * apply Nat.ltb_ge in E. lia.
Qed.

Lemma rows_size_mono (a b : list ascii) (blo bhi : nat) (todo : nat) :
  forall i j2len best,
    size best <= size (rows a b blo bhi todo i j2len best).
Proof.
  induction todo as [|todo IH]; intros i j2len best; simpl; [lia|].
  pose proof (scan_size_mono i blo bhi (b2j b (nth i a zero)) j2len [] best) as H.
  destruct (scan i blo bhi (b2j b (nth i a zero)) j2len [] best) as [new best'].
  simpl in H. eapply Nat.le_trans; [exact H | apply IH].
Qed.

Lemma rows_hits (a b : list ascii) (blo bhi : nat) (i j : nat) :
  j < length b -> blo <= j -> j < bhi ->
  nth i a zero = nth j b zero -> popular b (nth j b zero) = false ->
  forall todo i0 j2len best,
    i0 <= i -> i < i0 + todo ->
    1 <= size (rows a b blo bhi todo i0 j2len best).
Proof.
  intros Hj Hlo Hhi Heq Hpop. induction todo as [|todo IH];
    intros i0 j2len best H1 H2; [lia|]. simpl.
  destruct (Nat.eq_dec i0 i) as [->|Hne].
  - assert (Hin : In j (b2j b (nth i a zero))).
    { unfold b2j. rewrite Heq, Hpop. apply indices_from_complete; try lia.
      now rewrite Nat.sub_0_r. }
    assert (Hasc : ascending (b2j b (nth i a zero))).
    { unfold b2j. destruct (popular b (nth i a zero)); [exact I|].
      apply indices_from_ascending. }
    pose proof (scan_hits i blo bhi _ j Hasc Hin Hlo Hhi j2len [] best) as H.
    destruct (scan i blo bhi (b2j b (nth i a zero)) j2len [] best) as [new best'].
    simpl in H. eapply Nat.le_trans; [exact H | apply rows_size_mono].
  - destruct (scan i0 blo bhi (b2j b (nth i0 a zero)) j2len [] best) as [new best'].
    apply IH; lia.
Qed.

Lemma extend_left_size_mono (a b : list ascii) (alo blo fuel : nat) :
  forall best, size best <= size (extend_left a b alo blo fuel best).
Proof.
  induction fuel as [|fuel IH]; intros [[i j] k]; simpl; [lia|].
  destruct (Nat.ltb alo i && Nat.ltb blo j
            && Ascii.eqb (nth (i - 1) a zero) (nth (j - 1) b zero)); [|simpl; lia].
  eapply Nat.le_trans; [|apply IH]. unfold size. simpl. lia.
Qed.

Lemma extend_right_size_mono (a b : list ascii) (ahi bhi fuel : nat) :
  forall best, size best <= size (extend_right a b ahi bhi fuel best).
Proof.
  induction fuel as [|fuel IH]; intros [[i j] k]; simpl; [lia|].
  destruct (Nat.ltb (i + k) ahi && Nat.ltb (j + k) bhi
            && Ascii.eqb (nth (i + k) a zero) (nth (j + k) b zero)); [|simpl; lia].
  eapply Nat.le_trans; [|apply IH]. unfold size. simpl. lia.
Qed.

Lemma find_longest_match_hits (a b : list ascii) (i j : nat) :
  i < length a -> j < length b ->
  nth i a zero = nth j b zero -> popular b (nth j b zero) = false ->
  1 <= size (find_longest_match a b 0 (length a) 0 (length b)).
Proof.
  intros Hi Hj Heq Hpop. unfold find_longest_match.
  eapply Nat.le_trans; [|apply extend_right_size_mono].
  eapply Nat.le_trans; [|apply extend_left_size_mono].
  rewrite Nat.sub_0_r.
  apply (rows_hits a b 0 (length b) i j); auto; lia.
Qed.

(** The blocks have a first element only when the two sequences share
    one, and they have one whenever the sequences share an element that is
    not popular. *)
Lemma matches_positive (a b : list ascii) (fuel : nat) :
  0 < matches fuel a b 0 (length a) 0 (length b) ->
  exists c, In c a /\ In c b.
Proof.
  destruct fuel as [|fuel]; simpl; [lia|].
  pose proof (find_longest_match_ok a b 0 (length a) 0 (length b)
                (Nat.le_0_l _) (Nat.le_0_l _)) as Hok.
  destruct (find_longest_match a b 0 (length a) 0 (length b)) as [[i j] k].
  destruct (Nat.eqb k 0) eqn:E; [lia|]. apply Nat.eqb_neq in E. intros _.
  destruct Hok as (_ & H2 & _ & H4 & H5).
  exists (nth i a zero). split.
  - apply nth_In. lia.
  - specialize (H5 0 ltac:(lia)). rewrite !Nat.add_0_r in H5. rewrite H5.
    apply nth_In. lia.
Qed.

Lemma matches_found (a b : list ascii) (fuel : nat) (c : ascii) :
  In c a -> In c b -> popular b c = false ->
  0 < matches (S fuel) a b 0 (length a) 0 (length b).
Proof.
  intros Ha Hb Hpop. simpl.
  destruct (In_nth a c zero Ha) as (i & Hi & Ei).
  destruct (In_nth b c zero Hb) as (j & Hj & Ej).
  assert (H : 1 <= size (find_longest_match a b 0 (length a) 0 (length b))).
  { apply (find_longest_match_hits a b i j); auto; congruence. }
  destruct (find_longest_match a b 0 (length a) 0 (length b)) as [[i' j'] k].
  unfold size in H. simpl in H.
  destruct (Nat.eqb k 0) eqn:E; [apply Nat.eqb_eq in E; lia | lia].
Qed.

End DifflibFound.

Lemma length_list_ascii_of_string (s : string) :
  length (list_ascii_of_string s) = String.length s.
Proof. induction s as [|c s IH]; simpl; [reflexivity | now rewrite IH]. Qed.

Lemma calculate_ratio_0 (matches length : nat) :
  Difflib._calculate_ratio matches length == 0 <-> (length <> 0 /\ matches = 0).
Proof.
  unfold Difflib._calculate_ratio. destruct length as [|k].
  - split; [intros H; discriminate H | intros [H _]; congruence].
  - unfold Qeq. cbn [Qnum Qden]. split.
    + intros H. split; [discriminate | lia].
    + intros [_ ->]. reflexivity.
Qed.

(** The score is at most twice the length of the shorter string over the
    sum of the two lengths. *)
Theorem ratio_length_bound (a b : string) :
  (Difflib.ratio a b * inject_Z (Z.of_nat (String.length a + String.length b))
   <= inject_Z (Z.of_nat (2 * Nat.min (String.length a) (String.length b))))%Q.
Proof.
  unfold Difflib.ratio.
  set (la := list_ascii_of_string a). set (lb := list_ascii_of_string b).
  destruct (DifflibFacts.matches_ok la lb (S (length la)) 0 (length la) 0 (length lb))
    as (M1 & M2 & _); try lia.
  rewrite !Nat.sub_0_r in *.
  set (M := Difflib.matches (S (length la)) la lb 0 (length la) 0 (length lb)) in *.
  rewrite <- !length_list_ascii_of_string. fold la lb.
  unfold Difflib._calculate_ratio.
  destruct (length la + length lb) as [|k] eqn:E.
  - unfold Qle, Qmult, inject_Z. simpl. lia.
  - unfold Qle, Qmult, inject_Z. cbn [Qnum Qden].
    rewrite Pos.mul_1_r, Zpos_of_nat_succ. nia.
Qed.

(** Against a string of fewer than 200 characters the score is 0 exactly
    when the two strings have no character in common and are not both
    empty. *)
Theorem ratio_zero_iff_disjoint (a b : string) :
  String.length b < 200 ->
  (Difflib.ratio a b == 0
   <-> (forall c, In c (list_ascii_of_string a) -> ~ In c (list_ascii_of_string b))
       /\ (a <> "" \/ b <> "")).
Proof.
  intros Hshort. unfold Difflib.ratio.
  set (la := list_ascii_of_string a). set (lb := list_ascii_of_string b).
  rewrite calculate_ratio_0.
  assert (Hlen : length la + length lb <> 0 <-> (a <> "" \/ b <> "")).
  { unfold la, lb. rewrite !length_list_ascii_of_string.
    destruct a as [|c a], b as [|c' b]; simpl; split; intros H;
      try lia; try (left; discriminate); try (right; discriminate).
    destruct H; congruence. }
  rewrite Hlen. split.
  - intros [Hne HM]. split; [|assumption]. intros c Ha Hb.
    assert (Hpop : Difflib.popular lb c = false).
    { unfold Difflib.popular. unfold lb. rewrite length_list_ascii_of_string.
      destruct (Nat.leb 200 (String.length b)) eqn:E; [|reflexivity].
      apply Nat.leb_le in E. lia. }
    pose proof (DifflibFound.matches_found la lb (length la) c Ha Hb Hpop). lia.
  - intros [Hdis Hne]. split; [assumption|].
    destruct (Nat.eq_dec
                (Difflib.matches (S (length la)) la lb 0 (length la) 0 (length lb)) 0)
      as [E|E]; [assumption|].
    exfalso.
    destruct (DifflibFound.matches_positive la lb (S (length la))) as (c & Ha & Hb);
      [lia|]. exact (Hdis c Ha Hb).
Qed.

Lemma ratio_zero_iff_disjoint_witness :
  Difflib.ratio "abc" "xyz" == 0
  <-> (forall c, In c (list_ascii_of_string "abc") -> ~ In c (list_ascii_of_string "xyz"))
      /\ ("abc" <> "" \/ "xyz" <> "").
Proof.
  apply (ratio_zero_iff_disjoint "abc" "xyz"). simpl. lia.
Defined.

(** ** Tables keyed by score *)

Section Grouping.

Variable V : Type.
Variable score : V -> Q.

Lemma qdict_set_set (s : Q) (x y : list V) (d : Dict.t Q (list V)) :
  Dict.set Qeq_bool s x (Dict.set Qeq_bool s y d) = Dict.set Qeq_bool s x d.
Proof.
  induction d as [|[k v] d IH]; simpl.
  - now rewrite Qeq_bool_refl.
  - destruct (Qeq_bool s k) eqn:E; simpl; rewrite E; [reflexivity|].
    now rewrite IH.
Qed.

Lemma qdict_get_set_same (s : Q) (x : list V) (d : Dict.t Q (list V)) :
  Dict.get Qeq_bool s (Dict.set Qeq_bool s x d) = Some x.
Proof.
  induction d as [|[k v] d IH]; simpl.
  - now rewrite Qeq_bool_refl.
  - destruct (Qeq_bool s k) eqn:E; simpl; rewrite E; [reflexivity | assumption].
Qed.

(** The two statements of the code are one [push]. *)
Lemma push_code (s : Q) (v : V) (d : Dict.t Q (list V)) :
  (let d1 := match Dict.get Qeq_bool s d with
             | Some _ => d
             | None => Dict.set Qeq_bool s [] d
             end in
   match Dict.get Qeq_bool s d1 with
   | Some l => Dict.set Qeq_bool s (l ++ [v]) d1
   | None => d1
   end) = push s v d.
Proof.
  unfold push. cbv zeta. destruct (Dict.get Qeq_bool s d) as [l|] eqn:E.
  - rewrite E. reflexivity.
  - rewrite qdict_get_set_same. simpl. apply qdict_set_set.
Qed.

Lemma qdict_get_none (s : Q) (d : Dict.t Q (list V)) :
  Dict.get Qeq_bool s d = None <->
  forall k, In k (Dict.keys d) -> Qeq_bool s k = false.
Proof.
  unfold Dict.keys. induction d as [|[k v] d IH]; simpl.
  - split; [intros _ k [] | reflexivity].
  - destruct (Qeq_bool s k) eqn:E.
    + split; [discriminate|]. intros H. specialize (H k (or_introl eq_refl)).
      congruence.
    + rewrite IH. split.
      * intros H k' [<-|Hk']; auto.
      * intros H k' Hk'. apply H. now right.
Qed.

Lemma qdict_set_fresh (s : Q) (x : list V) (d : Dict.t Q (list V)) :
  Dict.get Qeq_bool s d = None -> Dict.set Qeq_bool s x d = d ++ [(s, x)].
Proof.
  induction d as [|[k v] d IH]; simpl; [reflexivity|].
  destruct (Qeq_bool s k); [discriminate|]. intros H. now rewrite IH.
Qed.

Lemma qdict_set_found (s : Q) (x l : list V) (d : Dict.t Q (list V)) :
  Dict.get Qeq_bool s d = Some l ->
  exists d1 k d2,
    d = d1 ++ (k, l) :: d2
    /\ Dict.set Qeq_bool s x d = d1 ++ (k, x) :: d2
    /\ Qeq_bool s k = true.
Proof.
  induction d as [|[k v] d IH]; simpl; [discriminate|].
  destruct (Qeq_bool s k) eqn:E.
  - intros H. injection H as ->. exists [], k, d. auto.
  - intros H. destruct (IH H) as (d1 & k' & d2 & -> & E2 & E3).
    exists ((k, v) :: d1), k', d2. simpl. rewrite E2. auto.
Qed.

Lemma listed_app (d1 d2 : Dict.t Q (list V)) : listed (d1 ++ d2) = listed d1 ++ listed d2.
Proof. unfold listed. apply flat_map_app. Qed.

Lemma push_listed (s : Q) (v : V) (d : Dict.t Q (list V)) :
  exists k, Qeq_bool s k = true
            /\ Permutation (listed (push s v d)) ((k, v) :: listed d).
Proof.
  unfold push. destruct (Dict.get Qeq_bool s d) as [l|] eqn:E.
  - destruct (qdict_set_found s (l ++ [v]) l d E) as (d1 & k & d2 & -> & -> & Ek).
    exists k. split; [assumption|]. rewrite !listed_app.
    change (listed ((k, l ++ [v]) :: d2))
      with (map (fun v0 => (k, v0)) (l ++ [v]) ++ listed d2).
    change (listed ((k, l) :: d2)) with (map (fun v0 => (k, v0)) l ++ listed d2).
    rewrite map_app. simpl. rewrite <- !app_assoc. simpl.
    symmetry. rewrite !app_assoc. apply Permutation_cons_app. reflexivity.
  - exists s. split; [apply Qeq_bool_refl|].
    rewrite (qdict_set_fresh s [v] d E), listed_app. unfold listed at 2. simpl.
    symmetry. apply Permutation_cons_append.
Qed.

Lemma push_keys (s : Q) (v : V) (d : Dict.t Q (list V)) :
  Dict.keys (push s v d)
  = match Dict.get Qeq_bool s d with
    | Some _ => Dict.keys d
    | None => Dict.keys d ++ [s]
    end.
Proof.
  unfold push. destruct (Dict.get Qeq_bool s d) as [l|] eqn:E.
  - destruct (qdict_set_found s (l ++ [v]) l d E) as (d1 & k & d2 & -> & -> & _).
    unfold Dict.keys. now rewrite !map_app.
  - rewrite (qdict_set_fresh s [v] d E). unfold Dict.keys. now rewrite map_app.
Qed.

Lemma apart_app (ks : list Q) (s : Q) :
  apart ks -> (forall k, In k ks -> Qeq_bool s k = false) -> apart (ks ++ [s]).
Proof.
  induction ks as [|k ks IH]; simpl; intros H Hs.
  - split; [intros k' [] | exact I].
  - destruct H as [H1 H2]. split.
    + intros k' Hk'. apply in_app_iff in Hk'. destruct Hk' as [Hk'|[<-|[]]]; auto.
      rewrite Qeq_bool_comm. auto.
    + apply IH; auto.
Qed.

Lemma push_apart (s : Q) (v : V) (d : Dict.t Q (list V)) :
  apart (Dict.keys d) -> apart (Dict.keys (push s v d)).
Proof.
  intros H. rewrite push_keys. destruct (Dict.get Qeq_bool s d) eqn:E; [assumption|].
  apply apart_app; [assumption|]. now apply qdict_get_none.
Qed.

(** The table after the values [vs] have been pushed under their scores. *)
Lemma pushed_spec (vs : list V) :
  forall d,
    apart (Dict.keys d) ->
    (forall q v, In (q, v) (listed d) -> score v == q) ->
    let d' := fold_left (fun d v => push (score v) v d) vs d in
    apart (Dict.keys d')
    /\ (forall q v, In (q, v) (listed d') -> score v == q)
    /\ Permutation (map snd (listed d')) (map snd (listed d) ++ vs).
Proof.
  induction vs as [|v vs IH]; intros d Ha Hs; simpl.
  - split; [assumption|]. split; [assumption|]. now rewrite app_nil_r.
  - destruct (push_listed (score v) v d) as (k & Ek & Hp).
    destruct (IH (push (score v) v d)) as (A & B & C).
    + now apply push_apart.
    + intros q v' Hin. apply (Permutation_in _ Hp) in Hin.
      destruct Hin as [Hin|Hin]; [|auto].
      injection Hin as <- <-. now apply Qeq_bool_iff.
    + split; [assumption|]. split; [assumption|].
      rewrite C. rewrite (Permutation_map snd Hp). simpl.
      apply Permutation_middle.
Qed.

(** The table in the descending order of its scores. *)
Lemma qdict_get_own (d : Dict.t Q (list V)) :
  apart (Dict.keys d) ->
  forall k l, In (k, l) d -> Dict.get Qeq_bool k d = Some l.
Proof.
  induction d as [|[k0 l0] d IH]; simpl; intros Ha k l; [intros [] |].
  destruct Ha as [H1 H2]. intros [H|H].
  - injection H as <- <-. now rewrite Qeq_bool_refl.
  - assert (Hk : In k (Dict.keys d)).
    { unfold Dict.keys. apply in_map_iff. exists (k, l). auto. }
    rewrite Qeq_bool_comm, (H1 k Hk). now apply IH.
Qed.

Lemma insert_desc_perm (x : Q) (l : list Q) : Permutation (insert_desc x l) (x :: l).
Proof.
  induction l as [|y l IH]; simpl; [reflexivity|].
  destruct (Qle_bool y x); [reflexivity|].
  rewrite IH. apply perm_swap.
Qed.

Lemma sort_desc_perm (l : list Q) : Permutation (sort_desc l) l.
Proof.
  induction l as [|x l IH]; simpl; [reflexivity|].
  rewrite insert_desc_perm. now apply perm_skip.
Qed.

Lemma insert_desc_descending (x : Q) (l : list Q) :
  descending l -> descending (insert_desc x l).
Proof.
  induction l as [|y l IH]; simpl.
  - intros _. split; [intros k [] | exact I].
  - intros [H1 H2]. destruct (Qle_bool y x) eqn:E; simpl.
    + apply Qle_bool_iff in E. split; [|split; assumption].
      intros k [<-|Hk]; [assumption|].
      eapply Qle_trans; [apply H1; assumption | assumption].
    + split; [|now apply IH].
      intros k Hk. apply (Permutation_in _ (insert_desc_perm x l)) in Hk.
      destruct Hk as [<-|Hk]; [|auto].
      apply Qlt_le_weak, Qnot_le_lt. intros Hle. apply Qle_bool_iff in Hle.
      congruence.
Qed.

Lemma sort_desc_descending (l : list Q) : descending (sort_desc l).
Proof.
  induction l as [|x l IH]; simpl; [exact I | now apply insert_desc_descending].
Qed.

Lemma order_by_key_exact (d : Dict.t Q (list V)) (ks : list Q) :
  apart (Dict.keys d) -> incl ks (Dict.keys d) ->
  Dict.keys
    (flat_map (fun s => match Dict.get Qeq_bool s d with
                        | Some v => [(s, v)]
                        | None => []
                        end) ks) = ks
  /\ forall k l,
       In (k, l) (flat_map (fun s => match Dict.get Qeq_bool s d with
                                     | Some v => [(s, v)]
                                     | None => []
                                     end) ks)
       <-> In k ks /\ In (k, l) d.
Proof.
  intros Ha. induction ks as [|s ks IH]; intros Hincl; simpl.
  - split; [reflexivity|]. intros k l. tauto.
  - assert (Hs : In s (Dict.keys d)) by (apply Hincl; now left).
    destruct IH as [IH1 IH2]; [intros x Hx; apply Hincl; now right|].
    unfold Dict.keys in Hs. apply in_map_iff in Hs.
    destruct Hs as ([s' l'] & Es & Hs). simpl in Es. subst s'.
    rewrite (qdict_get_own d Ha s l' Hs). simpl. split.
    + f_equal. exact IH1.
    + intros k l. rewrite IH2. split.
      * intros [H|[H1 H2]]; [injection H as <- <-; auto | auto].
      * intros [[<-|H1] H2]; [|auto]. left.
        pose proof (qdict_get_own d Ha s l H2) as E1.
        pose proof (qdict_get_own d Ha s l' Hs) as E2. congruence.
Qed.

Lemma order_by_key_perm (d : Dict.t Q (list V)) :
  apart (Dict.keys d) -> Permutation (order_by_key d) d.
Proof.
  intros Ha. unfold order_by_key.
  rewrite (Permutation_flat_map _ (sort_desc_perm (Dict.keys d))).
  unfold Dict.keys. rewrite flat_map_concat_map, map_map, <- flat_map_concat_map.
  assert (E : flat_map (fun x => match Dict.get Qeq_bool (fst x) d with
                                 | Some v => [(fst x, v)]
                                 | None => []
                                 end) d
              = flat_map (fun x => [x]) d).
  { assert (G : forall d0, incl d0 d ->
                flat_map (fun x => match Dict.get Qeq_bool (fst x) d with
                                   | Some v => [(fst x, v)]
                                   | None => []
                                   end) d0
                = flat_map (fun x => [x]) d0).
    { induction d0 as [|[k l] d0 IH]; intros Hincl; simpl; [reflexivity|].
      rewrite (qdict_get_own d Ha k l (Hincl _ (or_introl eq_refl))). simpl.
      f_equal. apply IH. intros x Hx. apply Hincl. now right. }
    apply G, incl_refl. }
  rewrite E. clear. induction d as [|x d IH]; simpl; [reflexivity|].
  now apply perm_skip.
Qed.

Lemma order_by_key_keys (d : Dict.t Q (list V)) :
  apart (Dict.keys d) -> Dict.keys (order_by_key d) = sort_desc (Dict.keys d).
Proof.
  intros Ha. unfold order_by_key.
  apply (order_by_key_exact d (sort_desc (Dict.keys d)) Ha).
  intros k Hk. apply (sort_desc_In (Dict.keys d) k). exact Hk.
Qed.

Lemma listed_perm (d d' : Dict.t Q (list V)) :
  Permutation d d' -> Permutation (listed d) (listed d').
Proof. intros H. unfold listed. now apply Permutation_flat_map. Qed.

Lemma listed_descending (d : Dict.t Q (list V)) :
  descending (Dict.keys d) -> descending (map fst (listed d)).
Proof.
  unfold Dict.keys. induction d as [|[k l] d IH]; simpl; [auto|].
  intros [H1 H2]. unfold listed. simpl. fold (listed d).
  rewrite map_app, map_map. simpl.
  assert (Hrest : forall q, In q (map fst (listed d)) -> (q <= k)%Q).
  { intros q Hq. apply in_map_iff in Hq. destruct Hq as ([q' v] & <- & Hin).
    unfold listed in Hin. apply in_flat_map in Hin.
    destruct Hin as ([k' l'] & Hk' & Hv). apply in_map_iff in Hv.
    destruct Hv as (v' & Hv & _). injection Hv as <- <-. simpl.
    apply H1. apply in_map_iff. exists (k', l'). auto. }
  specialize (IH H2). clear H1 H2.
  induction l as [|v l IHl]; simpl; [assumption|]. split; [|assumption].
  intros q Hq. apply in_app_iff in Hq. destruct Hq as [Hq|Hq]; [|auto].
  apply in_map_iff in Hq. destruct Hq as (v' & <- & _). apply Qle_refl.
Qed.

(** The values [vs], pushed under their scores into an empty table that
    is then put in descending order: every value is listed once, under
    its score, and the scores come in descending order. *)
Lemma ordered_table_spec (vs : list V) :
  let d := order_by_key (fold_left (fun d v => push (score v) v d) vs []) in
  Permutation (map snd (listed d)) vs
  /\ (forall q v, In (q, v) (listed d) -> score v == q)
  /\ descending (map fst (listed d))
  /\ apart (Dict.keys d) /\ descending (Dict.keys d).
Proof.
  destruct (pushed_spec vs []) as (A & B & C);
    [exact I | intros q v [] |].
  cbv zeta. set (d0 := fold_left (fun d v => push (score v) v d) vs []) in *.
  pose proof (order_by_key_perm d0 A) as P.
  pose proof (order_by_key_keys d0 A) as K.
  split; [|split; [|split; [|split]]].
  - rewrite (Permutation_map snd (listed_perm _ _ P)). exact C.
  - intros q v Hin. apply B. apply (Permutation_in _ (listed_perm _ _ P)). exact Hin.
  - apply listed_descending. rewrite K. apply sort_desc_descending.
  - rewrite K. clear - A. 
    assert (G : forall l l', Permutation l l' -> apart l -> apart l').
    { induction 1; simpl; auto.
      - intros [H1 H2]. split; [|auto]. intros k' Hk'. apply H1.
        apply (Permutation_in _ (Permutation_sym H)). exact Hk'.
      - intros (H1 & H2 & H3). split; [|split; [|assumption]].
        + intros k' [<-|Hk']; [rewrite Qeq_bool_comm; apply H1; now left | auto].
        + intros k' Hk'. apply H1. now right. }
    apply (G _ _ (Permutation_sym (sort_desc_perm _)) A).
  - rewrite K. apply sort_desc_descending.
Qed.

End Grouping.

(** ** The similarity tables of [match_comprehensive] and of the
    manual-selection variant *)

Section ScoreTables.

Variable ratio : string -> string -> Q.

Lemma pair_targets_push (entry_a : string) (lb : list string) :
  forall all,
    pair_targets ratio entry_a lb all
    = fold_left (fun d p => push (ratio (fst p) (snd p)) p d)
        (map (pair entry_a) lb) all.
Proof.
  induction lb as [|b rest IH]; intros all; simpl; [reflexivity|].
  rewrite IH. f_equal.
  apply (push_code (string * string) (ratio entry_a b) (entry_a, b) all).
Qed.

Lemma pair_sources_push (la lb : list string) :
  forall all,
    pair_sources ratio la lb all
    = fold_left (fun d p => push (ratio (fst p) (snd p)) p d) (list_prod la lb) all.
Proof.
  induction la as [|a rest IH]; intros all; simpl; [reflexivity|].
  now rewrite IH, pair_targets_push, fold_left_app.
Qed.

Lemma group_targets_push (entry_a : string) (lb : list string) :
  forall groups,
    group_targets ratio entry_a lb groups
    = fold_left (fun d b => push (ratio entry_a b) b d) lb groups.
Proof.
  induction lb as [|b rest IH]; intros groups; simpl; [reflexivity|].
  rewrite IH. f_equal.
  apply (push_code string (ratio entry_a b) b groups).
Qed.

Lemma dataframe_listed (similarities : PairDict) :
  _create_similarity_dataframe similarities
  = map (fun x => (fst x, fst (snd x), snd (snd x))) (listed similarities).
Proof.
  unfold _create_similarity_dataframe, listed.
  induction similarities as [|[q l] d IH]; simpl; [reflexivity|].
  rewrite map_app, map_map, IH. reflexivity.
Qed.

(** The data frame of [match_comprehensive] has one row for every pair
    of a source label and a target label, the row holds the score of its
    pair, and the rows come in descending order of their scores. *)
Theorem similarity_dataframe_rows (la lb : list string) :
  let df := _create_similarity_dataframe
              (_calculate_similarities_listed_by_similarity ratio la lb) in
  Permutation (map (fun r => (row_entry_a r, row_entry_b r)) df) (list_prod la lb)
  /\ (forall r, In r df ->
        row_similarity r == ratio (row_entry_a r) (row_entry_b r))
  /\ descending (map row_similarity df).
Proof.
  cbv zeta. unfold _calculate_similarities_listed_by_similarity.
  rewrite pair_sources_push, dataframe_listed.
  destruct (ordered_table_spec (string * string)
              (fun p => ratio (fst p) (snd p)) (list_prod la lb))
    as (P & S & D & _).
  set (d := order_by_key _) in *. split; [|split].
  - rewrite map_map. rewrite <- P. apply Permutation_refl'.
    apply map_ext. intros [q [a b]]. reflexivity.
  - intros r Hr. apply in_map_iff in Hr. destruct Hr as ([q [a b]] & <- & Hin).
    simpl. symmetry. apply (S q (a, b) Hin).
  - rewrite map_map. simpl. exact D.
Qed.

Lemma sims_get (la lb : list string) (a : string) :
  NoDup la -> In a la ->
  Dict.get String.eqb a
    (_calculate_similarities_listed_by_list_for_matching_entry ratio la lb)
  = Some (order_by_key (group_targets ratio a lb [])).
Proof.
  intros Hnd Ha. unfold _calculate_similarities_listed_by_list_for_matching_entry.
  rewrite (group_sources_exact ratio la lb [] Hnd) by (intros x _ []). simpl.
  clear Hnd. induction la as [|x l IH]; [contradiction|]. simpl.
  destruct (String.eqb a x) eqn:E.
  - apply String.eqb_eq in E. now subst.
  - destruct Ha as [->|Ha]; [rewrite String.eqb_refl in E; discriminate|].
    now apply IH.
Qed.

(** The table that the manual-selection variant builds for a source
    label lists every target once, under the score of the label against
    it, by descending score; its keys are pairwise different scores. *)
Theorem similarities_by_entry_rows (la lb : list string) (a : string) :
  NoDup la -> In a la ->
  exists groups,
    Dict.get String.eqb a
      (_calculate_similarities_listed_by_list_for_matching_entry ratio la lb)
    = Some groups
    /\ Permutation (map snd (decreasing groups)) lb
    /\ (forall q b, In (q, b) (decreasing groups) -> q == ratio a b)
    /\ descending (Dict.keys groups) /\ apart (Dict.keys groups).
Proof.
  intros Hnd Ha. exists (order_by_key (group_targets ratio a lb [])).
  split; [now apply sims_get|].
  rewrite group_targets_push.
  destruct (ordered_table_spec string (fun b => ratio a b) lb)
    as (P & S & _ & A & D).
  split; [exact P|]. split; [|split; assumption].
  intros q b Hin. symmetry. apply (S q b Hin).
Qed.

End ScoreTables.

Lemma similarities_by_entry_rows_witness :
  exists groups,
    Dict.get String.eqb "Oranje"
      (_calculate_similarities_listed_by_list_for_matching_entry Difflib.ratio
         ["Oranje"; "seets"] ["sweets"; "Orange"])
    = Some groups
    /\ Permutation (map snd (decreasing groups)) ["sweets"; "Orange"]
    /\ (forall q b, In (q, b) (decreasing groups) -> q == Difflib.ratio "Oranje" b)
    /\ descending (Dict.keys groups) /\ apart (Dict.keys groups).
Proof.
  apply (similarities_by_entry_rows Difflib.ratio
           ["Oranje"; "seets"] ["sweets"; "Orange"] "Oranje").
  - apply has_duplicates_false. reflexivity.
  - simpl. auto.
Defined.

(** ** Global greedy matching gives the best pair to each other *)

Lemma df_step_commits_head (bounded : bool) (s : Q) (a b : string)
  (rest : list Row) (m : MatchDict) :
  a <> b ->
  (forall r, In r rest -> Qeq_bool s (row_similarity r) = false) ->
  exists df1,
    df_step bounded ((s, a, b) :: rest) m = Ok (df1, mset a (VStr b) m)
    /\ forall r, In r df1 -> row_entry_a r <> a.
Proof.
  intros Hab Hrest.
  assert (Hdrop : forall df r,
             In r (drop_entry_b b (drop_entry_a a df)) -> row_entry_a r <> a).
  { intros df r Hr. unfold drop_entry_b, drop_entry_a in Hr.
    apply filter_In in Hr. destruct Hr as [Hr _]. apply filter_In in Hr.
    destruct Hr as [_ Hr]. apply negb_true_iff, String.eqb_neq in Hr. exact Hr. }
  unfold df_step. cbv zeta.
  change (row_similarity (s, a, b)) with s.
  change (row_entry_a (s, a, b)) with a.
  change (row_entry_b (s, a, b)) with b.
  destruct rest as [|r1 rest'].
  - assert (Eab : String.eqb a b = false) by now apply String.eqb_neq.
    assert (Eba : String.eqb b a = false) by (rewrite String.eqb_sym; exact Eab).
    cbn [tied_indexes]. change (row_similarity (s, a, b)) with s.
    rewrite Qeq_bool_refl.
    cbn [tied_indexes collect_entries nth_error of_option bind app].
    change (row_entry_a (s, a, b)) with a.
    change (row_entry_b (s, a, b)) with b.
    unfold note_index. cbn [Dict.get Dict.set]. rewrite Eba.
    cbn [PyList.to_set filter]. rewrite Eab. cbn [negb filter].
    cbn [remove_first_occurrences PyList.remove]. rewrite !String.eqb_refl.
    cbn [bind remove_first_occurrences PyList.remove].
    rewrite String.eqb_refl.
    cbn [bind remove_first_occurrences mark_doubled last commit_indexes nth_error
         of_option].
    change (row_entry_a (s, a, b)) with a.
    change (row_entry_b (s, a, b)) with b.
    eexists. split; [reflexivity|]. apply Hdrop.
  - rewrite (Hrest r1 (or_introl eq_refl)). cbn [negb].
    eexists. split; [reflexivity|]. apply Hdrop.
Qed.

Section BestPair.

Variable ratio : string -> string -> Q.

Lemma df_loop_commits_head (bounded : bool) (s : Q) (a b : string)
  (rest : list Row) (m m' : MatchDict) :
  a <> b ->
  (forall r, In r rest -> Qeq_bool s (row_similarity r) = false) ->
  df_loop (df_loop_fuel ((s, a, b) :: rest)) bounded ((s, a, b) :: rest) 0 m = Ok m' ->
  mget a m' = Some (VStr b).
Proof.
  intros Hab Hrest H.
  destruct (df_step_commits_head bounded s a b rest m Hab Hrest) as (df1 & Hs & Hdf1).
  unfold df_loop_fuel in H. cbn [length df_loop Nat.eqb orb] in H.
  rewrite Hs in H. cbn [bind] in H.
  rewrite (df_loop_untouched ratio (fun _ => None) Qminus 0%Q bounded _ a df1 _ _ _ H Hdf1).
  apply mget_mset_same.
Qed.

(** The first row of a frame built from pairwise different pairs, one of
    which scores above all the others. *)
Lemma frame_head (vs : list (string * string)) (a b : string) :
  NoDup vs -> In (a, b) vs ->
  (forall p, In p vs -> p <> (a, b) ->
     (ratio (fst p) (snd p) < ratio a b)%Q) ->
  exists s rest,
    _create_similarity_dataframe
      (order_by_key
         (fold_left (fun d p => push (ratio (fst p) (snd p)) p d) vs []))
    = (s, a, b) :: rest
    /\ forall r, In r rest -> Qeq_bool s (row_similarity r) = false.
Proof.
  intros Hnd Hin Hbest. rewrite dataframe_listed.
  destruct (ordered_table_spec (string * string)
              (fun p => ratio (fst p) (snd p)) vs) as (P & S & D & _).
  set (d := order_by_key _) in *.
  assert (Hnd' : NoDup (map snd (listed d))).
  { apply (Permutation_NoDup (Permutation_sym P) Hnd). }
  assert (Hin' : In (a, b) (map snd (listed d))).
  { apply (Permutation_in _ (Permutation_sym P) Hin). }
  assert (Hvs : forall q p, In (q, p) (listed d) -> In p vs).
  { intros q p Hqp. apply (Permutation_in _ P).
    apply in_map_iff. exists (q, p). auto. }
  destruct (listed d) as [|[s0 p0] l] eqn:El; [contradiction|].
  simpl in D, Hnd', Hin'. destruct D as [D _].
  inversion Hnd' as [|? ? Hp0 Hl]; subst.
  assert (Hs0 : ratio (fst p0) (snd p0) == s0) by (apply S; now left).
  assert (Hp : p0 = (a, b)).
  { destruct Hin' as [Hp|Hin']; [assumption|]. exfalso.
    apply in_map_iff in Hin'. destruct Hin' as ([q p] & Ep & Hq).
    simpl in Ep. subst p.
    assert (Hq' : ratio a b == q) by (apply (S q (a, b)); now right).
    assert (Hle : (q <= s0)%Q).
    { apply D. apply in_map_iff. exists (q, (a, b)). auto. }
    assert (Hlt : (ratio (fst p0) (snd p0) < ratio a b)%Q).
    { apply Hbest; [apply (Hvs s0); now left|].
      intros ->. apply Hp0. apply in_map_iff. exists (q, (a, b)). auto. }
    rewrite Hs0, Hq' in Hlt. apply (Qlt_not_le _ _ Hlt Hle). }
  subst p0. simpl in Hs0.
  exists s0, (map (fun x => (fst x, fst (snd x), snd (snd x))) l).
  split; [reflexivity|].
  intros r Hr. apply in_map_iff in Hr. destruct Hr as ([q p] & <- & Hq).
  unfold row_similarity. simpl.
  destruct (Qeq_bool s0 q) eqn:E; [|reflexivity]. exfalso.
  apply Qeq_bool_iff in E.
  assert (Hq' : ratio (fst p) (snd p) == q) by (apply (S q p); now right).
  assert (Hlt : (ratio (fst p) (snd p) < ratio a b)%Q).
  { apply Hbest; [apply (Hvs q); now right|].
    intros ->. apply Hp0. apply in_map_iff. exists (q, (a, b)). auto. }
  rewrite Hq', Hs0, E in Hlt. apply (Qlt_irrefl _ Hlt).
Qed.

Lemma list_prod_NoDup (la lb : list string) :
  NoDup la -> NoDup lb -> NoDup (list_prod la lb).
Proof.
  intros Hla Hlb. induction Hla as [|a l Ha Hl IH]; simpl; [constructor|].
  apply NoDup_app.
  - clear - Hlb. induction Hlb as [|y l' Hy Hl' IH']; simpl; constructor;
      [|assumption].
    intros Hin. apply in_map_iff in Hin. destruct Hin as (x & E & Hx).
    injection E as <-. contradiction.
  - assumption.
  - intros p Hp Hq. apply in_map_iff in Hp. destruct Hp as (x & <- & _).
    apply in_prod_iff in Hq. tauto.
Qed.

(** In [match_comprehensive] without normalisation, when one pair of a
    source label and a target label left after the direct matches scores
    strictly above every other such pair, the call, when it returns, has
    matched the two to each other. *)
Theorem match_comprehensive_matches_best_pair
  (la lb : list string) (out : Outcome) (a b : string) :
  match_comprehensive ratio la lb SimplifierOff = Ok out ->
  In a la -> ~ In a lb -> In b lb -> ~ In b la ->
  (forall a' b', In a' la -> ~ In a' lb -> In b' lb -> ~ In b' la ->
     (a', b') <> (a, b) -> (ratio a' b' < ratio a b)%Q) ->
  mget a (matched out) = Some (VStr b).
Proof.
  intros H Ha Hna Hb Hnb Hbest.
  unfold match_comprehensive in H.
  inv_bind H as u1 Hu1. inv_bind H as u2 Hu2.
  apply uniqueness_checked in Hu1. apply uniqueness_checked in Hu2.
  cbn [simplify_both bind] in H.
  inv_bind H as [[m0 la0] lb0] Hd. inv_bind H as m1 Hg.
  cbn [translate_back] in H. inv_ok. cbn [matched].
  unfold _find_direct_matches in Hd.
  destruct (direct_matches_spec _ _ _ _ _ Hd Hu1 Hu2) as (N1 & N2 & A & B & C).
  unfold _calculate_similarities_listed_by_similarity in Hg.
  rewrite pair_sources_push in Hg.
  destruct (frame_head (list_prod la0 lb0) a b) as (s & rest & Hdf & Hrest).
  - now apply list_prod_NoDup.
  - apply in_prod_iff. rewrite A, B. tauto.
  - intros [a' b'] Hp Hne. apply in_prod_iff in Hp. rewrite A, B in Hp.
    simpl. apply Hbest; tauto.
  - rewrite Hdf in Hg.
    apply (df_loop_commits_head true s a b rest m0 m1); [congruence | assumption | exact Hg].
Qed.

Lemma frame_rows_dataframe (all : PairDict) :
  frame_rows all = _create_similarity_dataframe (order_by_key all).
Proof.
  unfold frame_rows, _create_similarity_dataframe, order_by_key.
  induction (sort_desc (Dict.keys all)) as [|k ks IH]; simpl; [reflexivity|].
  rewrite flat_map_app, <- IH. f_equal.
  unfold pget. destruct (Dict.get Qeq_bool k all) as [pairs|]; simpl;
    [now rewrite app_nil_r | reflexivity].
Qed.

Lemma score_targets_push (limit : Q) (entry_a : string) (lb : list string) :
  forall entry all,
    snd (score_targets ratio limit true entry_a lb (entry, all))
    = fold_left (fun d p => push (ratio (fst p) (snd p)) p d)
        (filter (fun p => Qgtb (ratio (fst p) (snd p)) limit)
           (map (pair entry_a) lb)) all.
Proof.
  induction lb as [|b rest IH]; intros entry all; simpl; [reflexivity|].
  destruct (Qgtb (ratio entry_a b) limit); [|apply IH].
  rewrite IH. simpl. f_equal.
  apply (push_code (string * string) (ratio entry_a b) (entry_a, b) all).
Qed.

Lemma score_sources_push (limit : Q) (la lb : list string) :
  forall t,
    all_similarities (score_sources ratio limit true la lb t)
    = fold_left (fun d p => push (ratio (fst p) (snd p)) p d)
        (filter (fun p => Qgtb (ratio (fst p) (snd p)) limit) (list_prod la lb))
        (all_similarities t).
Proof.
  induction la as [|a rest IH]; intros t; simpl; [reflexivity|].
  set (st := score_targets ratio limit true a lb ([], all_similarities t)).
  assert (Hs : snd st
               = fold_left (fun d p => push (ratio (fst p) (snd p)) p d)
                   (filter (fun p => Qgtb (ratio (fst p) (snd p)) limit)
                      (map (pair a) lb)) (all_similarities t))
    by apply score_targets_push.
  clearbody st. destruct st as [entry all]. simpl in Hs. subst all.
  rewrite IH, filter_app, fold_left_app. reflexivity.
Qed.

(** In [match_similar] with the comprehensive check and without
    normalisation, when one pair of a source label and a target label
    left after the direct matches scores above the floor and strictly
    above every other such pair, the call, when it returns, has matched
    the two to each other. *)
Theorem match_similar_matches_best_pair
  (py_int : string -> option Z) (window_width : nat)
  (list_str_len : list string -> nat) (py_sub : Q -> Q -> Q)
  (la lb : list string) (single : bool) (distance limit : Q)
  (stdin : list string) (out : Outcome) (a b : string) :
  match_similar ratio py_int window_width list_str_len py_sub la lb SimplifyOff
    true single true distance limit stdin = Ok out ->
  In a la -> ~ In a lb -> In b lb -> ~ In b la ->
  (limit < ratio a b)%Q ->
  (forall a' b', In a' la -> ~ In a' lb -> In b' lb -> ~ In b' la ->
     (a', b') <> (a, b) -> (ratio a' b' < ratio a b)%Q) ->
  mget a (matched out) = Some (VStr b).
Proof.
  intros H Ha Hna Hb Hnb Hfloor Hbest. apply match_similar_off_inv in H.
  destruct H as (Hla & Hlb & m0 & la0 & lb0 & Hd & Hr).
  destruct (direct_matches_spec _ _ _ _ _ Hd Hla Hlb) as (N1 & N2 & A & B & C).
  destruct Hr as [m la' lb' _ He Hg -> | m _ _ df Hg -> | m nm stdin' Ha' Hg ->];
    try discriminate.
  cbn [matched]. subst df.
  rewrite frame_rows_dataframe, score_sources_push in Hg. cbn [all_similarities] in Hg.
  destruct (frame_head
              (filter (fun p => Qgtb (ratio (fst p) (snd p)) limit)
                 (list_prod la0 lb0)) a b) as (s & rest & Hdf & Hrest).
  - apply NoDup_filter. now apply list_prod_NoDup.
  - apply filter_In. split; [apply in_prod_iff; rewrite A, B; tauto|].
    simpl. now apply Qgtb_lt.
  - intros [a' b'] Hp Hne. apply filter_In in Hp. destruct Hp as [Hp _].
    apply in_prod_iff in Hp. rewrite A, B in Hp. simpl. apply Hbest; tauto.
  - rewrite Hdf in Hg.
    apply (df_loop_commits_head false s a b rest m0 m); [congruence | assumption | exact Hg].
Qed.

End BestPair.

Lemma match_comprehensive_matches_best_pair_witness :
  exists out,
    run_match_comprehensive ["Oranje"; "Apple"] ["Apple"; "sweets"; "Orange"]
      SimplifierOff = Ok out
    /\ mget "Oranje" (matched out) = Some (VStr "Orange").
Proof.
  eexists. split; [vm_compute; reflexivity|].
  apply (match_comprehensive_matches_best_pair py_ratio
           ["Oranje"; "Apple"] ["Apple"; "sweets"; "Orange"] _ "Oranje" "Orange").
  - vm_compute. reflexivity.
  - simpl. auto.
  - simpl. intros [H|[H|[H|[]]]]; discriminate.
  - simpl. auto.
  - simpl. intros [H|[H|[]]]; discriminate.
  - intros a' b' [<-|[<-|[]]] Ha' [<-|[<-|[<-|[]]]] Hb' Hne;
      try (exfalso; apply Ha'; simpl; tauto);
      try (exfalso; apply Hb'; simpl; tauto);
      try congruence; vm_compute; reflexivity.
Defined.

Lemma match_similar_matches_best_pair_witness :
  exists out,
    run_match_similar ["Oranje"; "Apple"] ["Apple"; "sweets"; "Orange"]
      SimplifyOff true true true (1#10) (6#10) [] = Ok out
    /\ mget "Oranje" (matched out) = Some (VStr "Orange").
Proof.
  eexists. split; [vm_compute; reflexivity|].
  apply (match_similar_matches_best_pair py_ratio int_of_decimal 200
           plain_list_str_len PyFloat.sub
           ["Oranje"; "Apple"] ["Apple"; "sweets"; "Orange"] true (PyFloat.of_Q (1#10)) (PyFloat.of_Q (6#10)) []
           _ "Oranje" "Orange").
  - vm_compute. reflexivity.
  - simpl. auto.
  - simpl. intros [H|[H|[H|[]]]]; discriminate.
  - simpl. auto.
  - simpl. intros [H|[H|[]]]; discriminate.
  - vm_compute. reflexivity.
  - intros a' b' [<-|[<-|[]]] Ha' [<-|[<-|[<-|[]]]] Hb' Hne;
      try (exfalso; apply Ha'; simpl; tauto);
      try (exfalso; apply Hb'; simpl; tauto);
      try congruence; vm_compute; reflexivity.
Defined.

(** ** The two versions of [match_similar] *)

Section TwoVersions.

Variable ratio : string -> string -> Q.
Variable py_int : string -> option Z.
Variable window_width : nat.
Variable list_str_len : list string -> nat.
Variable py_sub : Q -> Q -> Q.

Lemma ay_score_targets_entry (limit : Q) (enforce : bool) (entry_a : string)
  (lb : list string) :
  forall entry reverse all,
    fst (Aybasics.score_targets ratio limit entry_a lb (entry, reverse))
    = fst (score_targets ratio limit enforce entry_a lb (entry, all)).
Proof.
  induction lb as [|b rest IH]; intros entry reverse all; simpl; [reflexivity|].
  unfold Aybasics.similar. destruct (Qgtb (ratio entry_a b) limit); apply IH.
Qed.

Lemma ay_score_sources_read (limit : Q) (enforce : bool) (la lb : list string) :
  forall t t',
    Aybasics.most_similar t = most_similar t' ->
    Aybasics.ordered_most_similar t = ordered_most_similar t' ->
    Aybasics.most_similar (Aybasics.score_sources ratio limit la lb t)
    = most_similar (score_sources ratio limit enforce la lb t')
    /\ Aybasics.ordered_most_similar (Aybasics.score_sources ratio limit la lb t)
       = ordered_most_similar (score_sources ratio limit enforce la lb t').
Proof.
  induction la as [|a rest IH]; intros t t' Hm Ho; simpl; [auto|].
  set (s1 := Aybasics.score_targets ratio limit a lb
                ([], Aybasics.most_similar_reverse t)).
  set (s2 := score_targets ratio limit enforce a lb ([], all_similarities t')).
  assert (He : fst s1 = fst s2) by apply ay_score_targets_entry.
  clearbody s1 s2. destruct s1 as [e1 reverse], s2 as [e2 all].
  simpl in He. subst e2. apply IH; simpl; congruence.
Qed.

(** The matching loops read two of the three tables. *)
Lemma greedy_loop_reads (t t' : Tables) (copy : list string) :
  most_similar t = most_similar t' ->
  ordered_most_similar t = ordered_most_similar t' ->
  forall st, greedy_loop t copy st = greedy_loop t' copy st.
Proof.
  intros Hm Ho. induction copy as [|a rest IH]; intros st; simpl; [reflexivity|].
  assert (E : greedy_step t a st = greedy_step t' a st).
  { unfold greedy_step. destruct st as [[m la] lb]. now rewrite Hm, Ho. }
  rewrite E. destruct (greedy_step t' a st); simpl; [apply IH | reflexivity].
Qed.

Lemma interactive_loop_reads (t t' : Tables) (distance : Q) (la : list string) :
  most_similar t = most_similar t' ->
  ordered_most_similar t = ordered_most_similar t' ->
  forall st,
    interactive_loop py_int window_width list_str_len py_sub t distance la st
    = interactive_loop py_int window_width list_str_len py_sub t' distance la st.
Proof.
  intros Hm Ho. induction la as [|a rest IH]; intros st; simpl; [reflexivity|].
  assert (E : interactive_step py_int window_width list_str_len py_sub t distance a st
              = interactive_step py_int window_width list_str_len py_sub t' distance a st).
  { unfold interactive_step. destruct st as [[m nm] stdin]. now rewrite Hm, Ho. }
  rewrite E.
  destruct (interactive_step py_int window_width list_str_len py_sub t' distance a st);
    simpl; [apply IH | reflexivity].
Qed.

(** [aybasics.matching.match_similar] and [datesy.matching.match_similar]
    without the comprehensive check behave alike on every input: they
    return the same mapping and the same unmatched labels, leave the
    caller's lists in the same state, read the same answers and raise the
    same exceptions. *)
Theorem match_similar_versions_agree
  (la lb : list string) (simplify_with : SimplifyWith) (auto single : bool)
  (distance limit : Q) (stdin : list string) :
  Aybasics.match_similar ratio py_int window_width list_str_len py_sub
    la lb simplify_with auto single distance limit stdin
  = match_similar ratio py_int window_width list_str_len py_sub
      la lb simplify_with auto single false distance limit stdin.
Proof.
  unfold Aybasics.match_similar, match_similar.
  destruct (PyList.has_duplicates la); [reflexivity|].
  destruct (negb single); [reflexivity|].
  destruct (PyList.has_duplicates lb); [reflexivity|].
  destruct (simplify_lists simplify_with la lb) as [[[d1 d2] la1] lb1].
  destruct (direct_loop la1 ([], la1, lb1)) as [[[m0 la0] lb0]|e]; [|reflexivity].
  cbn [bind].
  destruct (ay_score_sources_read limit false la0 lb0
              (Aybasics.mkScores [] [] [] []) (mkTables [] [] [])
              eq_refl eq_refl) as [Hm Ho].
  set (t := Aybasics.tables_read _).
  set (t' := score_sources ratio limit false la0 lb0 (mkTables [] [] [])) in *.
  assert (Hm' : most_similar t = most_similar t') by exact Hm.
  assert (Ho' : ordered_most_similar t = ordered_most_similar t') by exact Ho.
  destruct auto; cbn [negb].
  - now rewrite (greedy_loop_reads t t' la0 Hm' Ho').
  - now rewrite (interactive_loop_reads t t' distance la0 Hm' Ho').
Qed.

End TwoVersions.

(** ** Normalisation makes direct matches *)

Lemma mset_keys_NoDup (k : string) (v : MatchValue) (m : MatchDict) :
  NoDup (mkeys m) -> NoDup (mkeys (mset k v m)).
Proof.
  unfold mkeys, mset, Dict.keys. induction m as [|[k0 v0] m IH]; simpl; intros H.
  - repeat constructor. intros [].
  - inversion H as [|? ? Hk Hm]; subst. destruct (String.eqb k k0) eqn:E; simpl.
    + apply String.eqb_eq in E. subst. now constructor.
    + constructor; [|now apply IH].
      intros Hin. apply Hk.
      assert (G : forall m0 : MatchDict,
                 In k0 (map fst (Dict.set String.eqb k v m0)) ->
                 k0 = k \/ In k0 (map fst m0)).
      { clear. induction m0 as [|[k1 v1] m0 IH]; simpl.
        - intros [<-|[]]. now left.
        - destruct (String.eqb k k1); simpl.
          + intros [<-|H]; auto.
          + intros [<-|H]; [auto|]. destruct (IH H); auto. }
      destruct (G m Hin) as [->|Hin']; [|assumption].
      rewrite String.eqb_refl in E. discriminate.
Qed.

Lemma mget_of_In (k : string) (v : MatchValue) (m : MatchDict) :
  NoDup (mkeys m) -> In (k, v) m -> mget k m = Some v.
Proof.
  unfold mkeys, mget, Dict.keys. induction m as [|[k0 v0] m IH]; simpl; intros H;
    [intros []|].
  inversion H as [|? ? Hk Hm]; subst. intros [Hin|Hin].
  - injection Hin as -> ->. now rewrite String.eqb_refl.
  - destruct (String.eqb k k0) eqn:E; [|now apply IH].
    apply String.eqb_eq in E. subst. exfalso. apply Hk.
    apply in_map_iff. exists (k0, v). auto.
Qed.

Lemma df_loop_keys_NoDup (bounded : bool) (fuel : nat) (df : list Row)
  (old_length : nat) (m m' : MatchDict) :
  df_loop fuel bounded df old_length m = Ok m' ->
  NoDup (mkeys m) -> NoDup (mkeys m').
Proof.
  intros H Hm.
  enough (Hex : exists df' : list Row, NoDup (mkeys m'))
    by (destruct Hex as (_ & Hm'); exact Hm').
  eapply (df_loop_inv (fun _ m0 => NoDup (mkeys m0))); [ | | | exact H | exact Hm ].
  - intros f d m0 H0. exact H0.
  - intros d m0 r Hr H0. now apply mset_keys_NoDup.
  - intros d m0 r l Hr H0. now apply mset_keys_NoDup.
Qed.

Lemma manual_loop_keys_NoDup (py_int : string -> option Z) (window_width : nat)
  (py_sub : Q -> Q -> Q)
  (distance : Q) (entries : list string) :
  forall sims m stdin sims' m' stdin',
    manual_loop py_int window_width py_sub distance entries (sims, m, stdin)
    = Ok (sims', m', stdin') ->
    NoDup (mkeys m) -> NoDup (mkeys m').
Proof.
  induction entries as [|e rest IH]; simpl; intros sims m stdin sims' m' stdin' H Hm.
  - inv_ok. assumption.
  - inv_bind H as [[sims1 m1] stdin1] Hs. apply (IH _ _ _ _ _ _ H).
    destruct (manual_step_spec py_int window_width py_sub _ _ _ _ _ _ _ _ Hs)
      as [->|(v & ->)]; [assumption | now apply mset_keys_NoDup].
Qed.

(** The entry that the translation writes for a key: the last item whose
    key translates to it. *)
Lemma translate_match_get (d1 d2 : LabelDict) (A : string) (b B : string)
  (items : MatchDict) :
  lget b d2 = Some B ->
  (forall k v, In (k, v) items -> lget k d1 = Some A -> v = VStr b) ->
  forall acc m2,
    translate_match d1 d2 items acc = Ok m2 ->
    mget A acc = Some (VStr B)
    \/ (exists k v, In (k, v) items /\ lget k d1 = Some A) ->
    mget A m2 = Some (VStr B).
Proof.
  intros Hb. induction items as [|[key value] rest IH]; simpl;
    intros Hitems acc m2 H Hor.
  - inv_ok. destruct Hor as [Hacc|(k & v & [] & _)]. assumption.
  - inv_bind H as key' Hk. inv_bind H as value' Hv.
    apply (IH (fun k v Hin => Hitems k v (or_intror Hin)) _ _ H).
    destruct (lget key d1) as [key0|] eqn:Ekey; simpl in Hk; inv_ok.
    rewrite mget_mset. destruct (String.eqb A key') eqn:E.
    + apply String.eqb_eq in E. subst key'. left.
      assert (Hval : value = VStr b) by (apply (Hitems key value); auto).
      subst value. rewrite Hb in Hv. simpl in Hv. inv_ok. reflexivity.
    + destruct Hor as [Hacc|(k & v & [Hin|Hin] & Hl)].
      * now left.
      * injection Hin as <- <-. rewrite Ekey in Hl. injection Hl as <-.
        rewrite String.eqb_refl in E. discriminate.
      * right. eauto.
Qed.

Lemma lget_pairs (form : string -> string) (labels : list string) (x : string) :
  NoDup (map form labels) -> In x labels ->
  lget (form x) (map (fun y => (form y, y)) labels) = Some x.
Proof.
  unfold lget. induction labels as [|y l IH]; simpl; intros Hnd Hin; [contradiction|].
  inversion Hnd as [|? ? Hy Hl]; subst.
  destruct (String.eqb (form x) (form y)) eqn:E.
  - destruct Hin as [->|Hin]; [reflexivity|]. exfalso. apply Hy.
    apply String.eqb_eq in E. rewrite <- E. now apply in_map.
  - destruct Hin as [->|Hin]; [rewrite String.eqb_refl in E; discriminate|].
    now apply IH.
Qed.

Lemma simplify_both_returns (simplified : Simplifier) (la lb : list string)
  (d1 d2 : LabelDict) (la' lb' : list string) :
  simplified <> SimplifierOff ->
  simplify_both simplified la lb = Ok (d1, d2, la', lb') ->
  NoDup (map (simplified_form true simplified) la)
  /\ NoDup (map (simplified_form true simplified) lb)
  /\ d1 = map (fun x => (simplified_form true simplified x, x)) la
  /\ d2 = map (fun x => (simplified_form true simplified x, x)) lb
  /\ la' = map (simplified_form true simplified) la
  /\ lb' = map (simplified_form true simplified) lb.
Proof.
  intros Hs H. unfold simplify_both in H.
  assert (G : forall l, lkeys (map (fun x => (simplified_form true simplified x, x)) l)
                        = map (simplified_form true simplified) l).
  { intros l. unfold lkeys, Dict.keys. now rewrite map_map. }
  destruct simplified; [congruence| |];
    (inv_bind H as da Ha; inv_bind H as u1 Hu1; inv_bind H as db Hb;
     inv_bind H as u2 Hu2; inv_ok;
     apply simplify_strings_with_policy in Ha; [|now left];
     apply simplify_strings_with_policy in Hb; [|now left];
     destruct Ha as [Na ->], Hb as [Nb ->]; rewrite !G; auto 10).
Qed.

Section NormalisedDirect.

Variable ratio : string -> string -> Q.
Variable py_int : string -> option Z.
Variable window_width : nat.
Variable py_sub : Q -> Q -> Q.

(** What the two functions that normalise with [simplify_strings] return:
    the mapping [m1] made on the simplified labels, translated back. *)
Lemma normalised_call_inv (c : Call) (la lb stdin : list string) (out : Outcome)
  (simplified : Simplifier) :
  (c = MatchComprehensive simplified
   \/ exists distance limit,
        c = MatchSimilarWithManualSelection simplified distance limit) ->
  simplified <> SimplifierOff ->
  forall list_str_len,
  call ratio py_int window_width list_str_len py_sub c la lb stdin = Ok out ->
  exists m0 la0 lb0 m1 nm1 stdin1,
    direct_loop (map (simplified_form true simplified) la)
      ([], map (simplified_form true simplified) la,
       map (simplified_form true simplified) lb) = Ok (m0, la0, lb0)
    /\ NoDup (map (simplified_form true simplified) la)
    /\ NoDup (map (simplified_form true simplified) lb)
    /\ NoDup (mkeys m1)
    /\ (forall x, ~ In x la0 -> mget x m1 = mget x m0)
    /\ translate_back simplified
         (map (fun x => (simplified_form true simplified x, x)) la)
         (map (fun x => (simplified_form true simplified x, x)) lb)
         la lb m1 nm1 la0 lb0 stdin1 = Ok out.
Proof.
  intros Hc Hs list_str_len H.
  assert (Hm0 : forall la' lb' m0 la0 lb0,
             NoDup la' -> NoDup lb' ->
             direct_loop la' ([], la', lb') = Ok (m0, la0, lb0) ->
             NoDup (mkeys m0)).
  { intros la' lb' m0 la0 lb0 N1 N2 Hd.
    pose proof (direct_loop_exact la' [] la' lb' N1 N1 N2 (fun x H => H)) as Hex.
    pose proof (eq_trans (eq_sym Hd) Hex) as Heq. injection Heq as Hm _ _.
    rewrite Hm.
    rewrite fold_mset_fresh by (first [now apply NoDup_filter | intros x _ []]).
    simpl. unfold mkeys, Dict.keys. rewrite map_map. simpl. rewrite map_id.
    now apply NoDup_filter. }
  destruct Hc as [->|(distance & limit & ->)]; simpl in H.
  - unfold match_comprehensive in H.
    inv_bind H as u1 Hu1. inv_bind H as u2 Hu2.
    inv_bind H as [[[d1 d2] la'] lb'] Hsb.
    destruct (simplify_both_returns _ _ _ _ _ _ _ Hs Hsb)
      as (Na & Nb & -> & -> & -> & ->).
    inv_bind H as [[m0 la0] lb0] Hd. inv_bind H as m1 Hg.
    unfold _find_direct_matches in Hd.
    exists m0, la0, lb0, m1, (difference la0 m1), [].
    split; [assumption|]. split; [assumption|]. split; [assumption|].
    split; [|split; [|assumption]].
    + eapply df_loop_keys_NoDup; eauto.
    + intros x Hx. eapply (df_loop_untouched ratio py_int); eauto.
      intros r Hr Heq. apply Hx. rewrite <- Heq.
      eapply comprehensive_rows_In; exact Hr.
  - unfold match_similar_with_manual_selection in H.
    inv_bind H as u1 Hu1. inv_bind H as u2 Hu2.
    inv_bind H as [[[d1 d2] la'] lb'] Hsb.
    destruct (simplify_both_returns _ _ _ _ _ _ _ Hs Hsb)
      as (Na & Nb & -> & -> & -> & ->).
    inv_bind H as [[m0 la0] lb0] Hd. inv_bind H as [[sims m1] stdin1] Hg.
    unfold _find_direct_matches in Hd.
    exists m0, la0, lb0, m1, (difference la0 m1), stdin1.
    split; [assumption|]. split; [assumption|]. split; [assumption|].
    split; [|split; [|assumption]].
    + eapply manual_loop_keys_NoDup; eauto.
    + destruct (manual_loop_spec ratio py_int window_width list_str_len py_sub
                  _ _ _ _ _ _ _ _ Hg) as [_ K2].
      intros x Hx. apply K2. intros Hin. apply Hx.
      unfold _calculate_similarities_listed_by_list_for_matching_entry in Hin.
      apply group_sources_keys in Hin. destruct Hin as [[]|Hin]. exact Hin.
Qed.

(** When [match_comprehensive] or the manual-selection variant is called
    with a normalisation and returns, a source label and a target label
    that have the same simplified form are matched to each other. *)
Theorem normalised_labels_match_directly (c : Call) (simplified : Simplifier)
  (list_str_len : list string -> nat)
  (la lb stdin : list string) (out : Outcome) (a b : string) :
  (c = MatchComprehensive simplified
   \/ exists distance limit,
        c = MatchSimilarWithManualSelection simplified distance limit) ->
  simplified <> SimplifierOff ->
  call ratio py_int window_width list_str_len py_sub c la lb stdin = Ok out ->
  In a la -> In b lb ->
  simplified_form true simplified a = simplified_form true simplified b ->
  mget a (matched out) = Some (VStr b).
Proof.
  intros Hc Hs H Ha Hb Hab.
  destruct (normalised_call_inv c la lb stdin out simplified Hc Hs list_str_len H)
    as (m0 & la0 & lb0 & m1 & nm1 & stdin1 & Hd & Na & Nb & Nm & Hkeep & Ht).
  set (form := simplified_form true simplified) in *.
  destruct (direct_matches_spec _ _ _ _ _ Hd Na Nb) as (N1 & N2 & A & B & C).
  assert (Hfa : In (form a) (map form la)) by now apply in_map.
  assert (Hfb : In (form a) (map form lb)) by (rewrite Hab; now apply in_map).
  assert (H0 : mget (form a) m0 = Some (VStr (form a))) by (apply C; auto).
  assert (H1 : mget (form a) m1 = Some (VStr (form a))).
  { rewrite Hkeep; [assumption|]. rewrite A. tauto. }
  unfold translate_back in Ht.
  assert (Ht' : exists m2 nm2,
             translate_match (map (fun x => (form x, x)) la)
               (map (fun x => (form x, x)) lb) m1 [] = Ok m2
             /\ out = mkOutcome m2 nm2 la lb stdin1).
  { destruct simplified; [congruence| |];
      (inv_bind Ht as m2 H2; inv_bind Ht as nm2 H3; inv_ok; eauto). }
  destruct Ht' as (m2 & nm2 & H2 & ->). cbn [matched].
  eapply (translate_match_get (map (fun x => (form x, x)) la)
            (map (fun x => (form x, x)) lb) a (form a) b m1);
    [ | | exact H2 | ].
  - rewrite Hab. now apply lget_pairs.
  - intros k v Hin Hk.
    assert (Ek : k = form a).
    { clear - Hk. unfold lget in Hk. induction la as [|y l IH]; simpl in Hk;
        [discriminate|].
      destruct (String.eqb k (form y)) eqn:E.
      - injection Hk as ->. now apply String.eqb_eq in E.
      - now apply IH. }
    subst k. pose proof (mget_of_In _ _ _ Nm Hin) as Hv. congruence.
  - right. exists (form a), (VStr (form a)). split.
    + now apply mget_In.
    + now apply lget_pairs.
Qed.

End NormalisedDirect.

Lemma normalised_labels_match_directly_witness :
  exists out,
    run_call (MatchComprehensive SimplifierStandard)
      ["New_York"; "Oslo"] ["new york"; "Rome"] [] = Ok out
    /\ mget "New_York" (matched out) = Some (VStr "new york").
Proof.
  eexists. split; [vm_compute; reflexivity|].
  apply (normalised_labels_match_directly py_ratio int_of_decimal 200 PyFloat.sub
           (MatchComprehensive SimplifierStandard) SimplifierStandard
           plain_list_str_len ["New_York"; "Oslo"] ["new york"; "Rome"] []).
  - left. reflexivity.
  - discriminate.
  - vm_compute. reflexivity.
  - simpl. auto.
  - simpl. auto.
  - reflexivity.
Defined.

(** ** The recorded targets are targets *)

Lemma within_mset (targets : list string) (m : MatchDict) (a : string)
  (v : MatchValue) :
  within_targets targets m ->
  (forall b, In b (members v) -> In b targets) ->
  within_targets targets (mset a v m).
Proof.
  intros Hm Hv a' v' b. rewrite mget_mset.
  destruct (String.eqb a' a); [|apply Hm].
  intros H. injection H as <-. apply Hv.
Qed.

Lemma greedy_loop_within (targets : list string) (t : Tables) (copy : list string) :
  forall m la lb m' la' lb',
    greedy_loop t copy (m, la, lb) = Ok (m', la', lb') ->
    NoDup la -> NoDup lb -> incl lb targets ->
    within_targets targets m -> within_targets targets m'.
Proof.
  induction copy as [|e rest IH]; simpl; intros m la lb m' la' lb' H Hla Hlb Hin Hm.
  - inv_ok. assumption.
  - inv_bind H as [[m1 la1] lb1] Hs.
    destruct (greedy_step_shrinks _ _ _ _ _ _ _ _ Hs Hla Hlb) as [S1 S2].
    assert (Hnd : NoDup la1 /\ NoDup lb1 /\ within_targets targets m1).
    { unfold greedy_step in Hs.
      inv_bind Hs as entry He. inv_bind Hs as ordered Ho.
      destruct ordered as [|top ordered]; [inv_ok; auto|].
      inv_bind Hs as best Hb. inv_bind Hs as l1 H1. inv_bind Hs as l2 H2. inv_ok.
      destruct (py_remove_NoDup _ _ _ H1 Hla) as [N1 _].
      split; [assumption|]. split.
      - destruct best as [b0|l].
        + apply (py_remove_NoDup _ _ _ H2 Hlb).
        + apply (remove_each_spec _ _ _ H2 Hlb).
      - apply within_mset; [assumption|]. intros b Hb'. apply Hin.
        destruct best as [b0|l]; simpl in Hb'.
        + destruct Hb' as [<-|[]]. destruct (py_remove_In _ _ _ H2) as [K _]. exact K.
        + eapply remove_each_In; eauto. }
    destruct Hnd as (N1 & N2 & Hm1).
    apply (IH _ _ _ _ _ _ H N1 N2); [|assumption].
    intros x Hx. apply Hin, S2, Hx.
Qed.

Lemma commit_indexes_within (targets : list string) (indexes : list nat) :
  forall df m df' m',
    commit_indexes indexes (df, m) = Ok (df', m') ->
    (forall r, In r df -> In (row_entry_b r) targets) ->
    within_targets targets m ->
    (forall r, In r df' -> In (row_entry_b r) targets)
    /\ within_targets targets m'.
Proof.
  induction indexes as [|index rest IH]; simpl; intros df m df' m' H Hdf Hm.
  - inv_ok. auto.
  - inv_bind H as r Hr.
    destruct (nth_error df index) eqn:E; simpl in Hr; inv_ok.
    apply nth_error_In in E. apply (IH _ _ _ _ H).
    + intros r' Hr'. apply Hdf. eapply drop_incl; eauto.
    + apply within_mset; [assumption|]. intros b [<-|[]]. now apply Hdf.
Qed.

Lemma df_step_within (targets : list string) (bounded : bool) (df : list Row)
  (m : MatchDict) (df' : list Row) (m' : MatchDict) :
  df_step bounded df m = Ok (df', m') ->
  (forall r, In r df -> In (row_entry_b r) targets) ->
  within_targets targets m ->
  (forall r, In r df' -> In (row_entry_b r) targets)
  /\ within_targets targets m'.
Proof.
  unfold df_step. destruct df as [|r0 rest]; [discriminate|].
  intros H Hdf Hm. cbv zeta in H.
  assert (Hdrop : forall a b r,
             In r (drop_entry_b b (drop_entry_a a (r0 :: rest))) ->
             In (row_entry_b r) targets).
  { intros a b r Hr. apply Hdf. eapply drop_incl; eauto. }
  destruct (match rest with
            | [] => false
            | r1 :: _ => negb (Qeq_bool (row_similarity r0) (row_similarity r1))
            end).
  - assert (Edf : drop_entry_b (row_entry_b r0)
                    (drop_entry_a (row_entry_a r0)
                       (drop_similarity (row_similarity r0) (r0 :: rest))) = df')
      by congruence.
    assert (Em : mset (row_entry_a r0) (VStr (row_entry_b r0)) m = m')
      by congruence.
    clear H. subst df' m'. split.
    + intros r Hr. rewrite drop_similarity_comm in Hr.
      unfold drop_similarity in Hr. apply filter_In in Hr. destruct Hr as [Hr _].
      eapply Hdrop; exact Hr.
    + apply within_mset; [assumption|]. intros b [<-|[]]. apply Hdf. now left.
  - inv_bind H as [all_entries all_entries_with_index] Hc.
    inv_bind H as doubled_entries Hd.
    inv_bind H as [indexes' index] Hmk.
    destruct indexes' as [|i indexes'].
    + set (mm := flat_map (targets_of (if bounded then Some index else None)
                             (r0 :: rest)) doubled_entries) in *.
      assert (Edf : drop_entry_b (row_entry_b r0)
                      (drop_entry_a (row_entry_a r0) (r0 :: rest)) = df')
        by congruence.
      assert (Em : match mm with
                   | [] => m
                   | _ :: _ => mset (row_entry_a r0) (VList mm) m
                   end = m') by congruence.
      clear H. subst df' m'. split; [apply Hdrop|].
      assert (Hmm : forall b, In b mm -> In b targets).
      { intros b Hb. unfold mm in Hb.
        apply in_flat_map in Hb. destruct Hb as (element & _ & Hb).
        unfold targets_of in Hb. apply in_map_iff in Hb.
        destruct Hb as (r & <- & Hr). apply filter_In in Hr. destruct Hr as [Hr _].
        apply Hdf. destruct bounded; [|exact Hr].
        rewrite <- (firstn_skipn (S index) (r0 :: rest)). apply in_app_iff.
        now left. }
      clearbody mm. destruct mm as [|b0 l]; [assumption|].
      apply within_mset; [assumption|]. exact Hmm.
    + eapply commit_indexes_within; eauto.
Qed.

Lemma df_loop_within (targets : list string) (bounded : bool) (fuel : nat) :
  forall df old_length m m',
    df_loop fuel bounded df old_length m = Ok m' ->
    (forall r, In r df -> In (row_entry_b r) targets) ->
    within_targets targets m -> within_targets targets m'.
Proof.
  induction fuel as [|fuel IH]; intros df old_length m m' H Hdf Hm; simpl in H.
  - destruct (Nat.eqb (length df) 0 || Nat.eqb (length df) old_length);
      [inv_ok; assumption | discriminate].
  - destruct (Nat.eqb (length df) 0 || Nat.eqb (length df) old_length);
      [inv_ok; assumption|].
    inv_bind H as [df1 m1] Hs.
    destruct (df_step_within targets _ _ _ _ _ Hs Hdf Hm) as [Hdf1 Hm1].
    eapply IH; eauto.
Qed.

Section Within.

Variable ratio : string -> string -> Q.
Variable py_int : string -> option Z.
Variable window_width : nat.
Variable list_str_len : list string -> nat.
Variable py_sub : Q -> Q -> Q.

Lemma interactive_loop_within (limit : Q) (targets : list string) (t : Tables)
  (distance : Q) (la : list string) :
  tables_above ratio limit targets t ->
  forall m nm stdin m' nm' stdin',
    interactive_loop py_int window_width list_str_len py_sub t distance la (m, nm, stdin)
    = Ok (m', nm', stdin') ->
    within_targets targets m -> within_targets targets m'.
Proof.
  intros Ht. induction la as [|e rest IH]; simpl;
    intros m nm stdin m' nm' stdin' H Hm.
  - inv_ok. assumption.
  - inv_bind H as [[m1 nm1] stdin1] Hs. apply (IH _ _ _ _ _ _ H).
    destruct (interactive_step_spec ratio py_int window_width list_str_len py_sub
                _ _ _ _ _ _ _ _ _ Hs) as (entry & He & Hm1 & _ & _).
    destruct Hm1 as [->|(q & c & Hin & ->)]; [assumption|].
    apply within_mset; [assumption|]. intros b Hb.
    destruct (Ht e entry He q c b Hin Hb) as [_ K]. exact K.
Qed.

Lemma decreasing_In (groups : GroupDict) (q : Q) (b : string) :
  In (q, b) (decreasing groups) <-> exists l, In (q, l) groups /\ In b l.
Proof.
  unfold decreasing. rewrite in_flat_map. split.
  - intros ([q' l] & Hin & Hb). apply in_map_iff in Hb.
    destruct Hb as (b' & E & Hb'). injection E as <- <-. eauto.
  - intros (l & Hin & Hb). exists (q, l). split; [assumption|].
    apply in_map_iff. exists b. auto.
Qed.

Lemma further_print_statements_within (dm : list (Q * string)) (todo : nat) :
  forall n nts stdin v stdin',
    further_print_statements dm todo n nts stdin = Ok (Some v, stdin') ->
    exists q b, In (q, b) dm /\ v = VStr b.
Proof.
  induction todo as [|todo IH]; simpl; intros n nts stdin v stdin' H;
    [inv_ok; discriminate|].
  destruct (nth_error dm (n + nts)); [|inv_ok; discriminate].
  inv_bind H as [result stdin1] Hi.
  destruct (String.eqb result "").
  - inv_bind H as element He. inv_ok.
    destruct (nth_error dm nts) as [[q b]|] eqn:E; simpl in He; inv_ok.
    apply nth_error_In in E. eauto.
  - destruct (String.eqb result "break"); [inv_ok; discriminate|].
    eapply IH; eauto.
Qed.

Lemma select_manually_within (entry_a : string) (groups : GroupDict)
  (stdin : list string) (v : MatchValue) (stdin' : list string) :
  select_manually py_int window_width entry_a groups stdin = Ok (Some v, stdin') ->
  forall b, In b (members v) -> exists q, In (q, b) (decreasing groups).
Proof.
  unfold select_manually. intros H. cbv zeta in H.
  inv_bind H as nts Hn. inv_bind H as [answer stdin1] Hi.
  destruct (String.eqb answer "").
  - inv_bind H as element He. inv_ok.
    destruct (nth_error (decreasing groups) 0) as [[q b0]|] eqn:E; simpl in He; inv_ok.
    apply nth_error_In in E. intros b [<-|[]]. eauto.
  - destruct (String.eqb answer "break"); [inv_ok; discriminate|].
    destruct (py_int answer) as [z|].
    + inv_bind H as element He. inv_bind H as v' Hv. inv_ok.
      destruct (nth_error (decreasing groups) 0) as [[q b0]|] eqn:E; simpl in He; inv_ok.
      apply nth_error_In in E. unfold pair_item in Hv.
      destruct ((z =? 0)%Z || (z =? -2)%Z); [inv_ok; intros b []|].
      destruct ((z =? 1)%Z || (z =? -1)%Z); [|discriminate]. inv_ok.
      intros b [<-|[]]. eauto.
    + destruct (further_print_statements_within _ _ _ _ _ _ _ H)
        as (q & b0 & Hin & ->).
      intros b [<-|[]]. eauto.
Qed.

Lemma pop_In (l : list string) (x : string) (l' : list string) :
  pop l = Ok (x, l') -> In x l /\ incl l' l.
Proof.
  unfold pop. destruct (rev l) as [|y r] eqn:E; [discriminate|].
  intros H. inv_ok. split.
  - apply in_rev. rewrite E. now left.
  - intros z Hz. apply in_rev. rewrite E. right. now apply in_rev in Hz.
Qed.

Lemma manual_step_within (targets : list string) (distance : Q) (entry_a : string)
  (sims : Similarities) (m : MatchDict) (stdin : list string)
  (sims' : Similarities) (m' : MatchDict) (stdin' : list string) :
  manual_step py_int window_width py_sub distance entry_a (sims, m, stdin)
  = Ok (sims', m', stdin') ->
  sims_within targets sims -> within_targets targets m ->
  sims_within targets sims' /\ within_targets targets m'.
Proof.
  unfold manual_step. intros H Hs Hm. cbv zeta in H.
  inv_bind H as groups Hg.
  destruct (Dict.get String.eqb entry_a sims) as [g|] eqn:Eg; simpl in Hg; inv_ok.
  inv_bind H as s0 H0. inv_bind H as s1 H1.
  inv_bind H as asks Ha. destruct asks.
  - inv_bind H as [choice stdin1] Hc. inv_ok. split; [assumption|].
    destruct choice as [v|]; [|assumption].
    apply within_mset; [assumption|]. intros b Hb.
    destruct (select_manually_within _ _ _ _ _ Hc b Hb) as (q & Hq).
    apply decreasing_In in Hq. destruct Hq as (l & Hl & Hbl).
    exact (Hs entry_a groups q l b Eg Hl Hbl).
  - inv_bind H as top Ht. inv_bind H as [matched_entry top'] Hp. inv_ok.
    destruct (gget s0 groups) as [top0|] eqn:Et; simpl in Ht; inv_ok.
    apply dict_get_In in Et. destruct Et as (k & Hk & _).
    destruct (pop_In _ _ _ Hp) as [Hx Hincl]. split.
    + intros a g q l b Hget Hl Hb. rewrite sget_sset in Hget.
      destruct (String.eqb a entry_a) eqn:E; [|exact (Hs a g q l b Hget Hl Hb)].
      injection Hget as <-. apply dict_set_In in Hl.
      destruct Hl as [->|Hl].
      * exact (Hs entry_a groups k top b Eg Hk (Hincl b Hb)).
      * exact (Hs entry_a groups q l b Eg Hl Hb).
    + apply within_mset; [assumption|]. intros b [<-|[]].
      exact (Hs entry_a groups k top matched_entry Eg Hk Hx).
Qed.

Lemma manual_loop_within (targets : list string) (distance : Q)
  (entries : list string) :
  forall sims m stdin sims' m' stdin',
    manual_loop py_int window_width py_sub distance entries (sims, m, stdin)
    = Ok (sims', m', stdin') ->
    sims_within targets sims -> within_targets targets m ->
    within_targets targets m'.
Proof.
  induction entries as [|e rest IH]; simpl;
    intros sims m stdin sims' m' stdin' H Hs Hm.
  - inv_ok. assumption.
  - inv_bind H as [[sims1 m1] stdin1] Hst.
    destruct (manual_step_within targets _ _ _ _ _ _ _ _ Hst Hs Hm) as [Hs1 Hm1].
    eapply IH; eauto.
Qed.

Lemma group_sources_within (la lb : list string) :
  forall d, sims_within lb d -> sims_within lb (group_sources ratio la lb d).
Proof.
  induction la as [|a rest IH]; intros d Hd; simpl; [assumption|].
  apply IH. intros a' g q l b Hget Hl Hb. rewrite sget_sset in Hget.
  destruct (String.eqb a' a); [|exact (Hd a' g q l b Hget Hl Hb)].
  injection Hget as <-. rewrite group_targets_push in Hl.
  destruct (ordered_table_spec string (fun b => ratio a b) lb) as (P & _).
  apply (Permutation_in _ P). apply in_map_iff. exists (q, b). split; [reflexivity|].
  apply (decreasing_In _ q b). eauto.
Qed.

(** In a call without normalisation that returns, every label recorded
    as a target, as a match or as a member of a list, is a label of
    [list_to_be_matched_to]. *)
Theorem recorded_targets_are_targets (c : Call) (la lb stdin : list string)
  (out : Outcome) (a : string) (v : MatchValue) (b : string) :
  simplifies c = false ->
  call ratio py_int window_width list_str_len py_sub c la lb stdin = Ok out ->
  mget a (matched out) = Some v -> In b (members v) -> In b lb.
Proof.
  intros Hc H.
  enough (Hw : within_targets lb (matched out)) by (apply Hw).
  assert (Hdirect : forall m0 la0 lb0,
             NoDup la -> NoDup lb ->
             direct_loop la ([], la, lb) = Ok (m0, la0, lb0) ->
             within_targets lb m0 /\ incl lb0 lb /\ NoDup la0 /\ NoDup lb0).
  { intros m0 la0 lb0 Hla Hlb Hd.
    destruct (direct_matches_spec _ _ _ _ _ Hd Hla Hlb) as (N1 & N2 & A & B & C).
    split; [|split; [|split; assumption]].
    - intros a' v' b' Hv Hb. apply C in Hv. destruct Hv as (_ & Hin & ->).
      destruct Hb as [<-|[]]. exact Hin.
    - intros x Hx. now apply B in Hx. }
  destruct c as [sw auto single enforce dist limit | simplified
                | simplified dist limit]; simpl in Hc, H.
  - destruct sw; try discriminate.
    apply match_similar_off_inv in H.
    destruct H as (Hla & Hlb & m0 & la0 & lb0 & Hd & Hr).
    destruct (Hdirect _ _ _ Hla Hlb Hd) as (W0 & Hincl & N1 & N2).
    destruct Hr as [m la' lb' Ha He Hg -> | m Ha He df Hg -> | m nm stdin' Ha Hg ->];
      cbn [matched].
    + eapply greedy_loop_within; eauto.
    + eapply df_loop_within; eauto.
      intros r Hr. apply Hincl.
      apply (frame_rows_above ratio limit enforce la0 lb0 r Hr).
    + eapply (interactive_loop_within limit lb); eauto.
      intros a' entry Hget q e b' Hin Hb.
      destruct (tables_are_above ratio limit enforce la0 lb0 a' entry Hget
                  q e b' Hin Hb) as [K1 K2]. auto.
  - destruct simplified; try discriminate.
    unfold match_comprehensive in H.
    inv_bind H as u1 Hu1. inv_bind H as u2 Hu2.
    apply uniqueness_checked in Hu1. apply uniqueness_checked in Hu2.
    cbn [simplify_both bind] in H.
    inv_bind H as [[m0 la0] lb0] Hd. inv_bind H as m1 Hg.
    cbn [translate_back] in H. inv_ok. cbn [matched].
    destruct (Hdirect _ _ _ Hu1 Hu2 Hd) as (W0 & Hincl & N1 & N2).
    eapply df_loop_within; eauto.
    intros r Hr. apply Hincl. eapply comprehensive_rows_In; exact Hr.
  - destruct simplified; try discriminate.
    unfold match_similar_with_manual_selection in H.
    inv_bind H as u1 Hu1. inv_bind H as u2 Hu2.
    apply uniqueness_checked in Hu1. apply uniqueness_checked in Hu2.
    cbn [simplify_both bind] in H.
    inv_bind H as [[m0 la0] lb0] Hd. inv_bind H as [[sims m1] stdin1] Hg.
    cbn [translate_back] in H. inv_ok. cbn [matched].
    destruct (Hdirect _ _ _ Hu1 Hu2 Hd) as (W0 & Hincl & N1 & N2).
    eapply (manual_loop_within lb); eauto.
    intros a' g q l b' Hget Hl Hb. apply Hincl.
    assert (He : sims_within lb0 []) by (intros ? ? ? ? ? Hn; discriminate Hn).
    exact (group_sources_within la0 lb0 [] He a' g q l b' Hget Hl Hb).
Qed.

End Within.

Lemma recorded_targets_are_targets_witness :
  exists out,
    run_call (MatchSimilar SimplifyOff true true false (1#10) (6#10))
      ["Apple"; "pineapple"] ["Apple"; "pineappla"; "Pineapple"] [] = Ok out
    /\ In "Pineapple" ["Apple"; "pineappla"; "Pineapple"].
Proof.
  eexists. split; [vm_compute; reflexivity|].
  eapply (recorded_targets_are_targets py_ratio int_of_decimal 200
            plain_list_str_len PyFloat.sub (MatchSimilar SimplifyOff true true false (PyFloat.of_Q (1#10)) (PyFloat.of_Q (6#10)))
            ["Apple"; "pineapple"] ["Apple"; "pineappla"; "Pineapple"] [] _
            "pineapple" (VList ["pineappla"; "Pineapple"]) "Pineapple").
  - reflexivity.
  - vm_compute. reflexivity.
  - vm_compute. reflexivity.
  - simpl. auto.
Defined.

(** ** A crowded tie at the top of the frame *)

Lemma py_remove_count (x : string) (l l' : list string) :
  PyList.remove x l = Ok l' ->
  forall y, count_occ string_dec l y
            = count_occ string_dec l' y + (if String.eqb y x then 1 else 0).
Proof.
  revert l'. induction l as [|z l IH]; intros l' H y; [discriminate|].
  cbn [PyList.remove] in H. destruct (String.eqb x z) eqn:E.
  - apply String.eqb_eq in E. subst z.
    assert (El : l = l') by congruence. subst l'.
    cbn [count_occ]. destruct (string_dec x y) as [->|Hne].
    + rewrite String.eqb_refl. lia.
    + assert (Ey : String.eqb y x = false) by (apply String.eqb_neq; congruence).
      rewrite Ey. lia.
  - inv_bind H as l1 Hx. assert (El : l' = z :: l1) by congruence. subst l'.
    cbn [count_occ]. rewrite (IH _ Hx y). apply String.eqb_neq in E.
    destruct (string_dec z y) as [->|Hzy]; [|reflexivity].
    assert (Ey : String.eqb y x = false) by (apply String.eqb_neq; congruence).
    rewrite Ey. lia.
Qed.

Lemma remove_first_occurrences_count (elements : list string) :
  NoDup elements ->
  forall l, (forall x, In x elements -> In x l) ->
    exists l', remove_first_occurrences elements l = Ok l'
      /\ forall y, count_occ string_dec l y
                   = count_occ string_dec l' y
                     + (if PyList.mem y elements then 1 else 0).
Proof.
  induction 1 as [|x elements Hx Hnd IH]; intros l Hl.
  - exists l. split; [reflexivity|]. intros y. simpl. lia.
  - destruct (py_remove_defined x l (Hl x (or_introl eq_refl))) as (l1 & E1).
    cbn [remove_first_occurrences]. rewrite E1. cbn [bind].
    destruct (IH l1) as (l' & E' & C').
    + intros z Hz. apply (py_remove_other _ _ _ _ E1).
      * intros ->. contradiction.
      * apply Hl. now right.
    + exists l'. split; [assumption|]. intros y.
      rewrite (py_remove_count _ _ _ E1 y), (C' y).
      unfold PyList.mem. cbn [existsb]. fold (PyList.mem y elements).
      destruct (String.eqb y x) eqn:E; cbn [orb]; [|lia].
      apply String.eqb_eq in E. subst y.
      assert (Em : PyList.mem x elements = false) by now apply mem_false.
      rewrite Em. lia.
Qed.

Lemma count_twice (e : string) (l : list string) :
  2 <= count_occ string_dec l e ->
  exists d1 d2 d3, l = d1 ++ e :: d2 ++ e :: d3.
Proof.
  intros H.
  assert (Hin : In e l) by (apply (count_occ_In string_dec); lia).
  apply in_split in Hin. destruct Hin as (d1 & r & ->).
  rewrite count_occ_app in H. cbn [count_occ] in H.
  destruct (string_dec e e) as [_|]; [|congruence].
  destruct (in_dec string_dec e r) as [Hr|Hr].
  - apply in_split in Hr. destruct Hr as (d2 & d3 & ->).
    exists d1, d2, d3. reflexivity.
  - apply (count_occ_not_In string_dec) in Hr.
    assert (Hd : In e d1) by (apply (count_occ_In string_dec); lia).
    apply in_split in Hd. destruct Hd as (x1 & x2 & ->).
    exists x1, x2, r. now rewrite <- app_assoc.
Qed.

Lemma two_labels (a b : string) (l : list string) :
  a <> b -> In a l -> In b l ->
  exists d1 e1 d2 e2 d3,
    l = d1 ++ e1 :: d2 ++ e2 :: d3 /\ ((e1 = a /\ e2 = b) \/ (e1 = b /\ e2 = a)).
Proof.
  intros Hne Ha Hb. apply in_split in Ha. destruct Ha as (d1 & r & ->).
  apply in_app_iff in Hb. destruct Hb as [Hb|[Hb|Hb]]; [|congruence|].
  - apply in_split in Hb. destruct Hb as (x1 & x2 & ->).
    exists x1, b, x2, a, r. split; [now rewrite <- app_assoc | auto].
  - apply in_split in Hb. destruct Hb as (d2 & d3 & ->).
    exists d1, a, d2, b, d3. auto.
Qed.

Lemma three_members {A : Type} (l : list A) (x y z : A) :
  In x l -> In y l -> In z l -> x <> y -> x <> z -> y <> z -> 3 <= length l.
Proof.
  intros Hx Hy Hz Hxy Hxz Hyz. change 3 with (length [x; y; z]).
  apply NoDup_incl_length.
  - repeat constructor; simpl; intuition.
  - intros w [<-|[<-|[<-|[]]]]; assumption.
Qed.

Lemma two_members {A : Type} (l : list A) (x y : A) :
  In x l -> In y l -> x <> y -> 2 <= length l.
Proof.
  intros Hx Hy Hxy. change 2 with (length [x; y]).
  apply NoDup_incl_length.
  - repeat constructor; simpl; intuition.
  - intros w [<-|[<-|[]]]; assumption.
Qed.

(** *** [indexes.remove(index)] *)

Lemma remove_index_missing (x : nat) (idx : list nat) :
  ~ In x idx -> remove_index x idx = Raise (ValueError []).
Proof.
  induction idx as [|i idx IH]; simpl; intros H; [reflexivity|].
  destruct (Nat.eqb x i) eqn:E.
  - apply Nat.eqb_eq in E. subst. exfalso. apply H. now left.
  - rewrite IH; [reflexivity | tauto].
Qed.

Lemma remove_index_spec (x : nat) (idx : list nat) :
  NoDup idx ->
  remove_index x idx = Raise (ValueError [])
  \/ exists idx', remove_index x idx = Ok idx'
       /\ NoDup idx' /\ incl idx' idx /\ ~ In x idx'.
Proof.
  induction idx as [|i idx IH]; simpl; intros Hnd; [now left|].
  inversion Hnd as [|? ? Hi Hrest]; subst.
  destruct (Nat.eqb x i) eqn:E.
  - apply Nat.eqb_eq in E. subst i. right. exists idx.
    split; [reflexivity|]. split; [assumption|]. split; [|assumption].
    apply incl_tl, incl_refl.
  - apply Nat.eqb_neq in E. destruct (IH Hrest) as [->|(idx' & -> & N & I & X)].
    + now left.
    + right. exists (i :: idx'). cbn [bind]. split; [reflexivity|]. split; [|split].
      * constructor; [|assumption]. intros H. apply Hi. now apply I.
      * intros y [->|Hy]; [now left | right; now apply I].
      * intros [->|H]; [congruence | contradiction].
Qed.

Lemma mark_unmatchable_spec (of_element : list nat) :
  forall idx i, NoDup idx ->
    mark_unmatchable of_element (idx, i) = Raise (ValueError [])
    \/ exists idx' i', mark_unmatchable of_element (idx, i) = Ok (idx', i')
         /\ NoDup idx' /\ incl idx' idx
         /\ forall x, In x of_element -> ~ In x idx'.
Proof.
  induction of_element as [|x l IH]; intros idx i Hnd; cbn [mark_unmatchable fst].
  - right. exists idx, i. split; [reflexivity|]. split; [assumption|].
    split; [apply incl_refl | intros x []].
  - destruct (remove_index_spec x idx Hnd) as [->|(idx1 & -> & N1 & I1 & X1)]; [now left|].
    cbn [bind]. destruct (IH idx1 x N1) as [->|(idx' & i' & -> & N & I & X)]; [now left|].
    right. exists idx', i'. split; [reflexivity|]. split; [assumption|]. split.
    + eapply incl_tran; eauto.
    + intros y [<-|Hy]; [intros H; apply X1, I, H | now apply X].
Qed.

Lemma mark_unmatchable_missing (of_element : list nat) (x : nat) :
  In x of_element ->
  forall idx i, NoDup idx -> ~ In x idx ->
    mark_unmatchable of_element (idx, i) = Raise (ValueError []).
Proof.
  induction of_element as [|y l IH]; intros Hx idx i Hnd Hn; [contradiction|].
  cbn [mark_unmatchable fst].
  destruct Hx as [->|Hx].
  - now rewrite (remove_index_missing _ _ Hn).
  - destruct (remove_index_spec y idx Hnd) as [->|(idx1 & -> & N1 & I1 & X1)];
      [reflexivity|].
    cbn [bind]. apply IH; [assumption | assumption |].
    intros H. apply Hn, I1, H.
Qed.

Lemma mark_doubled_app (d : IndexDict) (l1 l2 : list string) :
  forall st,
    mark_doubled d (l1 ++ l2) st
    = (st' <- mark_doubled d l1 st ;; mark_doubled d l2 st').
Proof.
  induction l1 as [|e l1 IH]; intros st; [reflexivity|].
  cbn [app mark_doubled].
  destruct (Dict.get String.eqb e d) as [l|]; cbn [of_option bind]; [|reflexivity].
  destruct (mark_unmatchable l st) as [st1|ex]; cbn [bind]; [apply IH | reflexivity].
Qed.

Lemma mark_doubled_spec (d : IndexDict) (doubled : list string) :
  (forall e, In e doubled -> exists l, Dict.get String.eqb e d = Some l) ->
  forall idx i, NoDup idx ->
    mark_doubled d doubled (idx, i) = Raise (ValueError [])
    \/ exists idx' i', mark_doubled d doubled (idx, i) = Ok (idx', i')
         /\ NoDup idx' /\ incl idx' idx
         /\ forall e l x, In e doubled -> Dict.get String.eqb e d = Some l ->
              In x l -> ~ In x idx'.
Proof.
  induction doubled as [|e rest IH]; intros Hd idx i Hnd; cbn [mark_doubled].
  - right. exists idx, i. split; [reflexivity|]. split; [assumption|].
    split; [apply incl_refl | intros e l x []].
  - destruct (Hd e (or_introl eq_refl)) as (l & El). rewrite El. cbn [of_option bind].
    destruct (mark_unmatchable_spec l idx i Hnd) as [->|(idx1 & i1 & -> & N1 & I1 & X1)];
      [now left|].
    cbn [bind].
    destruct (IH (fun e' H => Hd e' (or_intror H)) idx1 i1 N1)
      as [->|(idx' & i' & -> & N & I & X)]; [now left|].
    right. exists idx', i'. split; [reflexivity|]. split; [assumption|]. split.
    + eapply incl_tran; eauto.
    + intros e' l' x [<-|He'] Hl' Hx.
      * assert (l' = l) by congruence. subst l'.
        intros H. apply (X1 x Hx), I, H.
      * eapply X; eauto.
Qed.

(** Two doubled elements listed under one row: the second removal of the
    row's position fails. *)
Lemma mark_doubled_twice (d : IndexDict) (d1 d2 d3 : list string)
  (e1 e2 : string) (l1 l2 : list nat) (x : nat) (idx : list nat) (i : nat) :
  (forall e, In e (d1 ++ e1 :: d2 ++ e2 :: d3) ->
     exists l, Dict.get String.eqb e d = Some l) ->
  Dict.get String.eqb e1 d = Some l1 -> In x l1 ->
  Dict.get String.eqb e2 d = Some l2 -> In x l2 ->
  NoDup idx ->
  mark_doubled d (d1 ++ e1 :: d2 ++ e2 :: d3) (idx, i) = Raise (ValueError []).
Proof.
  intros Hd E1 X1 E2 X2 Hnd.
  replace (d1 ++ e1 :: d2 ++ e2 :: d3) with ((d1 ++ e1 :: d2) ++ e2 :: d3) in *
    by (rewrite <- app_assoc; reflexivity).
  rewrite mark_doubled_app.
  destruct (mark_doubled_spec d (d1 ++ e1 :: d2)) with (idx := idx) (i := i)
    as [->|(idx' & i' & -> & N & I & X)]; [|assumption|reflexivity|].
  - intros e He. apply Hd. apply in_or_app. now left.
  - cbn [bind mark_doubled]. rewrite E2. cbn [of_option bind].
    rewrite (mark_unmatchable_missing l2 x X2 idx' i' N); [reflexivity|].
    apply (X e1 l1 x); [|assumption|assumption].
    apply in_or_app. right. now left.
Qed.

(** *** The entries of the tied rows *)

Lemma idx_get_set (k k' : string) (v : list nat) (d : IndexDict) :
  Dict.get String.eqb k (Dict.set String.eqb k' v d)
  = if String.eqb k k' then Some v else Dict.get String.eqb k d.
Proof.
  induction d as [|[k0 v0] d IH]; simpl.
  - reflexivity.
  - destruct (String.eqb k' k0) eqn:E1; simpl.
    + apply String.eqb_eq in E1. subst. destruct (String.eqb k k0); reflexivity.
    + destruct (String.eqb k k0) eqn:E2.
      * apply String.eqb_eq in E2. subst.
        rewrite String.eqb_sym, E1. reflexivity.
      * apply IH.
Qed.

Lemma note_index_same (e : string) (i : nat) (d : IndexDict) :
  exists l, Dict.get String.eqb e (note_index e i d) = Some l /\ In i l.
Proof.
  unfold note_index. destruct (Dict.get String.eqb e d) as [l|];
    rewrite idx_get_set, String.eqb_refl; eexists; (split; [reflexivity|]).
  - apply in_or_app. right. now left.
  - now left.
Qed.

Lemma note_index_mono (e : string) (i : nat) (d : IndexDict)
  (e' : string) (l : list nat) (x : nat) :
  Dict.get String.eqb e' d = Some l -> In x l ->
  exists l', Dict.get String.eqb e' (note_index e i d) = Some l' /\ In x l'.
Proof.
  intros Hg Hx. unfold note_index.
  destruct (Dict.get String.eqb e d) as [l0|] eqn:E; rewrite idx_get_set;
    destruct (String.eqb e' e) eqn:E2; eauto.
  - apply String.eqb_eq in E2. subst e'.
    assert (l0 = l) by congruence. subst l0.
    eexists. split; [reflexivity|]. apply in_or_app. now left.
  - apply String.eqb_eq in E2. subst e'. congruence.
Qed.

Lemma collect_entries_leading (h : Q) (suffix : list Row) :
  forall prefix all d,
    exists d',
      collect_entries (prefix ++ suffix) (tied_indexes h (length prefix) suffix)
        (all, d)
      = Ok (all ++ flat_map ends (leading_rows h suffix), d')
      /\ (forall e l x, Dict.get String.eqb e d = Some l -> In x l ->
            exists l', Dict.get String.eqb e d' = Some l' /\ In x l')
      /\ (forall j r e, nth_error (leading_rows h suffix) j = Some r ->
            In e (ends r) ->
            exists l, Dict.get String.eqb e d' = Some l /\ In (length prefix + j) l).
Proof.
  induction suffix as [|r rest IH]; intros prefix all d;
    cbn [tied_indexes leading_rows].
  - exists d. cbn [collect_entries flat_map]. rewrite app_nil_r.
    split; [reflexivity|]. split; [eauto|]. intros [|j] r e H; discriminate.
  - destruct (Qeq_bool h (row_similarity r)) eqn:E.
    + cbn [collect_entries].
      assert (Hn : nth_error (prefix ++ r :: rest) (length prefix) = Some r).
      { rewrite nth_error_app2 by lia. now rewrite Nat.sub_diag. }
      rewrite Hn. cbn [of_option bind].
      specialize (IH (prefix ++ [r]) (all ++ [row_entry_a r] ++ [row_entry_b r])
                    (note_index (row_entry_b r) (length prefix)
                       (note_index (row_entry_a r) (length prefix) d))).
      rewrite <- app_assoc in IH. cbn [app] in IH.
      rewrite length_app in IH. cbn [length] in IH. rewrite Nat.add_1_r in IH.
      destruct IH as (d' & E' & M & J). exists d'. split; [|split].
      * cbn [app]. rewrite E'. cbn [flat_map]. unfold ends at 2.
        rewrite <- app_assoc. reflexivity.
      * intros e l x Hg Hx.
        destruct (note_index_mono (row_entry_a r) (length prefix) d e l x Hg Hx)
          as (l1 & G1 & X1).
        destruct (note_index_mono (row_entry_b r) (length prefix) _ e l1 x G1 X1)
          as (l2 & G2 & X2).
        eapply M; eauto.
      * intros [|j] r' e Hr He.
        -- cbn [nth_error] in Hr. injection Hr as <-. rewrite Nat.add_0_r.
           destruct He as [<-|[<-|[]]].
           ++ destruct (note_index_same (row_entry_a r) (length prefix) d)
                as (l1 & G1 & X1).
              destruct (note_index_mono (row_entry_b r) (length prefix) _ _ l1 _ G1 X1)
                as (l2 & G2 & X2).
              eapply M; eauto.
           ++ destruct (note_index_same (row_entry_b r) (length prefix)
                          (note_index (row_entry_a r) (length prefix) d))
                as (l1 & G1 & X1).
              eapply M; eauto.
        -- cbn [nth_error] in Hr. destruct (J j r' e Hr He) as (l & G & X).
           exists l. split; [assumption|].
           replace (length prefix + S j) with (S (length prefix) + j) by lia.
           assumption.
    + exists d. cbn [collect_entries flat_map]. rewrite app_nil_r.
      split; [reflexivity|]. split; [eauto|]. intros [|j] r' e H; discriminate.
Qed.

Lemma collect_entries_tied (h : Q) (df : list Row) :
  exists d',
    collect_entries df (tied_indexes h 0 df) ([], [])
    = Ok (flat_map ends (leading_rows h df), d')
    /\ forall j r e, nth_error (leading_rows h df) j = Some r -> In e (ends r) ->
         exists l, Dict.get String.eqb e d' = Some l /\ In j l.
Proof.
  destruct (collect_entries_leading h df [] [] []) as (d' & E & _ & J).
  exists d'. split; [exact E | exact J].
Qed.

Lemma tied_indexes_above (h : Q) (df : list Row) :
  forall k i, In i (tied_indexes h k df) -> k <= i.
Proof.
  induction df as [|r rest IH]; intros k i; cbn [tied_indexes]; [intros []|].
  destruct (Qeq_bool h (row_similarity r)); [|intros []].
  intros [<-|H]; [lia|]. apply IH in H. lia.
Qed.

Lemma tied_indexes_NoDup (h : Q) (df : list Row) :
  forall k, NoDup (tied_indexes h k df).
Proof.
  induction df as [|r rest IH]; intros k; cbn [tied_indexes]; [constructor|].
  destruct (Qeq_bool h (row_similarity r)); [|constructor].
  constructor; [|apply IH]. intros H. apply tied_indexes_above in H. lia.
Qed.

Lemma count_ends (e : string) (rows : list Row) :
  length (filter (fun r => PyList.mem e (ends r)) rows)
  <= count_occ string_dec (flat_map ends rows) e.
Proof.
  induction rows as [|r rows IH]; [simpl; lia|].
  cbn [filter flat_map]. rewrite count_occ_app.
  destruct (PyList.mem e (ends r)) eqn:E; [|lia].
  apply mem_In in E. apply (count_occ_In string_dec) in E. cbn [length]. lia.
Qed.

(** *** The round of the loop *)

Lemma df_step_crowded (bounded : bool) (df : list Row) (m : MatchDict)
  (r0 r1 : Row) (rest : list Row) :
  df = r0 :: r1 :: rest ->
  Qeq_bool (row_similarity r0) (row_similarity r1) = true ->
  (exists e,
     3 <= count_occ string_dec
            (flat_map ends (leading_rows (row_similarity r0) df)) e)
  \/ (exists r,
        In r (leading_rows (row_similarity r0) df)
        /\ row_entry_a r <> row_entry_b r
        /\ 2 <= count_occ string_dec
                  (flat_map ends (leading_rows (row_similarity r0) df))
                  (row_entry_a r)
        /\ 2 <= count_occ string_dec
                  (flat_map ends (leading_rows (row_similarity r0) df))
                  (row_entry_b r)) ->
  df_step bounded df m = Raise (ValueError []).
Proof.
  intros Hdf Hq Hcase.
  set (h := row_similarity r0) in *.
  destruct (collect_entries_tied h df) as (d' & Ec & J).
  set (all := flat_map ends (leading_rows h df)) in *.
  destruct (remove_first_occurrences_count (PyList.to_set all) (to_set_NoDup all) all)
    as (doubled & Ed & Cd); [intros x Hx; now apply to_set_In|].
  assert (Hcount : forall y, In y all ->
            count_occ string_dec all y = S (count_occ string_dec doubled y)).
  { intros y Hy. rewrite (Cd y).
    assert (Em : PyList.mem y (PyList.to_set all) = true)
      by (apply mem_In, to_set_In, Hy).
    rewrite Em. lia. }
  assert (Hall : forall e, In e doubled -> In e all).
  { intros e He. apply (count_occ_In string_dec).
    apply (count_occ_In string_dec) in He. rewrite (Cd e). lia. }
  assert (Hrow : forall e, In e all ->
            exists l j, Dict.get String.eqb e d' = Some l /\ In j l).
  { intros e He. unfold all in He. apply in_flat_map in He.
    destruct He as (r & Hr & He). apply In_nth_error in Hr. destruct Hr as (j & Hj).
    destruct (J j r e Hj He) as (l & G & X). eauto. }
  assert (Hm : mark_doubled d' doubled
                 (tied_indexes h 0 df, last (tied_indexes h 0 df) 0)
               = Raise (ValueError [])).
  { destruct Hcase as [(e & He)|(r & Hr & Hne & Ha & Hb)].
    - assert (Hin : In e all) by (apply (count_occ_In string_dec); lia).
      destruct (count_twice e doubled) as (d1 & d2 & d3 & Edbl).
      { rewrite (Hcount e Hin) in He. lia. }
      destruct (Hrow e Hin) as (l & j & G & X).
      rewrite Edbl in *.
      apply (mark_doubled_twice d' d1 d2 d3 e e l l j); auto.
      + intros e' He'. destruct (Hrow e' (Hall e' He')) as (l' & _ & G' & _). eauto.
      + apply tied_indexes_NoDup.
    - assert (Hina : In (row_entry_a r) all) by (apply (count_occ_In string_dec); lia).
      assert (Hinb : In (row_entry_b r) all) by (apply (count_occ_In string_dec); lia).
      assert (Hda : In (row_entry_a r) doubled).
      { apply (count_occ_In string_dec). rewrite (Hcount _ Hina) in Ha. lia. }
      assert (Hdb : In (row_entry_b r) doubled).
      { apply (count_occ_In string_dec). rewrite (Hcount _ Hinb) in Hb. lia. }
      apply In_nth_error in Hr. destruct Hr as (j & Hj).
      destruct (J j r (row_entry_a r) Hj) as (la & Ga & Xa); [now left|].
      destruct (J j r (row_entry_b r) Hj) as (lb & Gb & Xb); [right; now left|].
      destruct (two_labels (row_entry_a r) (row_entry_b r) doubled Hne Hda Hdb)
        as (d1 & e1 & d2 & e2 & d3 & Edbl & [[-> ->]|[-> ->]]); rewrite Edbl in *.
      + apply (mark_doubled_twice d' d1 d2 d3 _ _ la lb j); auto.
        * intros e' He'. destruct (Hrow e' (Hall e' He')) as (l' & _ & G' & _). eauto.
        * apply tied_indexes_NoDup.
      + apply (mark_doubled_twice d' d1 d2 d3 _ _ lb la j); auto.
        * intros e' He'. destruct (Hrow e' (Hall e' He')) as (l' & _ & G' & _). eauto.
        * apply tied_indexes_NoDup. }
  unfold df_step. rewrite Hdf. cbv zeta. fold h. rewrite Hq. cbn [negb].
  rewrite <- Hdf. rewrite Ec. cbn [bind]. fold all. rewrite Ed. cbn [bind].
  rewrite Hm. reflexivity.
Qed.

Lemma df_loop_crowded (bounded : bool) (df : list Row) (m : MatchDict)
  (r0 r1 : Row) (rest : list Row) :
  df = r0 :: r1 :: rest ->
  Qeq_bool (row_similarity r0) (row_similarity r1) = true ->
  (exists e,
     3 <= count_occ string_dec
            (flat_map ends (leading_rows (row_similarity r0) df)) e)
  \/ (exists r,
        In r (leading_rows (row_similarity r0) df)
        /\ row_entry_a r <> row_entry_b r
        /\ 2 <= count_occ string_dec
                  (flat_map ends (leading_rows (row_similarity r0) df))
                  (row_entry_a r)
        /\ 2 <= count_occ string_dec
                  (flat_map ends (leading_rows (row_similarity r0) df))
                  (row_entry_b r)) ->
  df_loop (df_loop_fuel df) bounded df 0 m = Raise (ValueError []).
Proof.
  intros Hdf Hq Hcase.
  pose proof (df_step_crowded bounded df m r0 r1 rest Hdf Hq Hcase) as Hs.
  unfold df_loop_fuel. rewrite Hdf in *. cbn [length df_loop Nat.eqb orb].
  rewrite Hs. reflexivity.
Qed.

Lemma leading_rows_In (h : Q) (df : list Row) (r : Row) :
  descending (map row_similarity df) ->
  (forall r', In r' df -> (row_similarity r' <= h)%Q) ->
  In r df -> Qeq_bool h (row_similarity r) = true ->
  In r (leading_rows h df).
Proof.
  induction df as [|x rest IH]; intros Hd Hle Hr Hq; [contradiction|].
  cbn [map descending] in Hd. destruct Hd as [Hd1 Hd2]. cbn [leading_rows].
  destruct (Qeq_bool h (row_similarity x)) eqn:E.
  - destruct Hr as [->|Hr]; [now left|]. right.
    apply IH; auto. intros r' Hr'. apply Hle. now right.
  - exfalso. apply Qeq_bool_iff in Hq.
    assert (Hx : (row_similarity x <= h)%Q) by (apply Hle; now left).
    destruct Hr as [->|Hr]; [rewrite <- Hq, Qeq_bool_refl in E; discriminate|].
    assert (Hrx : (row_similarity r <= row_similarity x)%Q).
    { apply Hd1. apply in_map_iff. exists r. auto. }
    assert (Heq : h == row_similarity x).
    { apply Qle_antisym; [now rewrite Hq | assumption]. }
    apply Qeq_bool_iff in Heq. congruence.
Qed.

Section CrowdedTie.

Variable ratio : string -> string -> Q.

(** The frame built from pairs of which one best-scoring pair shares a
    label with two other best-scoring pairs: the first round of the loop
    fails. *)
Lemma frame_crowded (vs : list (string * string)) (p0 p1 p2 : string * string)
  (s : Q) (bounded : bool) (m : MatchDict) :
  In p0 vs -> In p1 vs -> In p2 vs ->
  p1 <> p0 -> p2 <> p0 -> p1 <> p2 ->
  ratio (fst p0) (snd p0) == s ->
  ratio (fst p1) (snd p1) == s ->
  ratio (fst p2) (snd p2) == s ->
  (forall p, In p vs -> (ratio (fst p) (snd p) <= s)%Q) ->
  fst p0 <> snd p0 ->
  (fst p1 = fst p0 \/ snd p1 = snd p0) ->
  (fst p2 = fst p0 \/ snd p2 = snd p0) ->
  let df := _create_similarity_dataframe
              (order_by_key
                 (fold_left (fun d p => push (ratio (fst p) (snd p)) p d) vs [])) in
  df_loop (df_loop_fuel df) bounded df 0 m = Raise (ValueError []).
Proof.
  intros H0 H1 H2 N10 N20 N12 S0 S1 S2 Hmax Hab C1 C2. cbv zeta.
  rewrite dataframe_listed.
  destruct (ordered_table_spec (string * string)
              (fun p => ratio (fst p) (snd p)) vs) as (P & S & D & _).
  set (d := order_by_key _) in *.
  set (row := fun x : Q * (string * string) => (fst x, fst (snd x), snd (snd x))).
  assert (Hlisted : forall p, In p vs -> ratio (fst p) (snd p) == s ->
            exists q, In (q, p) (listed d) /\ q == s).
  { intros p Hp Hs. apply (Permutation_in _ (Permutation_sym P)) in Hp.
    apply in_map_iff in Hp. destruct Hp as ([q p'] & Ep & Hq). simpl in Ep. subst p'.
    exists q. split; [assumption|]. rewrite <- Hs. symmetry. apply (S q p Hq). }
  assert (Hbound : forall x, In x (listed d) -> (fst x <= s)%Q).
  { intros [q p] Hx. simpl. rewrite <- (S q p Hx). apply Hmax.
    apply (Permutation_in _ P). apply in_map_iff. exists (q, p). auto. }
  destruct (Hlisted p0 H0 S0) as (q0 & L0 & Q0).
  destruct (Hlisted p1 H1 S1) as (q1 & L1 & Q1).
  destruct (Hlisted p2 H2 S2) as (q2 & L2 & Q2).
  assert (Hsim : map row_similarity (map row (listed d)) = map fst (listed d)).
  { rewrite map_map. apply map_ext. intros [q [a b]]. reflexivity. }
  destruct (listed d) as [|x0 L] eqn:El; [contradiction|].
  set (df := map row (x0 :: L)) in *.
  set (h := fst x0).
  assert (Hh : h == s).
  { apply Qle_antisym; [apply Hbound; now left|].
    cbn [map descending] in D. destruct D as [D _].
    destruct L0 as [->|L0]; [unfold h; simpl; rewrite Q0; apply Qle_refl|].
    rewrite <- Q0. apply D. apply in_map_iff. exists (q0, p0). auto. }
  assert (Hlead : forall q p, In (q, p) (x0 :: L) -> q == s ->
            In (row (q, p)) (leading_rows h df)).
  { intros q p Hin Hq. apply leading_rows_In.
    - rewrite Hsim. exact D.
    - intros r' Hr'. unfold df in Hr'. apply in_map_iff in Hr'.
      destruct Hr' as (x & <- & Hx). rewrite Hh.
      change (row_similarity (row x)) with (fst x). now apply Hbound.
    - unfold df. apply in_map_iff. exists (q, p). auto.
    - apply Qeq_bool_iff. change (row_similarity (row (q, p))) with q.
      now rewrite Hh, Hq. }
  pose proof (Hlead q0 p0 L0 Q0) as R0.
  pose proof (Hlead q1 p1 L1 Q1) as R1.
  pose proof (Hlead q2 p2 L2 Q2) as R2.
  assert (D10 : row (q1, p1) <> row (q0, p0)).
  { intros E. apply N10. destruct p0, p1. unfold row in E. simpl in E. congruence. }
  assert (D20 : row (q2, p2) <> row (q0, p0)).
  { intros E. apply N20. destruct p0, p2. unfold row in E. simpl in E. congruence. }
  assert (D12 : row (q1, p1) <> row (q2, p2)).
  { intros E. apply N12. destruct p1, p2. unfold row in E. simpl in E. congruence. }
  pose proof (three_members _ _ _ _ R0 R1 R2
                (fun E => D10 (eq_sym E)) (fun E => D20 (eq_sym E)) D12) as Hlen.
  assert (Hshape : exists r1 rest,
            df = row x0 :: r1 :: rest
            /\ Qeq_bool (row_similarity (row x0)) (row_similarity r1) = true).
  { unfold df in *. cbn [map] in *. destruct (map row L) as [|r1 rest] eqn:Em.
    - cbn [leading_rows] in Hlen.
      destruct (Qeq_bool h (row_similarity (row x0))); simpl in Hlen; lia.
    - exists r1, rest. split; [reflexivity|].
      cbn [leading_rows] in Hlen.
      change (row_similarity (row x0)) with h.
      destruct (Qeq_bool h (row_similarity (row x0))); [|simpl in Hlen; lia].
      destruct (Qeq_bool h (row_similarity r1)); [reflexivity | simpl in Hlen; lia]. }
  destruct Hshape as (r1 & rest & Edf & Eq1).
  apply (df_loop_crowded bounded df m (row x0) r1 rest Edf Eq1).
  change (row_similarity (row x0)) with h.
  assert (Hfa : forall q p, fst p = fst p0 ->
            PyList.mem (fst p0) (ends (row (q, p))) = true).
  { intros q [a b] E. simpl in E. subst a. apply mem_In. now left. }
  assert (Hfb : forall q p, snd p = snd p0 ->
            PyList.mem (snd p0) (ends (row (q, p))) = true).
  { intros q [a b] E. simpl in E. subst b. apply mem_In. right. now left. }
  assert (Htwo : forall e x y, In x (leading_rows h df) -> In y (leading_rows h df) ->
            x <> y -> PyList.mem e (ends x) = true -> PyList.mem e (ends y) = true ->
            2 <= count_occ string_dec (flat_map ends (leading_rows h df)) e).
  { intros e x y Hx Hy Hxy Ex Ey.
    eapply Nat.le_trans; [|apply count_ends].
    apply (two_members _ x y); [apply filter_In; auto | apply filter_In; auto | exact Hxy]. }
  destruct C1 as [C1|C1], C2 as [C2|C2].
  - left. exists (fst p0).
    eapply Nat.le_trans; [|apply count_ends].
    apply (three_members _ (row (q0, p0)) (row (q1, p1)) (row (q2, p2)));
      try (apply filter_In; split; [assumption|]; apply Hfa; auto); auto.
  - right. exists (row (q0, p0)). split; [assumption|].
    split; [destruct p0; exact Hab|]. split.
    + change (row_entry_a (row (q0, p0))) with (fst p0).
      apply (Htwo _ (row (q0, p0)) (row (q1, p1))); auto.
    + change (row_entry_b (row (q0, p0))) with (snd p0).
      apply (Htwo _ (row (q0, p0)) (row (q2, p2))); auto.
  - right. exists (row (q0, p0)). split; [assumption|].
    split; [destruct p0; exact Hab|]. split.
    + change (row_entry_a (row (q0, p0))) with (fst p0).
      apply (Htwo _ (row (q0, p0)) (row (q2, p2))); auto.
    + change (row_entry_b (row (q0, p0))) with (snd p0).
      apply (Htwo _ (row (q0, p0)) (row (q1, p1))); auto.
  - left. exists (snd p0).
    eapply Nat.le_trans; [|apply count_ends].
    apply (three_members _ (row (q0, p0)) (row (q1, p1)) (row (q2, p2)));
      try (apply filter_In; split; [assumption|]; apply Hfb; auto); auto.
Qed.

(** In [match_comprehensive] without normalisation, when a pair of labels
    left after the direct matches has the highest score of all such pairs
    and shares a label with two other pairs of that score (one label tied
    three times, or both labels of the pair tied once more), the call
    raises [ValueError]: the position of the pair is removed twice from
    the list of tied positions. *)
Theorem match_comprehensive_raises_on_crowded_tie
  (la lb : list string) (m0 : MatchDict) (la0 lb0 : list string)
  (a b a1 b1 a2 b2 : string) (s : Q) :
  NoDup la -> NoDup lb ->
  _find_direct_matches la lb = Ok (m0, la0, lb0) ->
  In a la0 -> In b lb0 -> In a1 la0 -> In b1 lb0 -> In a2 la0 -> In b2 lb0 ->
  (a1, b1) <> (a, b) -> (a2, b2) <> (a, b) -> (a1, b1) <> (a2, b2) ->
  (a1 = a \/ b1 = b) -> (a2 = a \/ b2 = b) ->
  ratio a b == s -> ratio a1 b1 == s -> ratio a2 b2 == s ->
  (forall a' b', In a' la0 -> In b' lb0 -> (ratio a' b' <= s)%Q) ->
  match_comprehensive ratio la lb SimplifierOff = Raise (ValueError []).
Proof.
  intros Hla Hlb Hd Ha Hb Ha1 Hb1 Ha2 Hb2 N10 N20 N12 C1 C2 S0 S1 S2 Hmax.
  unfold _find_direct_matches in Hd.
  destruct (direct_matches_spec _ _ _ _ _ Hd Hla Hlb) as (_ & _ & A & B & _).
  unfold match_comprehensive, _check_uniqueness_of_entries.
  rewrite (NoDup_has_duplicates la Hla), (NoDup_has_duplicates lb Hlb).
  cbn [bind simplify_both]. unfold _find_direct_matches. rewrite Hd. cbn [bind].
  unfold _calculate_similarities_listed_by_similarity. rewrite pair_sources_push.
  rewrite (frame_crowded (list_prod la0 lb0) (a, b) (a1, b1) (a2, b2) s true m0);
    auto; try (apply in_prod_iff; auto).
  - intros [a' b'] Hp. apply in_prod_iff in Hp. simpl. apply Hmax; tauto.
  - simpl. intros ->. apply A in Ha. apply B in Hb. tauto.
Qed.

(** In [match_similar] with the comprehensive check and without
    normalisation, when a pair of labels left after the direct matches
    scores above the floor, has the highest score of all such pairs and
    shares a label with two other pairs of that score, the call raises
    [ValueError]. *)
Theorem match_similar_raises_on_crowded_tie
  (py_int : string -> option Z) (window_width : nat)
  (list_str_len : list string -> nat) (py_sub : Q -> Q -> Q)
  (la lb : list string) (distance limit : Q) (stdin : list string)
  (m0 : MatchDict) (la0 lb0 : list string)
  (a b a1 b1 a2 b2 : string) (s : Q) :
  NoDup la -> NoDup lb ->
  _find_direct_matches la lb = Ok (m0, la0, lb0) ->
  In a la0 -> In b lb0 -> In a1 la0 -> In b1 lb0 -> In a2 la0 -> In b2 lb0 ->
  (a1, b1) <> (a, b) -> (a2, b2) <> (a, b) -> (a1, b1) <> (a2, b2) ->
  (a1 = a \/ b1 = b) -> (a2 = a \/ b2 = b) ->
  ratio a b == s -> ratio a1 b1 == s -> ratio a2 b2 == s ->
  (limit < s)%Q ->
  (forall a' b', In a' la0 -> In b' lb0 -> (ratio a' b' <= s)%Q) ->
  match_similar ratio py_int window_width list_str_len py_sub la lb SimplifyOff
    true true true distance limit stdin = Raise (ValueError []).
Proof.
  intros Hla Hlb Hd Ha Hb Ha1 Hb1 Ha2 Hb2 N10 N20 N12 C1 C2 S0 S1 S2 Hs Hmax.
  unfold _find_direct_matches in Hd.
  destruct (direct_matches_spec _ _ _ _ _ Hd Hla Hlb) as (_ & _ & A & B & _).
  unfold match_similar.
  rewrite (NoDup_has_duplicates la Hla), (NoDup_has_duplicates lb Hlb).
  cbn [negb simplify_lists]. rewrite Hd. cbn [bind negb].
  rewrite frame_rows_dataframe, score_sources_push. cbn [all_similarities].
  assert (Hin : forall x y, In x la0 -> In y lb0 -> ratio x y == s ->
            In (x, y) (filter (fun p => Qgtb (ratio (fst p) (snd p)) limit)
                         (list_prod la0 lb0))).
  { intros x y Hx Hy E. apply filter_In. split; [apply in_prod_iff; auto|].
    simpl. apply Qgtb_lt. now rewrite E. }
  rewrite (frame_crowded
             (filter (fun p => Qgtb (ratio (fst p) (snd p)) limit)
                (list_prod la0 lb0)) (a, b) (a1, b1) (a2, b2) s false m0); auto.
  - intros [a' b'] Hp. apply filter_In in Hp. destruct Hp as [Hp _].
    apply in_prod_iff in Hp. simpl. apply Hmax; tauto.
  - simpl. intros ->. apply A in Ha. apply B in Hb. tauto.
Qed.

End CrowdedTie.

Lemma match_comprehensive_raises_on_crowded_tie_witness :
  run_match_comprehensive ["abc"] ["abd"; "abe"; "abf"] SimplifierOff
  = Raise (ValueError []).
Proof.
  apply (match_comprehensive_raises_on_crowded_tie py_ratio
           ["abc"] ["abd"; "abe"; "abf"] [] ["abc"] ["abd"; "abe"; "abf"]
           "abc" "abd" "abc" "abe" "abc" "abf" (PyFloat.of_Q (2#3))).
  - apply has_duplicates_false. reflexivity.
  - apply has_duplicates_false. reflexivity.
  - vm_compute. reflexivity.
  - simpl. auto.
  - simpl. auto.
  - simpl. auto.
  - simpl. auto.
  - simpl. auto.
  - simpl. auto.
  - discriminate.
  - discriminate.
  - discriminate.
  - now left.
  - now left.
  - vm_compute. reflexivity.
  - vm_compute. reflexivity.
  - vm_compute. reflexivity.
  - intros a' b' [<-|[]] [<-|[<-|[<-|[]]]]; vm_compute; discriminate.
Defined.

Lemma match_similar_raises_on_crowded_tie_witness :
  run_match_similar ["abc"; "xbd"] ["abd"; "xbc"] SimplifyOff
    true true true (1#10) (6#10) []
  = Raise (ValueError []).
Proof.
  apply (match_similar_raises_on_crowded_tie py_ratio int_of_decimal 200
           plain_list_str_len PyFloat.sub ["abc"; "xbd"] ["abd"; "xbc"] (PyFloat.of_Q (1#10)) (PyFloat.of_Q (6#10)) []
           [] ["abc"; "xbd"] ["abd"; "xbc"]
           "abc" "abd" "abc" "xbc" "xbd" "abd" (PyFloat.of_Q (2#3))).
  - apply has_duplicates_false. reflexivity.
  - apply has_duplicates_false. reflexivity.
  - vm_compute. reflexivity.
  - simpl. auto.
  - simpl. auto.
  - simpl. auto.
  - simpl. auto.
  - simpl. auto.
  - simpl. auto.
  - discriminate.
  - discriminate.
  - discriminate.
  - now left.
  - now right.
  - vm_compute. reflexivity.
  - vm_compute. reflexivity.
  - vm_compute. reflexivity.
  - vm_compute. reflexivity.
  - intros a' b' [<-|[<-|[]]] [<-|[<-|[]]]; vm_compute; discriminate.
Defined.

(** ** Two separate pairs tied at the top of the frame *)

Lemma remove_first_occurrences_self (l : list string) :
  remove_first_occurrences l l = Ok [].
Proof.
  induction l as [|x l IH]; [reflexivity|].
  cbn [remove_first_occurrences PyList.remove]. rewrite String.eqb_refl.
  cbn [bind]. exact IH.
Qed.

Lemma tied_indexes_none (h : Q) (k : nat) (rest : list Row) :
  (forall r, In r rest -> Qeq_bool h (row_similarity r) = false) ->
  tied_indexes h k rest = [].
Proof.
  destruct rest as [|r rest]; intros H; [reflexivity|].
  cbn [tied_indexes]. now rewrite (H r (or_introl eq_refl)).
Qed.

Lemma drop_sharing (a b : string) (rest : list Row) :
  (forall r, In r rest -> row_entry_a r = a \/ row_entry_b r = b) ->
  drop_entry_b b (drop_entry_a a rest) = [].
Proof.
  intros H. unfold drop_entry_b, drop_entry_a. rewrite filter_filter.
  apply filter_none. intros r Hr.
  destruct (H r Hr) as [->| ->]; rewrite String.eqb_refl; cbn [negb andb];
    [reflexivity | apply andb_false_r].
Qed.

(** The second of two tied rows is looked up at its old position in the
    frame that the first commit has already shortened and re-indexed. *)
Lemma df_step_stale_index (bounded : bool) (r0 r1 : Row) (rest : list Row)
  (m : MatchDict) :
  Qeq_bool (row_similarity r0) (row_similarity r1) = true ->
  (forall r, In r rest -> Qeq_bool (row_similarity r0) (row_similarity r) = false) ->
  NoDup [row_entry_a r0; row_entry_b r0; row_entry_a r1; row_entry_b r1] ->
  (forall r, In r rest ->
     row_entry_a r = row_entry_a r0 \/ row_entry_b r = row_entry_b r0) ->
  df_step bounded (r0 :: r1 :: rest) m = Raise KeyError.
Proof.
  intros Hq Hrest Hnd Hshare.
  assert (Ha : String.eqb (row_entry_a r1) (row_entry_a r0) = false).
  { apply String.eqb_neq. intros E. inversion Hnd as [|? ? H1 _]; subst.
    apply H1. rewrite <- E. simpl. auto. }
  assert (Hb : String.eqb (row_entry_b r1) (row_entry_b r0) = false).
  { apply String.eqb_neq. intros E. inversion Hnd as [|? ? _ H2]; subst.
    inversion H2 as [|? ? H3 _]; subst. apply H3. rewrite <- E. simpl. auto. }
  unfold df_step. cbv zeta. rewrite Hq. cbn [negb tied_indexes].
  rewrite Qeq_bool_refl, Hq, (tied_indexes_none _ 2 rest Hrest).
  cbn [collect_entries nth_error of_option bind app].
  rewrite (to_set_id _ Hnd), remove_first_occurrences_self.
  cbn [bind mark_doubled last commit_indexes nth_error of_option].
  unfold drop_entry_a at 1. cbn [filter]. rewrite String.eqb_refl, Ha. cbn [negb].
  fold (drop_entry_a (row_entry_a r0) rest).
  unfold drop_entry_b at 1. cbn [filter]. rewrite Hb. cbn [negb].
  fold (drop_entry_b (row_entry_b r0) (drop_entry_a (row_entry_a r0) rest)).
  rewrite (drop_sharing _ _ rest Hshare). reflexivity.
Qed.

Lemma df_loop_stale_index (bounded : bool) (r0 r1 : Row) (rest : list Row)
  (m : MatchDict) :
  Qeq_bool (row_similarity r0) (row_similarity r1) = true ->
  (forall r, In r rest -> Qeq_bool (row_similarity r0) (row_similarity r) = false) ->
  NoDup [row_entry_a r0; row_entry_b r0; row_entry_a r1; row_entry_b r1] ->
  (forall r, In r rest ->
     row_entry_a r = row_entry_a r0 \/ row_entry_b r = row_entry_b r0) ->
  df_loop (df_loop_fuel (r0 :: r1 :: rest)) bounded (r0 :: r1 :: rest) 0 m
  = Raise KeyError.
Proof.
  intros Hq Hrest Hnd Hshare.
  unfold df_loop_fuel. cbn [length df_loop Nat.eqb orb].
  now rewrite (df_step_stale_index bounded r0 r1 rest m Hq Hrest Hnd Hshare).
Qed.

(** A list in descending order of its keys starts with the elements whose
    key is the highest. *)
Lemma descending_split {X : Type} (key : X -> Q) (s : Q) (l : list X) :
  descending (map key l) ->
  (forall x, In x l -> (key x <= s)%Q) ->
  l = filter (fun x => Qeq_bool s (key x)) l
      ++ filter (fun x => negb (Qeq_bool s (key x))) l.
Proof.
  induction l as [|x l IH]; intros Hd Hle; [reflexivity|].
  cbn [map descending] in Hd. destruct Hd as [Hd1 Hd2]. cbn [filter].
  destruct (Qeq_bool s (key x)) eqn:E; cbn [negb app].
  - f_equal. apply IH; [assumption|]. intros y Hy. apply Hle. now right.
  - assert (Hx : (key x < s)%Q).
    { pose proof (Hle x (or_introl eq_refl)) as Hxs. apply Qle_lteq in Hxs.
      destruct Hxs as [H|H]; [assumption|].
      symmetry in H. apply Qeq_bool_iff in H. congruence. }
    assert (Hlow : forall y, In y l -> Qeq_bool s (key y) = false).
    { intros y Hy. destruct (Qeq_bool s (key y)) eqn:Ey; [|reflexivity].
      apply Qeq_bool_iff in Ey. exfalso.
      assert (Hyx : (key y <= key x)%Q).
      { apply Hd1. apply in_map_iff. exists y. auto. }
      rewrite <- Ey in Hyx. apply (Qlt_not_le _ _ Hx Hyx). }
    rewrite (filter_none (fun y => Qeq_bool s (key y)) l Hlow). cbn [app]. f_equal.
    clear - Hlow. induction l as [|y l IH]; [reflexivity|]. cbn [filter].
    rewrite (Hlow y (or_introl eq_refl)). cbn [negb]. f_equal.
    apply IH. intros z Hz. apply Hlow. now right.
Qed.

Lemma map_filter_agree {X Y : Type} (h : X -> Y) (f : X -> bool) (g : Y -> bool)
  (l : list X) :
  (forall x, In x l -> f x = g (h x)) ->
  map h (filter f l) = filter g (map h l).
Proof.
  induction l as [|x l IH]; intros H; [reflexivity|]. cbn [filter map].
  rewrite <- (H x (or_introl eq_refl)).
  destruct (f x); cbn [map]; [f_equal|]; apply IH; intros y Hy; apply H; now right.
Qed.

Section TwoTiedPairs.

Variable ratio : string -> string -> Q.

Lemma frame_two_pairs (vs : list (string * string)) (p p' : string * string)
  (bounded : bool) (m : MatchDict) :
  NoDup vs -> In p vs -> In p' vs ->
  ratio (fst p) (snd p) == ratio (fst p') (snd p') ->
  NoDup [fst p; snd p; fst p'; snd p'] ->
  (forall q, In q vs -> q <> p -> q <> p' ->
     (ratio (fst q) (snd q) < ratio (fst p) (snd p))%Q
     /\ (fst q = fst p \/ snd q = snd p)
     /\ (fst q = fst p' \/ snd q = snd p')) ->
  let df := _create_similarity_dataframe
              (order_by_key
                 (fold_left (fun d v => push (ratio (fst v) (snd v)) v d) vs [])) in
  df_loop (df_loop_fuel df) bounded df 0 m = Raise KeyError.
Proof.
  intros Hnd Hp Hp' Heq Hlab Hother. cbv zeta. rewrite dataframe_listed.
  destruct (ordered_table_spec (string * string)
              (fun v => ratio (fst v) (snd v)) vs) as (P & S & D & _).
  set (d := order_by_key _) in *.
  set (L := listed d) in *.
  set (s := ratio (fst p) (snd p)) in *.
  set (row := fun x : Q * (string * string) => (fst x, fst (snd x), snd (snd x))).
  assert (Hvs : forall x, In x L -> In (snd x) vs).
  { intros x Hx. apply (Permutation_in _ P). apply in_map_iff. exists x. auto. }
  assert (Hscore : forall x, In x L -> ratio (fst (snd x)) (snd (snd x)) == fst x).
  { intros [q v] Hx. apply (S q v Hx). }
  assert (Hcases : forall q, In q vs ->
            (ratio (fst q) (snd q) == s /\ (q = p \/ q = p'))
            \/ ((ratio (fst q) (snd q) < s)%Q /\ q <> p /\ q <> p'
                /\ (fst q = fst p \/ snd q = snd p)
                /\ (fst q = fst p' \/ snd q = snd p'))).
  { intros q Hq.
    destruct (list_eq_dec string_dec [fst q; snd q] [fst p; snd p]) as [E|E].
    { left. assert (q = p) by (destruct q, p; simpl in E; congruence).
      subst q. split; [reflexivity | now left]. }
    destruct (list_eq_dec string_dec [fst q; snd q] [fst p'; snd p']) as [E'|E'].
    { left. assert (q = p') by (destruct q, p'; simpl in E'; congruence).
      subst q. split; [unfold s; now symmetry | now right]. }
    right.
    assert (N1 : q <> p) by (intros ->; now apply E).
    assert (N2 : q <> p') by (intros ->; now apply E').
    destruct (Hother q Hq N1 N2) as (H1 & H2 & H3). auto. }
  assert (Hbound : forall x, In x L -> (fst x <= s)%Q).
  { intros x Hx. rewrite <- (Hscore x Hx).
    destruct (Hcases _ (Hvs x Hx)) as [[H _]|[H _]];
      [rewrite H; apply Qle_refl | now apply Qlt_le_weak]. }
  pose proof (descending_split fst s L D Hbound) as Hsplit.
  set (tops := filter (fun x => Qeq_bool s (fst x)) L) in *.
  set (lows := filter (fun x => negb (Qeq_bool s (fst x))) L) in *.
  assert (Htop : forall x, In x L ->
            Qeq_bool s (fst x)
            = Qeq_bool s (ratio (fst (snd x)) (snd (snd x)))).
  { intros x Hx. rewrite !(Qeq_bool_comm s).
    apply Qeq_bool_congr. apply Qeq_bool_iff. symmetry. apply (Hscore x Hx). }
  assert (Hperm : Permutation [p; p'] (map snd tops)).
  { unfold tops.
    rewrite (map_filter_agree snd (fun x => Qeq_bool s (fst x))
               (fun v => Qeq_bool s (ratio (fst v) (snd v))) L Htop).
    apply NoDup_Permutation.
    - constructor; [|constructor; [intros [] | constructor]].
      intros [E|[]]. inversion Hlab as [|? ? H1 _]. apply H1.
      rewrite E. simpl. auto.
    - apply NoDup_filter. apply (Permutation_NoDup (Permutation_sym P) Hnd).
    - intros q. rewrite filter_In. split.
      + intros [<-|[<-|[]]].
        * split; [apply (Permutation_in _ (Permutation_sym P) Hp)|].
          apply Qeq_bool_refl.
        * split; [apply (Permutation_in _ (Permutation_sym P) Hp')|].
          apply Qeq_bool_iff. exact Heq.
      + intros [Hq Es]. apply (Permutation_in _ P) in Hq.
        apply Qeq_bool_iff in Es.
        destruct (Hcases q Hq) as [[_ [->| ->]]|[Hlt _]]; simpl; auto.
        exfalso. rewrite <- Es in Hlt. apply (Qlt_irrefl _ Hlt). }
  assert (Hlow : forall x, In x lows ->
            Qeq_bool s (fst x) = false
            /\ (fst (snd x) = fst p \/ snd (snd x) = snd p)
            /\ (fst (snd x) = fst p' \/ snd (snd x) = snd p')).
  { intros x Hx. unfold lows in Hx. apply filter_In in Hx. destruct Hx as [Hx Hn].
    apply negb_true_iff in Hn. split; [assumption|].
    rewrite (Htop x Hx) in Hn.
    destruct (Hcases _ (Hvs x Hx)) as [[H _]|(_ & _ & _ & H1 & H2)]; [|auto].
    symmetry in H. apply Qeq_bool_iff in H. congruence. }
  assert (Hin_top : forall x, In x tops -> Qeq_bool s (fst x) = true).
  { intros x Hx. unfold tops in Hx. apply filter_In in Hx. tauto. }
  rewrite Hsplit, map_app.
  assert (Hgo : forall x0 x1 u u',
            tops = [x0; x1] -> snd x0 = u -> snd x1 = u' ->
            NoDup [fst u; snd u; fst u'; snd u'] ->
            (forall x, In x lows ->
               fst (snd x) = fst u \/ snd (snd x) = snd u) ->
            df_loop (df_loop_fuel (map row tops ++ map row lows)) bounded
              (map row tops ++ map row lows) 0 m = Raise KeyError).
  { intros x0 x1 u u' Et E0 E1 Hnd' Hshare.
    assert (T0 : Qeq_bool s (fst x0) = true) by (apply Hin_top; rewrite Et; simpl; auto).
    assert (T1 : Qeq_bool s (fst x1) = true) by (apply Hin_top; rewrite Et; simpl; auto).
    rewrite Et. cbn [map app].
    apply df_loop_stale_index.
    - change (Qeq_bool (fst x0) (fst x1) = true).
      rewrite <- (Qeq_bool_congr s (fst x0) (fst x1) T0). exact T1.
    - intros r Hr. apply in_map_iff in Hr. destruct Hr as (x & <- & Hx).
      change (Qeq_bool (fst x0) (fst x) = false).
      rewrite <- (Qeq_bool_congr s (fst x0) (fst x) T0). apply (Hlow x Hx).
    - change (NoDup [fst (snd x0); snd (snd x0); fst (snd x1); snd (snd x1)]).
      rewrite E0, E1. exact Hnd'.
    - intros r Hr. apply in_map_iff in Hr. destruct Hr as (x & <- & Hx).
      change (fst (snd x) = fst (snd x0) \/ snd (snd x) = snd (snd x0)).
      rewrite E0. apply (Hshare x Hx). }
  apply Permutation_length_2_inv in Hperm.
  destruct Hperm as [E|E].
  - destruct tops as [|x0 [|x1 [|x2 t]]] eqn:Et; try discriminate.
    cbn [map] in E. injection E as E0 E1.
    apply (Hgo x0 x1 p p'); auto. intros x Hx. apply (Hlow x Hx).
  - destruct tops as [|x0 [|x1 [|x2 t]]] eqn:Et; try discriminate.
    cbn [map] in E. injection E as E0 E1.
    apply (Hgo x0 x1 p' p); auto.
    + inversion Hlab as [|? ? A1 A2]; subst. inversion A2 as [|? ? B1 B2]; subst.
      inversion B2 as [|? ? C1 C2]; subst. simpl in A1, B1, C1.
      repeat constructor; simpl; intuition.
    + intros x Hx. apply (Hlow x Hx).
Qed.

(** When exactly two source labels and two target labels are left after
    the direct matches and the two pairs they form one way score the same,
    above both crossing pairs, [match_comprehensive] (without
    normalisation) raises [KeyError]: after the first pair is committed
    the frame is re-indexed, and the position kept for the second pair
    points past its end. *)
Theorem match_comprehensive_raises_on_two_tied_pairs
  (la lb : list string) (m0 : MatchDict) (la0 lb0 : list string)
  (a1 a2 b1 b2 : string) :
  NoDup la -> NoDup lb ->
  _find_direct_matches la lb = Ok (m0, la0, lb0) ->
  (forall a, In a la0 <-> a = a1 \/ a = a2) ->
  (forall b, In b lb0 <-> b = b1 \/ b = b2) ->
  a1 <> a2 -> b1 <> b2 ->
  ratio a1 b1 == ratio a2 b2 ->
  (ratio a1 b2 < ratio a1 b1)%Q ->
  (ratio a2 b1 < ratio a1 b1)%Q ->
  match_comprehensive ratio la lb SimplifierOff = Raise KeyError.
Proof.
  intros Hla Hlb Hd HA HB Na Nb Heq H12 H21.
  unfold _find_direct_matches in Hd.
  destruct (direct_matches_spec _ _ _ _ _ Hd Hla Hlb) as (N1 & N2 & A & B & _).
  assert (Hdisj : forall a b, In a la0 -> In b lb0 -> a <> b).
  { intros a b Ha Hb ->. apply A in Ha. apply B in Hb. tauto. }
  assert (I1 : In a1 la0) by (apply HA; auto).
  assert (I2 : In a2 la0) by (apply HA; auto).
  assert (J1 : In b1 lb0) by (apply HB; auto).
  assert (J2 : In b2 lb0) by (apply HB; auto).
  unfold match_comprehensive, _check_uniqueness_of_entries.
  rewrite (NoDup_has_duplicates la Hla), (NoDup_has_duplicates lb Hlb).
  cbn [bind simplify_both]. unfold _find_direct_matches. rewrite Hd. cbn [bind].
  unfold _calculate_similarities_listed_by_similarity. rewrite pair_sources_push.
  rewrite (frame_two_pairs (list_prod la0 lb0) (a1, b1) (a2, b2) true m0);
    auto; try (apply in_prod_iff; auto).
  - now apply list_prod_NoDup.
  - simpl. repeat constructor; simpl; intros H;
      repeat match goal with
             | H : _ \/ _ |- _ => destruct H
             | H : False |- _ => contradiction
             end;
      try congruence;
      match goal with
      | E : ?x = ?y |- _ =>
          first [ exact (Hdisj x y ltac:(assumption) ltac:(assumption) E)
                | exact (Hdisj y x ltac:(assumption) ltac:(assumption) (eq_sym E)) ]
      end.
  - intros [a b] Hq Np Np'. apply in_prod_iff in Hq. destruct Hq as [Ha Hb].
    apply HA in Ha. apply HB in Hb. simpl.
    destruct Ha as [-> | ->], Hb as [-> | ->]; try congruence.
    + split; [assumption|]. auto.
    + split; [assumption|]. auto.
Qed.

End TwoTiedPairs.

Lemma match_comprehensive_raises_on_two_tied_pairs_witness :
  run_match_comprehensive ["abcd1"; "wxyz1"] ["abcd2"; "wxyz2"] SimplifierOff
  = Raise KeyError.
Proof.
  apply (match_comprehensive_raises_on_two_tied_pairs py_ratio
           ["abcd1"; "wxyz1"] ["abcd2"; "wxyz2"] []
           ["abcd1"; "wxyz1"] ["abcd2"; "wxyz2"]
           "abcd1" "wxyz1" "abcd2" "wxyz2").
  - apply has_duplicates_false. reflexivity.
  - apply has_duplicates_false. reflexivity.
  - vm_compute. reflexivity.
  - intros a. simpl. intuition.
  - intros b. simpl. intuition.
  - discriminate.
  - discriminate.
  - vm_compute. reflexivity.
  - vm_compute. reflexivity.
  - vm_compute. reflexivity.
Defined.

(** ** The manual-selection variant: the rounds that do not ask *)

Section LeadingScore.

Variable V : Type.
Variable score : V -> Q.
Variable V_eq_dec : forall x y : V, {x = y} + {x <> y}.

Lemma qdict_get_congr (q q' : Q) (d : Dict.t Q (list V)) :
  Qeq_bool q q' = true -> Dict.get Qeq_bool q d = Dict.get Qeq_bool q' d.
Proof.
  intros H. induction d as [|[k v] d IH]; simpl; [reflexivity|].
  rewrite (Qeq_bool_congr q q' k H), IH. reflexivity.
Qed.

Lemma qdict_get_set (q s : Q) (x : list V) (d : Dict.t Q (list V)) :
  Dict.get Qeq_bool q (Dict.set Qeq_bool s x d)
  = if Qeq_bool q s then Some x else Dict.get Qeq_bool q d.
Proof.
  induction d as [|[k0 v0] d IH]; simpl; [reflexivity|].
  destruct (Qeq_bool s k0) eqn:E1; simpl.
  - rewrite (Qeq_bool_comm q s), (Qeq_bool_congr s k0 q E1), (Qeq_bool_comm k0 q).
    destruct (Qeq_bool q k0); reflexivity.
  - destruct (Qeq_bool q k0) eqn:E2; [|exact IH].
    destruct (Qeq_bool q s) eqn:E3; [|reflexivity].
    rewrite Qeq_bool_comm in E3. rewrite (Qeq_bool_congr s q k0 E3) in E1. congruence.
Qed.

Lemma push_get (q s : Q) (v : V) (d : Dict.t Q (list V)) :
  Dict.get Qeq_bool q (push s v d)
  = if Qeq_bool q s
    then Some (match Dict.get Qeq_bool q d with
               | Some l => l ++ [v]
               | None => [v]
               end)
    else Dict.get Qeq_bool q d.
Proof.
  unfold push. destruct (Qeq_bool q s) eqn:E.
  - rewrite (qdict_get_congr q s d E).
    destruct (Dict.get Qeq_bool s d); now rewrite qdict_get_set, E.
  - destruct (Dict.get Qeq_bool s d); now rewrite qdict_get_set, E.
Qed.

(** What is listed under a score after the values [vs] have been pushed. *)
Lemma pushed_get (q : Q) (vs : list V) :
  forall d,
    Dict.get Qeq_bool q (fold_left (fun d v => push (score v) v d) vs d)
    = match Dict.get Qeq_bool q d,
            filter (fun v => Qeq_bool q (score v)) vs with
      | Some l, t => Some (l ++ t)
      | None, [] => None
      | None, t => Some t
      end.
Proof.
  induction vs as [|v vs IH]; intros d; simpl.
  - destruct (Dict.get Qeq_bool q d); [now rewrite app_nil_r | reflexivity].
  - rewrite IH, push_get. destruct (Qeq_bool q (score v)).
    + destruct (Dict.get Qeq_bool q d); [now rewrite <- app_assoc | reflexivity].
    + reflexivity.
Qed.

(** Every score key of the table is the score of a value, as it was
    computed for that value. *)
Lemma pushed_keys (vs : list V) :
  forall d k,
    In k (Dict.keys (fold_left (fun d v => push (score v) v d) vs d)) ->
    In k (Dict.keys d) \/ exists v, In v vs /\ k = score v.
Proof.
  induction vs as [|v vs IH]; intros d k; simpl; [auto|].
  intros H. apply IH in H. destruct H as [H|(v' & Hv' & E)]; [|eauto].
  rewrite push_keys in H. destruct (Dict.get Qeq_bool (score v) d); [auto|].
  apply in_app_iff in H. destruct H as [H|[<-|[]]]; eauto.
Qed.

Lemma filter_singleton (f : V -> bool) (b : V) (vs : list V) :
  NoDup vs -> In b vs -> f b = true ->
  (forall v, In v vs -> v <> b -> f v = false) ->
  filter f vs = [b].
Proof.
  induction vs as [|x vs IH]; simpl; intros Hnd Hin Hb Hother; [contradiction|].
  inversion Hnd as [|? ? Hx Hvs]; subst.
  assert (Hnone : forall l, (forall v, In v l -> f v = false) -> filter f l = []).
  { induction l as [|y l IHl]; simpl; intros Hl; [reflexivity|].
    rewrite (Hl y (or_introl eq_refl)). apply IHl. intros v Hv. apply Hl. now right. }
  destruct Hin as [->|Hin].
  - rewrite Hb. f_equal. apply Hnone. intros v Hv. apply Hother; [now right|].
    intros ->. contradiction.
  - rewrite (Hother x (or_introl eq_refl)) by (intros ->; contradiction).
    apply IH; auto.
Qed.

Lemma key_of_value (vs : list V) (v : V) :
  In v vs ->
  exists k,
    In k (Dict.keys (fold_left (fun d v => push (score v) v d) vs []))
    /\ Qeq_bool (score v) k = true.
Proof.
  intros Hv.
  destruct (Dict.get Qeq_bool (score v)
              (fold_left (fun d v => push (score v) v d) vs [])) as [l|] eqn:E.
  - apply dict_get_In in E. destruct E as (k & Hin & E). exists k. split; [|exact E].
    unfold Dict.keys. apply in_map_iff. exists (k, l). auto.
  - exfalso. rewrite pushed_get in E. simpl in E.
    destruct (filter (fun v0 => Qeq_bool (score v) (score v0)) vs) eqn:F;
      [|discriminate].
    assert (Hin : In v (filter (fun v0 => Qeq_bool (score v) (score v0)) vs)).
    { apply filter_In. split; [assumption | apply Qeq_bool_refl]. }
    rewrite F in Hin. contradiction.
Qed.

(** The table of the values [vs] when [b] alone has the highest score and
    [second] has the next one: the first key is the score of [b], it
    lists [b] alone, and the second key is the score of a value that is
    level with [second]. *)
Lemma leader_table (vs : list V) (b second : V) :
  NoDup vs -> In b vs -> In second vs ->
  (score second < score b)%Q ->
  (forall v, In v vs -> v <> b -> (score v <= score second)%Q) ->
  let d := order_by_key (fold_left (fun d v => push (score v) v d) vs []) in
  exists v1 rest,
    Dict.keys d = score b :: score v1 :: rest
    /\ Dict.get Qeq_bool (score b) d = Some [b]
    /\ In v1 vs /\ (score v1 == score second)%Q.
Proof.
  intros Hnd Hb Hs Hlt Hle. cbv zeta.
  destruct (ordered_table_spec V score vs) as (_ & _ & _ & A & D).
  destruct (pushed_spec V score vs []) as (A0 & _ & _);
    [exact I | intros q v [] |].
  set (d0 := fold_left (fun d v => push (score v) v d) vs []) in *.
  set (d := order_by_key d0) in *.
  pose proof (order_by_key_keys V d0 A0) as K. fold d in K.
  assert (Hlit : forall k, In k (Dict.keys d) -> exists v, In v vs /\ k = score v).
  { intros k Hk. rewrite K in Hk. apply (proj1 (sort_desc_In _ _)) in Hk.
    destruct (pushed_keys vs [] k Hk) as [[]|H]. exact H. }
  assert (Hkey : forall v, In v vs ->
            exists k, In k (Dict.keys d) /\ (score v == k)%Q).
  { intros v Hv. destruct (key_of_value vs v Hv) as (k & Hk & E).
    exists k. split; [|now apply Qeq_bool_iff].
    rewrite K. apply (proj2 (sort_desc_In _ _)). exact Hk. }
  assert (Hget : forall k, In k (Dict.keys d) ->
            Dict.get Qeq_bool k d = Dict.get Qeq_bool k d0).
  { intros k Hk. unfold Dict.keys in Hk. apply in_map_iff in Hk.
    destruct Hk as ([k' l] & Ek & Hin). simpl in Ek. subst k'.
    rewrite (qdict_get_own V d A k l Hin).
    apply (Permutation_in _ (order_by_key_perm V d0 A0)) in Hin.
    now rewrite (qdict_get_own V d0 A0 k l Hin). }
  assert (Hlow : forall v, In v vs -> v <> b -> (score v < score b)%Q).
  { intros v Hv Hne. eapply Qle_lt_trans; [apply (Hle v Hv Hne) | exact Hlt]. }
  destruct (Hkey b Hb) as (kb & Hkb & Eb).
  destruct (Hkey second Hs) as (ks & Hks & Es).
  destruct (Dict.keys d) as [|k0 keys] eqn:Ek; [contradiction|].
  simpl in D, A. destruct D as [D0 D1]. destruct A as [A1 A2].
  assert (Hbk : (score b <= k0)%Q).
  { rewrite Eb. destruct Hkb as [<-|Hkb]; [apply Qle_refl | now apply D0]. }
  assert (Hk0 : k0 = score b).
  { destruct (Hlit k0 (or_introl eq_refl)) as (v0 & Hv0 & E0).
    destruct (V_eq_dec v0 b) as [->|Hne]; [assumption|]. exfalso.
    apply (Qlt_not_le _ _ (Hlow v0 Hv0 Hne)). now rewrite <- E0. }
  subst k0.
  assert (Hsk : In ks keys).
  { destruct Hks as [<-|Hks]; [|assumption]. exfalso.
    apply (Qlt_irrefl (score b)). now rewrite <- Es at 1. }
  destruct keys as [|k1 rest]; [contradiction|].
  destruct (Hlit k1 (or_intror (or_introl eq_refl))) as (v1 & Hv1 & ->).
  exists v1, rest. split; [reflexivity|]. split; [|split; [assumption|]].
  - rewrite (Hget (score b) (or_introl eq_refl)). unfold d0.
    rewrite pushed_get. simpl.
    rewrite (filter_singleton (fun v => Qeq_bool (score b) (score v)) b vs Hnd Hb).
    + reflexivity.
    + apply Qeq_bool_refl.
    + intros v Hv Hne. destruct (Qeq_bool (score b) (score v)) eqn:E; [|reflexivity].
      exfalso. apply Qeq_bool_iff in E.
      apply (Qlt_irrefl (score b)). rewrite E at 1. now apply Hlow.
  - assert (Hne : v1 <> b).
    { intros ->. pose proof (A1 (score b) (or_introl eq_refl)) as F.
      rewrite Qeq_bool_refl in F. discriminate. }
    apply Qle_antisym; [now apply Hle|].
    rewrite Es. simpl in D1. destruct D1 as [D1 _].
    destruct Hsk as [<-|Hsk]; [apply Qle_refl | now apply D1].
Qed.

End LeadingScore.

Section AutomaticRounds.

Variable ratio : string -> string -> Q.
Variable py_int : string -> option Z.
Variable window_width : nat.
Variable py_sub : Q -> Q -> Q.

(** A round changes no table but the one of its own label. *)
Lemma manual_step_other_tables (distance : Q) (entry_a : string)
  (sims : Similarities) (m : MatchDict) (stdin : list string)
  (sims' : Similarities) (m' : MatchDict) (stdin' : list string) :
  manual_step py_int window_width py_sub distance entry_a (sims, m, stdin)
  = Ok (sims', m', stdin') ->
  forall other, other <> entry_a ->
    Dict.get String.eqb other sims' = Dict.get String.eqb other sims.
Proof.
  unfold manual_step. intros H other Hne. cbv zeta in H.
  inv_bind H as groups Hg. inv_bind H as s0 H0. inv_bind H as s1 H1.
  inv_bind H as asks Ha. destruct asks.
  - inv_bind H as [choice stdin1] Hc. inv_ok. reflexivity.
  - inv_bind H as top Ht. inv_bind H as [matched_entry top'] Hp. inv_ok.
    rewrite sget_sset. apply String.eqb_neq in Hne. now rewrite Hne.
Qed.

(** The round of a label with a target that leads alone. *)
Lemma manual_step_leader (distance : Q) (targets : list string) (a b : string)
  (sims : Similarities) (m : MatchDict) (stdin : list string) :
  NoDup targets ->
  Dict.get String.eqb a sims = Some (order_by_key (group_targets ratio a targets [])) ->
  leads_alone ratio py_sub distance targets a b ->
  exists sims',
    manual_step py_int window_width py_sub distance a (sims, m, stdin)
    = Ok (sims', mset a (VStr b) m, stdin).
Proof.
  intros Hnd Hget (Hb & second & Hs & Hlt & Hle & Hgap).
  rewrite group_targets_push in Hget.
  destruct (leader_table string (ratio a) string_dec targets b second
              Hnd Hb Hs Hlt Hle) as (v1 & rest & Hk & Htop & Hv1 & E1).
  destruct (manual_step_automatic py_int window_width py_sub distance a sims m stdin
              _ _ _ rest b Hget Hk Htop) as (sims' & Hstep & _).
  - apply Qgtb_lt. now apply Hgap.
  - eauto.
Qed.

Lemma manual_loop_leaders (distance : Q) (targets : list string) :
  NoDup targets ->
  forall entries, NoDup entries ->
  forall sims m stdin sims' m' stdin',
    (forall e, In e entries ->
       Dict.get String.eqb e sims
       = Some (order_by_key (group_targets ratio e targets []))) ->
    manual_loop py_int window_width py_sub distance entries (sims, m, stdin)
    = Ok (sims', m', stdin') ->
    (forall a b, In a entries -> leads_alone ratio py_sub distance targets a b ->
       mget a m' = Some (VStr b))
    /\ ((forall a, In a entries ->
           exists b, leads_alone ratio py_sub distance targets a b) ->
        stdin' = stdin).
Proof.
  intros Hnt. induction entries as [|e rest IH];
    intros Hnd sims m stdin sims' m' stdin' Htab H; simpl in H.
  - inv_ok. split; [intros a b [] | reflexivity].
  - inversion Hnd as [|? ? He Hrest]; subst.
    inv_bind H as [[sims1 m1] stdin1] Hs.
    assert (Htab1 : forall x, In x rest ->
              Dict.get String.eqb x sims1
              = Some (order_by_key (group_targets ratio x targets []))).
    { intros x Hx.
      rewrite (manual_step_other_tables _ _ _ _ _ _ _ _ Hs x)
        by (intros ->; contradiction).
      apply Htab. now right. }
    destruct (IH Hrest _ _ _ _ _ _ Htab1 H) as [I1 I2].
    destruct (manual_loop_spec ratio py_int window_width (fun _ => 0) py_sub
                distance rest _ _ _ _ _ _ H) as [_ K2].
    split.
    + intros a b [<-|Ha] Hl; [|now apply I1].
      destruct (manual_step_leader distance targets e b sims m stdin Hnt
                  (Htab e (or_introl eq_refl)) Hl) as (sims2 & E).
      pose proof (eq_trans (eq_sym E) Hs) as Q. injection Q as _ <- _.
      rewrite (K2 e He). apply mget_mset_same.
    + intros Hall. destruct (Hall e (or_introl eq_refl)) as (b & Hl).
      destruct (manual_step_leader distance targets e b sims m stdin Hnt
                  (Htab e (or_introl eq_refl)) Hl) as (sims2 & E).
      pose proof (eq_trans (eq_sym E) Hs) as Q. injection Q as _ _ <-.
      apply I2. intros a Ha. apply Hall. now right.
Qed.

Lemma sims_keys (la lb : list string) :
  NoDup la ->
  Dict.keys (_calculate_similarities_listed_by_list_for_matching_entry ratio la lb)
  = la.
Proof.
  intros Hnd. unfold _calculate_similarities_listed_by_list_for_matching_entry.
  rewrite (group_sources_exact ratio la lb [] Hnd) by (intros x _ []). simpl.
  unfold Dict.keys. rewrite map_map. simpl. apply map_id.
Qed.

(** C9, as amended: in [match_similar_with_manual_selection] (called
    without normalisation), take a source label [a] that is left after
    the direct matches and a target [b] that leads alone for it: [b] alone
    has the highest score, some target scores lower, and the float
    difference of the highest and the next score is above
    [minimal_distance_for_automatic_matching].  Then a call that returns
    has matched [a] to [b], whatever is typed at the prompts; and when
    every source label that is left has such a target, no answer is read
    at all.  The target is not removed for the other source labels: every
    label that [b] leads for in this way is matched to [b]. *)
Theorem manual_selection_matches_automatically
  (la lb : list string) (distance limit : Q) (stdin : list string)
  (out : Outcome) (m0 : MatchDict) (la0 lb0 : list string) :
  match_similar_with_manual_selection ratio py_int window_width py_sub la lb
    SimplifierOff distance limit stdin = Ok out ->
  _find_direct_matches la lb = Ok (m0, la0, lb0) ->
  (forall a b,
     In a la0 -> leads_alone ratio py_sub distance lb0 a b ->
     mget a (matched out) = Some (VStr b))
  /\ ((forall a, In a la0 -> exists b, leads_alone ratio py_sub distance lb0 a b) ->
      unread out = stdin).
Proof.
  intros H Hd. unfold match_similar_with_manual_selection in H.
  inv_bind H as u1 Hu1. inv_bind H as u2 Hu2.
  apply uniqueness_checked in Hu1. apply uniqueness_checked in Hu2.
  cbn [simplify_both bind] in H. rewrite Hd in H. cbn [bind] in H.
  inv_bind H as [[sims m1] stdin1] Hg. cbn [translate_back] in H. inv_ok.
  cbn [matched unread]. unfold _find_direct_matches in Hd.
  destruct (direct_matches_spec _ _ _ _ _ Hd Hu1 Hu2) as (N1 & N2 & _).
  rewrite (sims_keys la0 lb0 N1) in Hg.
  apply (manual_loop_leaders distance lb0 N2 la0 N1 _ _ _ _ _ _
           (fun e He => sims_get ratio la0 lb0 e N1 He) Hg).
Qed.

End AutomaticRounds.

Lemma manual_selection_matches_automatically_witness :
  exists out,
    run_match_similar_with_manual_selection
      ["abcdx"; "abcdy"] ["abcd"; "zzzz"] SimplifierOff (1#10) (6#10) ["1"]
    = Ok out
    /\ mget "abcdx" (matched out) = Some (VStr "abcd")
    /\ mget "abcdy" (matched out) = Some (VStr "abcd")
    /\ unread out = ["1"].
Proof.
  exists (mkOutcome [("abcdx", VStr "abcd"); ("abcdy", VStr "abcd")] []
            ["abcdx"; "abcdy"] ["abcd"; "zzzz"] ["1"]).
  split; [vm_compute; reflexivity|].
  assert (L : forall a, In a ["abcdx"; "abcdy"] ->
            leads_alone py_ratio PyFloat.sub (PyFloat.of_Q (1#10))
              ["abcd"; "zzzz"] a "abcd").
  { intros a Ha. split; [simpl; auto|]. exists "zzzz".
    split; [simpl; auto|].
    destruct Ha as [<-|[<-|[]]].
    - split; [vm_compute; reflexivity|]. split.
      + intros b' [<-|[<-|[]]] Hne; [congruence | vm_compute; discriminate].
      + intros b' [<-|[<-|[]]] E; [vm_compute in E; discriminate |
                                   vm_compute; reflexivity].
    - split; [vm_compute; reflexivity|]. split.
      + intros b' [<-|[<-|[]]] Hne; [congruence | vm_compute; discriminate].
      + intros b' [<-|[<-|[]]] E; [vm_compute in E; discriminate |
                                   vm_compute; reflexivity]. }
  destruct (manual_selection_matches_automatically py_ratio int_of_decimal 200
              PyFloat.sub ["abcdx"; "abcdy"] ["abcd"; "zzzz"]
              (PyFloat.of_Q (1#10)) (PyFloat.of_Q (6#10)) ["1"]
              (mkOutcome [("abcdx", VStr "abcd"); ("abcdy", VStr "abcd")] []
            ["abcdx"; "abcdy"] ["abcd"; "zzzz"] ["1"]) []
              ["abcdx"; "abcdy"] ["abcd"; "zzzz"])
    as [M U].
  - vm_compute. reflexivity.
  - vm_compute. reflexivity.
  - split; [apply M; [simpl; auto | apply L; simpl; auto]|].
    split; [apply M; [simpl; auto | apply L; simpl; auto]|].
    apply U. intros a Ha. exists "abcd". now apply L.
Defined.

(** ** The interactive mode: matching without asking, and showing a tie *)

Lemma qset_keys (k : Q) (v : Entry) (d : SimDict) :
  Dict.keys (qset k v d)
  = match qget k d with
    | Some _ => Dict.keys d
    | None => Dict.keys d ++ [k]
    end.
Proof.
  unfold qset, qget, Dict.keys. induction d as [|[k0 v0] d IH]; simpl; [reflexivity|].
  destruct (Qeq_bool k k0); simpl; [reflexivity|].
  rewrite IH. destruct (Dict.get Qeq_bool k d); reflexivity.
Qed.

Lemma qget_none (k : Q) (d : SimDict) :
  qget k d = None -> forall k', In k' (Dict.keys d) -> Qeq_bool k k' = false.
Proof.
  unfold qget, Dict.keys. induction d as [|[k0 v0] d IH]; simpl; [intros _ k' []|].
  destruct (Qeq_bool k k0) eqn:E; [discriminate|].
  intros H k' [<-|Hk']; auto.
Qed.

Lemma check_for_unique_similarity_apart (s : Q) (b : string) (entry : SimDict) :
  apart (Dict.keys entry) ->
  apart (Dict.keys (_check_for_unique_similarity s b entry)).
Proof.
  intros H. unfold _check_for_unique_similarity.
  destruct (qget s entry) as [[x|l]|] eqn:E; rewrite qset_keys, E; try assumption.
  apply apart_app; [assumption|]. now apply qget_none.
Qed.

Section Leader.

Variable ratio : string -> string -> Q.
Variable py_sub : Q -> Q -> Q.
Variable limit : Q.

Lemma score_targets_apart (a : string) (todo : list string) :
  forall entry all enforce,
    apart (Dict.keys entry) ->
    apart (Dict.keys (fst (score_targets ratio limit enforce a todo (entry, all)))).
Proof.
  induction todo as [|b rest IH]; intros entry all enforce H; simpl; [assumption|].
  destruct (Qgtb (ratio a b) limit).
  - apply IH. now apply check_for_unique_similarity_apart.
  - now apply IH.
Qed.

Lemma entry_of_apart (a : string) (targets : list string) :
  apart (Dict.keys (entry_of ratio limit a targets)).
Proof. unfold entry_of. apply score_targets_apart. exact I. Qed.

(** A score listed for a source label is the score of a target above the
    floor. *)
Lemma entry_of_key (a : string) (targets : list string) (k : Q) :
  In k (Dict.keys (entry_of ratio limit a targets)) ->
  exists b, In b targets /\ k == ratio a b /\ (limit < ratio a b)%Q.
Proof.
  intros H. apply qget_In_keys in H. destruct H as [v Hv].
  rewrite entry_of_groups in Hv.
  destruct (tied_at ratio limit a k targets) as [|b r] eqn:E; [discriminate|].
  assert (Hb : In b (tied_at ratio limit a k targets)) by (rewrite E; now left).
  unfold tied_at in Hb. apply filter_In in Hb. destruct Hb as [Hb Hc].
  apply andb_prop in Hc. destruct Hc as [H1 H2].
  exists b. split; [assumption|]. split; [now apply Qeq_bool_iff | now apply Qgtb_lt].
Qed.

(** The score of a target above the floor is listed. *)
Lemma entry_of_listed (a : string) (targets : list string) (b : string) :
  In b targets -> (limit < ratio a b)%Q ->
  exists k, In k (Dict.keys (entry_of ratio limit a targets)) /\ k == ratio a b.
Proof.
  intros Hb Hs.
  assert (Hg : qget (ratio a b) (entry_of ratio limit a targets) <> None).
  { rewrite entry_of_groups.
    assert (Hin : In b (tied_at ratio limit a (ratio a b) targets)).
    { unfold tied_at. apply filter_In. split; [assumption|].
      apply andb_true_intro. split; [apply Qeq_bool_refl | now apply Qgtb_lt]. }
    destruct (tied_at ratio limit a (ratio a b) targets) as [|x [|y r]];
      [contradiction| |]; discriminate. }
  destruct (qget (ratio a b) (entry_of ratio limit a targets)) as [e|] eqn:E;
    [|congruence].
  apply dict_get_In in E. destruct E as (k & Hk & Ek).
  exists k. split.
  - unfold Dict.keys. apply in_map_iff. exists (k, e). auto.
  - apply Qeq_bool_iff in Ek. now symmetry.
Qed.

(** The first score of the descending list is the best score. *)
Lemma best_score_first (a : string) (targets : list string) (s : Q)
  (top : Q) (rest : list Q) :
  (limit < s)%Q ->
  (forall b, In b targets -> (ratio a b <= s)%Q) ->
  sort_desc (Dict.keys (entry_of ratio limit a targets)) = top :: rest ->
  (exists b, In b targets /\ ratio a b == s) ->
  top == s.
Proof.
  intros Hs Hmax Hsort (b0 & Hb0 & Eb0).
  destruct (sort_desc_head _ _ _ Hsort) as [Htop Hall].
  apply Qle_antisym.
  - apply entry_of_key in Htop. destruct Htop as (b & Hb & -> & _). auto.
  - destruct (entry_of_listed a targets b0 Hb0) as (k & Hk & Ek).
    + now rewrite Eb0.
    + rewrite <- Eb0, <- Ek. auto.
Qed.

Lemma apart_Permutation (l l' : list Q) :
  Permutation l l' -> apart l -> apart l'.
Proof.
  induction 1 as [|x l l' Hp IH|x y l|l l' l'' H1 IH1 H2 IH2]; simpl; auto.
  - intros [H1 H2]. split; [|auto].
    intros k Hk. apply H1. eapply Permutation_in; [symmetry|]; eauto.
  - intros (H1 & H2 & H3). split; [|split].
    + intros k [<-|Hk]; [|auto]. rewrite Qeq_bool_comm. apply H1. now left.
    + intros k Hk. apply H1. now right.
    + assumption.
Qed.

Lemma sorted_keys_apart (a : string) (targets : list string) :
  apart (sort_desc (Dict.keys (entry_of ratio limit a targets))).
Proof.
  apply (apart_Permutation (Dict.keys (entry_of ratio limit a targets))).
  - symmetry. apply sort_desc_perm.
  - apply entry_of_apart.
Qed.

(** A score listed for a source label is the float computed for a target
    above the floor. *)
Lemma entry_of_key_exact (a : string) (targets : list string) (k : Q) :
  In k (Dict.keys (entry_of ratio limit a targets)) ->
  exists b, In b targets /\ k = ratio a b /\ (limit < ratio a b)%Q.
Proof.
  intros H. destruct (entry_of_key a targets k H) as (b2 & _ & E2 & H2).
  apply (score_targets_keys ratio limit a targets [] [] false) in H.
  destruct H as [[]|(b & Hb & ->)].
  exists b. split; [assumption|]. split; [reflexivity | now rewrite E2].
Qed.

(** A single best target whose score, less the score of any other target
    above the floor, is above the distance passes the test for an
    automatic match. *)
Lemma clear_leader_accepts (a b : string) (targets : list string) (d : Q)
  (top : Q) (rest : list Q) :
  In b targets -> (limit < ratio a b)%Q ->
  (forall b', In b' targets -> b' <> b -> (limit < ratio a b')%Q ->
     (ratio a b' < ratio a b)%Q
     /\ (d < py_sub (ratio a b) (ratio a b'))%Q) ->
  ((exists b', In b' targets /\ b' <> b /\ (limit < ratio a b')%Q)
   \/ (py_sub 1 d < ratio a b)%Q) ->
  sort_desc (Dict.keys (entry_of ratio limit a targets)) = top :: rest ->
  top = ratio a b /\ accepts_automatically py_sub d (top :: rest) = true.
Proof.
  intros Hb Hs Hlead Hcase Hsort.
  assert (Hmax : forall b', In b' targets -> (ratio a b' <= ratio a b)%Q).
  { intros b' Hb'. destruct (string_dec b' b) as [->|Hne]; [apply Qle_refl|].
    destruct (Qlt_le_dec limit (ratio a b')) as [H|H].
    - apply Qlt_le_weak. now apply Hlead.
    - apply Qlt_le_weak. eapply Qle_lt_trans; eauto. }
  assert (Etop : top == ratio a b).
  { apply (best_score_first a targets (ratio a b) top rest Hs Hmax Hsort).
    exists b. split; [assumption | reflexivity]. }
  assert (Hkeys : forall k, In k (top :: rest) ->
            exists b', In b' targets /\ k = ratio a b' /\ (limit < ratio a b')%Q).
  { intros k Hk. apply entry_of_key_exact. apply sort_desc_In. now rewrite Hsort. }
  assert (Htop : top = ratio a b).
  { destruct (Hkeys top (or_introl eq_refl)) as (b0 & H0 & E0 & L0).
    destruct (string_dec b0 b) as [->|Hne]; [assumption|]. exfalso.
    destruct (Hlead b0 H0 Hne L0) as [Hlt _]. rewrite <- E0, Etop in Hlt.
    eapply Qlt_irrefl; eauto. }
  split; [assumption|].
  pose proof (sorted_keys_apart a targets) as Hap. rewrite Hsort in Hap.
  destruct rest as [|s1 rest]; simpl.
  - destruct Hcase as [(b' & H1 & H2 & H3)|Hone].
    + exfalso.
      destruct (entry_of_listed a targets b' H1 H3) as (k & Hk & Ek).
      apply sort_desc_In in Hk. rewrite Hsort in Hk. destruct Hk as [<-|[]].
      destruct (Hlead b' H1 H2 H3) as [Hc _]. rewrite <- Ek, Etop in Hc.
      eapply Qlt_irrefl; eauto.
    + apply Qgtb_lt. now rewrite Htop.
  - destruct (Hkeys s1 (or_intror (or_introl eq_refl))) as (b1 & H1 & E1 & L1).
    destruct Hap as [Hap _].
    destruct (string_dec b1 b) as [->|Hne].
    + exfalso. specialize (Hap s1 (or_introl eq_refl)).
      rewrite Htop, E1, Qeq_bool_refl in Hap. discriminate.
    + apply Qgtb_lt. rewrite Htop, E1. now apply Hlead.
Qed.

End Leader.

Section InteractiveLeader.

Variable ratio : string -> string -> Q.
Variable py_int : string -> option Z.
Variable window_width : nat.
Variable list_str_len : list string -> nat.
Variable py_sub : Q -> Q -> Q.

Lemma candidate_first (entry : SimDict) (top : Q) (rest : list Q) :
  candidate entry (top :: rest) 0%Z = of_option KeyError (qget top entry).
Proof. reflexivity. Qed.

(** A round whose label passes the test records the first candidate and
    reads no answer. *)
Lemma interactive_step_accepts (t : Tables) (d : Q) (a : string)
  (entry : SimDict) (top : Q) (rest : list Q) (c : Entry)
  (m : MatchDict) (nm stdin : list string) :
  Dict.get String.eqb a (most_similar t) = Some entry ->
  Dict.get String.eqb a (ordered_most_similar t) = Some (top :: rest) ->
  qget top entry = Some c ->
  accepts_automatically py_sub d (top :: rest) = true ->
  interactive_step py_int window_width list_str_len py_sub t d a (m, nm, stdin)
  = Ok (mset a (to_value c) m, nm, stdin).
Proof.
  intros He Ho Hc Hacc. unfold interactive_step. rewrite He. cbn [of_option bind].
  destruct entry as [|p entry]; [discriminate|].
  rewrite Ho. cbn [of_option bind]. rewrite Hacc, candidate_first, Hc.
  cbn [of_option bind].
  assert (Hh : mhas a (mset a (to_value c) m) = true).
  { apply mhas_true, mkeys_mset. now left. }
  rewrite Hh. cbn [bind]. rewrite Hh. reflexivity.
Qed.

Lemma interactive_loop_accepts (t : Tables) (d : Q) (a : string)
  (entry : SimDict) (top : Q) (rest : list Q) (c : Entry) :
  Dict.get String.eqb a (most_similar t) = Some entry ->
  Dict.get String.eqb a (ordered_most_similar t) = Some (top :: rest) ->
  qget top entry = Some c ->
  accepts_automatically py_sub d (top :: rest) = true ->
  forall la, NoDup la -> In a la ->
  forall m nm stdin m' nm' stdin',
    interactive_loop py_int window_width list_str_len py_sub t d la (m, nm, stdin)
    = Ok (m', nm', stdin') ->
    mget a m' = Some (to_value c).
Proof.
  intros He Ho Hc Hacc. induction la as [|e la IH]; intros Hnd Hin; [contradiction|].
  inversion Hnd as [|? ? Hne Hrest]; subst.
  intros m nm stdin m' nm' stdin' H. cbn [interactive_loop] in H.
  inv_bind H as [[m1 nm1] stdin1] Hs.
  destruct (string_dec e a) as [->|Hea].
  - rewrite (interactive_step_accepts t d a entry top rest c m nm stdin He Ho Hc Hacc)
      in Hs.
    assert (E : m1 = mset a (to_value c) m) by congruence.
    destruct (interactive_loop_spec ratio py_int window_width list_str_len py_sub
                t d la Hrest _ _ _ _ _ _ H) as (_ & K2 & _).
    rewrite (K2 a Hne), E. apply mget_mset_same.
  - destruct Hin as [->|Hin]; [congruence|].
    eapply IH; eauto.
Qed.

(** In the interactive mode of [match_similar] (without normalisation),
    take a source label left after the direct matches that has one best
    target above the floor, such that the float difference of its score
    and the score of any other target above the floor is above the
    distance (and its score is above the float [1 - distance] when no
    other target is above the floor).  On return the label is matched to
    that target, whatever is typed. *)
Theorem interactive_clear_leader_is_matched
  (la lb : list string) (single enforce : bool) (distance limit : Q)
  (stdin : list string) (out : Outcome)
  (m0 : MatchDict) (la0 lb0 : list string) (a b : string) :
  match_similar ratio py_int window_width list_str_len py_sub la lb SimplifyOff
    false single enforce distance limit stdin = Ok out ->
  _find_direct_matches la lb = Ok (m0, la0, lb0) ->
  In a la0 -> In b lb0 ->
  (limit < ratio a b)%Q ->
  (forall b', In b' lb0 -> b' <> b -> (limit < ratio a b')%Q ->
     (ratio a b' < ratio a b)%Q
     /\ (distance < py_sub (ratio a b) (ratio a b'))%Q) ->
  ((exists b', In b' lb0 /\ b' <> b /\ (limit < ratio a b')%Q)
   \/ (py_sub 1 distance < ratio a b)%Q) ->
  mget a (matched out) = Some (VStr b).
Proof.
  intros H Hd0 Ha Hb Hs Hlead Hcase. apply match_similar_off_inv in H.
  destruct H as (Hla & Hlb & m0' & la0' & lb0' & Hd1 & Hr).
  unfold _find_direct_matches in Hd0. rewrite Hd0 in Hd1. inv_ok.
  rename la0' into la0, lb0' into lb0, m0' into m0.
  destruct (direct_matches_spec _ _ _ _ _ Hd0 Hla Hlb) as (N1 & N2 & A & B & C).
  destruct Hr as [m la' lb' Ha' _ Hg -> | m Ha' He df Hg -> | m nm stdin' _ Hg ->];
    try discriminate.
  cbn [matched].
  destruct (tables_spec ratio limit enforce la0 lb0 a) as [Tm To].
  assert (Hmem : PyList.mem a la0 = true) by now apply mem_In.
  rewrite Hmem in Tm, To.
  destruct (entry_of_listed ratio limit a lb0 b Hb Hs) as (k & Hk & Ek).
  destruct (sort_desc_nonempty _ _ Hk) as (top & rest & Hsort).
  destruct (clear_leader_accepts ratio py_sub limit a b lb0 distance top rest
              Hb Hs Hlead Hcase Hsort) as [Etop Hacc].
  assert (Hmax : forall b', In b' lb0 -> (ratio a b' <= ratio a b)%Q).
  { intros b' Hb'. destruct (string_dec b' b) as [->|Hne]; [apply Qle_refl|].
    destruct (Qlt_le_dec limit (ratio a b')) as [Hx|Hx].
    - apply Qlt_le_weak. now apply Hlead.
    - apply Qlt_le_weak. eapply Qle_lt_trans; eauto. }
  assert (Hbest : qget top (entry_of ratio limit a lb0) = Some (Single b)).
  { rewrite (best_group ratio limit a lb0 (ratio a b) top rest Hs Hmax Hsort)
      by (exists b; split; [assumption | reflexivity]).
    assert (Hf : filter (fun b' => Qeq_bool (ratio a b') (ratio a b)) lb0 = [b]).
    { apply filter_only; [assumption | assumption | apply Qeq_bool_refl |].
      intros y Hy Hne.
      destruct (Qeq_bool (ratio a y) (ratio a b)) eqn:E; [|reflexivity].
      apply Qeq_bool_iff in E. exfalso.
      assert (Hy' : (limit < ratio a y)%Q) by now rewrite E.
      destruct (Hlead y Hy Hne Hy') as [H4 _].
      rewrite E in H4. eapply Qlt_irrefl; eauto. }
    rewrite Hf. reflexivity. }
  rewrite Hsort in To.
  exact (interactive_loop_accepts _ distance a _ top rest (Single b)
           Tm To Hbest Hacc la0 N1 Ha _ _ _ _ _ _ Hg).
Qed.

(** The candidates are printed one per column with a width, which a list
    does not accept: asking for a label whose first candidate is a list of
    tied targets fails when at least one column fits the window. *)
Lemma ask_shows_list (a : string) (entry : SimDict) (top : Q) (rest : list Q)
  (l : list string) (stdin : list string) :
  qget top entry = Some (Several l) ->
  13 <= window_width ->
  str_len list_str_len (max_of_values (Dict.values entry) a) + 3 <= window_width ->
  ask py_int window_width list_str_len a entry (top :: rest) stdin = Raise TypeError.
Proof.
  intros Hq Hw Hl. unfold ask. cbv zeta.
  set (largest := str_len list_str_len (max_of_values (Dict.values entry) a)) in *.
  set (nts := Nat.min (window_width / (largest + 3)) (window_width / 13)).
  assert (Hn : 1 <= nts).
  { unfold nts. apply Nat.min_glb.
    - apply Nat.div_str_pos. lia.
    - apply Nat.div_str_pos. lia. }
  assert (Hshow : exists k, (if nts <? length (top :: rest) then nts
                             else length (top :: rest)) = S k).
  { destruct (nts <? length (top :: rest)).
    - exists (nts - 1). lia.
    - exists (length rest). reflexivity. }
  destruct Hshow as [k ->].
  cbn [print_candidates]. change (Z.of_nat 0) with 0%Z.
  rewrite candidate_first, Hq. reflexivity.
Qed.

Lemma pack_several (group : list string) :
  2 <= length group -> pack group = Some (Several group).
Proof. destruct group as [|x [|y r]]; simpl; [lia | lia | reflexivity]. Qed.

(** In the interactive mode of [match_similar] (without normalisation),
    when the first source label left after the direct matches has its best
    score [s] above the floor tied between two or more of the remaining
    targets, and the test for an automatic match fails for it (the float
    difference of the best score and any score above the floor is at most
    the distance, and the best score is at most the float [1 - distance]),
    the call raises [TypeError] while printing the candidates, provided
    one column fits the window. *)
Theorem interactive_tie_raises_type_error
  (la lb : list string) (enforce : bool) (distance limit : Q)
  (stdin : list string)
  (m0 : MatchDict) (rest lb0 : list string) (a : string) (s : Q) :
  NoDup la -> NoDup lb ->
  _find_direct_matches la lb = Ok (m0, a :: rest, lb0) ->
  (limit < s)%Q ->
  (forall b, In b lb0 -> (ratio a b <= s)%Q) ->
  2 <= length (filter (fun b => Qeq_bool (ratio a b) s) lb0) ->
  (s <= py_sub 1 distance)%Q ->
  (forall b0 b, In b0 lb0 -> ratio a b0 == s ->
     In b lb0 -> (limit < ratio a b)%Q ->
     (py_sub (ratio a b0) (ratio a b) <= distance)%Q) ->
  13 <= window_width ->
  str_len list_str_len
    (max_of_values (Dict.values (entry_of ratio limit a lb0)) a) + 3
  <= window_width ->
  match_similar ratio py_int window_width list_str_len py_sub la lb SimplifyOff
    false true enforce distance limit stdin = Raise TypeError.
Proof.
  intros Hla Hlb Hd0 Hs Hmax Htie Hone Hnear Hw Hl.
  unfold _find_direct_matches in Hd0.
  destruct (direct_matches_spec _ _ _ _ _ Hd0 Hla Hlb) as (N1 & N2 & A & B & C).
  set (t := score_sources ratio limit enforce (a :: rest) lb0 (mkTables [] [] [])).
  destruct (tables_spec ratio limit enforce (a :: rest) lb0 a) as [Tm To].
  fold t in Tm, To.
  assert (Hmem : PyList.mem a (a :: rest) = true) by (apply mem_In; now left).
  rewrite Hmem in Tm, To.
  assert (Hex : exists b, In b lb0 /\ ratio a b == s).
  { destruct (filter (fun b => Qeq_bool (ratio a b) s) lb0) as [|b r] eqn:E;
      [simpl in Htie; lia|].
    assert (Hb : In b (filter (fun b => Qeq_bool (ratio a b) s) lb0))
      by (rewrite E; now left).
    apply filter_In in Hb. destruct Hb as [Hb Hq].
    exists b. split; [assumption | now apply Qeq_bool_iff]. }
  destruct Hex as (b0 & Hb0 & Eb0).
  destruct (entry_of_listed ratio limit a lb0 b0 Hb0) as (k & Hk & Ek);
    [now rewrite Eb0|].
  destruct (sort_desc_nonempty _ _ Hk) as (top & more & Hsort).
  assert (Hex : exists b, In b lb0 /\ ratio a b == s) by eauto.
  pose proof (best_score_first ratio limit a lb0 s top more Hs Hmax Hsort Hex) as Etop.
  pose proof (best_group ratio limit a lb0 s top more Hs Hmax Hsort Hex) as Hbest.
  rewrite (pack_several _ Htie) in Hbest.
  assert (Hkeys : forall k, In k (top :: more) ->
            exists b', In b' lb0 /\ k = ratio a b' /\ (limit < ratio a b')%Q).
  { intros k' Hk'. apply entry_of_key_exact. apply sort_desc_In. now rewrite Hsort. }
  destruct (Hkeys top (or_introl eq_refl)) as (bt & Hbt & Et & Lt).
  assert (Hacc : accepts_automatically py_sub distance (top :: more) = false).
  { destruct more as [|s1 more]; simpl.
    - apply Qgtb_le. now rewrite Etop.
    - destruct (Hkeys s1 (or_intror (or_introl eq_refl))) as (b1 & H1 & E1 & L1).
      apply Qgtb_le. rewrite Et, E1. apply Hnear; auto.
      now rewrite <- Et. }
  assert (Hno : mhas a m0 = false).
  { apply mhas_false. intros Hin. apply mget_In_keys in Hin. destruct Hin as [v Hv].
    apply C in Hv. destruct Hv as (_ & Hin & _).
    assert (Ha : In a (a :: rest)) by now left.
    apply A in Ha. tauto. }
  assert (Hstep : interactive_step py_int window_width list_str_len py_sub t distance a
                    (m0, [], stdin) = Raise TypeError).
  { unfold interactive_step. rewrite Tm. cbn [of_option bind].
    destruct (entry_of ratio limit a lb0) as [|p entry] eqn:Ee; [discriminate|].
    rewrite To, Hsort. cbn [of_option bind]. rewrite Hacc. cbn [bind].
    rewrite Hno.
    rewrite (ask_shows_list a (p :: entry) top more _ stdin Hbest Hw Hl).
    reflexivity. }
  unfold match_similar.
  rewrite (NoDup_has_duplicates la Hla), (NoDup_has_duplicates lb Hlb).
  cbn [negb simplify_lists]. rewrite Hd0. cbn [bind]. fold t.
  cbn [interactive_loop]. rewrite Hstep. reflexivity.
Qed.

End InteractiveLeader.

Lemma interactive_clear_leader_is_matched_witness :
  exists out,
    run_match_similar ["Oranje"; "zzzz"; "Apple"] ["Orange"; "Apple"]
      SimplifyOff false true false (3#10) (6#10) [] = Ok out
    /\ mget "Oranje" (matched out) = Some (VStr "Orange").
Proof.
  eexists. split; [vm_compute; reflexivity|].
  eapply (interactive_clear_leader_is_matched py_ratio int_of_decimal 200
            plain_list_str_len PyFloat.sub ["Oranje"; "zzzz"; "Apple"] ["Orange"; "Apple"]
            true false (PyFloat.of_Q (3#10)) (PyFloat.of_Q (6#10)) [] _ _ _ _ "Oranje" "Orange").
  - vm_compute. reflexivity.
  - vm_compute. reflexivity.
  - simpl. auto.
  - simpl. auto.
  - vm_compute. reflexivity.
  - intros b' [<-|[]] Hne; congruence.
  - right. vm_compute. reflexivity.
Defined.

Lemma interactive_tie_raises_type_error_witness :
  run_match_similar ["pineapple"] ["pineappla"; "pineapplo"]
    SimplifyOff false true false (1#10) (6#10) [""]
  = Raise TypeError.
Proof.
  apply (interactive_tie_raises_type_error py_ratio int_of_decimal 200
           plain_list_str_len PyFloat.sub ["pineapple"] ["pineappla"; "pineapplo"]
           false (PyFloat.of_Q (1#10)) (PyFloat.of_Q (6#10)) [""] [] [] ["pineappla"; "pineapplo"]
           "pineapple" (PyFloat.of_Q (8#9))).
  - apply has_duplicates_false. reflexivity.
  - apply has_duplicates_false. reflexivity.
  - vm_compute. reflexivity.
  - vm_compute. reflexivity.
  - intros b [<-|[<-|[]]]; vm_compute; discriminate.
  - vm_compute. lia.
  - vm_compute. discriminate.
  - intros b0 b [<-|[<-|[]]] _ [<-|[<-|[]]] _; vm_compute; discriminate.
  - lia.
  - vm_compute. lia.
Defined.

(** The difference is the one of the floats: for ["abcdefghij"] the two
    tied targets score 0.8, the third 0.7, and the float [0.8 - 0.7] is
    above the float 0.1, so the list of the tied targets is recorded
    without a prompt. *)
Lemma interactive_tie_accepted_after_rounding :
  run_match_similar ["abcdefghij"] ["abcdefghXY"; "abcdefghZW"; "abcdefgXYZ"]
    SimplifyOff false true false (1#10) (6#10) []
  = Ok (mkOutcome [("abcdefghij", VList ["abcdefghXY"; "abcdefghZW"])] []
          ["abcdefghij"] ["abcdefghXY"; "abcdefghZW"; "abcdefgXYZ"] [])
  /\ (PyFloat.of_Q (1#10)
      < PyFloat.sub (py_ratio "abcdefghij" "abcdefghXY")
          (py_ratio "abcdefghij" "abcdefgXYZ"))%Q
  /\ ~ ((1#10) < (8#10) - (7#10))%Q.
Proof.
  split; [vm_compute; reflexivity|]. split; [vm_compute; reflexivity|].
  vm_compute. discriminate.
Qed.

(** ** A number typed in the manual-selection variant *)

Section TiedScore.

Variable V : Type.
Variable score : V -> Q.

(** The table of the values [vs] when the highest score is shared: [b] is
    the first value that has it, [tied] are the others, and some value
    scores lower.  The table starts with the group of the tied values and
    has a second score. *)
Lemma tied_table (vs : list V) (b : V) (tied : list V) :
  filter (fun v => Qeq_bool (score b) (score v)) vs = b :: tied ->
  (forall v, In v vs -> (score v <= score b)%Q) ->
  (exists v, In v vs /\ (score v < score b)%Q) ->
  let d := order_by_key (fold_left (fun d v => push (score v) v d) vs []) in
  exists top s1 rest more,
    Dict.keys d = top :: s1 :: rest
    /\ top == score b
    /\ d = (top, b :: tied) :: more.
Proof.
  intros Hf Hmax (low & Hlow & Hlt). cbv zeta.
  destruct (pushed_spec V score vs []) as (A0 & _ & _);
    [exact I | intros q v [] |].
  set (d0 := fold_left (fun d v => push (score v) v d) vs []) in *.
  pose proof (order_by_key_keys V d0 A0) as K.
  assert (Hb : In b vs).
  { assert (H : In b (filter (fun v => Qeq_bool (score b) (score v)) vs))
      by (rewrite Hf; now left).
    apply filter_In in H. tauto. }
  destruct (key_of_value V score vs b Hb) as (kb & Hkb & Eb).
  destruct (key_of_value V score vs low Hlow) as (kl & Hkl & El).
  fold d0 in Hkb, Hkl. apply Qeq_bool_iff in Eb, El.
  destruct (sort_desc_nonempty _ _ Hkb) as (top & keys & Hsort).
  destruct (sort_desc_head _ _ _ Hsort) as [Htop Hall].
  assert (Etop : top == score b).
  { apply Qle_antisym.
    - destruct (pushed_keys V score vs [] top Htop) as [[]|(v & Hv & ->)]. auto.
    - rewrite Eb. auto. }
  assert (Hkeys : exists s1 rest, keys = s1 :: rest).
  { destruct keys as [|s1 rest]; [|eauto]. exfalso.
    assert (H : In kl (sort_desc (Dict.keys d0))) by now apply sort_desc_In.
    rewrite Hsort in H. destruct H as [H|[]].
    apply (Qlt_not_eq _ _ Hlt). rewrite El, <- H. exact Etop. }
  destruct Hkeys as (s1 & rest & ->).
  assert (Hget : Dict.get Qeq_bool top d0 = Some (b :: tied)).
  { unfold d0. rewrite pushed_get. simpl.
    assert (Hext : filter (fun v => Qeq_bool top (score v)) vs
                   = filter (fun v => Qeq_bool (score b) (score v)) vs).
    { apply filter_ext. intros v. apply Qeq_bool_congr. now apply Qeq_bool_iff. }
    rewrite Hext, Hf. reflexivity. }
  exists top, s1, rest. eexists.
  split; [now rewrite K, Hsort|]. split; [assumption|].
  unfold order_by_key. rewrite Hsort. cbn [flat_map]. rewrite Hget. reflexivity.
Qed.

End TiedScore.

Section NumericAnswer.

Variable ratio : string -> string -> Q.
Variable py_int : string -> option Z.
Variable window_width : nat.
Variable py_sub : Q -> Q -> Q.

(** A numeric answer in the round of a label whose first score lists
    several targets indexes the pair [(score, target)] of the first
    candidate. *)
Lemma manual_step_numeric_answer (distance : Q)
  (entry_a : string) (similarities : Similarities) (groups : GroupDict)
  (s0 s1 : Q) (ks : list Q) (b b2 : string) (tied : list string)
  (more : GroupDict)
  (matched : MatchDict) (answer : string) (rest : list string) (z : Z) :
  Dict.get String.eqb entry_a similarities = Some groups ->
  Dict.keys groups = s0 :: s1 :: ks ->
  groups = (s0, b :: b2 :: tied) :: more ->
  answer <> "" -> answer <> "break" -> py_int answer = Some z ->
  manual_step py_int window_width py_sub distance entry_a
    (similarities, matched, answer :: rest)
  = if ((z =? 1) || (z =? -1))%Z
    then Ok (similarities, mset entry_a (VStr b) matched, rest)
    else if ((z =? 0) || (z =? -2))%Z
         then Ok (similarities, mset entry_a (VFloat s0) matched, rest)
         else Raise IndexError.
Proof.
  intros Hg Hk Hd Ha1 Ha2 Hz.
  assert (Htop : gget s0 groups = Some (b :: b2 :: tied)).
  { rewrite Hd. unfold gget. simpl. now rewrite Qeq_bool_refl. }
  unfold manual_step. rewrite Hg. cbn [of_option bind]. rewrite Hk.
  cbn [length Nat.eqb nth_error of_option bind]. rewrite Htop.
  assert (Hasks : (if negb (Qgtb (py_sub s0 s1) distance) then Ok true
                   else top <- of_option KeyError (Some (b :: b2 :: tied)) ;;
                        Ok (negb (Nat.eqb (length top) 1))) = Ok true).
  { destruct (Qgtb (py_sub s0 s1) distance); reflexivity. }
  rewrite Hasks. cbn [bind]. unfold select_manually, get_print_setting,
    calculate_longest_string. rewrite Hd.
  cbn [decreasing flat_map map fst snd app bind input].
  apply String.eqb_neq in Ha1, Ha2. rewrite Ha1, Ha2, Hz.
  cbn [nth_error of_option bind]. unfold pair_item. cbn [fst snd].
  destruct ((z =? 0) || (z =? -2))%Z eqn:E0.
  - assert (E1 : ((z =? 1) || (z =? -1))%Z = false) by lia.
    rewrite E1. reflexivity.
  - destruct ((z =? 1) || (z =? -1))%Z; reflexivity.
Qed.

(** In the manual-selection variant (without normalisation), when one
    source label [a] is left after the direct matches and its highest
    score is shared by two or more targets, of which [b] comes first, and
    some target scores lower, the label is asked about whatever the
    distance is; a number typed as the answer indexes the pair
    [(score, target)] of the first candidate: 1 and -1 record [b], 0 and
    -2 record the score itself as the match of [a], and any other number
    raises [IndexError]. *)
Theorem manual_selection_numeric_answer
  (la lb : list string) (distance limit : Q)
  (answer : string) (rest : list string) (z : Z)
  (m0 : MatchDict) (a : string) (lb0 : list string)
  (b b2 : string) (tied : list string) :
  NoDup la -> NoDup lb ->
  _find_direct_matches la lb = Ok (m0, [a], lb0) ->
  filter (fun b' => Qeq_bool (ratio a b) (ratio a b')) lb0 = b :: b2 :: tied ->
  (forall b', In b' lb0 -> (ratio a b' <= ratio a b)%Q) ->
  (exists b', In b' lb0 /\ (ratio a b' < ratio a b)%Q) ->
  answer <> "" -> answer <> "break" -> py_int answer = Some z ->
  exists q,
    q == ratio a b
    /\ match_similar_with_manual_selection ratio py_int window_width py_sub la lb
         SimplifierOff distance limit (answer :: rest)
       = if ((z =? 1) || (z =? -1))%Z
         then Ok (mkOutcome (mset a (VStr b) m0) [] [a] lb0 rest)
         else if ((z =? 0) || (z =? -2))%Z
              then Ok (mkOutcome (mset a (VFloat q) m0) [] [a] lb0 rest)
              else Raise IndexError.
Proof.
  intros Hla Hlb Hd Hf Hmax Hlow Ha1 Ha2 Hz. unfold _find_direct_matches in Hd.
  destruct (direct_matches_spec _ _ _ _ _ Hd Hla Hlb) as (N1 & N2 & _).
  destruct (tied_table string (ratio a) lb0 b (b2 :: tied) Hf Hmax Hlow)
    as (top & s1 & ks & more & Hk & Etop & Hgroups).
  rewrite <- group_targets_push in Hk, Hgroups.
  exists top. split; [assumption|].
  rewrite (manual_selection_unfolded ratio py_int window_width py_sub la lb distance
             limit (answer :: rest) m0 [a] lb0 Hla Hlb Hd).
  rewrite (sims_keys ratio [a] lb0 N1). cbn [manual_loop].
  rewrite (manual_step_numeric_answer distance a _ _ top s1 ks b b2 tied more m0
             answer rest z
             (sims_get ratio [a] lb0 a N1 (or_introl eq_refl)) Hk Hgroups Ha1 Ha2 Hz).
  assert (Hdiff : forall v, difference [a] (mset a v m0) = []).
  { intros v. unfold difference. cbn.
    assert (Hh : mhas a (mset a v m0) = true) by (apply mhas_true, mkeys_mset; now left).
    now rewrite Hh. }
  destruct ((z =? 1) || (z =? -1))%Z.
  - cbn [bind]. now rewrite Hdiff.
  - destruct ((z =? 0) || (z =? -2))%Z; cbn [bind]; [now rewrite Hdiff | reflexivity].
Qed.

End NumericAnswer.

Lemma manual_selection_numeric_answer_witness :
  exists q,
    (q == py_ratio "pineapple" "pineappla")%Q
    /\ run_match_similar_with_manual_selection
         ["pineapple"] ["pineappla"; "pineapplo"; "zzzz"] SimplifierOff
         (1#10) (6#10) ["0"]
       = Ok (mkOutcome [("pineapple", VFloat q)] [] ["pineapple"]
               ["pineappla"; "pineapplo"; "zzzz"] []).
Proof.
  destruct (manual_selection_numeric_answer py_ratio int_of_decimal 200 PyFloat.sub
              ["pineapple"] ["pineappla"; "pineapplo"; "zzzz"]
              (PyFloat.of_Q (1#10)) (PyFloat.of_Q (6#10)) "0" [] 0%Z []
              "pineapple" ["pineappla"; "pineapplo"; "zzzz"]
              "pineappla" "pineapplo" [])
    as (q & Eq & H).
  - apply has_duplicates_false. reflexivity.
  - apply has_duplicates_false. reflexivity.
  - vm_compute. reflexivity.
  - vm_compute. reflexivity.
  - intros b' [<-|[<-|[<-|[]]]]; vm_compute; discriminate.
  - exists "zzzz". split; [simpl; auto | vm_compute; reflexivity].
  - discriminate.
  - discriminate.
  - reflexivity.
  - exists q. split; [exact Eq | exact H].
Defined.

(** ** Global greedy matching keeps a committed target out *)

Lemma app_last_split {A : Type} (x y : A) :
  forall pre l post,
    l ++ [x] = pre ++ y :: post ->
    (exists post0, post = post0 ++ [x] /\ l = pre ++ y :: post0)
    \/ (post = [] /\ pre = l /\ y = x).
Proof.
  induction pre as [|p pre IH]; intros l post H.
  - destruct l as [|z l]; simpl in H.
    + injection H as <- <-. right. auto.
    + injection H as -> <-. left. exists l. auto.
  - destruct l as [|z l]; simpl in H.
    + injection H as _ H. destruct pre; discriminate.
    + injection H as -> H. destruct (IH l post H) as [(post0 & -> & ->)|(-> & -> & ->)].
      * left. exists post0. auto.
      * right. auto.
Qed.

Section RowsLoop.

(** A property of the frame and the mapping that survives the dropping of
    rows and the two ways a round records a match; a list that is recorded
    holds targets of rows of the frame. *)
Variable I : list Row -> MatchDict -> Prop.

Hypothesis I_filter : forall f df m, I df m -> I (filter f df) m.
Hypothesis I_commit : forall df m r, In r df -> I df m ->
  I (drop_entry_b (row_entry_b r) (drop_entry_a (row_entry_a r) df))
    (mset (row_entry_a r) (VStr (row_entry_b r)) m).
Hypothesis I_list : forall df m r l, In r df ->
  (forall b, In b l -> exists r', In r' df /\ row_entry_b r' = b) ->
  I df m ->
  I (drop_entry_b (row_entry_b r) (drop_entry_a (row_entry_a r) df))
    (mset (row_entry_a r) (VList l) m).

Lemma commit_indexes_keeps (indexes : list nat) :
  forall df m df' m', commit_indexes indexes (df, m) = Ok (df', m') ->
    I df m -> I df' m'.
Proof.
  induction indexes as [|index rest IH]; simpl; intros df m df' m' H Hi.
  - inv_ok. assumption.
  - inv_bind H as r Hr. apply (IH _ _ _ _ H). apply I_commit; [|assumption].
    destruct (nth_error df index) eqn:E; simpl in Hr; inv_ok.
    eapply nth_error_In; eauto.
Qed.

Lemma targets_of_rows (bound : option nat) (df : list Row)
  (doubled_entries : list string) (b : string) :
  In b (flat_map (targets_of bound df) doubled_entries) ->
  exists r, In r df /\ row_entry_b r = b.
Proof.
  intros Hb. apply in_flat_map in Hb. destruct Hb as (element & _ & Hb).
  unfold targets_of in Hb. apply in_map_iff in Hb.
  destruct Hb as (r & <- & Hr). apply filter_In in Hr. destruct Hr as [Hr _].
  exists r. split; [|reflexivity]. destruct bound as [index|]; [|exact Hr].
  rewrite <- (firstn_skipn (S index) df). apply in_app_iff. now left.
Qed.

Lemma df_step_keeps (bounded : bool) (df : list Row) (m : MatchDict)
  (df' : list Row) (m' : MatchDict) :
  df_step bounded df m = Ok (df', m') -> I df m -> I df' m'.
Proof.
  unfold df_step. destruct df as [|r0 rest]; [discriminate|].
  intros H Hi. cbv zeta in H.
  destruct (match rest with
            | [] => false
            | r1 :: _ => negb (Qeq_bool (row_similarity r0) (row_similarity r1))
            end).
  - inv_ok.
    change (I (drop_entry_b (row_entry_b r0)
                 (drop_entry_a (row_entry_a r0)
                    (drop_similarity (row_similarity r0) (r0 :: rest))))
              (mset (row_entry_a r0) (VStr (row_entry_b r0)) m)).
    rewrite drop_similarity_comm. unfold drop_similarity.
    apply I_filter. apply (I_commit (r0 :: rest) m r0); [now left | assumption].
  - inv_bind H as [all_entries all_entries_with_index] Hc.
    inv_bind H as doubled_entries Hd.
    inv_bind H as [indexes' index] Hm.
    destruct indexes' as [|i indexes'].
    + inv_ok.
      pose proof (targets_of_rows (if bounded then Some index else None)
                    (r0 :: rest) doubled_entries) as Hrows.
      destruct (flat_map _ doubled_entries) as [|b l].
      * exact (I_filter _ _ _ (I_filter _ _ _ Hi)).
      * exact (I_list (r0 :: rest) m r0 (b :: l) (or_introl eq_refl) Hrows Hi).
    + eapply commit_indexes_keeps; eauto.
Qed.

Lemma df_loop_keeps (bounded : bool) (fuel : nat) :
  forall df old_length m m',
    df_loop fuel bounded df old_length m = Ok m' ->
    I df m -> exists df', I df' m'.
Proof.
  induction fuel as [|fuel IH]; intros df old_length m m' H Hi; simpl in H.
  - destruct (Nat.eqb (length df) 0 || Nat.eqb (length df) old_length);
      [inv_ok; eauto | discriminate].
  - destruct (Nat.eqb (length df) 0 || Nat.eqb (length df) old_length);
      [inv_ok; eauto|].
    inv_bind H as [df1 m1] Hs.
    eapply IH; eauto. eapply df_step_keeps; eauto.
Qed.

End RowsLoop.

Lemma dropped_row (a b : string) (df : list Row) (r : Row) :
  In r (drop_entry_b b (drop_entry_a a df)) ->
  In r df /\ row_entry_a r <> a /\ row_entry_b r <> b.
Proof.
  unfold drop_entry_b, drop_entry_a. intros H.
  apply filter_In in H. destruct H as [H Hb]. apply filter_In in H.
  destruct H as [H Ha]. rewrite negb_true_iff in Ha, Hb.
  apply String.eqb_neq in Ha, Hb. auto.
Qed.

(** Recording a value for the source label of a row of the frame. *)
Lemma committed_in_order_record (df : list Row) (m : MatchDict) (r : Row)
  (v : MatchValue) :
  In r df ->
  (forall b, In b (members v) -> exists r', In r' df /\ row_entry_b r' = b) ->
  (forall b, v = VStr b -> b = row_entry_b r) ->
  committed_in_order df m ->
  committed_in_order
    (drop_entry_b (row_entry_b r) (drop_entry_a (row_entry_a r) df))
    (mset (row_entry_a r) v m).
Proof.
  intros Hr Hrows Hscalar (J1 & J2 & J3).
  assert (Hfresh : ~ In (row_entry_a r) (mkeys m)).
  { intros Hin. exact (J2 _ Hin r Hr eq_refl). }
  assert (E : mset (row_entry_a r) v m = m ++ [(row_entry_a r, v)])
    by (apply dict_set_fresh; exact Hfresh).
  rewrite E. split; [|split].
  - intros a b Hab r' Hr'. apply dropped_row in Hr'. destruct Hr' as (Hr' & _ & Hb).
    apply in_app_iff in Hab. destruct Hab as [Hab|[Hab|[]]].
    + exact (J1 a b Hab r' Hr').
    + injection Hab as _ Hv. apply Hscalar in Hv. now subst.
  - intros a Ha r' Hr'. apply dropped_row in Hr'. destruct Hr' as (Hr' & Ha' & _).
    unfold mkeys, Dict.keys in Ha. rewrite map_app, in_app_iff in Ha.
    destruct Ha as [Ha|[<-|[]]]; [|assumption].
    exact (J2 a Ha r' Hr').
  - intros pre a b post Hsplit a' v' Hin Hb.
    apply app_last_split in Hsplit.
    destruct Hsplit as [(post0 & -> & Hm)|(-> & _ & _)]; [|contradiction].
    apply in_app_iff in Hin. destruct Hin as [Hin|[Hin|[]]].
    + exact (J3 pre a b post0 Hm a' v' Hin Hb).
    + injection Hin as _ <-. destruct (Hrows b Hb) as (r' & Hr' & Eb).
      refine (J1 a b _ r' Hr' Eb).
      rewrite Hm. apply in_app_iff. right. now left.
Qed.

Lemma df_loop_in_order (bounded : bool) (fuel : nat)
  (df : list Row) (old_length : nat) (m m' : MatchDict) :
  df_loop fuel bounded df old_length m = Ok m' ->
  committed_in_order df m -> kept_out_afterwards m'.
Proof.
  intros H Hi.
  enough (Hex : exists df', committed_in_order df' m')
    by (destruct Hex as (df' & _ & _ & Hm'); exact Hm').
  eapply (df_loop_keeps committed_in_order); [ | | | exact H | exact Hi ].
  - intros f d m0 (J1 & J2 & J3). split; [|split; [|assumption]].
    + intros a b Hab r Hr. apply filter_In in Hr. apply (J1 a b Hab). tauto.
    + intros a Ha r Hr. apply filter_In in Hr. apply (J2 a Ha). tauto.
  - intros d m0 r Hr Hj. apply committed_in_order_record; [assumption | | | assumption].
    + intros b [<-|[]]. eauto.
    + intros b Hb. now injection Hb as <-.
  - intros d m0 r l Hr Hrows Hj.
    apply committed_in_order_record; [assumption | exact Hrows | | assumption].
    intros b Hb. discriminate.
Qed.

(** The direct matches, in the order of [list_for_matching]. *)
Lemma direct_matches_listed (la lb : list string) (m0 : MatchDict)
  (la0 lb0 : list string) :
  NoDup la -> NoDup lb ->
  direct_loop la ([], la, lb) = Ok (m0, la0, lb0) ->
  m0 = map (fun x => (x, VStr x)) (filter (fun x => PyList.mem x lb) la).
Proof.
  intros Hla Hlb Hd.
  pose proof (direct_loop_exact la [] la lb Hla Hla Hlb (fun x H => H)) as Hex.
  pose proof (eq_trans (eq_sym Hd) Hex) as Heq. injection Heq as Hm _ _.
  rewrite Hm.
  now rewrite fold_mset_fresh by (first [now apply NoDup_filter | intros x _ []]).
Qed.

Lemma direct_committed_in_order (la lb : list string) (m0 : MatchDict)
  (la0 lb0 : list string) (df : list Row) :
  direct_loop la ([], la, lb) = Ok (m0, la0, lb0) ->
  NoDup la -> NoDup lb ->
  (forall r, In r df -> In (row_entry_a r) la0 /\ In (row_entry_b r) lb0) ->
  committed_in_order df m0.
Proof.
  intros Hd Hla Hlb Hdf.
  destruct (direct_matches_spec _ _ _ _ _ Hd Hla Hlb) as (N1 & N2 & A & B & C).
  pose proof (direct_matches_listed la lb m0 la0 lb0 Hla Hlb Hd) as Hm.
  set (both := filter (fun x => PyList.mem x lb) la) in *.
  assert (Hboth : forall x, In x both -> In x la /\ In x lb).
  { intros x Hx. apply filter_In in Hx. destruct Hx as [H1 H2].
    apply mem_In in H2. auto. }
  assert (Nboth : NoDup both) by now apply NoDup_filter.
  split; [|split].
  - intros a b Hab r Hr Heq. rewrite Hm in Hab. apply in_map_iff in Hab.
    destruct Hab as (x & E & Hx). injection E as <- <-.
    destruct (Hdf r Hr) as [_ Hb]. rewrite Heq in Hb. apply B in Hb.
    apply Hboth in Hx. tauto.
  - intros a Ha r Hr Heq. rewrite Hm in Ha. unfold mkeys, Dict.keys in Ha.
    rewrite map_map in Ha. simpl in Ha. rewrite map_id in Ha.
    destruct (Hdf r Hr) as [Hra _]. rewrite Heq in Hra. apply A in Hra.
    apply Hboth in Ha. tauto.
  - rewrite Hm. clear - Nboth. induction both as [|x l IH].
    + intros pre a b post H. destruct pre; discriminate.
    + inversion Nboth as [|? ? Hx Hl]; subst.
      intros pre a b post H a' v Hin Hb. destruct pre as [|p pre]; simpl in H.
      * injection H as <- <- <-. apply in_map_iff in Hin.
        destruct Hin as (y & E & Hy). injection E as <- <-.
        destruct Hb as [<-|[]]. contradiction.
      * injection H as _ H. exact (IH Hl pre a b post H a' v Hin Hb).
Qed.

(** A mapping of matches that are all single targets, no two entries with
    the same key or the same target. *)
Lemma scalars_kept_out (m : MatchDict) :
  NoDup (mkeys m) ->
  (forall a v, In (a, v) m -> exists b, v = VStr b) ->
  (forall a1 a2 b, mget a1 m = Some (VStr b) -> mget a2 m = Some (VStr b) -> a1 = a2) ->
  kept_out_afterwards m.
Proof.
  intros Hnd Hscalar Hinj pre a b post Hm a' v Hin Hb.
  assert (Hv : In (a', v) m).
  { rewrite Hm. apply in_app_iff. right. now right. }
  destruct (Hscalar a' v Hv) as (b' & ->). destruct Hb as [->|[]].
  assert (Ha : In (a, VStr b) m).
  { rewrite Hm. apply in_app_iff. right. now left. }
  assert (E : a' = a).
  { apply (Hinj a' a b); apply mget_of_In; assumption. }
  subst a'. rewrite Hm in Hnd. unfold mkeys, Dict.keys in Hnd.
  rewrite map_app in Hnd. apply NoDup_remove_2 in Hnd. apply Hnd.
  apply in_app_iff. right. apply in_map_iff. exists (a, VStr b). auto.
Qed.

Lemma translate_match_keys_NoDup (d1 d2 : LabelDict) (items : MatchDict) :
  forall acc m2,
    translate_match d1 d2 items acc = Ok m2 ->
    NoDup (mkeys acc) -> NoDup (mkeys m2).
Proof.
  induction items as [|[key value] rest IH]; simpl; intros acc m2 H Hacc.
  - inv_ok. assumption.
  - inv_bind H as key' Hk. inv_bind H as value' Hv.
    apply (IH _ _ H). now apply mset_keys_NoDup.
Qed.

Section CommitInOrder.

Variable ratio : string -> string -> Q.
Variable py_int : string -> option Z.
Variable window_width : nat.
Variable list_str_len : list string -> nat.
Variable py_sub : Q -> Q -> Q.

(** C5, as amended: in global greedy matching ([match_comprehensive], and
    [match_similar] with the comprehensive check and no normalisation),
    once a target has been committed as the match of a source label, it
    is not recorded again in a call that returns: it is the match of no
    other source label, and no entry of the mapping written afterwards
    holds it, as its match or in its list.  (The returned mapping lists
    its entries in the order in which they were written.  A target that
    is only a member of a recorded list stays available.) *)
Theorem global_greedy_commits_target_once (c : Call)
  (la lb stdin : list string) (out : Outcome) :
  global_greedy c = true ->
  call ratio py_int window_width list_str_len py_sub c la lb stdin = Ok out ->
  (forall a1 a2 b,
     mget a1 (matched out) = Some (VStr b) ->
     mget a2 (matched out) = Some (VStr b) ->
     a1 = a2)
  /\ (forall pre a b post,
        matched out = pre ++ (a, VStr b) :: post ->
        forall a' v, In (a', v) post -> ~ In b (members v)).
Proof.
  intros Hc H.
  pose proof (global_greedy_scalar_once ratio py_int window_width list_str_len
                py_sub c la lb stdin out Hc H) as Hinj.
  split; [exact Hinj|].
  change (kept_out_afterwards (matched out)).
  destruct c as [sw auto single enforce dist limit | simplified
                | simplified dist limit]; simpl in Hc, H; [| |discriminate].
  - destruct sw; try discriminate. destruct auto; [|discriminate].
    destruct enforce; [|discriminate].
    apply match_similar_off_inv in H.
    destruct H as (Hla & Hlb & m0 & la0 & lb0 & Hd & Hr).
    destruct Hr as [m la' lb' Ha He Hg -> | m Ha He df Hg -> | m nm stdin' Ha Hg ->];
      try discriminate.
    cbn [matched].
    apply (df_loop_in_order _ _ _ _ _ _ Hg).
    eapply direct_committed_in_order; eauto.
    intros r Hr. apply (frame_rows_above ratio limit true la0 lb0 r Hr).
  - unfold match_comprehensive in H.
    inv_bind H as u1 Hu1. inv_bind H as u2 Hu2.
    inv_bind H as [[[d1 d2] las] lbs] Hs.
    inv_bind H as [[m0 la0] lb0] Hd. inv_bind H as m1 Hg.
    unfold translate_back in H.
    destruct simplified as [| |cls].
    + inv_ok. cbn [matched]. cbn [simplify_both] in Hs. inv_ok.
      apply uniqueness_checked in Hu1. apply uniqueness_checked in Hu2.
      apply (df_loop_in_order _ _ _ _ _ _ Hg).
      eapply direct_committed_in_order; eauto.
      intros r Hr. apply (comprehensive_rows_In ratio la0 lb0 r Hr).
    + inv_bind H as m2 Ht. inv_bind H as nm2 Hn. inv_ok. cbn [matched] in *.
      apply scalars_kept_out; [| |exact Hinj].
      * apply (translate_match_keys_NoDup _ _ _ _ _ Ht). constructor.
      * intros a v Hin.
        destruct (translate_match_In _ _ _ _ _ Ht _ _ Hin)
          as [[]|(x & y & B & _ & _ & _ & ->)]. eauto.
    + inv_bind H as m2 Ht. inv_bind H as nm2 Hn. inv_ok. cbn [matched] in *.
      apply scalars_kept_out; [| |exact Hinj].
      * apply (translate_match_keys_NoDup _ _ _ _ _ Ht). constructor.
      * intros a v Hin.
        destruct (translate_match_In _ _ _ _ _ Ht _ _ Hin)
          as [[]|(x & y & B & _ & _ & _ & ->)]. eauto.
Qed.

End CommitInOrder.

Lemma global_greedy_commits_target_once_witness :
  exists out,
    run_call (MatchComprehensive SimplifierOff)
      ["abcdefgh"; "abcd"] ["abcdefghi"; "abcdx"; "abcdy"] [] = Ok out
    /\ matched out
       = [("abcdefgh", VStr "abcdefghi"); ("abcd", VList ["abcdx"; "abcdy"])]
    /\ (forall a1 a2 b,
          mget a1 (matched out) = Some (VStr b) ->
          mget a2 (matched out) = Some (VStr b) ->
          a1 = a2)
    /\ (forall pre a b post,
          matched out = pre ++ (a, VStr b) :: post ->
          forall a' v, In (a', v) post -> ~ In b (members v)).
Proof.
  eexists. split; [vm_compute; reflexivity|]. split; [reflexivity|].
  apply (global_greedy_commits_target_once py_ratio int_of_decimal 200
           plain_list_str_len PyFloat.sub (MatchComprehensive SimplifierOff)
           ["abcdefgh"; "abcd"] ["abcdefghi"; "abcdx"; "abcdy"] []).
  - reflexivity.
  - vm_compute. reflexivity.
Defined.

(** ** The floats and the numerals of the runs *)

(** The float 0.1 and two differences as Python computes them:
    [0.8 - 0.7] is above 0.1 and [1 - 0.9] is below it. *)
Lemma float_examples :
  PyFloat.of_Q (1#10) = 3602879701896397 # 36028797018963968
  /\ PyFloat.sub (PyFloat.of_Q (8#10)) (PyFloat.of_Q (7#10))
     = 225179981368525 # 2251799813685248
  /\ PyFloat.sub 1 (PyFloat.of_Q (9#10)) = 900719925474099 # 9007199254740992
  /\ (PyFloat.of_Q (1#10)
      < PyFloat.sub (PyFloat.of_Q (8#10)) (PyFloat.of_Q (7#10)))%Q
  /\ (PyFloat.sub 1 (PyFloat.of_Q (9#10)) < PyFloat.of_Q (1#10))%Q.
Proof. repeat split. Qed.

(** [int] reads a sign, blanks around the numeral and single underscores
    between digits. *)
Lemma int_examples :
  int_of_decimal " +1_0 " = Some 10%Z
  /\ int_of_decimal "-3" = Some (-3)%Z
  /\ int_of_decimal "1__0" = None
  /\ int_of_decimal "_1" = None
  /\ int_of_decimal "1 2" = None
  /\ int_of_decimal "" = None.
Proof. repeat split. Qed.
